(** * Weaving a Hamiltonian cycle of a Manhattan ball

    A shallow embedding of the weave pipeline
    ([src/weaver/info.py], [src/weaver/ops.py], [src/weaver/utils.py],
    [src/weave.py], and the decorator of [weave] in [src/utils.py])
    together with the properties its specification states.

    Python integers are unbounded and are modelled by [Z]; tuples of
    integers by products; lists and deques by [list]; Python sets by
    duplicate-free lists, with [set.pop] left to a selection strategy.
    Exceptions are modelled by an explicit result type. *)

From Stdlib Require Import ZArith List Bool Lia Permutation Arith.
From AAC_tactics Require Import AAC.
From AAC_tactics Require Instances.
Import Instances.Lists.
Import ListNotations.
Open Scope Z_scope.

(** ** Python primitives *)

Inductive exn : Type := IndexError | KeyError | ValueError | ZeroDivisionError.

Inductive result (A : Type) : Type :=
| Ok (a : A)
| Raise (e : exn).
Arguments Ok {A} a.
Arguments Raise {A} e.

Definition bind {A B} (m : result A) (k : A -> result B) : result B :=
  match m with
  | Ok a => k a
  | Raise e => Raise e
  end.

Notation "x <- m ;; k" := (bind m (fun x => k))
  (at level 61, m at next level, right associativity).
Notation "' pat <- m ;; k" := (bind m (fun x => match x with pat => k end))
  (at level 61, pat pattern, m at next level, right associativity).

(** [l[0]] and [l[-1]]: [IndexError] on the empty sequence. *)
Definition first {A} (l : list A) : result A :=
  match l with
  | [] => Raise IndexError
  | a :: _ => Ok a
  end.

Fixpoint final {A} (l : list A) : result A :=
  match l with
  | [] => Raise IndexError
  | [a] => Ok a
  | _ :: l' => final l'
  end.

(** [enumerate(l)] *)
Definition enumerate {A} (l : list A) : list (nat * A) :=
  combine (seq 0 (length l)) l.

(** [for state-threading loops that may raise] *)
Fixpoint foldM {S A} (f : S -> A -> result S) (s : S) (l : list A) : result S :=
  match l with
  | [] => Ok s
  | a :: l' => s' <- f s a ;; foldM f s' l'
  end.

(** ** Data model ([src/weaver/types.py]) *)

Definition XY : Type := (Z * Z)%type.
Definition Point : Type := (Z * Z * Z)%type.
Definition Edge : Type := (Point * Point)%type.
Definition Tour : Type := list Point.
Definition Subtours : Type := list Tour.
Definition Loom : Type := list (list Point).
Definition Pins : Type := list Point.
Definition Edges : Type := list Edge.
Definition Spool : Type := list (Z * list XY).

Definition px (p : Point) : Z := fst (fst p).
Definition py (p : Point) : Z := snd (fst p).
Definition pz (p : Point) : Z := snd p.

Definition point_eqb (p q : Point) : bool :=
  (px p =? px q) && (py p =? py q) && (pz p =? pz q).

(** Tuple comparison [p < q]: lexicographic. *)
Definition point_ltb (p q : Point) : bool :=
  (px p <? px q)
  || ((px p =? px q)
      && ((py p <? py q) || ((py p =? py q) && (pz p <? pz q)))).

Definition edge_eqb (e f : Edge) : bool :=
  point_eqb (fst e) (fst f) && point_eqb (snd e) (snd f).

(** Membership [p in s]. *)
Definition mem (p : Point) (s : list Point) : bool := existsb (point_eqb p) s.
Definition emem (e : Edge) (s : Edges) : bool := existsb (edge_eqb e) s.

(** A set built by a comprehension: first occurrences, in order. *)
Fixpoint to_set (l : list Edge) : Edges :=
  match l with
  | [] => []
  | e :: l' => e :: filter (fun f => negb (edge_eqb e f)) (to_set l')
  end.

(** [s & t] *)
Definition inter (s t : Edges) : Edges := filter (fun e => emem e t) s.

(** ** Graph information ([src/weaver/info.py]) *)

Definition get_n_from_radius (radius : Z) : Z := (radius + 1) / 2.

Definition get_order_from_n (n_level : Z) : Z :=
  (4 * (n_level + 2) * (n_level + 1) * n_level) / 3.

Definition get_radius_from_n (n_level : Z) : Z := n_level * 2 - 1.

Definition get_order_from_radius (radius : Z) : Z :=
  get_order_from_n (get_n_from_radius radius).

(** [range(start, stop, 2)] *)
Definition range2 (start stop : Z) : list Z :=
  map (fun k => start + 2 * Z.of_nat k) (seq 0 (Z.to_nat ((stop - start + 1) / 2))).

(** [range(1, n + 1)] *)
Definition range1 (n : Z) : list Z :=
  map (fun k => Z.of_nat k + 1) (seq 0 (Z.to_nat n)).

(** [zip] of three iterables: stops with the shortest. *)
Fixpoint zip3 {A B C} (a : list A) (b : list B) (c : list C) : list (A * B * C) :=
  match a, b, c with
  | x :: a', y :: b', z :: c' => (x, y, z) :: zip3 a' b' c'
  | _, _, _ => []
  end.

Definition get_z_color_size (n_level : Z) : list (Z * Z * Z) :=
  zip3
    (range2 (- (n_level * 2 - 1)) 0)
    (flat_map (fun nest : Z * Z => [fst nest; snd nest])
       (repeat (if n_level mod 2 =? 0 then (1, 3) else (3, 1)) (Z.to_nat n_level)))
    (map (fun f => 2 * f * (f + 1)) (range1 n_level)).

(** ** Spinning the yarn ([spin_yarn], [src/weaver/ops.py]) *)

Definition ZigZags : Type := list (XY * XY).

Definition zigzags : ZigZags :=
  [ ((0, 2), (2, 0));
    ((0, 2), (-2, 0));
    ((0, -2), (-2, 0));
    ((0, -2), (2, 0)) ].

(** [dpv[idx % 4][(idx + isize) % 2]] *)
Definition zigzag_at (dpv : ZigZags) (idx isize : nat) : XY :=
  let pair := nth (idx mod 4)%nat dpv ((0, 0), (0, 0)) in
  if ((idx + isize) mod 2 =? 0)%nat then fst pair else snd pair.

(** The flattened [[x] * (2 if x != radius else 3) for x in range(1, radius + 1, 2)]. *)
Definition ring_sizes (radius : Z) : list Z :=
  flat_map (fun x => repeat x (if x =? radius then 3%nat else 2%nat))
    (range2 1 (radius + 1)).

Definition zigzag_steps (dpv : ZigZags) (sizes : list Z) : list XY :=
  flat_map
    (fun '(idx, size) => map (zigzag_at dpv idx) (seq 0 (Z.to_nat size)))
    (enumerate sizes).

(** The accumulation loop: each step is added to the last point spun. *)
Fixpoint spin (p : XY) (steps : list XY) : list XY :=
  match steps with
  | [] => [p]
  | d :: ds => p :: spin (fst p + fst d, snd p + snd d) ds
  end.

(** [np.add(np.dot(spun, [[-1, 0], [0, -1]]), [0, 2])], row by row. *)
Definition reflect (p : XY) : XY :=
  (fst p * -1 + snd p * 0 + 0, fst p * 0 + snd p * -1 + 2).

Definition spun_of (radius : Z) : list XY :=
  let '(start, dpv) :=
    if ((radius + 1) / 2) mod 2 =? 0
    then ((1, 1), zigzags)
    else ((-1, 1), skipn 2 zigzags ++ firstn 2 zigzags) in
  spin start (zigzag_steps dpv (ring_sizes radius)).

Definition spin_yarn (radius : Z) : Spool :=
  let spun := spun_of radius in
  [ (3, spun); (1, map reflect spun) ].

(** [yarns[color]] *)
Fixpoint lookup (yarns : Spool) (color : Z) : result (list XY) :=
  match yarns with
  | [] => Raise KeyError
  | (c, y) :: rest => if c =? color then Ok y else lookup rest color
  end.

(** ** Weaving one layer ([src/weaver/ops.py]) *)

(** The first two coordinates of [p] with [z_value] as the third. *)
Definition at_level (p : Point) (z_value : Z) : Point := (px p, py p, z_value).

(** [pins | {p}]: the set of pins with [p] added. *)
Definition add_pin (pins : Pins) (p : Point) : Pins :=
  if mem p pins then pins else pins ++ [p].

(** [pin_thread_ends]: every thread gets one new point on each end at the
    given elevation; the function returns the extended loom and the set of
    pins. *)
Definition pin_thread (z_value : Z) (st : Loom * Pins) (thread : list Point)
  : result (Loom * Pins) :=
  let '(done, pins) := st in
  h <- first thread ;;
  let left := at_level h z_value in
  let thread := left :: thread in
  t <- final thread ;;
  let right := at_level t z_value in
  let thread := thread ++ [right] in
  Ok (done ++ [thread], add_pin (add_pin pins left) right).

Definition pin_thread_ends (loom : Loom) (z_value : Z) : result (Loom * Pins) :=
  foldM (pin_thread z_value) ([], []) loom.

(** The indices [[x for x, t in enumerate(tour) if t in pins]]. *)
Definition pinned_indices (tour : Tour) (pins : Pins) : list nat :=
  map fst (filter (fun xt => mem (snd xt) pins) (enumerate tour)).

(** One iteration of the loop of [chop]; the state is the caller's tour,
    which the loop truncates in place, and the subtours collected so far. *)
Definition chop_step (pins : Pins) (st : Tour * Subtours) (ij : nat * nat)
  : result (Tour * Subtours) :=
  let '(tour, subtours) := st in
  let '(i, j) := ij in
  leading <- (if (i =? 0)%nat
              then t0 <- first tour ;; Ok (negb (mem t0 pins))
              else Ok false) ;;
  if leading then
    let subtours := subtours ++ [rev (firstn (j + 1) tour)] in
    match skipn (j + 1) tour with
    | [] => Ok (tour, subtours)
    | subtour1 => Ok (tour, subtours ++ [subtour1])
    end
  else
    Ok (firstn j tour, subtours ++ [skipn j tour]).

(** [chop tour pins] returns the caller's tour as the call leaves it,
    and the subtours. *)
Definition chop (tour : Tour) (pins : Pins) : result (Tour * Subtours) :=
  match pins with
  | [] => Ok (tour, [rev tour])
  | _ => foldM (chop_step pins) (tour, [])
           (rev (enumerate (pinned_indices tour pins)))
  end.

(** The inner loop of [extend_threads] for one thread: the state is the
    thread and the set of indices of the subtours already incorporated. *)
Definition extend_step (st : list Point * list nat) (it : nat * Tour)
  : result (list Point * list nat) :=
  let '(thread, used) := st in
  let '(idx, subtour) := it in
  if existsb (Nat.eqb idx) used then Ok st
  else
    h <- first thread ;;
    s <- first subtour ;;
    if point_eqb h s then Ok (rev (tl subtour) ++ thread, used ++ [idx])
    else
      t <- final thread ;;
      s <- first subtour ;;
      if point_eqb t s then Ok (thread ++ tl subtour, used ++ [idx])
      else Ok st.

Definition extend_thread (subtours : Subtours) (st : Loom * list nat)
  (thread : list Point) : result (Loom * list nat) :=
  let '(done, used) := st in
  '(thread', used') <- foldM extend_step (thread, used) (enumerate subtours) ;;
  Ok (done ++ [thread'], used').

Definition unused (subtours : Subtours) (used : list nat) : Loom :=
  map snd (filter (fun ic => negb (existsb (Nat.eqb (fst ic)) used))
             (enumerate subtours)).

Definition extend_threads (loom : Loom) (subtours : Subtours) : result Loom :=
  '(loom', used) <- foldM (extend_thread subtours) ([], []) loom ;;
  Ok (loom' ++ unused subtours used).

(** [(x, y, -z)] *)
Definition negz (p : Point) : Point := (px p, py p, - pz p).

Definition mirror_chains (loom : Loom) : Loom :=
  map (fun thread => thread ++ map negz (rev thread)) loom.

(** ** Merging the cycles ([src/weaver/utils.py]) *)

Record Weaver : Type := mkWeaver {
  data : Tour;
  order : Z;
  joined : bool;
  z_abs_max : Z;
  zc_abs_sum : Z
}.

Definition Weaver_init (data : Tour) (radius order : Z) : Weaver :=
  mkWeaver data order false (radius - 4) ((radius - 4) * 2).

(** [zip(data, data[1:])] *)
Definition windows (data : Tour) : list Edge := combine data (tl data).

(** [(u, v) if u < v else (v, u)] *)
Definition oriented (uv : Edge) : Edge :=
  if point_ltb (fst uv) (snd uv) then uv else (snd uv, fst uv).

Definition Weaver_edges (w : Weaver) : Edges :=
  to_set (map oriented
    (filter (fun uv =>
       let '(u, v) := uv in
       ((px u =? 1) && (px v =? 3) && negb (joined w))
       || (((px u =? 1) && (px v =? 1) && joined w)
           && ((pz u + pz v =? - zc_abs_sum w) || (pz u + pz v =? zc_abs_sum w))))
       (windows (data w)))).

Definition get_eadj (edge : Edge) : Edges :=
  let '((a, b, c), (x, y, z)) := edge in
  [ if negb (a =? x) then ((a, b + 2, c), (x, y + 2, z))
    else ((a + 2, b, c), (x + 2, y, z)) ].

(** [data.index(p)]: [ValueError] when [p] is absent. *)
Fixpoint index (data : Tour) (p : Point) : result nat :=
  match data with
  | [] => Raise ValueError
  | q :: data' => if point_eqb q p then Ok 0%nat
                  else i <- index data' p ;; Ok (S i)
  end.

Definition align_to (data : Tour) (lhs rhs : Point) : result Tour :=
  lix <- index data lhs ;;
  rix <- index data rhs ;;
  if (lix <? rix)%nat
  then Ok (rev (firstn rix data) ++ rev (skipn rix data))
  else Ok (skipn lix data ++ firstn lix data).

Definition join (w : Weaver) (other : Tour) : Weaver :=
  let data := data w ++ other in
  let z_abs_max := if joined w then z_abs_max w - 4 else z_abs_max w - 2 in
  mkWeaver data (order w) true z_abs_max (z_abs_max * 2 - 2).

Definition get_edges (data : Tour) (joined : bool) : Edges :=
  to_set (map oriented
    (filter (fun mn =>
       let '(m, n) := mn in
       if joined
       then (py n =? 1) && (px m =? 3) && (py m =? 1)
       else (py n =? 3) && (px m =? 1) && (py m =? 3))
       (windows data))).

Definition get_eadjs (edges : Edges) : Edges :=
  to_set (map (fun e =>
      let '((a, b, c), (x, y, z)) := e in
      if negb (a =? x) then ((a, b - 2, c), (x, y - 2, z))
      else if negb (b =? y) then ((a, b, c + 2), (x, y, z + 2))
      else ((a - 2, b, c), (x - 2, y, z)))
    (filter (fun e =>
       let '((a, b, c), (x, y, z)) := e in
       ((x =? 1) || (x =? 3)) && ((y =? 1) || (y =? 3))) edges)).

(** ** The decorator of [weave] ([profile], [src/utils.py]) *)

(** [profile()] wraps a function of [n] that returns a list.  The wrapper
    calls the function and, in its [finally] clause, prints the statistics
    of the profiler, among them [total / order]: [order] is the length of
    the list returned when it is not empty, [get_order_from_n(n)]
    otherwise, also when the call raised.  The division raises
    [ZeroDivisionError] when [order] is 0, and this exception replaces the
    one of the call.  The statistics and the printing are not modelled;
    the number of calls recorded is positive, the call of the function
    being one of them. *)
Definition profile {A} (func : Z -> result (list A)) (n : Z) : result (list A) :=
  let order := get_order_from_n n in
  match func n with
  | Ok return_value =>
      let order := match return_value with
                   | [] => order
                   | _ :: _ => Z.of_nat (length return_value)
                   end in
      if order =? 0 then Raise ZeroDivisionError else Ok return_value
  | Raise e => if order =? 0 then Raise ZeroDivisionError else Raise e
  end.

(** ** [merge_cycles] ([src/weaver/ops.py]) *)

(** [weaver.edges & LoomThread.get_eadjs(thread_edges)]: the set from which
    the bridge edge of the weaver is popped. *)
Definition weft_candidates (weaver : Weaver) (thread : list Point) : Edges :=
  inter (Weaver_edges weaver) (get_eadjs (get_edges thread (joined weaver))).

(** [thread_edges & Weaver.get_eadj(weft_bridge)]: the set from which the
    matching edge of the thread is popped. *)
Definition warp_candidates (weaver : Weaver) (thread : list Point)
  (weft_bridge : Edge) : Edges :=
  inter (get_edges thread (joined weaver)) (get_eadj weft_bridge).

Section Merge.

(** [set.pop] returns an arbitrary element; which one is decided by a
    selection strategy, a parameter of the model. *)
Variable choose : Edges -> nat.

Definition pop (s : Edges) : result Edge :=
  match s with
  | [] => Raise KeyError
  | e :: _ => Ok (nth (choose s mod length s)%nat s e)
  end.

(** One iteration of the loop over the threads left in the loom.  The
    state is the weaver and the threads visited so far, as [align_to]
    leaves them in the loom. *)
Definition merge_step (st : Weaver * Loom) (thread : list Point)
  : result (Weaver * Loom) :=
  let '(weaver, visited) := st in
  weft_bridge <- pop (weft_candidates weaver thread) ;;
  wdata <- align_to (data weaver) (fst weft_bridge) (snd weft_bridge) ;;
  let weaver := mkWeaver wdata (order weaver) (joined weaver)
                  (z_abs_max weaver) (zc_abs_sum weaver) in
  warp_bridge <- pop (warp_candidates weaver thread weft_bridge) ;;
  thread <- align_to thread (snd warp_bridge) (fst warp_bridge) ;;
  Ok (join weaver thread, visited ++ [thread]).

(** Returns the solution and the loom as the call leaves it. *)
Definition merge_cycles (loom : Loom) (radius order : Z) : result (Tour * Loom) :=
  match loom with
  | [] => Raise IndexError
  | seed :: rest =>
      '(weaver, loom') <- foldM merge_step (Weaver_init seed radius order, []) rest ;;
      Ok (data weaver, loom')
  end.

(** ** [weave] ([src/weave.py]) *)

(** [( *xy, z)]: a point of the yarn with its elevation. *)
Definition lift (z : Z) (xy : XY) : Point := (fst xy, snd xy, z).

Definition weave_layer (yarns : Spool) (loom : Loom) (zcs : Z * Z * Z)
  : result Loom :=
  let '(z, color, size) := zcs in
  yarn <- lookup yarns color ;;
  let tour := map (lift z) (firstn (Z.to_nat size) yarn) in
  '(loom, pins) <- pin_thread_ends loom z ;;
  '(_, subtours) <- chop tour pins ;;
  extend_threads loom subtours.

Definition weave_loom (n : Z) : result Loom :=
  let yarns := spin_yarn (get_radius_from_n n) in
  foldM (weave_layer yarns) [] (get_z_color_size n).

(** The function that the decorator wraps ([weave.__wrapped__]). *)
Definition weave_body (n : Z) : result Tour :=
  let '(order, radius) := (get_order_from_n n, get_radius_from_n n) in
  loom <- weave_loom n ;;
  let loom := mirror_chains loom in
  '(solution, _) <- merge_cycles loom radius order ;;
  Ok solution.

(** [weave], as the module defines it: [@profile()] applied to the body. *)
Definition weave (n : Z) : result Tour := profile weave_body n.

End Merge.

(** ** Certifying a solution ([check_solution], [src/utils.py]) *)

(** What a call that may fail an assertion yields: it returns, an [assert]
    fails ([AssertionError]), or another exception is raised. *)
Inductive outcome (A : Type) : Type :=
| Returns (a : A)
| Asserts
| Raises (e : exn).
Arguments Returns {A} a.
Arguments Asserts {A}.
Arguments Raises {A} e.

(** [unpack(solution)]: the scalars of the nested sequence, in order. *)
Definition unpack (solution : Tour) : list Z :=
  flat_map (fun p => [px p; py p; pz p]) solution.

(** [max(iterable)]: [ValueError] on an empty iterable. *)
Definition maximum (l : list Z) : result Z :=
  match l with
  | [] => Raise ValueError
  | x :: l' => Ok (fold_left Z.max l' x)
  end.

(** [set(solution)]: first occurrences. *)
Fixpoint distinct (l : list Point) : list Point :=
  match l with
  | [] => []
  | p :: l' => p :: filter (fun q => negb (point_eqb p q)) (distinct l')
  end.

(** Equality of two lists of integers. *)
Fixpoint zlist_eqb (a b : list Z) : bool :=
  match a, b with
  | [], [] => true
  | x :: a', y :: b' => (x =? y) && zlist_eqb a' b'
  | _, _ => false
  end.

(** [[abs(d) for d in disp if d] == [2]] *)
Definition one_step (disp : Point) : bool :=
  zlist_eqb
    (map Z.abs (filter (fun d => negb (d =? 0)) [px disp; py disp; pz disp]))
    [2].

(** The loop over the solution: the state is the previous point and the
    displacements accumulated; [None] when the assertion on a step fails. *)
Fixpoint check_steps (previous total_disps : Point) (solution : Tour) : option Point :=
  match solution with
  | [] => Some total_disps
  | cur :: rest =>
      let disp := (px previous - px cur, py previous - py cur, pz previous - pz cur) in
      let total_disps :=
        (px total_disps + px disp, py total_disps + py disp, pz total_disps + pz disp) in
      if one_step disp then check_steps cur total_disps rest else None
  end.

Definition check_solution (solution : Tour) : outcome unit :=
  match maximum (unpack solution) with
  | Raise e => Raises e
  | Ok radius =>
      let order := get_order_from_radius radius in
      if negb (Z.of_nat (length solution) =? order) then Asserts
      else if negb (Z.of_nat (length (distinct solution)) =? order) then Asserts
      else
        match final solution with
        | Raise e => Raises e
        | Ok previous =>
            match check_steps previous (0, 0, 0) solution with
            | None => Asserts
            | Some total_disps =>
                if point_eqb total_disps (0, 0, 0) then Returns tt else Asserts
            end
        end
  end.

(** ** Vocabulary of the specification *)

(** Two lattice points are adjacent when they differ by exactly 2 in
    exactly one coordinate. *)
Definition adjacent (p q : Point) : Prop :=
  (Z.abs (px p - px q) = 2 /\ py p = py q /\ pz p = pz q) \/
  (px p = px q /\ Z.abs (py p - py q) = 2 /\ pz p = pz q) \/
  (px p = px q /\ py p = py q /\ Z.abs (pz p - pz q) = 2).

(** An open path: every two consecutive points are adjacent. *)
Fixpoint path (l : list Point) : Prop :=
  match l with
  | [] => True
  | p :: l' => match l' with
               | [] => True
               | q :: _ => adjacent p q /\ path l'
               end
  end.

(** A closed cycle: an open path whose last point is adjacent to its first. *)
Definition closed_cycle (l : list Point) : Prop :=
  path l /\ exists p q, first l = Ok p /\ final l = Ok q /\ adjacent q p.

(** [l'] is [l] rotated: cut somewhere and the two parts swapped. *)
Definition rotation {A} (l l' : list A) : Prop :=
  exists a b, l = a ++ b /\ l' = b ++ a.

(** The two yarns of a spool, as point sets, have no point in common. *)
Definition disjoint_yarns (yarns : Spool) : Prop :=
  forall blue red, lookup yarns 3 = Ok blue -> lookup yarns 1 = Ok red ->
    forall p, In p blue -> ~ In p red.

(** No point of [l] is a pin. *)
Definition unpinned (pins : Pins) (l : Tour) : Prop :=
  Forall (fun p => mem p pins = false) l.

(** A pinned point followed by points that are not pins. *)
Definition pinned_segment (pins : Pins) (seg : Tour) : Prop :=
  exists p body, seg = p :: body /\ mem p pins = true /\ unpinned pins body.

(** The positions at which the segments start in [pre ++ concat segs],
    [s] being the length of [pre]. *)
Fixpoint starts (s : nat) (segs : list Tour) : list nat :=
  match segs with
  | [] => []
  | seg :: more => s :: starts (s + length seg) more
  end.

(** The subtours of a tour read as an unpinned prefix followed by pinned
    segments: the segments from the last to the second, then the first
    segment; when the tour does not start with a pin, the first pin with
    the prefix before it, reversed, and the rest of the first segment as a
    subtour of its own unless it is empty. *)
Definition chop_fragments (pre : Tour) (segs : list Tour) : Subtours :=
  match segs with
  | [] => []
  | seg :: more =>
      rev more ++
      match pre with
      | [] => [seg]
      | _ :: _ => rev (pre ++ firstn 1 seg)
                  :: match tl seg with
                     | [] => []
                     | body => [body]
                     end
      end
  end.

(** What is left of the caller's tour. *)
Definition chop_leaves (pre : Tour) (segs : list Tour) : Tour :=
  match segs with
  | [] => pre
  | seg :: _ => match pre with
                | [] => []
                | _ :: _ => pre ++ seg
                end
  end.

(** The number of points of the tour that belong to the pins. *)
Definition pinned_count (tour : Tour) (pins : Pins) : nat :=
  length (filter (fun p => mem p pins) tour).

(** The first point of the tour is a pin. *)
Definition first_pinned (tour : Tour) (pins : Pins) : Prop :=
  exists p, first tour = Ok p /\ mem p pins = true.

(** A thread that was extended at its ends only. *)
Definition grows (thread thread' : list Point) : Prop :=
  exists front back, thread' = front ++ thread ++ back.

(** The points that the subtours of the given indices bring to the threads
    that take them: all their points but the first. *)
Definition rests (subtours : Subtours) (used : list nat) : list Point :=
  flat_map (fun idx => tl (nth idx subtours [])) used.

(** The extension pass in the words of the specification.  The fragments
    on offer are kept in fragment order; a consumed fragment leaves its
    place empty and is never offered again. *)
Definition Pool : Type := list (option Tour).

(** One Thread is offered, in fragment order, every fragment not yet
    consumed: a fragment whose first Point is the current head of the
    Thread is prepended (the rest of the fragment, reversed), otherwise one
    whose first Point is the current tail is appended. *)
Fixpoint offer (thread : list Point) (pool : Pool) : result (list Point * Pool) :=
  match pool with
  | [] => Ok (thread, [])
  | None :: pool' =>
      '(thread', pool'') <- offer thread pool' ;; Ok (thread', None :: pool'')
  | Some fragment :: pool' =>
      h <- first thread ;;
      s <- first fragment ;;
      if point_eqb h s then
        '(thread', pool'') <- offer (rev (tl fragment) ++ thread) pool' ;;
        Ok (thread', None :: pool'')
      else
        t <- final thread ;;
        if point_eqb t s then
          '(thread', pool'') <- offer (thread ++ tl fragment) pool' ;;
          Ok (thread', None :: pool'')
        else
          '(thread', pool'') <- offer thread pool' ;;
          Ok (thread', Some fragment :: pool'')
  end.

(** The Threads are visited in Loom order. *)
Fixpoint pass (loom : Loom) (pool : Pool) : result (Loom * Pool) :=
  match loom with
  | [] => Ok ([], pool)
  | thread :: loom' =>
      '(thread', pool') <- offer thread pool ;;
      '(loom'', pool'') <- pass loom' pool' ;;
      Ok (thread' :: loom'', pool'')
  end.

(** The fragments consumed by no Thread, in fragment order. *)
Definition left_over (pool : Pool) : Loom :=
  flat_map (fun o : option Tour => match o with Some f => [f] | None => [] end) pool.

(** The pass, and the fragments left over seeding new Threads. *)
Definition extend_threads_spec (loom : Loom) (subtours : Subtours) : result Loom :=
  '(loom', pool) <- pass loom (map Some subtours) ;;
  Ok (loom' ++ left_over pool).

(** The place of a fragment in the pool, given the indices marked as used. *)
Definition mark (used : list nat) (it : nat * Tour) : option Tour :=
  if existsb (Nat.eqb (fst it)) used then None else Some (snd it).

(** All points of [l] are at elevation [z]. *)
Definition flat (z : Z) (l : list Point) : Prop := Forall (fun p => pz p = z) l.

(** Both ends of the (non-empty) thread are at elevation [z]. *)
Definition ends_at (z : Z) (thread : list Point) : Prop :=
  exists h t, first thread = Ok h /\ final thread = Ok t /\ pz h = z /\ pz t = z.

(** A thread under construction once the layer at elevation [z] is woven:
    an open path with both ends at that elevation. *)
Definition woven (z : Z) (thread : list Point) : Prop :=
  path thread /\ ends_at z thread.

(** A fragment of the layer at elevation [z]: a non-empty open path in the
    plane of that elevation. *)
Definition piece (z : Z) (f : list Point) : Prop :=
  f <> [] /\ path f /\ flat z f.

(** A displacement of the zig-zag: one step of 2 along x or along y. *)
Definition unit_step (d : XY) : Prop :=
  d = (0, 2) \/ d = (0, -2) \/ d = (2, 0) \/ d = (-2, 0).

(** A thread between its two pins: the pin put on the head, the thread as
    it was, the pin put on the tail. *)
Definition pinned_thread (x : Point * list Point * Point) : list Point :=
  fst (fst x) :: snd (fst x) ++ [snd x].

Definition pins_of (x : Point * list Point * Point) : list Point :=
  [fst (fst x); snd x].

(** The set of pins with the points of a list added, one after the other. *)
Definition add_pins (pins : Pins) (l : list Point) : Pins := fold_left add_pin l pins.

(** The first points of the subtours of the given indices. *)
Definition firsts (subtours : Subtours) (used : list nat) : list Point :=
  flat_map (fun idx => firstn 1 (nth idx subtours [])) used.

(** The loom after the first [k] layers of the weave of [n] layers. *)
Definition weave_layers (n : Z) (k : nat) : result Loom :=
  foldM (weave_layer (spin_yarn (get_radius_from_n n))) []
    (firstn k (get_z_color_size n)).

(** The slice of one layer, [[( *xy, z) for xy in yarns[color][:size]]], and
    the points of the first [k] slices: the vertex set covered so far. *)
Definition slice (yarns : Spool) (zcs : Z * Z * Z) : list Point :=
  let '(z, color, size) := zcs in
  match lookup yarns color with
  | Ok yarn => map (lift z) (firstn (Z.to_nat size) yarn)
  | Raise _ => []
  end.

Definition slices (n : Z) (k : nat) : list Point :=
  flat_map (slice (spin_yarn (get_radius_from_n n))) (firstn k (get_z_color_size n)).

(** A Hamiltonian cycle of the ball of [n] layers, as [check_solution]
    certifies it: [order] points, all distinct, every step of the closed
    tour of length 2 along one axis. *)
Definition hamiltonian (n : Z) (solution : Tour) : Prop :=
  Z.of_nat (length solution) = get_order_from_n n /\
  NoDup solution /\ closed_cycle solution.

(** Decidable versions, to evaluate the pipeline on given inputs. *)
Fixpoint nodupb (l : list Point) : bool :=
  match l with
  | [] => true
  | p :: l' => negb (mem p l') && nodupb l'
  end.

Definition same_points (l l' : list Point) : bool :=
  (length l' <=? length l)%nat && forallb (fun p => mem p l') l.

Definition adjacentb (p q : Point) : bool :=
  ((Z.abs (px p - px q) =? 2) && (py p =? py q) && (pz p =? pz q))
  || ((px p =? px q) && (Z.abs (py p - py q) =? 2) && (pz p =? pz q))
  || ((px p =? px q) && (py p =? py q) && (Z.abs (pz p - pz q) =? 2)).

Fixpoint pathb (l : list Point) : bool :=
  match l with
  | [] => true
  | p :: l' => match l' with
               | [] => true
               | q :: _ => adjacentb p q && pathb l'
               end
  end.

Definition closed_cycleb (l : list Point) : bool :=
  pathb l && match first l, final l with
             | Ok p, Ok q => adjacentb q p
             | _, _ => false
             end.

Definition layers_ok (n : Z) (k : nat) : bool :=
  match weave_layers n k with
  | Ok loom => nodupb (concat loom) && same_points (concat loom) (slices n k)
  | Raise _ => false
  end.

Definition weave_ok (choose : Edges -> nat) (n : Z) : bool :=
  match weave choose n with
  | Ok solution =>
      (Z.of_nat (length solution) =? get_order_from_n n)
      && nodupb solution && closed_cycleb solution
  | Raise _ => false
  end.

(** ** Vocabulary of the further properties *)

(** The first [m] odd numbers, and each of them twice: the sizes of the
    segments of the spiral but the last. *)
Definition odds (m : nat) : list Z := map (fun k => 1 + 2 * Z.of_nat k) (seq 0 m).

Definition rings (m : nat) : list Z := flat_map (fun x => [x; x]) (odds m).

(** The displacement vectors of the spiral that starts at [(-1, 1)]. *)
Definition rotated : ZigZags := skipn 2 zigzags ++ firstn 2 zigzags.

(** Where a walk from [p] along the steps ends. *)
Definition shift (p d : XY) : XY := (fst p + fst d, snd p + snd d).

Definition walk (p : XY) (steps : list XY) : XY := fold_left shift steps p.

(** The steps of the segments of the given sizes, the first segment being
    numbered [k]. *)
Definition steps_from (dpv : ZigZags) (k : nat) (sizes : list Z) : list XY :=
  flat_map (fun '(idx, size) => map (zigzag_at dpv idx) (seq 0 (Z.to_nat size)))
    (combine (seq k (length sizes)) sizes).

(** A thread with a pin at elevation [z] on each of its ends. *)
Definition pinned_as (z : Z) (thread thread' : list Point) : Prop :=
  exists h t,
    first thread = Ok h /\ final thread = Ok t /\
    thread' = at_level h z :: thread ++ [at_level t z].

(** The points the weave may visit: odd lattice points on one of the
    elevations of the layers. *)
Definition on_layers (n : Z) (p : Point) : Prop :=
  (exists k, 0 <= k < n /\ pz p = 2 * k + 1 - 2 * n) /\
  px p mod 2 = 1 /\ py p mod 2 = 1.

(** The start and the displacement vectors of the spiral of [n] layers, and
    the opposite of a displacement. *)
Definition start_of (n : Z) : XY := if n mod 2 =? 0 then (1, 1) else (-1, 1).

Definition dpv_of (n : Z) : ZigZags := if n mod 2 =? 0 then zigzags else rotated.

Definition opp (d : XY) : XY := (- fst d, - snd d).

(** The point [c] below [p]. *)
Definition lower (c : Z) (p : Point) : Point := (px p, py p, pz p - c).

(** The result of a call, its value transformed. *)
Definition rmap {A B} (f : A -> B) (r : result A) : result B :=
  match r with
  | Ok a => Ok (f a)
  | Raise e => Raise e
  end.

(** The body of the loop of [weave], from the tour of the layer: what
    [weave_layer] does once the yarn is found. *)
Definition weave_tour (loom : Loom) (z : Z) (tour : Tour) : result Loom :=
  '(loom, pins) <- pin_thread_ends loom z ;;
  '(_, subtours) <- chop tour pins ;;
  extend_threads loom subtours.

(** The states of the loops of [pin_thread_ends], [chop] and
    [extend_threads], lowered by [c]. *)
Definition lower_pinned (c : Z) (st : Loom * Pins) : Loom * Pins :=
  (map (map (lower c)) (fst st), map (lower c) (snd st)).

Definition lower_chopped (c : Z) (st : Tour * Subtours) : Tour * Subtours :=
  (map (lower c) (fst st), map (map (lower c)) (snd st)).

Definition lower_extended (c : Z) (st : list Point * list nat) : list Point * list nat :=
  (map (lower c) (fst st), snd st).

Definition lower_item (c : Z) (it : nat * Tour) : nat * Tour :=
  (fst it, map (lower c) (snd it)).

Definition lower_loom (c : Z) (st : Loom * list nat) : Loom * list nat :=
  (map (map (lower c)) (fst st), snd st).

(** ** Vocabulary of the layer invariant *)

(** The point reached from [c] after [i] steps that alternate between the
    displacements [d0] (first) and [d1]. *)
Definition stair (c d0 d1 : XY) (i : nat) : XY :=
  (fst c + Z.of_nat (i - i / 2) * fst d0 + Z.of_nat (i / 2) * fst d1,
   snd c + Z.of_nat (i - i / 2) * snd d0 + Z.of_nat (i / 2) * snd d1).

(** The points that the spiral of [n + 1] layers adds to the reflected
    spiral of [n] layers: the end of a staircase towards the south-west, a
    staircase towards the south-east and one towards the north-east. *)
Definition ring (n : nat) : list XY :=
  (- (2 * Z.of_nat n + 1), 1)
  :: map (stair (- (2 * Z.of_nat n + 1), -1) (2, 0) (0, -2)) (seq 0 (2 * n + 2))
  ++ map (stair (1, - (2 * Z.of_nat n + 1)) (0, 2) (2, 0)) (seq 1 (2 * n + 1)).

(** The points of the ball on one layer, seen from above: the odd
    lattice points of a diamond. *)
Definition diamond (m : Z) (p : XY) : Prop :=
  fst p mod 2 = 1 /\ snd p mod 2 = 1 /\ Z.abs (fst p) + Z.abs (snd p) <= 2 * m.

(** [q] is immediately followed by [p] in [l]. *)
Definition next_to {A} (l : list A) (q p : A) : Prop :=
  exists a b, l = a ++ q :: p :: b.

Definition spiral (n : nat) : list XY := spun_of (2 * Z.of_nat n - 1).

(** The sign that alternates with the reflections. *)
Definition sg (d : nat) : Z := if Nat.even d then 1 else -1.

(** The first thirteen points. *)
Definition core (n : nat) : list XY :=
  if Nat.even n
  then [(1, 1); (1, 3); (-1, 3); (-1, 1); (-3, 1); (-3, -1); (-1, -1); (-1, -3);
        (1, -3); (1, -1); (3, -1); (3, 1); (5, 1)]
  else [(-1, 1); (-1, -1); (1, -1); (1, 1); (3, 1); (3, 3); (1, 3); (1, 5);
        (-1, 5); (-1, 3); (-3, 3); (-3, 1); (-5, 1)].

(** The two ends of a thread, and the ends of the threads of a loom. *)
Definition thread_ends (thread : list Point) : list Point :=
  match thread with
  | [] => []
  | h :: _ => [h; last thread h]
  end.

Definition loom_ends (loom : Loom) : list Point := flat_map thread_ends loom.

(** The ends that a fragment gives to the loom: its last point when a
    thread takes it at its pin, both its ends when it seeds a thread. *)
Definition fragment_ends (pins : Pins) (f : Tour) : list Point :=
  match f with
  | [] => []
  | p :: _ => if mem p pins then [last f p] else [p; last f p]
  end.

(** The last point of the fragment that starts with [p]. *)
Fixpoint end_of (subs : Subtours) (p : Point) : Point :=
  match subs with
  | [] => p
  | f :: subs' =>
      match f with
      | q :: _ => if point_eqb q p then last f p else end_of subs' p
      | [] => end_of subs' p
      end
  end.

(** The points of the tour just before a pin. *)
Definition before_pins (pins : Pins) (tour : Tour) : list Point :=
  map fst (filter (fun qp : Edge => mem (snd qp) pins) (windows tour)).

(** The thread ends of the loom of [m >= 3] layers, in the plane. *)
Definition is_end (m : Z) (p : XY) : Prop :=
  p = ((if m mod 2 =? 0 then 1 else -1), 1) \/
  p = (2 * m - 3, 3) \/ p = (-1, 2 * m - 1) \/
  (snd p = 1 /\ 3 <= fst p <= 2 * m - 1 /\ (fst p - 2 * m - 3) mod 4 = 0) \/
  (fst p = -3 /\ 1 <= snd p <= 2 * m - 7 /\ (snd p - 2 * m - 1) mod 4 = 0).

(** The points of the spiral of [m + 1] layers just before the ends of the
    loom of [m] layers, the first two ends (in the order of the spiral)
    apart. *)
Definition before_end (m : Z) (e : XY) : Prop :=
  e = (2 * m - 1, 3) \/ e = (-1, 2 * m + 1) \/
  (snd e = 1 /\ 5 <= fst e <= 2 * m - 3 /\ (fst e - 2 * m - 5) mod 4 = 0) \/
  (fst e = -3 /\ 3 <= snd e <= 2 * m - 5 /\ (snd e - 2 * m - 3) mod 4 = 0).

(** The lattice points of the ball of [n] layers on the first [k] levels:
    odd coordinates, at Manhattan distance at most [2 n + 1] from the
    origin, at elevation [2 k - 1 - 2 n] at most. *)
Definition covered (n k : Z) (p : Point) : bool :=
  (px p mod 2 =? 1) && (py p mod 2 =? 1) && (pz p mod 2 =? 1)
  && (Z.abs (px p) + Z.abs (py p) + Z.abs (pz p) <=? 2 * n + 1)
  && (pz p <=? 2 * k - 1 - 2 * n).

(** The loom that [m] layers leave: no point twice, the points of the
    slices, and the thread ends of the closed form. *)
Definition loom_invariant (m : nat) (loom : Loom) : Prop :=
  NoDup (concat loom) /\
  Permutation (concat loom) (slices (Z.of_nat m) m) /\
  NoDup (loom_ends loom) /\
  forall p, In p (loom_ends loom)
            <-> exists e, p = lift (-1) e /\ is_end (Z.of_nat m) e.

(** ** Proof tools *)

(** Permutations of concatenations, modulo associativity and
    commutativity of [++]. *)
Ltac uncons :=
  repeat match goal with
         | |- context [?x :: ?l] =>
             lazymatch l with
             | [] => fail
             | _ => change (x :: l) with ([x] ++ l)
             end
         end.

Ltac perm := uncons; aac_reflexivity.

(** The displacement of a segment at a given position, evaluated. *)
Ltac zigzag_values :=
  repeat match goal with
         | |- context [zigzag_at ?d ?c ?i] =>
             let v := eval vm_compute in (zigzag_at d c i) in
             change (zigzag_at d c i) with v
         end.

(** * Properties *)

(** ** The yarns ([spin_yarn]) *)

Lemma ring_sizes_start radius :
  1 <= radius -> radius mod 2 = 1 ->
  exists s rest, ring_sizes radius = 1 :: 1 :: s :: rest /\ 0 < s.
Proof.
  intros Hr Hodd. unfold ring_sizes, range2.
  replace (radius + 1 - 1 + 1) with (radius + 1) by lia.
  assert (Hk : 1 <= (radius + 1) / 2) by (apply Z.div_le_lower_bound; lia).
  destruct (Z.eq_dec radius 1) as [-> | Hne].
  - exists 1, []. split; [reflexivity | lia].
  - assert (Hk2 : 2 <= (radius + 1) / 2).
    { apply Z.div_le_lower_bound; try lia.
      assert (radius <> 2) by (intros ->; discriminate Hodd). lia. }
    destruct (Z.to_nat ((radius + 1) / 2)) as [| [| k]] eqn:E; try lia.
    cbn [seq map flat_map].
    replace (1 + 2 * Z.of_nat 0) with 1 by reflexivity.
    replace (1 + 2 * Z.of_nat 1) with 3 by reflexivity.
    destruct (1 =? radius) eqn:E1; [apply Z.eqb_eq in E1; lia |].
    destruct (3 =? radius); cbn [repeat app];
      eexists 3, _; (split; [reflexivity | lia]).
Qed.

Lemma zigzag_steps_start dpv s rest :
  0 < s ->
  exists more, zigzag_steps dpv (1 :: 1 :: s :: rest)
               = zigzag_at dpv 0 0 :: zigzag_at dpv 1 0 :: zigzag_at dpv 2 0 :: more.
Proof.
  intros Hs. unfold zigzag_steps, enumerate.
  cbn [length seq combine flat_map].
  change (Z.to_nat 1) with 1%nat. cbn [seq map app].
  destruct (Z.to_nat s) as [| k] eqn:E; [lia |].
  cbn [seq map app]. eexists. reflexivity.
Qed.

Lemma spin_start p steps : In p (spin p steps).
Proof. destruct steps; now left. Qed.

Lemma spun_of_centre radius :
  1 <= radius -> radius mod 2 = 1 ->
  In (1, 1) (spun_of radius) /\ In (-1, 1) (spun_of radius).
Proof.
  intros Hr Hodd.
  destruct (ring_sizes_start radius Hr Hodd) as (s & rest & Hsz & Hs).
  unfold spun_of. rewrite Hsz.
  destruct ((radius + 1) / 2 mod 2 =? 0).
  - destruct (zigzag_steps_start zigzags s rest Hs) as (more & ->).
    cbn. split; [now left | do 3 right; apply spin_start].
  - destruct (zigzag_steps_start (skipn 2 zigzags ++ firstn 2 zigzags) s rest Hs)
      as (more & ->).
    cbn. split; [do 3 right; apply spin_start | now left].
Qed.

(** The yarns overlap at radius 1: the claimed disjointness fails. *)
Lemma spin_yarn_not_disjoint : ~ disjoint_yarns (spin_yarn 1).
Proof.
  intros H.
  apply (H (spun_of 1) (map reflect (spun_of 1)) eq_refl eq_refl (1, 1)).
  - cbn. do 3 right. now left.
  - cbn. now left.
Qed.

(** C9 (amended): for every odd radius >= 1 the colour-1 yarn is the
    colour-3 yarn with every point (x, y) sent to (-x, -y + 2), point by
    point and in the same order; the two yarns are not disjoint: both of
    them contain (1, 1) and (-1, 1). *)
Theorem spin_yarn_reflected radius :
  1 <= radius -> radius mod 2 = 1 ->
  exists blue red,
    lookup (spin_yarn radius) 3 = Ok blue /\
    lookup (spin_yarn radius) 1 = Ok red /\
    red = map (fun p : XY => (- fst p, - snd p + 2)) blue /\
    length red = length blue /\
    (In (1, 1) blue /\ In (1, 1) red) /\
    (In (-1, 1) blue /\ In (-1, 1) red).
Proof.
  intros Hr Hodd.
  exists (spun_of radius), (map reflect (spun_of radius)).
  destruct (spun_of_centre radius Hr Hodd) as [H1 H2].
  repeat split; try reflexivity; try assumption.
  - apply map_ext. intros [x y]. unfold reflect. cbn. f_equal; lia.
  - apply length_map.
  - change (1, 1) with (reflect (-1, 1)). now apply in_map.
  - change (-1, 1) with (reflect (1, 1)). now apply in_map.
Qed.

Lemma spin_yarn_reflected_witness :
  exists blue red,
    lookup (spin_yarn 3) 3 = Ok blue /\
    lookup (spin_yarn 3) 1 = Ok red /\
    red = map (fun p : XY => (- fst p, - snd p + 2)) blue /\
    length red = length blue /\
    (In (1, 1) blue /\ In (1, 1) red) /\
    (In (-1, 1) blue /\ In (-1, 1) red).
Proof.
  apply (spin_yarn_reflected 3); [lia | reflexivity].
Defined.

(** ** Equality tests *)

Lemma point_eqb_eq p q : point_eqb p q = true <-> p = q.
Proof.
  destruct p as [[a b] c], q as [[x y] z]. unfold point_eqb, px, py, pz. cbn.
  rewrite !andb_true_iff, !Z.eqb_eq. split.
  - intros [[-> ->] ->]. reflexivity.
  - intros H. inversion H. auto.
Qed.

Lemma point_eqb_refl p : point_eqb p p = true.
Proof. now apply point_eqb_eq. Qed.

Lemma point_eqb_neq p q : point_eqb p q = false <-> p <> q.
Proof.
  split.
  - intros H E. apply point_eqb_eq in E. congruence.
  - intros H. destruct (point_eqb p q) eqn:E; [apply point_eqb_eq in E; contradiction | reflexivity].
Qed.

Lemma edge_eqb_eq e f : edge_eqb e f = true <-> e = f.
Proof.
  destruct e as [a b], f as [c d]. unfold edge_eqb. cbn.
  rewrite andb_true_iff, !point_eqb_eq. split.
  - intros [-> ->]. reflexivity.
  - intros H. inversion H. auto.
Qed.

Lemma mem_In p s : mem p s = true <-> In p s.
Proof.
  unfold mem. rewrite existsb_exists. split.
  - intros (q & Hq & E). apply point_eqb_eq in E. now subst.
  - intros H. exists p. split; [assumption | apply point_eqb_refl].
Qed.

Lemma emem_In e s : emem e s = true <-> In e s.
Proof.
  unfold emem. rewrite existsb_exists. split.
  - intros (q & Hq & E). apply edge_eqb_eq in E. now subst.
  - intros H. exists e. split; [assumption | now apply edge_eqb_eq].
Qed.

(** ** Ends of a sequence *)

Lemma final_app {A} (l : list A) (x : A) : final (l ++ [x]) = Ok x.
Proof.
  induction l as [| a l IH]; [reflexivity |].
  cbn [app final]. destruct (l ++ [x]) eqn:E; [now destruct l | exact IH].
Qed.

Lemma final_cons {A} (a b : A) (l : list A) : final (a :: b :: l) = final (b :: l).
Proof. reflexivity. Qed.

Lemma first_rev {A} (l : list A) : first (rev l) = final l.
Proof.
  induction l as [| a l IH] using rev_ind; [reflexivity |].
  rewrite rev_app_distr, final_app. reflexivity.
Qed.

Lemma final_app_cons {A} (l : list A) (x : A) (m : list A) :
  final (l ++ x :: m) = final (x :: m).
Proof.
  induction l as [| a l IH]; [reflexivity |].
  cbn [app]. destruct (l ++ x :: m) eqn:E; [now destruct l |].
  rewrite final_cons. exact IH.
Qed.

(** ** Aligning a cycle to an edge ([Weaver.align_to]) *)

Lemma index_app_here data p rest :
  ~ In p data -> index (data ++ p :: rest) p = Ok (length data).
Proof.
  induction data as [| q data IH]; intros Hn; cbn [app index length].
  - now rewrite point_eqb_refl.
  - destruct (point_eqb q p) eqn:E.
    + apply point_eqb_eq in E. subst. exfalso. apply Hn. now left.
    + rewrite IH; [reflexivity |]. intros H. apply Hn. now right.
Qed.

Lemma firstn_exact {A} (a b : list A) : firstn (length a) (a ++ b) = a.
Proof.
  rewrite firstn_app, Nat.sub_diag, firstn_all. cbn. apply app_nil_r.
Qed.

Lemma skipn_exact {A} (a b : list A) : skipn (length a) (a ++ b) = b.
Proof.
  rewrite skipn_app, Nat.sub_diag, skipn_all. reflexivity.
Qed.

(** [lhs] immediately before [rhs]: the sequence is reversed. *)
Lemma align_to_forward a b lhs rhs :
  NoDup (a ++ lhs :: rhs :: b) ->
  align_to (a ++ lhs :: rhs :: b) lhs rhs = Ok (lhs :: rev a ++ rev b ++ [rhs]).
Proof.
  intros Hnd. unfold align_to.
  assert (Hl : ~ In lhs a).
  { intros H. apply NoDup_remove_2 in Hnd. apply Hnd, in_or_app. now left. }
  assert (Hr : ~ In rhs (a ++ [lhs])).
  { replace (a ++ lhs :: rhs :: b) with ((a ++ [lhs]) ++ rhs :: b) in Hnd
      by (rewrite <- app_assoc; reflexivity).
    apply NoDup_remove_2 in Hnd. intros H. apply Hnd, in_or_app. now left. }
  rewrite (index_app_here a lhs (rhs :: b) Hl). cbn [bind].
  replace (a ++ lhs :: rhs :: b) with ((a ++ [lhs]) ++ rhs :: b)
    by (rewrite <- app_assoc; reflexivity).
  rewrite (index_app_here (a ++ [lhs]) rhs b Hr). cbn [bind].
  rewrite length_app. cbn [length].
  replace (length a <? length a + 1)%nat with true by (symmetry; apply Nat.ltb_lt; lia).
  replace (length a + 1)%nat with (length (a ++ [lhs])) by (rewrite length_app; reflexivity).
  rewrite firstn_exact, skipn_exact.
  rewrite rev_app_distr. cbn [rev app]. reflexivity.
Qed.

(** [rhs] immediately before [lhs]: the sequence is rotated. *)
Lemma align_to_backward a b lhs rhs :
  NoDup (a ++ rhs :: lhs :: b) ->
  align_to (a ++ rhs :: lhs :: b) lhs rhs = Ok (lhs :: b ++ a ++ [rhs]).
Proof.
  intros Hnd. unfold align_to.
  assert (Hr : ~ In rhs a).
  { intros H. apply NoDup_remove_2 in Hnd. apply Hnd, in_or_app. now left. }
  assert (Hl : ~ In lhs (a ++ [rhs])).
  { replace (a ++ rhs :: lhs :: b) with ((a ++ [rhs]) ++ lhs :: b) in Hnd
      by (rewrite <- app_assoc; reflexivity).
    apply NoDup_remove_2 in Hnd. intros H. apply Hnd, in_or_app. now left. }
  replace (a ++ rhs :: lhs :: b) with ((a ++ [rhs]) ++ lhs :: b)
    by (rewrite <- app_assoc; reflexivity).
  rewrite (index_app_here (a ++ [rhs]) lhs b Hl). cbn [bind].
  replace ((a ++ [rhs]) ++ lhs :: b) with (a ++ rhs :: lhs :: b)
    by (rewrite <- app_assoc; reflexivity).
  rewrite (index_app_here a rhs (lhs :: b) Hr). cbn [bind].
  replace (length (a ++ [rhs]) <? length a)%nat with false
    by (symmetry; apply Nat.ltb_ge; rewrite length_app; lia).
  replace (a ++ rhs :: lhs :: b) with ((a ++ [rhs]) ++ lhs :: b)
    by (rewrite <- app_assoc; reflexivity).
  rewrite firstn_exact, skipn_exact. reflexivity.
Qed.

Lemma nth_error_pair {A} (data : list A) i x y :
  nth_error data i = Some x -> nth_error data (S i) = Some y ->
  exists a b, data = a ++ x :: y :: b /\ length a = i.
Proof.
  intros Hx Hy. apply nth_error_split in Hx. destruct Hx as (a & b & -> & Hl).
  exists a. rewrite <- Hl in Hy.
  replace (S (length a)) with (length a + 1)%nat in Hy by lia.
  rewrite nth_error_app2 in Hy by lia.
  replace (length a + 1 - length a)%nat with 1%nat in Hy by lia.
  destruct b as [| y' b]; cbn in Hy; [discriminate |]. inversion Hy; subst.
  exists b. split; auto.
Qed.

(** With [lhs] just before [rhs] the result is not a rotation of the input:
    [b; a; d; c] from [a; b; c; d]. *)
Lemma align_to_not_rotation :
  exists r,
    align_to [(1, 1, 1); (3, 1, 1); (3, 3, 1); (1, 3, 1)] (3, 1, 1) (3, 3, 1) = Ok r /\
    ~ rotation [(1, 1, 1); (3, 1, 1); (3, 3, 1); (1, 3, 1)] r.
Proof.
  eexists. split; [reflexivity |].
  intros (a & b & H1 & H2).
  destruct a as [| ? [| ? [| ? [| ? [| ? a]]]]]; cbn in H1; inversion H1; subst;
    cbn in H2; discriminate H2.
Qed.

(** C7 (amended): for every sequence of distinct Points and every pair
    (lhs, rhs) at consecutive positions of it, [align_to] returns a sequence
    that starts exactly at lhs and ends exactly at rhs and has the same
    content; when rhs comes just before lhs it is a cyclic rotation of the
    input, and when lhs comes just before rhs it is a cyclic rotation of the
    reversed input (the cyclic order is reversed). *)
Theorem align_to_consecutive data lhs rhs i :
  NoDup data ->
  (nth_error data i = Some rhs -> nth_error data (S i) = Some lhs ->
   exists r, align_to data lhs rhs = Ok r /\
             first r = Ok lhs /\ final r = Ok rhs /\
             rotation data r /\ Permutation data r) /\
  (nth_error data i = Some lhs -> nth_error data (S i) = Some rhs ->
   exists r, align_to data lhs rhs = Ok r /\
             first r = Ok lhs /\ final r = Ok rhs /\
             rotation (rev data) r /\ Permutation data r).
Proof.
  intros Hnd. split; intros H1 H2.
  - destruct (nth_error_pair data i _ _ H1 H2) as (a & b & -> & _).
    rewrite (align_to_backward a b lhs rhs Hnd).
    eexists. split; [reflexivity |]. repeat split.
    + change (lhs :: b ++ a ++ [rhs]) with ((lhs :: b) ++ a ++ [rhs]).
      rewrite app_assoc. apply final_app.
    + exists (a ++ [rhs]), (lhs :: b). split.
      * now rewrite <- app_assoc.
      * reflexivity.
    + change (lhs :: b ++ a ++ [rhs]) with ((lhs :: b) ++ a ++ [rhs]).
      replace (a ++ rhs :: lhs :: b) with ((a ++ [rhs]) ++ lhs :: b)
        by (now rewrite <- app_assoc).
      apply Permutation_app_comm.
  - destruct (nth_error_pair data i _ _ H1 H2) as (a & b & -> & _).
    rewrite (align_to_forward a b lhs rhs Hnd).
    eexists. split; [reflexivity |]. repeat split.
    + change (lhs :: rev a ++ rev b ++ [rhs]) with ((lhs :: rev a) ++ rev b ++ [rhs]).
      rewrite app_assoc. apply final_app.
    + exists (rev b ++ [rhs]), (lhs :: rev a). split.
      * rewrite rev_app_distr. cbn [rev]. now rewrite <- !app_assoc.
      * reflexivity.
    + replace (lhs :: rev a ++ rev b ++ [rhs]) with (rev (a ++ [lhs]) ++ rev (rhs :: b)).
      2:{ rewrite rev_app_distr. cbn [rev app]. reflexivity. }
      replace (a ++ lhs :: rhs :: b) with ((a ++ [lhs]) ++ rhs :: b)
        by (now rewrite <- app_assoc).
      apply Permutation_app; apply Permutation_rev.
Qed.

Lemma align_to_consecutive_witness :
  (exists r, align_to [(1, 1, 1); (3, 1, 1); (3, 3, 1); (1, 3, 1)] (3, 3, 1) (3, 1, 1) = Ok r /\
             first r = Ok (3, 3, 1) /\ final r = Ok (3, 1, 1) /\
             rotation [(1, 1, 1); (3, 1, 1); (3, 3, 1); (1, 3, 1)] r /\
             Permutation [(1, 1, 1); (3, 1, 1); (3, 3, 1); (1, 3, 1)] r) /\
  (exists r, align_to [(1, 1, 1); (3, 1, 1); (3, 3, 1); (1, 3, 1)] (3, 1, 1) (3, 3, 1) = Ok r /\
             first r = Ok (3, 1, 1) /\ final r = Ok (3, 3, 1) /\
             rotation (rev [(1, 1, 1); (3, 1, 1); (3, 3, 1); (1, 3, 1)]) r /\
             Permutation [(1, 1, 1); (3, 1, 1); (3, 3, 1); (1, 3, 1)] r).
Proof.
  assert (Hnd : NoDup [(1, 1, 1); (3, 1, 1); (3, 3, 1); (1, 3, 1)])
    by (repeat constructor; cbn; intuition discriminate).
  split.
  - exact (proj1 (align_to_consecutive
                    [(1, 1, 1); (3, 1, 1); (3, 3, 1); (1, 3, 1)]
                    (3, 3, 1) (3, 1, 1) 1%nat Hnd) eq_refl eq_refl).
  - exact (proj2 (align_to_consecutive
                    [(1, 1, 1); (3, 1, 1); (3, 3, 1); (1, 3, 1)]
                    (3, 1, 1) (3, 3, 1) 1%nat Hnd) eq_refl eq_refl).
Defined.

(** ** Sets of edges *)

Lemma to_set_In l e : In e (to_set l) -> In e l.
Proof.
  induction l as [| f l IH]; cbn; [trivial |].
  intros [-> | H]; [now left |]. apply filter_In in H. right. apply IH, H.
Qed.

Lemma to_set_NoDup l : NoDup (to_set l).
Proof.
  induction l as [| e l IH]; cbn; constructor.
  - intros H. apply filter_In in H. destruct H as [_ H].
    assert (E : edge_eqb e e = true) by now apply edge_eqb_eq.
    rewrite E in H. discriminate.
  - now apply NoDup_filter.
Qed.

Lemma inter_singleton_length s e :
  NoDup s -> (length (inter s [e]) <= 1)%nat.
Proof.
  unfold inter. induction 1 as [| x s Hx Hnd IH]; cbn [filter length]; [lia |].
  destruct (emem x [e]) eqn:E; [| exact IH].
  apply emem_In in E. destruct E as [<- | []].
  replace (filter (fun e0 => emem e0 [e]) s) with (@nil Edge); [cbn; lia |].
  symmetry. clear IH Hnd. induction s as [| y s IHs]; [reflexivity |].
  cbn [filter]. destruct (emem y [e]) eqn:Ey.
  - apply emem_In in Ey. destruct Ey as [<- | []]. exfalso. apply Hx. now left.
  - apply IHs. intros H. apply Hx. now right.
Qed.

Lemma get_edges_NoDup thread j : NoDup (get_edges thread j).
Proof. apply to_set_NoDup. Qed.

(** ** Merging ([merge_cycles]) *)

Lemma align_to_Permutation data lhs rhs r :
  align_to data lhs rhs = Ok r -> Permutation data r.
Proof.
  unfold align_to. intros H.
  destruct (index data lhs) as [lix |]; cbn [bind] in H; [| discriminate].
  destruct (index data rhs) as [rix |]; cbn [bind] in H; [| discriminate].
  destruct (lix <? rix)%nat; inversion H; subst; clear H.
  - rewrite <- (firstn_skipn rix data) at 1.
    apply Permutation_app; apply Permutation_rev.
  - rewrite <- (firstn_skipn lix data) at 1. apply Permutation_app_comm.
Qed.

Section MergeFacts.

Variable choose : Edges -> nat.

Lemma pop_In s : s <> [] -> exists e, pop choose s = Ok e /\ In e s.
Proof.
  destruct s as [| e s]; [congruence |]. intros _. cbn [pop].
  eexists. split; [reflexivity |].
  apply nth_In. apply Nat.mod_upper_bound. discriminate.
Qed.

Lemma merge_step_inv w visited thread w' visited' :
  merge_step choose (w, visited) thread = Ok (w', visited') ->
  exists thread',
    visited' = visited ++ [thread'] /\ Permutation thread thread' /\
    Permutation (data w ++ thread) (data w').
Proof.
  unfold merge_step. intros H.
  destruct (pop choose (weft_candidates w thread)) as [wb |]; cbn [bind] in H; [| discriminate].
  destruct (align_to (data w) (fst wb) (snd wb)) as [wdata |] eqn:Ea;
    cbn [bind] in H; [| discriminate].
  destruct (pop choose _) as [pb |]; cbn [bind] in H; [| discriminate].
  destruct (align_to thread (snd pb) (fst pb)) as [thread' |] eqn:Et;
    cbn [bind] in H; [| discriminate].
  inversion H; subst; clear H. exists thread'.
  apply align_to_Permutation in Ea, Et. repeat split; [assumption |].
  cbn. now apply Permutation_app.
Qed.

Lemma merge_loop_inv rest : forall w visited w' visited',
  foldM (merge_step choose) (w, visited) rest = Ok (w', visited') ->
  exists aligned,
    visited' = visited ++ aligned /\ Forall2 (@Permutation Point) rest aligned /\
    Permutation (data w ++ concat rest) (data w').
Proof.
  induction rest as [| thread rest IH]; intros w visited w' visited' H.
  - inversion H; subst. exists []. rewrite !app_nil_r.
    split; [reflexivity |]. split; [constructor | reflexivity].
  - cbn [foldM] in H.
    destruct (merge_step choose (w, visited) thread) as [[w1 v1] |] eqn:E1;
      cbn [bind] in H; [| discriminate].
    apply merge_step_inv in E1. destruct E1 as (thread' & -> & Hp & Hd).
    apply IH in H. destruct H as (aligned & -> & Hf & Hd').
    exists (thread' :: aligned). rewrite <- app_assoc. repeat split.
    + now constructor.
    + cbn [concat]. rewrite app_assoc. rewrite <- Hd'.
      now apply Permutation_app_tail.
Qed.

End MergeFacts.




(** In the weave of five layers the second merge finds two candidate bridge
    edges; one of them is popped and the merge goes on. *)
Lemma merge_step_two_candidates :
  exists loom seed t1 t2 st1 st2,
    weave_loom 5 = Ok loom /\
    mirror_chains loom = [seed; t1; t2] /\
    merge_step (fun _ => 0%nat)
      (Weaver_init seed (get_radius_from_n 5) (get_order_from_n 5), []) t1 = Ok st1 /\
    length (weft_candidates (fst st1) t2) = 2%nat /\
    merge_step (fun _ => 0%nat) st1 t2 = Ok st2.
Proof.
  eexists _, _, _, _, _, _.
  split; [vm_compute; reflexivity |].
  split; [vm_compute; reflexivity |].
  split; [vm_compute; reflexivity |].
  split; vm_compute; reflexivity.
Qed.

Lemma In_to_set_map {A} (f : A -> Edge) (l : list A) e :
  In e (to_set (map f l)) -> exists a, In a l /\ f a = e.
Proof.
  intros H. apply to_set_In, in_map_iff in H.
  destruct H as (a & Ha & Hin). now exists a.
Qed.

(** Every edge of the thread kept by [get_edges] has both end points at
    y = 1 (after the first merge) or y = 3 (before it). *)
Lemma get_edges_level thread j e :
  In e (get_edges thread j) ->
  py (fst e) = (if j then 1 else 3) /\ py (snd e) = (if j then 1 else 3).
Proof.
  unfold get_edges. intros H. apply In_to_set_map in H.
  destruct H as ([m n] & Hin & <-). apply filter_In in Hin. destruct Hin as [_ Hc].
  unfold oriented. cbn [fst snd].
  destruct j; apply andb_true_iff in Hc; destruct Hc as [Hc H3];
    apply andb_true_iff in Hc; destruct Hc as [H1 H2];
    apply Z.eqb_eq in H1, H2, H3;
    destruct (point_ltb m n); cbn [fst snd]; auto.
Qed.

(** Both end points of a weaver edge are at x = 1 after the first merge;
    before it the first is at x = 1 and the second at x = 3. *)
Lemma Weaver_edges_x w e :
  In e (Weaver_edges w) ->
  px (fst e) = 1 /\ px (snd e) = (if joined w then 1 else 3).
Proof.
  unfold Weaver_edges. intros H. apply In_to_set_map in H.
  destruct H as ([u v] & Hin & <-). apply filter_In in Hin. destruct Hin as [_ Hc].
  unfold oriented, point_ltb. cbn [fst snd].
  apply orb_true_iff in Hc. destruct Hc as [Hc | Hc].
  - apply andb_true_iff in Hc. destruct Hc as [Hc Hj].
    apply andb_true_iff in Hc. destruct Hc as [H1 H2].
    apply Z.eqb_eq in H1, H2. apply negb_true_iff in Hj. rewrite Hj, H1, H2.
    cbn. auto.
  - apply andb_true_iff in Hc. destruct Hc as [Hc _].
    apply andb_true_iff in Hc. destruct Hc as [Hc Hj].
    apply andb_true_iff in Hc. destruct Hc as [H1 H2].
    apply Z.eqb_eq in H1, H2. rewrite Hj.
    match goal with |- context [if ?c then _ else _] => destruct c end;
      cbn [fst snd]; auto.
Qed.

(** The edge of the thread from which a candidate bridge was obtained is
    the one [get_eadj] gives back. *)
Lemma warp_candidates_one w thread weft_bridge :
  In weft_bridge (weft_candidates w thread) ->
  exists e, warp_candidates w thread weft_bridge = [e].
Proof.
  unfold weft_candidates, warp_candidates, inter. intros H.
  apply filter_In in H. destruct H as [Hw He].
  apply emem_In in He. unfold get_eadjs in He. apply In_to_set_map in He.
  destruct He as (e & Hin & Hf). apply filter_In in Hin. destruct Hin as [Hin _].
  pose proof (get_edges_level _ _ _ Hin) as [Hb Hy].
  pose proof (Weaver_edges_x _ _ Hw) as [Hx1 Hx2].
  assert (Hadj : get_eadj weft_bridge = [e]).
  { subst weft_bridge. destruct e as [[[a b] c] [[x y] z]].
    unfold px, py in *. cbn [fst snd] in *.
    destruct (joined w); subst b y.
    - destruct (a =? x) eqn:E; cbn [negb] in *.
      + apply Z.eqb_eq in E. subst x. cbn [fst snd] in *. cbn.
        rewrite Z.eqb_refl. cbn. repeat f_equal; lia.
      + cbn [fst snd] in *. apply Z.eqb_neq in E. exfalso. lia.
    - destruct (a =? x) eqn:E; cbn [negb] in *.
      + cbn in Hx1, Hx2. apply Z.eqb_eq in E. exfalso. lia.
      + cbn [fst snd] in *. subst a x. cbn. reflexivity. }
  rewrite Hadj.
  pose proof (inter_singleton_length (get_edges thread (joined w)) e
                (get_edges_NoDup _ _)) as Hle.
  unfold inter in Hle.
  destruct (filter (fun e0 => emem e0 [e]) (get_edges thread (joined w)))
    as [| e1 [| e2 l]] eqn:Ef.
  - exfalso. assert (Hin' : In e (filter (fun e0 => emem e0 [e])
                                   (get_edges thread (joined w)))).
    { apply filter_In. split; [assumption |]. apply emem_In. now left. }
    rewrite Ef in Hin'. destruct Hin'.
  - now exists e1.
  - exfalso. assert (Hl2 : (length (e1 :: e2 :: l) <= 1)%nat)
      by (rewrite <- Ef; exact Hle).
    cbn in Hl2. lia.
Qed.

Lemma index_In data p : In p data -> exists i, index data p = Ok i.
Proof.
  induction data as [| q data IH]; intros H; [destruct H |].
  cbn [index]. destruct (point_eqb q p) eqn:E; [now exists 0%nat |].
  destruct H as [H | H].
  - subst q. rewrite point_eqb_refl in E. discriminate.
  - destruct (IH H) as [i Hi]. rewrite Hi. now exists (S i).
Qed.

(** [align_to] returns as soon as both points are on the tour. *)
Lemma align_to_total data lhs rhs :
  In lhs data -> In rhs data -> exists r, align_to data lhs rhs = Ok r.
Proof.
  intros Hl Hr. unfold align_to.
  destruct (index_In _ _ Hl) as [lix ->]. destruct (index_In _ _ Hr) as [rix ->].
  cbn [bind]. destruct (lix <? rix)%nat; eexists; reflexivity.
Qed.

(** Both ends of an edge kept from the windows of a tour are on the tour. *)
Lemma window_edge_ends (g : Edge -> bool) data e :
  In e (to_set (map oriented (filter g (windows data)))) ->
  In (fst e) data /\ In (snd e) data.
Proof.
  intros H. apply In_to_set_map in H. destruct H as ([u v] & Hin & <-).
  apply filter_In in Hin. destruct Hin as [Hin _].
  assert (Huv : In u data /\ In v data).
  { unfold windows in Hin. split.
    - apply (in_combine_l _ _ _ _ Hin).
    - apply in_combine_r in Hin. destruct data; [destruct Hin | now right]. }
  unfold oriented. cbn [fst snd]. destruct (point_ltb u v); cbn [fst snd]; tauto.
Qed.

(** C6 (amended): in [merge_cycles] each bridge edge is taken with
    [set.pop] from its intersection, with no check of the cardinality.  An
    empty first intersection makes the merge step fail with [KeyError].
    Whenever the first intersection is not empty, whether it holds one edge
    or more (as in the weave of five layers), one of its elements is taken
    and the merge step goes on to its end without raising: the second
    intersection holds exactly one edge, both tours are aligned, and the
    thread is joined to the weaver.  The second intersection holds exactly
    one edge for every edge of the first. *)
Theorem merge_step_pops_bridges choose weaver visited thread :
  (weft_candidates weaver thread = [] ->
   merge_step choose (weaver, visited) thread = Raise KeyError) /\
  (weft_candidates weaver thread <> [] ->
   exists weft_bridge warp_bridge wdata thread',
     pop choose (weft_candidates weaver thread) = Ok weft_bridge /\
     In weft_bridge (weft_candidates weaver thread) /\
     warp_candidates weaver thread weft_bridge = [warp_bridge] /\
     align_to (data weaver) (fst weft_bridge) (snd weft_bridge) = Ok wdata /\
     align_to thread (snd warp_bridge) (fst warp_bridge) = Ok thread' /\
     merge_step choose (weaver, visited) thread
     = Ok (join (mkWeaver wdata (order weaver) (joined weaver)
                   (z_abs_max weaver) (zc_abs_sum weaver)) thread',
           visited ++ [thread'])) /\
  (forall weft_bridge,
     In weft_bridge (weft_candidates weaver thread) ->
     length (warp_candidates weaver thread weft_bridge) = 1%nat).
Proof.
  split; [| split].
  - intros H. unfold merge_step. rewrite H. reflexivity.
  - intros Hne. destruct (pop_In choose _ Hne) as (wb & Epop & Hin).
    destruct (warp_candidates_one _ _ _ Hin) as (e & Ewarp).
    assert (Hw : In (fst wb) (data weaver) /\ In (snd wb) (data weaver)).
    { unfold weft_candidates, inter in Hin. apply filter_In in Hin.
      destruct Hin as [Hin _]. exact (window_edge_ends _ _ _ Hin). }
    assert (Ht : In (fst e) thread /\ In (snd e) thread).
    { assert (He : In e (warp_candidates weaver thread wb)) by (rewrite Ewarp; now left).
      unfold warp_candidates, inter in He. apply filter_In in He.
      destruct He as [He _]. exact (window_edge_ends _ _ _ He). }
    destruct (align_to_total _ _ _ (proj1 Hw) (proj2 Hw)) as [wdata Ew].
    destruct (align_to_total _ _ _ (proj2 Ht) (proj1 Ht)) as [thread' Et].
    exists wb, e, wdata, thread'.
    split; [exact Epop |]. split; [exact Hin |]. split; [exact Ewarp |].
    split; [exact Ew |]. split; [exact Et |].
    unfold merge_step. rewrite Epop. cbn [bind]. rewrite Ew. cbn [bind].
    change (warp_candidates
              (mkWeaver wdata (order weaver) (joined weaver) (z_abs_max weaver)
                 (zc_abs_sum weaver)) thread wb)
      with (warp_candidates weaver thread wb).
    rewrite Ewarp. cbn [pop bind length].
    rewrite Nat.mod_1_r. cbn [nth bind]. rewrite Et. reflexivity.
  - intros wb Hin. destruct (warp_candidates_one _ _ _ Hin) as (e & ->).
    reflexivity.
Qed.

Lemma merge_step_pops_bridges_witness :
  merge_step (fun _ => 0%nat)
    (Weaver_init [(1, 1, 1); (3, 1, 1)] 3 8, []) [(1, 1, 3); (3, 1, 3)]
  = Raise KeyError /\
  (length (weft_candidates
             (Weaver_init [(1, 1, 1); (3, 1, 1); (3, -1, 1); (1, -1, 1);
                           (1, -1, 3); (1, 1, 3); (3, 1, 3)] 3 8)
             [(1, 3, 1); (3, 3, 1); (3, 5, 1); (1, 5, 1);
              (1, 5, 3); (1, 3, 3); (3, 3, 3)]) = 2%nat /\
   exists st,
     merge_step (fun s => pred (length s))
       (Weaver_init [(1, 1, 1); (3, 1, 1); (3, -1, 1); (1, -1, 1);
                     (1, -1, 3); (1, 1, 3); (3, 1, 3)] 3 8, [])
       [(1, 3, 1); (3, 3, 1); (3, 5, 1); (1, 5, 1);
        (1, 5, 3); (1, 3, 3); (3, 3, 3)] = Ok st) /\
  length (warp_candidates (Weaver_init [(1, 1, 1); (3, 1, 1)] 3 8)
            [(1, 3, 1); (3, 3, 1)] ((1, 1, 1), (3, 1, 1))) = 1%nat.
Proof.
  split; [| split].
  - apply (proj1 (merge_step_pops_bridges (fun _ => 0%nat)
                    (Weaver_init [(1, 1, 1); (3, 1, 1)] 3 8) []
                    [(1, 1, 3); (3, 1, 3)])).
    reflexivity.
  - split; [reflexivity |].
    destruct (proj1 (proj2 (merge_step_pops_bridges (fun s => pred (length s))
                (Weaver_init [(1, 1, 1); (3, 1, 1); (3, -1, 1); (1, -1, 1);
                              (1, -1, 3); (1, 1, 3); (3, 1, 3)] 3 8) []
                [(1, 3, 1); (3, 3, 1); (3, 5, 1); (1, 5, 1);
                 (1, 5, 3); (1, 3, 3); (3, 3, 3)])))
      as (wb & e & wdata & thread' & _ & _ & _ & _ & _ & E).
    + vm_compute. discriminate.
    + eexists. exact E.
  - apply (proj2 (proj2 (merge_step_pops_bridges (fun _ => 0%nat)
                    (Weaver_init [(1, 1, 1); (3, 1, 1)] 3 8) []
                    [(1, 3, 1); (3, 3, 1)]))).
    vm_compute. now left.
Defined.

(** ** Chopping a tour at the pins ([chop]) *)

Lemma bind_Ok {A B} (m : result A) (k : A -> result B) a r :
  m = Ok a -> k a = r -> bind m k = r.
Proof. intros -> H. exact H. Qed.

Lemma foldM_step {S A} (f : S -> A -> result S) (s s' : S) (a : A) (l : list A) r :
  f s a = Ok s' -> foldM f s' l = r -> foldM f s (a :: l) = r.
Proof. intros E H. cbn [foldM]. rewrite E. exact H. Qed.

Lemma pinned_from_app pins (a b : Tour) : forall s,
  map fst (filter (fun xt : nat * Point => mem (snd xt) pins)
             (combine (seq s (length (a ++ b))) (a ++ b)))
  = map fst (filter (fun xt : nat * Point => mem (snd xt) pins)
               (combine (seq s (length a)) a))
    ++ map fst (filter (fun xt : nat * Point => mem (snd xt) pins)
                  (combine (seq (s + length a) (length b)) b)).
Proof.
  induction a as [| p a IH]; intros s; cbn [app length seq combine filter map].
  - now rewrite Nat.add_0_r.
  - cbn [snd]. replace (s + S (length a))%nat with (S s + length a)%nat by lia.
    destruct (mem p pins); cbn [map fst app]; now rewrite <- IH.
Qed.

Lemma pinned_from_unpinned pins (l : Tour) : unpinned pins l -> forall s,
  map fst (filter (fun xt : nat * Point => mem (snd xt) pins)
             (combine (seq s (length l)) l)) = [].
Proof.
  induction 1 as [| p l Hp Hl IH]; intros s; cbn [length seq combine filter map]; [reflexivity |].
  cbn [snd]. rewrite Hp. apply IH.
Qed.

Lemma pinned_from_segments pins (segs : list Tour) :
  Forall (pinned_segment pins) segs -> forall s,
  map fst (filter (fun xt : nat * Point => mem (snd xt) pins)
             (combine (seq s (length (concat segs))) (concat segs)))
  = starts s segs.
Proof.
  induction 1 as [| seg segs Hseg Hsegs IH]; intros s; [reflexivity |].
  cbn [concat starts]. rewrite pinned_from_app, IH.
  destruct Hseg as (p & body & -> & Hp & Hb).
  cbn [length seq combine filter map snd]. rewrite Hp. cbn [map fst].
  rewrite (pinned_from_unpinned pins body Hb). reflexivity.
Qed.

Lemma pinned_indices_decomposed pins pre segs :
  unpinned pins pre -> Forall (pinned_segment pins) segs ->
  pinned_indices (pre ++ concat segs) pins = starts (length pre) segs.
Proof.
  intros Hpre Hsegs. unfold pinned_indices, enumerate.
  rewrite pinned_from_app, (pinned_from_unpinned pins pre Hpre).
  apply pinned_from_segments, Hsegs.
Qed.

Lemma concat_snoc {A} (ls : list (list A)) (l : list A) :
  concat (ls ++ [l]) = concat ls ++ l.
Proof. rewrite concat_app. cbn. now rewrite app_nil_r. Qed.

Lemma starts_app s segs seg :
  starts s (segs ++ [seg]) = starts s segs ++ [(s + length (concat segs))%nat].
Proof.
  revert s. induction segs as [| x segs IH]; intros s; cbn [app starts concat length].
  - now rewrite Nat.add_0_r.
  - rewrite IH, length_app. f_equal. f_equal. f_equal. lia.
Qed.

Lemma starts_length s segs : length (starts s segs) = length segs.
Proof.
  revert s. induction segs as [| x segs IH]; intros s; cbn; [reflexivity | now rewrite IH].
Qed.

Lemma combine_app_same {A B} (a a' : list A) (b b' : list B) :
  length a = length b ->
  combine (a ++ a') (b ++ b') = combine a b ++ combine a' b'.
Proof.
  revert b. induction a as [| x a IH]; intros [| y b] H; cbn in *; try discriminate.
  - reflexivity.
  - f_equal. apply IH. lia.
Qed.

Lemma enumerate_snoc {A} (l : list A) (x : A) :
  enumerate (l ++ [x]) = enumerate l ++ [(length l, x)].
Proof.
  unfold enumerate. rewrite length_app. cbn [length].
  rewrite seq_app. cbn [seq Nat.add].
  rewrite combine_app_same by (now rewrite length_seq). reflexivity.
Qed.

(** Every tour is an unpinned prefix followed by pinned segments. *)
Lemma tour_decomposition pins (tour : Tour) :
  exists pre segs,
    tour = pre ++ concat segs /\ unpinned pins pre /\ Forall (pinned_segment pins) segs.
Proof.
  induction tour as [| t tour (pre & segs & -> & Hpre & Hsegs)].
  - exists [], []. repeat split; constructor.
  - destruct (mem t pins) eqn:E.
    + exists [], ((t :: pre) :: segs). repeat split; [constructor |].
      constructor; [| assumption]. now exists t, pre.
    + exists (t :: pre), segs. repeat split; [| assumption]. now constructor.
Qed.

(** The loop of [chop] on a decomposed tour. *)
Lemma chop_loop pins pre segs :
  unpinned pins pre -> Forall (pinned_segment pins) segs ->
  forall subs0,
    foldM (chop_step pins) (pre ++ concat segs, subs0)
      (rev (enumerate (starts (length pre) segs)))
    = Ok (chop_leaves pre segs, subs0 ++ chop_fragments pre segs).
Proof.
  intros Hpre. induction segs as [| seg segs IH] using rev_ind; intros Hsegs subs0.
  - cbn. now rewrite !app_nil_r.
  - apply Forall_app in Hsegs. destruct Hsegs as [Hsegs Hseg].
    apply Forall_inv in Hseg. destruct Hseg as (p & body & -> & Hp & Hb).
    rewrite starts_app, enumerate_snoc, rev_app_distr, starts_length.
    cbn [rev app foldM]. unfold Tour, Subtours in *.
    rewrite concat_snoc.
    destruct segs as [| seg1 more].
    + (* the first pin of the tour *)
      cbn [length concat app chop_step Nat.eqb]. rewrite Nat.add_0_r.
      destruct pre as [| q pre'].
      * cbn [app first bind]. rewrite Hp. cbn [negb bind length firstn skipn].
        cbn. rewrite ?app_nil_r. reflexivity.
      * cbn [app first bind]. apply Forall_inv in Hpre as Hq. rewrite Hq.
        cbn [negb bind].
        change (q :: pre' ++ p :: body) with ((q :: pre') ++ p :: body).
        replace ((q :: pre') ++ p :: body) with (((q :: pre') ++ [p]) ++ body)
          by (now rewrite <- app_assoc).
        replace (length (q :: pre') + 1)%nat with (length ((q :: pre') ++ [p]))
          by (now rewrite length_app).
        rewrite firstn_exact, skipn_exact.
        cbn [chop_leaves chop_fragments rev app firstn tl].
        destruct body; cbn [foldM rev app]; rewrite <- ?app_assoc; reflexivity.
    + (* a later pin: the tour is cut in front of it *)
      cbn [length chop_step Nat.eqb bind].
      rewrite app_assoc.
      replace (length pre + length (concat (seg1 :: more)))%nat
        with (length (pre ++ concat (seg1 :: more))) by (now rewrite length_app).
      rewrite firstn_exact, skipn_exact.
      rewrite (IH Hsegs (subs0 ++ [p :: body])).
      cbn [chop_leaves chop_fragments app]. unfold Tour, Subtours in *.
      rewrite (rev_app_distr more [p :: body]). cbn [rev app].
      rewrite <- !app_assoc. reflexivity.
Qed.

Lemma chop_decomposed pins pre segs :
  pins <> [] -> unpinned pins pre -> Forall (pinned_segment pins) segs ->
  chop (pre ++ concat segs) pins = Ok (chop_leaves pre segs, chop_fragments pre segs).
Proof.
  intros Hne Hpre Hsegs. unfold chop. destruct pins as [| pin pins]; [congruence |].
  rewrite (pinned_indices_decomposed _ _ _ Hpre Hsegs).
  apply (chop_loop _ _ _ Hpre Hsegs []).
Qed.

Lemma chop_fragments_nonempty pins pre segs :
  Forall (pinned_segment pins) segs ->
  Forall (fun f : Tour => f <> []) (chop_fragments pre segs).
Proof.
  intros Hsegs.
  assert (Hne : Forall (fun f : Tour => f <> []) segs).
  { eapply Forall_impl; [| exact Hsegs]. intros seg (p & body & -> & _). discriminate. }
  destruct segs as [| seg more]; [constructor |]. cbn [chop_fragments].
  apply Forall_app. split.
  - apply Forall_rev. now apply Forall_inv_tail in Hne.
  - destruct pre as [| q pre'].
    + constructor; [now apply Forall_inv in Hne | constructor].
    + constructor.
      * intros H. apply (f_equal (@length Point)) in H.
        rewrite length_rev, length_app in H. cbn in H. lia.
      * destruct (tl seg) eqn:E; constructor; [discriminate | constructor].
Qed.

Lemma filter_unpinned pins (l : Tour) :
  unpinned pins l -> filter (fun p => mem p pins) l = [].
Proof.
  induction 1 as [| p l Hp Hl IH]; cbn; [reflexivity | now rewrite Hp].
Qed.

Lemma pinned_count_decomposed pins pre segs :
  unpinned pins pre -> Forall (pinned_segment pins) segs ->
  pinned_count (pre ++ concat segs) pins = length segs.
Proof.
  intros Hpre Hsegs. unfold pinned_count.
  rewrite filter_app, (filter_unpinned _ _ Hpre). cbn [app].
  induction Hsegs as [| seg segs (p & body & -> & Hp & Hb) Hsegs IH]; [reflexivity |].
  cbn [concat app filter]. rewrite Hp, filter_app, (filter_unpinned _ _ Hb).
  cbn [app length]. now rewrite IH.
Qed.

Lemma pinned_count_no_pins tour : pinned_count tour [] = 0%nat.
Proof. unfold pinned_count. induction tour; cbn; auto. Qed.

Lemma segments_length pins (segs : list Tour) :
  Forall (pinned_segment pins) segs -> (length segs <= length (concat segs))%nat.
Proof.
  induction 1 as [| seg segs (p & body & -> & _) _ IH]; cbn [concat length]; [lia |].
  rewrite length_app. cbn [length]. lia.
Qed.

(** Two pins cut before the second pin and leave the first pin inside its
    fragment; without pins the empty tour gives one empty fragment. *)
Lemma chop_cuts_before_pins :
  chop [(1, 1, 1); (3, 1, 1); (3, 3, 1); (1, 3, 1)] [(1, 1, 1); (3, 3, 1)]
  = Ok ([], [[(3, 3, 1); (1, 3, 1)]; [(1, 1, 1); (3, 1, 1)]]) /\
  chop [] [] = Ok ([], [[]]).
Proof. split; reflexivity. Qed.

(** C3 (amended): [chop] cuts the tour into contiguous fragments so that
    every pinned Point is the first Point of a fragment.  The tour being an
    unpinned prefix followed by segments that each start with a pin, the
    fragments are the segments from the last to the second, and then: the
    first segment, when the tour starts with a pin; otherwise the prefix
    with the first pin, reversed, and the rest of the first segment as one
    more fragment unless it is empty.  With an empty pin set it returns the
    whole tour reversed as a single fragment.  For a non-empty tour it
    never returns an empty fragment. *)
Theorem chop_cuts_at_pins tour pins :
  (pins = [] -> chop tour pins = Ok (tour, [rev tour])) /\
  (pins <> [] ->
   exists pre segs,
     tour = pre ++ concat segs /\
     unpinned pins pre /\ Forall (pinned_segment pins) segs /\
     chop tour pins = Ok (chop_leaves pre segs, chop_fragments pre segs)) /\
  (tour <> [] ->
   exists tour' subtours,
     chop tour pins = Ok (tour', subtours) /\
     Forall (fun f : Tour => f <> []) subtours).
Proof.
  split; [| split].
  - intros ->. reflexivity.
  - intros Hne. destruct (tour_decomposition pins tour) as (pre & segs & E & Hpre & Hsegs).
    exists pre, segs. repeat split; try assumption.
    rewrite E. now apply chop_decomposed.
  - intros Hne. destruct pins as [| pin pins].
    + eexists _, _. split; [reflexivity |]. constructor; [| constructor].
      intros H. apply Hne. apply (f_equal (@rev Point)) in H.
      now rewrite rev_involutive in H.
    + destruct (tour_decomposition (pin :: pins) tour) as (pre & segs & -> & Hpre & Hsegs).
      rewrite chop_decomposed by (assumption || discriminate).
      eexists _, _. split; [reflexivity |].
      now apply chop_fragments_nonempty with (pins := pin :: pins).
Qed.

Lemma chop_cuts_at_pins_witness :
  chop [(1, 1, 1); (3, 1, 1)] [] = Ok ([(1, 1, 1); (3, 1, 1)], [rev [(1, 1, 1); (3, 1, 1)]]) /\
  (exists pre segs,
     [(1, 1, 1); (3, 1, 1); (3, 3, 1); (1, 3, 1)] = pre ++ concat segs /\
     unpinned [(3, 1, 1); (1, 3, 1)] pre /\
     Forall (pinned_segment [(3, 1, 1); (1, 3, 1)]) segs /\
     chop [(1, 1, 1); (3, 1, 1); (3, 3, 1); (1, 3, 1)] [(3, 1, 1); (1, 3, 1)]
     = Ok (chop_leaves pre segs, chop_fragments pre segs)) /\
  (exists tour' subtours,
     chop [(1, 1, 1); (3, 1, 1); (3, 3, 1); (1, 3, 1)] [(3, 1, 1); (1, 3, 1)]
     = Ok (tour', subtours) /\
     Forall (fun f : Tour => f <> []) subtours).
Proof.
  split; [| split].
  - apply (proj1 (chop_cuts_at_pins [(1, 1, 1); (3, 1, 1)] [])). reflexivity.
  - apply (proj1 (proj2 (chop_cuts_at_pins
                           [(1, 1, 1); (3, 1, 1); (3, 3, 1); (1, 3, 1)]
                           [(3, 1, 1); (1, 3, 1)]))). discriminate.
  - apply (proj2 (proj2 (chop_cuts_at_pins
                           [(1, 1, 1); (3, 1, 1); (3, 3, 1); (1, 3, 1)]
                           [(3, 1, 1); (1, 3, 1)]))). discriminate.
Defined.

(** C10: [chop] mutates the caller's tour.  What is left is a prefix of
    the tour; it is strictly shorter whenever at least two points of the
    tour are pins or the first point is a pin, empty when the first point
    is a pin, and the whole tour exactly when no point of the tour is a pin
    or exactly one is and it is not the first. *)
Theorem chop_truncates_tour tour pins :
  exists tour' subtours,
    chop tour pins = Ok (tour', subtours) /\
    (exists cut, tour = tour' ++ cut) /\
    ((2 <= pinned_count tour pins)%nat \/ first_pinned tour pins ->
     (length tour' < length tour)%nat) /\
    (first_pinned tour pins -> tour' = []) /\
    (tour' = tour <->
     pinned_count tour pins = 0%nat \/
     (pinned_count tour pins = 1%nat /\ ~ first_pinned tour pins)).
Proof.
  destruct pins as [| pin pins].
  - exists tour, [rev tour]. split; [reflexivity |].
    rewrite pinned_count_no_pins.
    assert (Hnf : ~ first_pinned tour []) by (intros (p & _ & H); discriminate H).
    split; [exists []; now rewrite app_nil_r |].
    split; [intros [H | H]; [lia | contradiction] |].
    split; [intros H; contradiction |].
    split; auto.
  - destruct (tour_decomposition (pin :: pins) tour) as (pre & segs & -> & Hpre & Hsegs).
    rewrite chop_decomposed by (assumption || discriminate).
    rewrite (pinned_count_decomposed _ _ _ Hpre Hsegs).
    eexists _, _. split; [reflexivity |].
    destruct segs as [| seg more].
    + (* no pin in the tour *)
      cbn [chop_leaves concat length]. rewrite app_nil_r.
      assert (Hnf : ~ first_pinned pre (pin :: pins)).
      { intros (p & Hp & Hm). destruct pre as [| q pre']; [discriminate |].
        inversion Hp; subst. apply Forall_inv in Hpre. congruence. }
      split; [exists []; now rewrite app_nil_r |].
      split; [intros [H | H]; [lia | contradiction] |].
      split; [intros H; contradiction |].
      split; auto.
    + pose proof (Forall_inv Hsegs) as (p & body & -> & Hp & Hb).
      pose proof (segments_length _ _ (Forall_inv_tail Hsegs)) as Hlen.
      destruct pre as [| q pre'].
      * (* the tour starts with a pin *)
        cbn [chop_leaves app concat length].
        split; [eexists; reflexivity |].
        split; [intros _; lia |].
        split; [reflexivity |].
        split; [discriminate |].
        intros [H | [_ H]]; [discriminate |].
        exfalso. apply H. exists p. split; [reflexivity | assumption].
      * (* the tour starts before its first pin *)
        cbn [chop_leaves concat].
        assert (Hnf : ~ first_pinned ((q :: pre') ++ (p :: body) ++ concat more) (pin :: pins)).
        { intros (p' & Hp' & Hm). inversion Hp'; subst.
          apply Forall_inv in Hpre. congruence. }
        split; [exists (concat more); now rewrite <- app_assoc |].
        split.
        { intros [H | H]; [| contradiction]. cbn [length] in H.
          rewrite !length_app. lia. }
        split; [intros H; contradiction |].
        split.
        { intros H. right. split; [| assumption].
          apply (f_equal (@length Point)) in H. rewrite !length_app in H.
          cbn [length]. lia. }
        { intros [H | [H _]]; [discriminate |].
          cbn [length] in H. destruct more; [| discriminate].
          cbn [concat]. now rewrite app_nil_r. }
Qed.

(** ** Extending the threads ([extend_threads]) *)

Lemma extend_step_cases thread used idx subtour thread' used' :
  extend_step (thread, used) (idx, subtour) = Ok (thread', used') ->
  (thread' = thread /\ used' = used) \/
  (existsb (Nat.eqb idx) used = false /\ used' = used ++ [idx] /\
   ((first thread = first subtour /\ thread' = rev (tl subtour) ++ thread) \/
    (final thread = first subtour /\ thread' = thread ++ tl subtour))).
Proof.
  unfold extend_step. destruct (existsb (Nat.eqb idx) used) eqn:Eu.
  - intros H. inversion H. now left.
  - destruct (first thread) as [h |] eqn:Eh; cbn [bind]; [| discriminate].
    destruct (first subtour) as [s |] eqn:Es; cbn [bind]; [| discriminate].
    destruct (point_eqb h s) eqn:E1.
    + intros H. inversion H; subst. right. apply point_eqb_eq in E1. subst.
      repeat split. now left.
    + destruct (final thread) as [t |] eqn:Et; cbn [bind]; [| discriminate].
      destruct (point_eqb t s) eqn:E2; intros H; inversion H; subst.
      * right. apply point_eqb_eq in E2. subst. repeat split. now right.
      * now left.
Qed.

Lemma not_used_NoDup idx used :
  existsb (Nat.eqb idx) used = false -> NoDup used -> NoDup (used ++ [idx]).
Proof.
  intros Hn Hnd. apply NoDup_app; [assumption | repeat constructor; intros [] |].
  intros x Hx [E | []]. subst x.
  assert (existsb (Nat.eqb idx) used = true); [| congruence].
  apply existsb_exists. exists idx. split; [assumption | apply Nat.eqb_refl].
Qed.

Lemma extend_loop_inv items : forall thread used thread' used',
  foldM extend_step (thread, used) items = Ok (thread', used') ->
  exists taken front back,
    used' = used ++ map fst taken /\
    thread' = front ++ thread ++ back /\
    Permutation (front ++ back) (flat_map (fun it : nat * Tour => tl (snd it)) taken) /\
    (NoDup used -> NoDup used') /\
    incl taken items.
Proof.
  induction items as [| [idx subtour] items IH]; intros thread used thread' used' H.
  - inversion H; subst. exists [], [], []. cbn. rewrite !app_nil_r.
    repeat split; auto. intros x [].
  - cbn [foldM] in H.
    destruct (extend_step (thread, used) (idx, subtour)) as [[t1 u1] |] eqn:E1;
      cbn [bind] in H; [| discriminate].
    apply IH in H. destruct H as (taken & front & back & -> & -> & Hp & Hnd & Hin).
    apply extend_step_cases in E1.
    destruct E1 as [[-> ->] | (Hu & -> & [[_ ->] | [_ ->]])].
    + exists taken, front, back. repeat split; auto. now apply incl_tl.
    + exists ((idx, subtour) :: taken), (front ++ rev (tl subtour)), back.
      cbn [map fst flat_map snd]. rewrite <- !app_assoc. repeat split.
      * etransitivity; [apply Permutation_app_swap_app |].
        apply Permutation_app; [symmetry; apply Permutation_rev | assumption].
      * intros Hn. rewrite app_assoc. apply Hnd. now apply not_used_NoDup.
      * intros x [<- | Hx]; [now left | right; now apply Hin].
    + exists ((idx, subtour) :: taken), front, (tl subtour ++ back).
      cbn [map fst flat_map snd]. rewrite <- !app_assoc. repeat split.
      * etransitivity; [apply Permutation_app_swap_app |].
        now apply Permutation_app_head.
      * intros Hn. rewrite app_assoc. apply Hnd. now apply not_used_NoDup.
      * intros x [<- | Hx]; [now left | right; now apply Hin].
Qed.

Lemma In_enumerate_from {A} (l : list A) (d : A) : forall k i a,
  In (i, a) (combine (seq k (length l)) l) -> (k <= i)%nat /\ nth (i - k) l d = a.
Proof.
  induction l as [| x l IH]; intros k i a H; cbn in H; [destruct H |].
  destruct H as [H | H].
  - inversion H; subst. rewrite Nat.sub_diag. split; [lia | reflexivity].
  - apply IH in H. destruct H as [Hk <-]. split; [lia |].
    replace (i - k)%nat with (S (i - S k)) by lia. reflexivity.
Qed.

Lemma taken_rests subtours taken :
  incl taken (enumerate subtours) ->
  flat_map (fun it : nat * Tour => tl (snd it)) taken = rests subtours (map fst taken).
Proof.
  unfold rests. induction taken as [| [i sub] taken IH]; intros Hin; [reflexivity |].
  cbn [flat_map map fst snd].
  rewrite IH by (intros x Hx; apply Hin; now right).
  destruct (In_enumerate_from subtours [] 0%nat i sub) as [_ E].
  { apply Hin. now left. }
  rewrite Nat.sub_0_r in E. now rewrite E.
Qed.

Lemma extend_thread_inv subtours done used thread loom' used' :
  extend_thread subtours (done, used) thread = Ok (loom', used') ->
  exists thread' new,
    loom' = done ++ [thread'] /\ used' = used ++ new /\
    grows thread thread' /\
    Permutation thread' (thread ++ rests subtours new) /\
    (NoDup used -> NoDup used').
Proof.
  unfold extend_thread. intros H.
  destruct (foldM extend_step (thread, used) (enumerate subtours)) as [[t' u'] |] eqn:E;
    cbn [bind] in H; [| discriminate].
  inversion H; subst; clear H.
  apply extend_loop_inv in E.
  destruct E as (taken & front & back & -> & -> & Hp & Hnd & Hin).
  exists (front ++ thread ++ back), (map fst taken). repeat split; auto.
  - now exists front, back.
  - rewrite <- (taken_rests _ _ Hin), <- Hp.
    rewrite app_assoc, (Permutation_app_comm front thread), <- app_assoc.
    reflexivity.
Qed.

Lemma extend_loom_inv subtours loom : forall done used loom' used',
  foldM (extend_thread subtours) (done, used) loom = Ok (loom', used') ->
  exists exts new,
    loom' = done ++ exts /\ used' = used ++ new /\
    Forall2 grows loom exts /\
    Permutation (concat exts) (concat loom ++ rests subtours new) /\
    (NoDup used -> NoDup used').
Proof.
  induction loom as [| thread loom IH]; intros done used loom' used' H.
  - inversion H; subst. exists [], []. rewrite !app_nil_r.
    repeat split; auto; constructor.
  - cbn [foldM] in H.
    destruct (extend_thread subtours (done, used) thread) as [[l1 u1] |] eqn:E1;
      cbn [bind] in H; [| discriminate].
    apply extend_thread_inv in E1.
    destruct E1 as (thread' & new1 & -> & -> & Hg & Hp1 & Hnd1).
    apply IH in H. destruct H as (exts & new2 & -> & -> & Hf & Hp2 & Hnd2).
    exists (thread' :: exts), (new1 ++ new2). rewrite <- !app_assoc.
    split; [reflexivity |]. split; [reflexivity |].
    split; [now constructor |]. split.
    + cbn [concat]. unfold rests in *. rewrite flat_map_app.
      etransitivity; [apply Permutation_app; [exact Hp1 | exact Hp2] |].
      rewrite <- !app_assoc. apply Permutation_app_head.
      rewrite !app_assoc. apply Permutation_app_tail. apply Permutation_app_comm.
    + intros Hn. rewrite app_assoc. auto.
Qed.

(** A fragment that matches the head of the first thread and the tail of
    the second goes to the first thread, which has already been extended
    in this pass. *)
Lemma extend_threads_reuses_thread :
  extend_threads
    [[(1, 1, 1); (3, 1, 1)]; [(1, 3, 1); (1, 1, 1)]]
    [[(3, 1, 1); (5, 1, 1)]; [(1, 1, 1); (-1, 1, 1)]]
  = Ok [[(-1, 1, 1); (1, 1, 1); (3, 1, 1); (5, 1, 1)]; [(1, 3, 1); (1, 1, 1)]].
Proof. reflexivity. Qed.

Lemma existsb_eqb_iff i used : existsb (Nat.eqb i) used = true <-> In i used.
Proof.
  rewrite existsb_exists. split.
  - intros [x [Hx E]]. apply Nat.eqb_eq in E. now subst.
  - intros H. exists i. split; [exact H | apply Nat.eqb_refl].
Qed.

Lemma mark_ext used used' items :
  (forall it, In it items -> (In (fst it) used <-> In (fst it) used')) ->
  map (mark used) items = map (mark used') items.
Proof.
  intros H. apply map_ext_in. intros it Hin. unfold mark.
  destruct (existsb (Nat.eqb (fst it)) used) eqn:E1,
           (existsb (Nat.eqb (fst it)) used') eqn:E2; try reflexivity.
  - apply existsb_eqb_iff in E1. apply (H it Hin) in E1.
    apply existsb_eqb_iff in E1. congruence.
  - apply existsb_eqb_iff in E2. apply (H it Hin) in E2.
    apply existsb_eqb_iff in E2. congruence.
Qed.

Lemma In_items_from {A} (l : list A) : forall k it,
  In it (combine (seq k (length l)) l) -> (k <= fst it)%nat.
Proof.
  induction l as [| a l IH]; intros k it H; [destruct H |].
  cbn [length seq combine] in H. destruct H as [<- | H]; [cbn; lia |].
  apply IH in H. lia.
Qed.

(** The inner loop: what the thread is offered is the pool of the
    fragments not yet used. *)
Lemma offer_extend_loop (l : Subtours) : forall k thread used,
  offer thread (map (mark used) (combine (seq k (length l)) l))
  = rmap (fun st : list Point * list nat =>
            (fst st, map (mark (snd st)) (combine (seq k (length l)) l)))
      (foldM extend_step (thread, used) (combine (seq k (length l)) l)).
Proof.
  induction l as [| f l IH]; intros k thread used; [reflexivity |].
  cbn [length seq combine map foldM].
  assert (Hgrow : forall t u t' u',
            foldM extend_step (t, u) (combine (seq (S k) (length l)) l) = Ok (t', u') ->
            forall i, In i u' <-> In i u \/ (In i u' /\ (S k <= i)%nat)).
  { intros t u t' u' E i. apply extend_loop_inv in E.
    destruct E as (taken & front & back & -> & _ & _ & _ & Hin).
    rewrite in_app_iff. split.
    - intros [H | H]; [now left | right]. split; [now right |].
      apply in_map_iff in H. destruct H as [it [<- Hit]].
      apply (In_items_from l (S k)). now apply Hin.
    - intros [H | [H _]]; [now left | exact H]. }
  unfold mark at 1. cbn [fst snd]. unfold extend_step at 1. cbn [offer].
  destruct (existsb (Nat.eqb k) used) eqn:Eu.
  - cbn [bind offer]. rewrite IH.
    destruct (foldM extend_step (thread, used) (combine (seq (S k) (length l)) l))
      as [[t' u'] |] eqn:E; [| reflexivity].
    cbn [rmap bind fst snd]. f_equal. f_equal. f_equal.
    unfold mark. cbn [fst].
    replace (existsb (Nat.eqb k) u') with true; [reflexivity |].
    symmetry. apply existsb_eqb_iff. apply (Hgrow _ _ _ _ E). left.
    now apply existsb_eqb_iff.
  - destruct (first thread) as [h |]; [| reflexivity]. cbn [bind].
    destruct (first f) as [s |]; [| reflexivity]. cbn [bind].
    assert (Hk : forall t,
      offer t (map (mark used) (combine (seq (S k) (length l)) l))
      = offer t (map (mark (used ++ [k])) (combine (seq (S k) (length l)) l))).
    { intros t. f_equal. apply mark_ext. intros it Hit.
      apply (In_items_from l (S k)) in Hit. rewrite in_app_iff. cbn [In].
      split; [now left | intros [H | [H | []]]; [exact H | lia]]. }
    assert (Hused : forall t t' u',
      foldM extend_step (t, used ++ [k]) (combine (seq (S k) (length l)) l) = Ok (t', u') ->
      mark u' (k, f) = None).
    { intros t t' u' E. unfold mark. cbn [fst].
      replace (existsb (Nat.eqb k) u') with true; [reflexivity |].
      symmetry. apply existsb_eqb_iff. apply (Hgrow _ _ _ _ E). left.
      apply in_app_iff. right. now left. }
    assert (Hfree : forall t t' u',
      foldM extend_step (t, used) (combine (seq (S k) (length l)) l) = Ok (t', u') ->
      mark u' (k, f) = Some f).
    { intros t t' u' E. unfold mark. cbn [fst snd].
      replace (existsb (Nat.eqb k) u') with false; [reflexivity |].
      symmetry. apply not_true_is_false. intros H. apply existsb_eqb_iff in H.
      apply (Hgrow _ _ _ _ E) in H. destruct H as [H | [_ H]]; [| lia].
      apply existsb_eqb_iff in H. congruence. }
    destruct (point_eqb h s).
    + rewrite Hk, IH. cbn [bind].
      destruct (foldM extend_step (rev (tl f) ++ thread, used ++ [k])
                  (combine (seq (S k) (length l)) l)) as [[t' u'] |] eqn:E;
        [| reflexivity].
      cbn [rmap bind fst snd]. now rewrite (Hused _ _ _ E).
    + destruct (final thread) as [t |]; [| reflexivity]. cbn [bind].
      destruct (point_eqb t s).
      * rewrite Hk, IH. cbn [bind].
        destruct (foldM extend_step (thread ++ tl f, used ++ [k])
                    (combine (seq (S k) (length l)) l)) as [[t' u'] |] eqn:E;
          [| reflexivity].
        cbn [rmap bind fst snd]. now rewrite (Hused _ _ _ E).
      * rewrite IH. cbn [bind].
        destruct (foldM extend_step (thread, used)
                    (combine (seq (S k) (length l)) l)) as [[t' u'] |] eqn:E;
          [| reflexivity].
        cbn [rmap bind fst snd]. now rewrite (Hfree _ _ _ E).
Qed.

Lemma mark_nil (items : list (nat * Tour)) : map (mark []) items = map Some (map snd items).
Proof. rewrite map_map. reflexivity. Qed.

Lemma map_snd_enumerate {A} (l : list A) : map snd (enumerate l) = l.
Proof.
  unfold enumerate. generalize 0%nat. induction l as [| a l IH]; intros k; [reflexivity |].
  cbn [length seq combine map snd]. now rewrite IH.
Qed.

Lemma left_over_mark used (items : list (nat * Tour)) :
  left_over (map (mark used) items)
  = map snd (filter (fun ic => negb (existsb (Nat.eqb (fst ic)) used)) items).
Proof.
  unfold left_over. induction items as [| it items IH]; [reflexivity |].
  cbn [map flat_map filter]. rewrite IH. unfold mark.
  destruct (existsb (Nat.eqb (fst it)) used); reflexivity.
Qed.

(** The loop over the threads. *)
Lemma pass_extend_loom subtours loom : forall done used,
  pass loom (map (mark used) (enumerate subtours))
  = rmap (fun st : Loom * list nat =>
            (skipn (length done) (fst st), map (mark (snd st)) (enumerate subtours)))
      (foldM (extend_thread subtours) (done, used) loom).
Proof.
  induction loom as [| thread loom IH]; intros done used.
  - cbn [pass foldM rmap fst snd]. now rewrite skipn_all.
  - cbn [pass foldM]. unfold extend_thread at 1. unfold enumerate at 1.
    rewrite offer_extend_loop. fold (enumerate subtours).
    destruct (foldM extend_step (thread, used) (enumerate subtours)) as [[t' u'] |];
      [| reflexivity].
    cbn [rmap bind fst snd]. rewrite (IH (done ++ [t']) u').
    destruct (foldM (extend_thread subtours) (done ++ [t'], u') loom) as [[l' u''] |] eqn:E;
      [| reflexivity].
    cbn [rmap bind fst snd]. apply extend_loom_inv in E.
    destruct E as (exts & new & -> & _).
    rewrite <- app_assoc. cbn [app].
    rewrite !skipn_app, !skipn_all, !Nat.sub_diag. cbn [app skipn].
    rewrite length_app. cbn [length].
    replace (length done + 1 - length done)%nat with 1%nat by lia.
    replace (skipn (length done + 1) done) with (@nil (list Point))
      by (symmetry; apply skipn_all2; lia).
    reflexivity.
Qed.

Lemma extend_threads_refines loom subtours :
  extend_threads loom subtours = extend_threads_spec loom subtours.
Proof.
  unfold extend_threads, extend_threads_spec.
  rewrite <- (map_snd_enumerate subtours) at 2. rewrite <- mark_nil.
  rewrite (pass_extend_loom subtours loom [] []).
  destruct (foldM (extend_thread subtours) ([], []) loom) as [[l' u'] |]; [| reflexivity].
  cbn [rmap bind fst snd length skipn]. now rewrite left_over_mark.
Qed.

Lemma pass_app l1 : forall l2 pool,
  pass (l1 ++ l2) pool
  = ('(l1', pool1) <- pass l1 pool ;;
     '(l2', pool2) <- pass l2 pool1 ;;
     Ok (l1' ++ l2', pool2)).
Proof.
  induction l1 as [| t l1 IH]; intros l2 pool.
  - cbn [app pass bind]. destruct (pass l2 pool) as [[l2' p2] |]; reflexivity.
  - cbn [app pass]. destruct (offer t pool) as [[t' p'] |]; [| reflexivity].
    cbn [bind]. rewrite IH. destruct (pass l1 p') as [[l1' p1] |]; [| reflexivity].
    cbn [bind]. destruct (pass l2 p1) as [[l2' p2] |]; reflexivity.
Qed.

(** Threads that are offered nothing stay as they are, empty ones too. *)
Lemma pass_consumed loom : pass loom [None] = Ok (loom, [None]).
Proof.
  induction loom as [| t loom IH]; [reflexivity |].
  cbn [pass offer bind]. rewrite IH. reflexivity.
Qed.

Lemma pass_no_match (f : Tour) s before :
  first f = Ok s ->
  Forall (fun b : list Point =>
            exists h e, first b = Ok h /\ final b = Ok e /\ h <> s /\ e <> s) before ->
  pass before [Some f] = Ok (before, [Some f]).
Proof.
  intros Hf. induction 1 as [| b before (h & e & Hh & He & Nh & Ne) _ IH]; [reflexivity |].
  cbn [pass offer]. rewrite Hh, Hf, He. cbn [bind].
  apply point_eqb_neq in Nh, Ne. rewrite Nh, Ne. cbn [bind offer]. rewrite IH. reflexivity.
Qed.

(** C4 (amended): [extend_threads] is the pass the specification
    describes, fragment by fragment: it visits the Threads in Loom order
    and offers to each, in fragment order, every fragment not yet consumed;
    a fragment whose first Point is the Thread's current head is prepended
    (the rest of the fragment, reversed), otherwise one whose first Point
    is the Thread's current tail is appended; a consumed fragment is never
    offered again, and the fragments consumed by no Thread seed new
    Threads, appended to the Loom in fragment order.  So each fragment is
    consumed at most once and no Point is lost.  What is marked is the
    fragment, not the Thread.  A fragment goes to the first Thread in Loom
    order one of whose ends it matches, whatever the Threads after it are;
    and a Thread that has already been extended in the pass still takes a
    further fragment that matches it. *)
Theorem extend_threads_consumes_once :
  (forall loom subtours,
     extend_threads loom subtours = extend_threads_spec loom subtours) /\
  (forall loom subtours loom',
     extend_threads loom subtours = Ok loom' ->
     exists exts used,
       loom' = exts ++ unused subtours used /\
       Forall2 grows loom exts /\
       NoDup used /\
       Permutation (concat exts) (concat loom ++ rests subtours used)) /\
  (forall before thread after (fragment : Tour) s,
     first fragment = Ok s ->
     Forall (fun b : list Point =>
               exists h e, first b = Ok h /\ final b = Ok e /\ h <> s /\ e <> s) before ->
     (first thread = Ok s ->
      extend_threads (before ++ thread :: after) [fragment]
      = Ok (before ++ (rev (tl fragment) ++ thread) :: after)) /\
     (forall h, first thread = Ok h -> h <> s -> final thread = Ok s ->
      extend_threads (before ++ thread :: after) [fragment]
      = Ok (before ++ (thread ++ tl fragment) :: after))) /\
  (forall thread after (f1 f2 : Tour) h e,
     first thread = Ok h -> final thread = Ok e -> h <> e ->
     first f1 = Ok e -> first f2 = Ok h ->
     extend_threads (thread :: after) [f1; f2]
     = Ok ((rev (tl f2) ++ thread ++ tl f1) :: after)).
Proof.
  split; [exact extend_threads_refines |]. split; [| split].
  - intros loom subtours loom' H. unfold extend_threads in H.
    destruct (foldM (extend_thread subtours) ([], []) loom) as [[l1 used] |] eqn:E;
      cbn [bind] in H; [| discriminate].
    inversion H; subst; clear H.
    apply extend_loom_inv in E. destruct E as (exts & new & -> & -> & Hf & Hp & Hnd).
    exists exts, new. cbn [app]. repeat split; auto. apply Hnd. constructor.
  - intros before thread after fragment s Hf Hb.
    assert (P : forall thread',
              offer thread [Some fragment] = Ok (thread', [None]) ->
              extend_threads (before ++ thread :: after) [fragment]
              = Ok (before ++ thread' :: after)).
    { intros thread' Ho. rewrite extend_threads_refines. unfold extend_threads_spec.
      cbn [map]. rewrite pass_app, (pass_no_match _ _ _ Hf Hb). cbn [bind pass].
      rewrite Ho. cbn [bind]. rewrite pass_consumed. cbn [bind left_over flat_map].
      now rewrite app_nil_r. }
    split.
    + intros Hh. apply P. cbn [offer]. rewrite Hh, Hf. cbn [bind].
      now rewrite point_eqb_refl.
    + intros h Hh Nh Ht. apply P. cbn [offer]. rewrite Hh, Hf, Ht. cbn [bind].
      apply point_eqb_neq in Nh. rewrite Nh. cbn [bind]. now rewrite point_eqb_refl.
  - intros thread after f1 f2 h e Hh He Hne H1 H2.
    rewrite extend_threads_refines. unfold extend_threads_spec.
    cbn [map pass offer]. rewrite Hh, H1, He. cbn [bind].
    apply point_eqb_neq in Hne. rewrite Hne. cbn [bind]. rewrite point_eqb_refl.
    assert (Hh' : first (thread ++ tl f1) = Ok h).
    { destruct thread; [discriminate | exact Hh]. }
    rewrite Hh', H2. cbn [bind]. rewrite point_eqb_refl. cbn [bind].
    assert (Pc : forall loom, pass loom [None; None] = Ok (loom, [None; None])).
    { induction loom as [| t loom IH]; [reflexivity |].
      cbn [pass offer bind]. rewrite IH. reflexivity. }
    rewrite Pc. cbn [bind left_over flat_map]. now rewrite app_nil_r.
Qed.

Lemma extend_threads_consumes_once_witness :
  extend_threads
    [[(1, 3, 1); (1, 5, 1)]; [(1, 1, 1); (3, 1, 1)]; [(5, 1, 1); (3, 1, 1)]]
    [[(3, 1, 1); (3, 3, 1)]]
  = Ok [[(1, 3, 1); (1, 5, 1)]; [(1, 1, 1); (3, 1, 1); (3, 3, 1)]; [(5, 1, 1); (3, 1, 1)]] /\
  extend_threads
    [[(1, 1, 1); (3, 1, 1)]; [(1, 3, 1); (1, 1, 1)]]
    [[(3, 1, 1); (5, 1, 1)]; [(1, 1, 1); (-1, 1, 1)]]
  = Ok [[(-1, 1, 1); (1, 1, 1); (3, 1, 1); (5, 1, 1)]; [(1, 3, 1); (1, 1, 1)]].
Proof.
  split.
  - apply (proj2 (proj1 (proj2 (proj2 extend_threads_consumes_once))
                    [[(1, 3, 1); (1, 5, 1)]] [(1, 1, 1); (3, 1, 1)]
                    [[(5, 1, 1); (3, 1, 1)]] [(3, 1, 1); (3, 3, 1)] (3, 1, 1)
                    eq_refl
                    ltac:(repeat constructor; exists (1, 3, 1), (1, 5, 1);
                          repeat split; discriminate))
             (1, 1, 1)); [reflexivity | discriminate | reflexivity].
  - apply (proj2 (proj2 (proj2 extend_threads_consumes_once))
             [(1, 1, 1); (3, 1, 1)] [[(1, 3, 1); (1, 1, 1)]]
             [(3, 1, 1); (5, 1, 1)] [(1, 1, 1); (-1, 1, 1)] (1, 1, 1) (3, 1, 1));
      (reflexivity || discriminate).
Defined.

(** ** Open paths *)

Lemma adjacent_sym p q : adjacent p q -> adjacent q p.
Proof.
  unfold adjacent. intros [(H1 & H2 & H3) | [(H1 & H2 & H3) | (H1 & H2 & H3)]];
    [left | right; left | right; right]; repeat split; lia.
Qed.

Lemma path_cons_inv p l : path (p :: l) -> path l.
Proof. destruct l as [| q l]; [trivial |]. now intros [_ H]. Qed.

Lemma path_app_inv a b : path (a ++ b) -> path a /\ path b.
Proof.
  induction a as [| p a IH]; intros H; [split; [exact I | exact H] |].
  pose proof (path_cons_inv _ _ H) as H'. apply IH in H'. destruct H' as [Ha Hb].
  split; [| assumption].
  destruct a as [| q a]; [exact I |]. destruct H as [Hpq _]. now split.
Qed.

(** Two paths that overlap in one point glue into one. *)
Lemma path_overlap a x b : path (a ++ [x]) -> path (x :: b) -> path (a ++ x :: b).
Proof.
  induction a as [| p a IH]; intros Ha Hb; [exact Hb |].
  pose proof (path_cons_inv _ _ Ha) as Ha'. specialize (IH Ha' Hb).
  cbn [app]. destruct a as [| q a].
  - cbn [app] in *. destruct Ha as [Hpx _]. now split.
  - cbn [app] in *. destruct Ha as [Hpq _]. now split.
Qed.

Lemma path_snoc a x y : path (a ++ [x]) -> adjacent x y -> path (a ++ [x; y]).
Proof.
  intros Ha Hxy. apply path_overlap; [assumption |]. now split.
Qed.

Lemma path_rev l : path l -> path (rev l).
Proof.
  induction l as [| p l IH]; intros H; [exact I |].
  cbn [rev]. specialize (IH (path_cons_inv _ _ H)).
  destruct l as [| q l]; [exact I |].
  cbn [rev] in *. rewrite <- app_assoc. cbn [app].
  apply path_snoc; [assumption |]. destruct H as [Hpq _]. now apply adjacent_sym.
Qed.

Lemma path_firstn k l : path l -> path (firstn k l).
Proof.
  intros H. rewrite <- (firstn_skipn k l) in H. now apply path_app_inv in H.
Qed.

Lemma flat_app z a b : flat z (a ++ b) <-> flat z a /\ flat z b.
Proof. apply Forall_app. Qed.

Lemma flat_rev z l : flat z l -> flat z (rev l).
Proof. apply Forall_rev. Qed.

Lemma first_app_ne {A} (a b : list A) : a <> [] -> first (a ++ b) = first a.
Proof. destruct a; [congruence | reflexivity]. Qed.

Lemma final_app_ne {A} (a b : list A) : b <> [] -> final (a ++ b) = final b.
Proof. destruct b as [| x b]; [congruence |]. intros _. apply final_app_cons. Qed.

Lemma first_In {A} (l : list A) x : first l = Ok x -> In x l.
Proof. destruct l; [discriminate |]. intros H. inversion H. now left. Qed.

Lemma final_In {A} (l : list A) x : final l = Ok x -> In x l.
Proof.
  intros H. rewrite <- first_rev in H. apply first_In in H. now apply in_rev.
Qed.

Lemma first_total {A} (l : list A) : l <> [] -> exists x, first l = Ok x.
Proof. destruct l as [| x l]; [congruence |]. intros _. now exists x. Qed.

Lemma final_total {A} (l : list A) : l <> [] -> exists x, final l = Ok x.
Proof.
  intros H. destruct (first_total (rev l)) as (x & Hx).
  - intros E. apply H. apply (f_equal (@rev A)) in E. now rewrite rev_involutive in E.
  - exists x. now rewrite <- first_rev.
Qed.

Lemma piece_ends z f : piece z f -> ends_at z f.
Proof.
  intros (Hne & _ & Hf).
  destruct (first_total f Hne) as (h & Hh), (final_total f Hne) as (t & Ht).
  exists h, t. unfold flat in Hf. rewrite Forall_forall in Hf.
  repeat split; auto using first_In, final_In.
Qed.

Lemma piece_woven z f : piece z f -> woven z f.
Proof. intros H. split; [apply H | now apply piece_ends]. Qed.

(** A thread extended at the head by points of the layer still ends there. *)
Lemma ends_at_prepend z a l : flat z a -> ends_at z l -> ends_at z (a ++ l).
Proof.
  intros Ha (h & t & Hh & Ht & Hzh & Hzt).
  assert (Hne : l <> []) by (intros ->; discriminate).
  destruct a as [| x a]; [now exists h, t |].
  exists x, t. cbn [app first]. repeat split; auto.
  - change (x :: a ++ l) with ((x :: a) ++ l). now rewrite final_app_ne.
  - now apply Forall_inv in Ha.
Qed.

Lemma ends_at_append z l b : flat z b -> ends_at z l -> ends_at z (l ++ b).
Proof.
  intros Hb (h & t & Hh & Ht & Hzh & Hzt).
  assert (Hne : l <> []) by (intros ->; discriminate).
  destruct (final_total (l ++ b)) as (t' & Ht').
  { destruct l; [congruence | discriminate]. }
  exists h, t'. rewrite first_app_ne by assumption. repeat split; auto.
  destruct b as [| x b]; [rewrite app_nil_r in Ht'; congruence |].
  rewrite final_app_ne in Ht' by discriminate.
  apply final_In in Ht'. unfold flat in Hb. rewrite Forall_forall in Hb. auto.
Qed.

(** ** Pinning the thread ends ([pin_thread_ends]) *)

Lemma adjacent_at_level p z : pz p = z - 2 -> adjacent (at_level p z) p.
Proof.
  intros H. right. right. unfold at_level, px, py, pz in *. cbn. repeat split. lia.
Qed.

Lemma path_cons p l h : path l -> first l = Ok h -> adjacent p h -> path (p :: l).
Proof.
  destruct l as [| q l]; [discriminate |]. intros Hp Hh Ha.
  inversion Hh; subst. now split.
Qed.

Lemma final_split {A} (l : list A) t : final l = Ok t -> exists a, l = a ++ [t].
Proof.
  intros Ht. destruct l as [| x l]; [discriminate |].
  destruct (@exists_last _ (x :: l)) as (a & y & E); [discriminate |].
  rewrite E in *. rewrite final_app in Ht. inversion Ht. now exists a.
Qed.

Lemma path_pinned thread h t z :
  path thread -> first thread = Ok h -> final thread = Ok t ->
  pz h = z - 2 -> pz t = z - 2 ->
  path ((at_level h z :: thread) ++ [at_level t z]).
Proof.
  intros Hp Hh Ht Hzh Hzt.
  assert (Hp' : path (at_level h z :: thread)).
  { eapply path_cons; eauto. now apply adjacent_at_level. }
  destruct (final_split _ _ Ht) as (a & ->).
  replace ((at_level h z :: a ++ [t]) ++ [at_level t z])
    with ((at_level h z :: a) ++ [t; at_level t z])
    by (cbn [app]; now rewrite <- app_assoc).
  apply path_snoc; [exact Hp' |].
  apply adjacent_sym. now apply adjacent_at_level.
Qed.

Lemma pin_thread_woven z done pins thread :
  woven (z - 2) thread ->
  exists thread' left right,
    pin_thread z (done, pins) thread
    = Ok (done ++ [thread'], add_pin (add_pin pins left) right) /\
    woven z thread'.
Proof.
  intros (Hp & h & t & Hh & Ht & Hzh & Hzt). unfold pin_thread. rewrite Hh. cbn [bind].
  assert (Hne : thread <> []) by (intros ->; discriminate).
  change (at_level h z :: thread) with ([at_level h z] ++ thread).
  rewrite final_app_ne by assumption. rewrite Ht. cbn [bind].
  eexists _, _, _. split; [reflexivity |]. split.
  - now apply path_pinned.
  - exists (at_level h z), (at_level t z). repeat split. apply final_app.
Qed.

Lemma pin_thread_ends_woven z loom : forall done pins,
  Forall (woven (z - 2)) loom ->
  exists loom' pins',
    foldM (pin_thread z) (done, pins) loom = Ok (done ++ loom', pins') /\
    Forall (woven z) loom'.
Proof.
  induction loom as [| thread loom IH]; intros done pins H.
  - exists [], pins. cbn. rewrite app_nil_r. split; [reflexivity | constructor].
  - pose proof (Forall_inv H) as Ht. apply Forall_inv_tail in H.
    destruct (pin_thread_woven z done pins thread Ht) as (t' & l & r & E & Hw).
    destruct (IH (done ++ [t']) (add_pin (add_pin pins l) r) H)
      as (loom' & pins' & E' & Hw').
    exists (t' :: loom'), pins'. split; [| now constructor].
    cbn [foldM]. rewrite E. cbn [bind]. rewrite <- app_assoc in E'. exact E'.
Qed.

(** ** The fragments of a layer *)

Lemma In_concat_split {A} (ls : list (list A)) (l : list A) :
  In l ls -> exists a b, concat ls = a ++ l ++ b.
Proof.
  intros H. apply in_split in H. destruct H as (l1 & l2 & ->).
  rewrite concat_app. cbn [concat]. now exists (concat l1), (concat l2).
Qed.

(** Every subtour is a contiguous run of the tour, forwards or backwards. *)
Lemma chop_fragments_runs pins pre segs f :
  Forall (pinned_segment pins) segs ->
  In f (chop_fragments pre segs) ->
  exists a b, pre ++ concat segs = a ++ f ++ b \/ pre ++ concat segs = a ++ rev f ++ b.
Proof.
  intros Hsegs Hin. destruct segs as [| seg more]; [destruct Hin |].
  pose proof (Forall_inv Hsegs) as (p & body & -> & _).
  cbn [chop_fragments] in Hin. apply in_app_or in Hin. destruct Hin as [Hin | Hin].
  - apply in_rev, In_concat_split in Hin. destruct Hin as (a & b & E).
    exists (pre ++ (p :: body) ++ a), b. left. cbn [concat]. rewrite E.
    now rewrite <- !app_assoc.
  - cbn [concat]. destruct pre as [| q pre'].
    + destruct Hin as [<- | []]. exists [], (concat more). now left.
    + cbn [firstn tl] in Hin. destruct Hin as [<- | Hin].
      * exists [], (body ++ concat more). right. rewrite rev_involutive.
        cbn [app]. rewrite <- !app_assoc. reflexivity.
      * destruct body as [| b0 body]; [destruct Hin |]. destruct Hin as [<- | []].
        exists ((q :: pre') ++ [p]), (concat more). left.
        rewrite <- !app_assoc. reflexivity.
Qed.

Lemma run_piece z tour a f b :
  path tour -> flat z tour -> f <> [] ->
  tour = a ++ f ++ b \/ tour = a ++ rev f ++ b ->
  piece z f.
Proof.
  intros Hp Hf Hne [-> | ->].
  - apply path_app_inv in Hp. destruct Hp as [_ Hp]. apply path_app_inv in Hp.
    apply flat_app in Hf. destruct Hf as [_ Hf]. apply flat_app in Hf.
    repeat split; tauto.
  - apply path_app_inv in Hp. destruct Hp as [_ Hp]. apply path_app_inv in Hp.
    apply flat_app in Hf. destruct Hf as [_ Hf]. apply flat_app in Hf.
    repeat split; [assumption | |].
    + rewrite <- (rev_involutive f). apply path_rev. tauto.
    + rewrite <- (rev_involutive f). apply flat_rev. tauto.
Qed.

Lemma chop_pieces z tour pins :
  tour <> [] -> path tour -> flat z tour ->
  exists tour' subtours,
    chop tour pins = Ok (tour', subtours) /\ Forall (piece z) subtours.
Proof.
  intros Hne Hp Hf. destruct pins as [| pin pins].
  - exists tour, [rev tour]. split; [reflexivity |]. constructor; [| constructor].
    repeat split; [| now apply path_rev | now apply flat_rev].
    intros E. apply Hne. apply (f_equal (@rev Point)) in E.
    now rewrite rev_involutive in E.
  - destruct (tour_decomposition (pin :: pins) tour) as (pre & segs & E & Hpre & Hsegs).
    subst tour. rewrite chop_decomposed by (assumption || discriminate).
    eexists _, _. split; [reflexivity |].
    pose proof (chop_fragments_nonempty _ pre _ Hsegs) as Hn.
    rewrite Forall_forall in Hn. apply Forall_forall. intros f Hin.
    destruct (chop_fragments_runs _ _ _ _ Hsegs Hin) as (a & b & Hrun).
    eapply run_piece; eauto.
Qed.

(** ** Extending woven threads with the fragments of the layer *)

Lemma extend_step_woven z thread used idx subtour :
  woven z thread -> piece z subtour ->
  exists thread' used',
    extend_step (thread, used) (idx, subtour) = Ok (thread', used') /\
    woven z thread'.
Proof.
  intros [Hp He] (Hne & Hps & Hfs). unfold extend_step.
  destruct (existsb (Nat.eqb idx) used); [now eexists _, _; split; [reflexivity | split] |].
  pose proof He as (h & t & Hh & Ht & Hzh & Hzt).
  rewrite Hh. cbn [bind].
  destruct subtour as [| s body]; [congruence |]. cbn [first bind tl].
  assert (Hfb : flat z body) by now apply Forall_inv_tail in Hfs.
  destruct (point_eqb h s) eqn:E1.
  - apply point_eqb_eq in E1. subst s.
    eexists _, _. split; [reflexivity |]. split.
    + destruct thread as [| x rest]; [discriminate |]. inversion Hh; subst x.
      apply path_overlap; [| assumption].
      change (rev body ++ [h]) with (rev (h :: body)). now apply path_rev.
    + apply ends_at_prepend; [now apply flat_rev | assumption].
  - rewrite Ht. cbn [bind]. destruct (point_eqb t s) eqn:E2.
    + apply point_eqb_eq in E2. subst s.
      eexists _, _. split; [reflexivity |]. split.
      * destruct (final_split _ _ Ht) as (a & ->). rewrite <- app_assoc. cbn [app].
        now apply path_overlap.
      * now apply ends_at_append.
    + eexists _, _. split; [reflexivity |]. now split.
Qed.

Lemma extend_loop_woven z items : forall thread used,
  woven z thread -> Forall (fun it : nat * Tour => piece z (snd it)) items ->
  exists thread' used',
    foldM extend_step (thread, used) items = Ok (thread', used') /\
    woven z thread'.
Proof.
  induction items as [| [idx subtour] items IH]; intros thread used Hw Hi.
  - now exists thread, used.
  - pose proof (Forall_inv Hi) as Hs. apply Forall_inv_tail in Hi. cbn [snd] in Hs.
    destruct (extend_step_woven z thread used idx subtour Hw Hs) as (t1 & u1 & E & Hw1).
    destruct (IH t1 u1 Hw1 Hi) as (t2 & u2 & E2 & Hw2).
    exists t2, u2. split; [| assumption]. eapply foldM_step; eassumption.
Qed.

Lemma enumerate_pieces z (subtours : Subtours) :
  Forall (piece z) subtours ->
  Forall (fun it : nat * Tour => piece z (snd it)) (enumerate subtours).
Proof.
  intros H. rewrite Forall_forall in *. intros [i sub] Hin.
  apply in_combine_r in Hin. now apply H.
Qed.

Lemma extend_loom_woven z subtours loom : forall done used,
  Forall (woven z) loom -> Forall (piece z) subtours ->
  exists exts used',
    foldM (extend_thread subtours) (done, used) loom = Ok (done ++ exts, used') /\
    Forall (woven z) exts.
Proof.
  induction loom as [| thread loom IH]; intros done used Hl Hs.
  - exists [], used. cbn. rewrite app_nil_r. split; [reflexivity | constructor].
  - pose proof (Forall_inv Hl) as Ht. apply Forall_inv_tail in Hl.
    destruct (extend_loop_woven z (enumerate subtours) thread used Ht
                (enumerate_pieces _ _ Hs)) as (t' & u' & E & Hw).
    destruct (IH (done ++ [t']) u' Hl Hs) as (exts & used' & E' & Hw').
    exists (t' :: exts), used'. split; [| now constructor].
    rewrite <- app_assoc in E'. eapply foldM_step; [| exact E'].
    unfold extend_thread. eapply bind_Ok; [exact E | reflexivity].
Qed.

Lemma unused_In subtours used f : In f (unused subtours used) -> In f subtours.
Proof.
  unfold unused. intros H. apply in_map_iff in H. destruct H as ([i s] & <- & H).
  apply filter_In in H. destruct H as [H _]. now apply in_combine_r in H.
Qed.

Lemma extend_threads_woven z loom subtours :
  Forall (woven z) loom -> Forall (piece z) subtours ->
  exists loom', extend_threads loom subtours = Ok loom' /\ Forall (woven z) loom'.
Proof.
  intros Hl Hs. unfold extend_threads.
  destruct (extend_loom_woven z subtours loom [] [] Hl Hs) as (exts & used & E & Hw).
  exists (exts ++ unused subtours used).
  split; [eapply bind_Ok; [exact E | reflexivity] |].
  apply Forall_app. split; [assumption |].
  apply Forall_forall. intros f Hin. apply unused_In in Hin.
  apply piece_woven. rewrite Forall_forall in Hs. now apply Hs.
Qed.

(** ** The yarn is a path of unit steps *)

Lemma zigzag_at_unit dpv idx isize :
  dpv = zigzags \/ dpv = skipn 2 zigzags ++ firstn 2 zigzags ->
  unit_step (zigzag_at dpv idx isize).
Proof.
  intros Hd. unfold zigzag_at, unit_step.
  assert (Hlt : (idx mod 4 < 4)%nat) by (apply Nat.mod_upper_bound; discriminate).
  destruct (idx mod 4)%nat as [| [| [| [| k]]]]; try lia;
    destruct Hd as [-> | ->]; cbn [zigzags skipn firstn app nth];
    destruct (((idx + isize) mod 2 =? 0)%nat); cbn [fst snd]; tauto.
Qed.

Lemma zigzag_steps_unit dpv sizes :
  dpv = zigzags \/ dpv = skipn 2 zigzags ++ firstn 2 zigzags ->
  Forall unit_step (zigzag_steps dpv sizes).
Proof.
  intros Hd. unfold zigzag_steps. apply Forall_flat_map.
  apply Forall_forall. intros [idx size] _.
  apply Forall_map. apply Forall_forall. intros isize _. now apply zigzag_at_unit.
Qed.

Lemma adjacent_step z p d :
  unit_step d -> adjacent (lift z p) (lift z (fst p + fst d, snd p + snd d)).
Proof.
  unfold unit_step, adjacent, lift, px, py, pz. destruct p as [x y]. cbn [fst snd].
  intros [-> | [-> | [-> | ->]]]; cbn [fst snd];
    [right; left | right; left | left | left]; repeat split; lia.
Qed.

Lemma spin_path z steps : forall p,
  Forall unit_step steps -> path (map (lift z) (spin p steps)).
Proof.
  induction steps as [| d steps IH]; intros p H; [exact I |].
  cbn [spin map]. pose proof (Forall_inv H) as Hd. apply Forall_inv_tail in H.
  eapply path_cons; [apply IH, H | | apply adjacent_step, Hd].
  destruct steps; reflexivity.
Qed.

Lemma spun_of_path z radius : path (map (lift z) (spun_of radius)).
Proof.
  unfold spun_of. destruct (((radius + 1) / 2) mod 2 =? 0);
    apply spin_path, zigzag_steps_unit; auto.
Qed.

Lemma spun_of_nonempty radius : spun_of radius <> [].
Proof.
  unfold spun_of. destruct (((radius + 1) / 2) mod 2 =? 0);
    match goal with |- spin ?p ?s <> [] => destruct s; discriminate end.
Qed.

Lemma reflect_lift_adjacent z p q :
  adjacent (lift z p) (lift z q) -> adjacent (lift z (reflect p)) (lift z (reflect q)).
Proof.
  unfold adjacent, lift, reflect, px, py, pz. destruct p as [a b], q as [c d].
  cbn [fst snd]. intros [H | [H | H]]; [left | right; left | right; right];
    repeat split; lia.
Qed.

Lemma reflect_path z (l : list XY) :
  path (map (lift z) l) -> path (map (lift z) (map reflect l)).
Proof.
  induction l as [| p l IH]; intros H; [exact I |].
  destruct l as [| q l]; [exact I |].
  cbn [map] in *. destruct H as [Hpq H]. split; [now apply reflect_lift_adjacent | now apply IH].
Qed.

(** Both yarns are open paths of unit steps, at whatever elevation. *)
Lemma yarn_path z radius color yarn :
  lookup (spin_yarn radius) color = Ok yarn ->
  yarn <> [] /\ path (map (lift z) yarn).
Proof.
  unfold spin_yarn. cbn [lookup].
  destruct (3 =? color); [| destruct (1 =? color)]; intros H; inversion H; subst.
  - split; [apply spun_of_nonempty | apply spun_of_path].
  - split.
    + intros E. apply map_eq_nil in E. now apply spun_of_nonempty in E.
    + apply reflect_path, spun_of_path.
Qed.

(** ** Weaving the layers ([weave]) *)

Lemma lift_flat z (l : list XY) : flat z (map (lift z) l).
Proof. apply Forall_map, Forall_forall. intros xy _. reflexivity. Qed.

Lemma weave_layer_woven radius loom z color size :
  color = 1 \/ color = 3 -> 0 < size ->
  Forall (woven (z - 2)) loom ->
  exists loom',
    weave_layer (spin_yarn radius) loom (z, color, size) = Ok loom' /\
    Forall (woven z) loom'.
Proof.
  intros Hc Hs Hl. unfold weave_layer.
  assert (Hy : exists yarn, lookup (spin_yarn radius) color = Ok yarn).
  { destruct Hc as [-> | ->]; eexists; reflexivity. }
  destruct Hy as (yarn & Hy). rewrite Hy. cbn [bind].
  destruct (yarn_path z radius color yarn Hy) as [Hne Hp].
  set (tour := map (lift z) (firstn (Z.to_nat size) yarn)).
  assert (Ht : tour <> [] /\ path tour /\ flat z tour).
  { subst tour. repeat split.
    - destruct yarn as [| xy yarn]; [congruence |].
      destruct (Z.to_nat size) eqn:E; [lia | discriminate].
    - rewrite <- firstn_map. now apply path_firstn.
    - apply lift_flat. }
  destruct Ht as (Htn & Htp & Htf).
  destruct (pin_thread_ends_woven z loom [] [] Hl) as (loom1 & pins & E1 & Hw1).
  destruct (chop_pieces z tour pins Htn Htp Htf) as (tour' & subtours & E2 & Hpc).
  destruct (extend_threads_woven z loom1 subtours Hw1 Hpc) as (loom' & E3 & Hw3).
  exists loom'. split; [| assumption].
  eapply bind_Ok; [exact E1 |]. cbn [app]. eapply bind_Ok; [exact E2 |]. exact E3.
Qed.

Lemma weave_levels radius m : forall z0 cs ss loom,
  Forall (woven z0) loom ->
  Forall (fun c => c = 1 \/ c = 3) cs -> Forall (fun s => 0 < s) ss ->
  exists loom',
    foldM (weave_layer (spin_yarn radius)) loom
      (zip3 (map (fun k => z0 + 2 + 2 * Z.of_nat k) (seq 0 m)) cs ss) = Ok loom' /\
    Forall (woven (z0 + 2 * Z.of_nat
              (length (zip3 (map (fun k => z0 + 2 + 2 * Z.of_nat k) (seq 0 m)) cs ss))))
      loom'.
Proof.
  induction m as [| m IH]; intros z0 cs ss loom Hl Hc Hs.
  - exists loom. cbn. rewrite Z.add_0_r. now split.
  - cbn [seq map]. rewrite <- seq_shift, map_map.
    rewrite (map_ext (fun k => z0 + 2 + 2 * Z.of_nat (S k))
                     (fun k => (z0 + 2) + 2 + 2 * Z.of_nat k)) by (intros; lia).
    destruct cs as [| c cs]; [exists loom; cbn; rewrite Z.add_0_r; now split |].
    destruct ss as [| s ss]; [exists loom; cbn; rewrite Z.add_0_r; now split |].
    cbn [zip3 length].
    pose proof (Forall_inv Hc) as Hc1. apply Forall_inv_tail in Hc.
    pose proof (Forall_inv Hs) as Hs1. apply Forall_inv_tail in Hs.
    replace (z0 + 2 + 2 * Z.of_nat 0) with (z0 + 2) by lia.
    destruct (weave_layer_woven radius loom (z0 + 2) c s Hc1 Hs1) as (loom1 & E1 & Hw1).
    { now replace (z0 + 2 - 2) with z0 by lia. }
    destruct (IH (z0 + 2) cs ss loom1 Hw1 Hc Hs) as (loom' & E' & Hw').
    exists loom'. split; [eapply foldM_step; eassumption |].
    match goal with
    | H : Forall (woven ?a) loom' |- Forall (woven ?b) loom' =>
        replace b with a by lia; exact H
    end.
Qed.

Lemma zip3_length {A B C} (a : list A) (b : list B) (c : list C) :
  length (zip3 a b c) = Nat.min (length a) (Nat.min (length b) (length c)).
Proof.
  revert b c. induction a as [| x a IH]; intros [| y b] [| z c]; cbn; auto.
Qed.

Lemma colors_ok n :
  Forall (fun c => c = 1 \/ c = 3)
    (flat_map (fun nest : Z * Z => [fst nest; snd nest])
       (repeat (if n mod 2 =? 0 then (1, 3) else (3, 1)) (Z.to_nat n))).
Proof.
  apply Forall_flat_map, Forall_forall. intros nest Hin. apply repeat_spec in Hin.
  subst nest. destruct (n mod 2 =? 0); cbn [fst snd];
    repeat (apply Forall_cons; [lia |]); constructor.
Qed.

Lemma nests_length (nest : Z * Z) k :
  length (flat_map (fun nest : Z * Z => [fst nest; snd nest]) (repeat nest k))
  = (2 * k)%nat.
Proof.
  induction k as [| k IH]; [reflexivity |].
  cbn [repeat flat_map app length]. rewrite IH. lia.
Qed.

Lemma sizes_ok n : Forall (fun s => 0 < s) (map (fun f => 2 * f * (f + 1)) (range1 n)).
Proof.
  unfold range1. rewrite map_map. apply Forall_map, Forall_forall. intros k _. nia.
Qed.

(** Layer weaving never fails, and leaves open paths whose two ends are at
    elevation -1. *)
Lemma weave_loom_woven n :
  exists loom, weave_loom n = Ok loom /\ Forall (woven (-1)) loom.
Proof.
  unfold weave_loom, get_z_color_size, range2.
  set (m := Z.to_nat ((0 - - (n * 2 - 1) + 1) / 2)).
  set (cs := flat_map _ _). set (ss := map _ (range1 n)).
  rewrite (map_ext (fun k => - (n * 2 - 1) + 2 * Z.of_nat k)
                   (fun k => (- (n * 2 - 1) - 2) + 2 + 2 * Z.of_nat k)) by (intros; lia).
  destruct (weave_levels (get_radius_from_n n) m (- (n * 2 - 1) - 2) cs ss [])
    as (loom & E & Hw); [constructor | apply colors_ok | apply sizes_ok |].
  exists loom. split; [exact E |].
  destruct (Z_le_gt_dec n 0) as [Hn | Hn].
  - assert (Hm : m = 0%nat).
    { subst m. replace (0 - - (n * 2 - 1) + 1) with (n * 2) by lia.
      rewrite Z.div_mul by lia. lia. }
    rewrite Hm in E. cbn in E. inversion E. constructor.
  - rewrite zip3_length in Hw. rewrite length_map, length_seq in Hw.
    assert (Hm : m = Z.to_nat n).
    { subst m. replace (0 - - (n * 2 - 1) + 1) with (n * 2) by lia.
      now rewrite Z.div_mul by lia. }
    assert (Hcs : length cs = (2 * Z.to_nat n)%nat).
    { subst cs. apply nests_length. }
    assert (Hss : length ss = Z.to_nat n).
    { subst ss. unfold range1. now rewrite !length_map, length_seq. }
    rewrite Hm, Hcs, Hss in Hw.
    replace (Nat.min (Z.to_nat n) (Nat.min (2 * Z.to_nat n) (Z.to_nat n)))
      with (Z.to_nat n) in Hw by lia.
    replace (- (n * 2 - 1) - 2 + 2 * Z.of_nat (Z.to_nat n)) with (-1) in Hw by lia.
    exact Hw.
Qed.

(** ** Mirroring the threads ([mirror_chains]) *)

Lemma negz_adjacent p q : adjacent p q -> adjacent (negz p) (negz q).
Proof.
  unfold adjacent, negz, px, py, pz. cbn [fst snd].
  intros [H | [H | H]]; [left | right; left | right; right]; repeat split; lia.
Qed.

Lemma negz_path l : path l -> path (map negz l).
Proof.
  induction l as [| p l IH]; intros H; [exact I |].
  destruct l as [| q l]; [exact I |].
  cbn [map] in *. destruct H as [Hpq H]. split; [now apply negz_adjacent | now apply IH].
Qed.

Lemma negz_mirror p : Z.abs (pz p) = 1 -> adjacent p (negz p).
Proof.
  intros H. right. right. unfold negz, px, py, pz in *. cbn [fst snd]. repeat split. lia.
Qed.

(** A path whose two ends are one step from the plane z = 0 closes into a
    cycle with its mirror image. *)
Lemma mirror_closes thread h t :
  path thread -> first thread = Ok h -> final thread = Ok t ->
  Z.abs (pz h) = 1 -> Z.abs (pz t) = 1 ->
  closed_cycle (thread ++ map negz (rev thread)).
Proof.
  intros Hp Hh Ht Hzh Hzt.
  destruct (final_split _ _ Ht) as (a & E).
  assert (Hm : map negz (rev thread) = negz t :: map negz (rev a)).
  { rewrite E, rev_app_distr. reflexivity. }
  assert (Hf : final (map negz (rev thread)) = Ok (negz h)).
  { destruct thread as [| x rest]; [discriminate |]. inversion Hh; subst x.
    cbn [rev]. rewrite map_app. apply final_app. }
  split.
  - rewrite Hm. apply path_overlap.
    + rewrite E, <- app_assoc. cbn [app]. apply path_snoc; [now rewrite <- E |].
      now apply negz_mirror.
    + rewrite <- Hm. now apply negz_path, path_rev.
  - exists h, (negz h). repeat split.
    + rewrite first_app_ne; [assumption | intros ->; discriminate].
    + rewrite final_app_ne; [assumption | rewrite Hm; discriminate].
    + apply adjacent_sym. now apply negz_mirror.
Qed.

Lemma woven_mirror thread : woven (-1) thread -> closed_cycle (thread ++ map negz (rev thread)).
Proof.
  intros (Hp & h & t & Hh & Ht & Hzh & Hzt).
  apply (mirror_closes thread h t); auto; lia.
Qed.

(** C5: [mirror_chains] replaces every Thread with itself followed by its
    own reverse with every z-coordinate negated, doubling its length; for
    every number of layers the layer weaving succeeds, and every Thread of
    the Loom it leaves is, after the call, a closed cycle: every two
    consecutive Points, also the last and the first, differ by exactly 2 in
    exactly one coordinate. *)
Theorem mirror_chains_closes_threads :
  (forall loom,
     Forall2 (fun thread cycle =>
                cycle = thread ++ map negz (rev thread) /\
                length cycle = (2 * length thread)%nat)
       loom (mirror_chains loom)) /\
  (forall n,
     exists loom, weave_loom n = Ok loom /\ Forall closed_cycle (mirror_chains loom)).
Proof.
  split.
  - intros loom. unfold mirror_chains. induction loom as [| thread loom IH]; constructor.
    + split; [reflexivity |]. rewrite length_app, length_map, length_rev. lia.
    + exact IH.
  - intros n. destruct (weave_loom_woven n) as (loom & E & Hw).
    exists loom. split; [assumption |].
    unfold mirror_chains. apply Forall_map.
    eapply Forall_impl; [| exact Hw]. intros thread. apply woven_mirror.
Qed.

(** ** The partition of the lattice points among the threads *)

Lemma pin_thread_ends_shape z loom : forall done pins0 loom1 pins,
  foldM (pin_thread z) (done, pins0) loom = Ok (loom1, pins) ->
  exists xs : list (Point * list Point * Point),
    loom = map (fun x => snd (fst x)) xs /\
    loom1 = done ++ map pinned_thread xs /\
    pins = add_pins pins0 (flat_map pins_of xs).
Proof.
  induction loom as [| thread loom IH]; intros done pins0 loom1 pins H.
  - inversion H; subst. exists []. cbn. now rewrite !app_nil_r.
  - cbn [foldM] in H. unfold pin_thread at 1 in H.
    destruct (first thread) as [h |] eqn:Eh; cbn [bind] in H; [| discriminate].
    destruct (final (at_level h z :: thread)) as [t |] eqn:Et; cbn [bind] in H;
      [| discriminate].
    apply IH in H. destruct H as (xs & -> & -> & ->).
    exists ((at_level h z, thread, at_level t z) :: xs).
    cbn [map fst snd flat_map pins_of pinned_thread].
    repeat split; now rewrite <- app_assoc.
Qed.

(** The set of pins: what adding a list of points one by one gives. *)
Lemma In_add_pin pins q p : In p (add_pin pins q) <-> In p pins \/ p = q.
Proof.
  unfold add_pin. destruct (mem q pins) eqn:E.
  - apply mem_In in E. split; [now left | intros [H | ->]; assumption].
  - rewrite in_app_iff. cbn [In]. split.
    + intros [H | [H | []]]; [now left | right; now symmetry].
    + intros [H | ->]; [now left | right; now left].
Qed.

Lemma In_add_pins l : forall pins p,
  In p (add_pins pins l) <-> In p pins \/ In p l.
Proof.
  unfold add_pins. induction l as [| q l IH]; intros pins p; cbn [fold_left In].
  - tauto.
  - rewrite IH, In_add_pin. split.
    + intros [[H | ->] | H]; auto.
    + intros [H | [-> | H]]; auto.
Qed.

Lemma add_pins_length l : forall pins,
  (length (add_pins pins l) <= length pins + length l)%nat.
Proof.
  unfold add_pins. induction l as [| q l IH]; intros pins; cbn [fold_left length]; [lia |].
  specialize (IH (add_pin pins q)). unfold add_pin in *.
  destruct (mem q pins); [lia |]. rewrite length_app in IH. cbn [length] in IH. lia.
Qed.

Lemma add_pins_NoDup l : forall pins, NoDup pins -> NoDup (add_pins pins l).
Proof.
  unfold add_pins. induction l as [| q l IH]; intros pins H; cbn [fold_left]; [exact H |].
  apply IH. unfold add_pin. destruct (mem q pins) eqn:E; [exact H |].
  apply NoDup_app; [exact H | repeat constructor; intros [] |].
  intros x Hx [<- | []]. apply mem_In in Hx. congruence.
Qed.

(** When no point is lost, the points were all different. *)
Lemma add_pins_full l : forall pins,
  length (add_pins pins l) = (length pins + length l)%nat ->
  NoDup pins -> add_pins pins l = pins ++ l /\ NoDup (pins ++ l).
Proof.
  induction l as [| q l IH]; intros pins Hlen Hnd.
  - unfold add_pins. cbn [fold_left]. rewrite app_nil_r. now split.
  - change (add_pins pins (q :: l)) with (add_pins (add_pin pins q) l) in *.
    pose proof (add_pins_length l (add_pin pins q)) as Hle.
    unfold add_pin in *. destruct (mem q pins) eqn:E.
    + cbn [length] in Hlen. lia.
    + destruct (IH (pins ++ [q])) as [E1 N1].
      * rewrite Hlen, length_app. cbn [length]. lia.
      * apply NoDup_app; [exact Hnd | repeat constructor; intros [] |].
        intros x Hx [<- | []]. apply mem_In in Hx. congruence.
      * rewrite <- app_assoc in E1, N1. now split.
Qed.

Lemma pinned_threads_points (xs : list (Point * list Point * Point)) :
  Permutation (concat (map pinned_thread xs))
    (concat (map (fun x => snd (fst x)) xs) ++ flat_map pins_of xs).
Proof.
  induction xs as [| [[l t] r] xs IH]; [reflexivity |].
  cbn [map concat flat_map]. rewrite IH.
  unfold pinned_thread, pins_of. cbn [fst snd]. perm.
Qed.

Lemma concat_rev_Permutation {A} (ls : list (list A)) :
  Permutation (concat (rev ls)) (concat ls).
Proof.
  induction ls as [| l ls IH]; [reflexivity |].
  cbn [rev concat]. rewrite concat_app. cbn [concat]. rewrite app_nil_r, IH.
  apply Permutation_app_comm.
Qed.

(** The subtours hold the points of the tour, each once, as soon as a pin
    lies on the tour. *)
Lemma chop_fragments_points pins pre segs :
  Forall (pinned_segment pins) segs -> segs <> [] ->
  Permutation (concat (chop_fragments pre segs)) (pre ++ concat segs).
Proof.
  intros Hsegs Hne. destruct segs as [| seg more]; [congruence |].
  pose proof (Forall_inv Hsegs) as (p & body & -> & _).
  cbn [chop_fragments]. rewrite concat_app.
  etransitivity; [apply Permutation_app_tail, concat_rev_Permutation |].
  cbn [concat]. destruct pre as [| q pre'].
  - cbn [concat app]. rewrite app_nil_r. apply Permutation_app_comm.
  - cbn [firstn tl].
    transitivity (concat more ++ ((q :: pre') ++ [p]) ++ body).
    + apply Permutation_app_head.
      destruct body; cbn [concat]; rewrite ?app_nil_r;
        try apply Permutation_app_tail; symmetry; apply Permutation_rev.
    + perm.
Qed.

Lemma pin_starts_fragment pins pre segs p :
  unpinned pins pre -> Forall (pinned_segment pins) segs ->
  mem p pins = true -> In p (pre ++ concat segs) ->
  exists f, In (p :: f) (chop_fragments pre segs).
Proof.
  intros Hpre Hsegs Hp Hin. apply in_app_or in Hin. destruct Hin as [Hin | Hin].
  { unfold unpinned in Hpre. rewrite Forall_forall in Hpre.
    apply Hpre in Hin. congruence. }
  apply in_concat in Hin. destruct Hin as (seg & Hseg & Hps).
  assert (Hhead : exists body, seg = p :: body).
  { rewrite Forall_forall in Hsegs. destruct (Hsegs _ Hseg) as (q & body & -> & _ & Hb).
    destruct Hps as [-> | Hps]; [now exists body |].
    unfold unpinned in Hb. rewrite Forall_forall in Hb. apply Hb in Hps. congruence. }
  destruct Hhead as (body & ->).
  destruct segs as [| seg1 more]; [destruct Hseg |]. cbn [chop_fragments].
  destruct Hseg as [-> | Hseg].
  - destruct pre as [| q pre'].
    + exists body. apply in_or_app. right. now left.
    + exists (rev (q :: pre')). apply in_or_app. right. left.
      cbn [firstn]. now rewrite rev_app_distr.
  - exists body. apply in_or_app. left. now apply -> in_rev.
Qed.

Lemma fragment_unique (subs : Subtours) :
  NoDup (concat subs) ->
  forall i j f g p,
    nth_error subs i = Some f -> nth_error subs j = Some g ->
    In p f -> In p g -> i = j.
Proof.
  induction subs as [| s subs IH]; intros Hnd i j f g p Hi Hj Hf Hg.
  - destruct i; discriminate.
  - cbn [concat] in Hnd. pose proof (NoDup_app_remove_l _ _ Hnd) as Hnd'.
    assert (Hdis : forall q h k, In q s -> nth_error subs k = Some h -> ~ In q h).
    { intros q h k Hq Hk Hqh. apply nth_error_In in Hk.
      assert (Hc : In q (concat subs)) by (apply in_concat; eauto).
      clear - Hnd Hq Hc. induction s as [| x s IHs]; [destruct Hq |].
      cbn [app] in Hnd. inversion Hnd; subst. destruct Hq as [-> | Hq].
      - apply H1, in_or_app. now right.
      - now apply IHs. }
    destruct i as [| i], j as [| j]; cbn [nth_error] in Hi, Hj.
    + reflexivity.
    + inversion Hi; subst. exfalso. eapply Hdis; eauto.
    + inversion Hj; subst. exfalso. eapply Hdis; eauto.
    + f_equal. eapply IH; eauto.
Qed.

Lemma extend_step_eq thread used idx f0 f' h t :
  first thread = Ok h -> final thread = Ok t ->
  extend_step (thread, used) (idx, f0 :: f')
  = Ok (if existsb (Nat.eqb idx) used then (thread, used)
        else if point_eqb h f0 then (rev f' ++ thread, used ++ [idx])
        else if point_eqb t f0 then (thread ++ f', used ++ [idx])
        else (thread, used)).
Proof.
  intros Hh Ht. unfold extend_step. destruct (existsb (Nat.eqb idx) used); [reflexivity |].
  rewrite Hh. cbn [bind first tl]. destruct (point_eqb h f0); [reflexivity |].
  rewrite Ht. cbn [bind]. destruct (point_eqb t f0); reflexivity.
Qed.

Lemma existsb_eqb_In idx used : existsb (Nat.eqb idx) used = true <-> In idx used.
Proof.
  rewrite existsb_exists. split.
  - intros (x & Hx & E). apply Nat.eqb_eq in E. now subst.
  - intros H. exists idx. split; [assumption | apply Nat.eqb_refl].
Qed.

Lemma first_prepend_rev (fa thread : list Point) h x :
  first thread = Ok h -> first (rev fa ++ thread) = Ok x -> x = h \/ In x fa.
Proof.
  intros Hh Hx. destruct fa as [| y fa] using rev_ind.
  - cbn in Hx. left. congruence.
  - rewrite rev_app_distr in Hx. cbn in Hx. inversion Hx. right.
    apply in_or_app. right. now left.
Qed.

Lemma final_append (thread fb : list Point) t x :
  final thread = Ok t -> final (thread ++ fb) = Ok x -> x = t \/ In x fb.
Proof.
  intros Ht Hx. destruct fb as [| y fb].
  - rewrite app_nil_r in Hx. left. congruence.
  - rewrite final_app_ne in Hx by discriminate. right. now apply final_In.
Qed.

Section OneThread.

Variable subs : Subtours.
Hypothesis Hnd : NoDup (concat subs).
Hypothesis Hne : Forall (fun f : Tour => f <> []) subs.
Variables (l r : Point) (a b : nat) (fa fb : list Point) (U : list nat).
Hypothesis Ha : nth_error subs a = Some (l :: fa).
Hypothesis Hb : nth_error subs b = Some (r :: fb).
Hypothesis Hlr : l <> r.
Hypothesis HaU : ~ In a U.
Hypothesis HbU : ~ In b U.

Lemma pins_fragments_differ : a <> b.
Proof. intros E. rewrite E in Ha. rewrite Ha in Hb. inversion Hb. contradiction. Qed.

Lemma in_fragment_a k f p :
  nth_error subs k = Some f -> In p f -> In p (l :: fa) -> k = a.
Proof. intros Hk Hp Hq. eapply fragment_unique; eauto. Qed.

Lemma in_fragment_b k f p :
  nth_error subs k = Some f -> In p f -> In p (r :: fb) -> k = b.
Proof. intros Hk Hp Hq. eapply fragment_unique; eauto. Qed.

(** The inner loop of [extend_threads] for a thread whose ends are the
    pins [l] and [r]: it consumes exactly the two subtours that start with
    these pins, one on each end. *)
Lemma extend_loop_pins rest : forall k thread used (da db : bool) h t thread0,
  (forall i f, nth_error rest i = Some f -> nth_error subs (k + i) = Some f) ->
  length subs = (k + length rest)%nat ->
  first thread = Ok h -> final thread = Ok t ->
  (if da then In h (l :: fa) /\ (a < k)%nat else h = l /\ (k <= a)%nat) ->
  (if db then In t (r :: fb) /\ (b < k)%nat else t = r /\ (k <= b)%nat) ->
  Permutation used ((if da then [a] else []) ++ (if db then [b] else []) ++ U) ->
  thread = (if da then rev fa else []) ++ thread0 ++ (if db then fb else []) ->
  exists thread' used',
    foldM extend_step (thread, used) (combine (seq k (length rest)) rest)
    = Ok (thread', used') /\
    Permutation used' (a :: b :: U) /\
    thread' = rev fa ++ thread0 ++ fb.
Proof.
  pose proof pins_fragments_differ as Hab.
  induction rest as [| f rest IH];
    intros k thread used da db h t thread0 Hsub Hlen Hh Ht Hda Hdb Hu Hshape.
  - exists thread, used. split; [reflexivity |].
    assert (a < length subs)%nat by (apply nth_error_Some; congruence).
    assert (b < length subs)%nat by (apply nth_error_Some; congruence).
    cbn [length] in Hlen.
    destruct da; [| lia]. destruct db; [| lia]. split; [exact Hu | exact Hshape].
  - assert (Hk : nth_error subs k = Some f).
    { rewrite <- (Nat.add_0_r k). now apply Hsub. }
    assert (Hsub' : forall i g, nth_error rest i = Some g ->
                                nth_error subs (S k + i) = Some g).
    { intros i g Hi. replace (S k + i)%nat with (k + S i)%nat by lia. now apply Hsub. }
    assert (Hlen' : length subs = (S k + length rest)%nat) by (cbn [length] in Hlen; lia).
    destruct f as [| f0 f'].
    { rewrite Forall_forall in Hne. exfalso.
      apply (Hne [] (nth_error_In _ _ Hk) eq_refl). }
    cbn [length seq combine]. 
    assert (Hstep := extend_step_eq thread used k f0 f' h t Hh Ht).
    destruct (existsb (Nat.eqb k) used) eqn:Eu.
    + (* already consumed by an earlier thread *)
      apply existsb_eqb_In in Eu.
      assert (HkU : In k U).
      { apply (Permutation_in _ Hu) in Eu. apply in_app_or in Eu.
        destruct Eu as [Eu | Eu]; [destruct da; [| destruct Eu] |].
        - destruct Eu as [<- | []]. lia.
        - apply in_app_or in Eu. destruct Eu as [Eu | Eu]; [| assumption].
          destruct db; [| destruct Eu]. destruct Eu as [<- | []]. lia. }
      assert (k <> a) by (intros ->; contradiction).
      assert (k <> b) by (intros ->; contradiction).
      destruct (IH (S k) thread used da db h t thread0) as (t' & u' & E & Hp); auto.
      { destruct da; intuition lia. }
      { destruct db; intuition lia. }
      exists t', u'. split; [| assumption]. eapply foldM_step; eassumption.
    + destruct (point_eqb h f0) eqn:E1.
      * (* the subtour starts with the head: it is the one of pin [l] *)
        apply point_eqb_eq in E1. subst f0.
        assert (Hka : k = a).
        { destruct da.
          - eapply in_fragment_a; [exact Hk | now left | apply Hda].
          - destruct Hda as [-> _]. eapply in_fragment_a; [exact Hk | now left | now left]. }
        subst k. assert (da = false) by (destruct da; [lia | reflexivity]). subst da.
        destruct Hda as [-> _]. rewrite Ha in Hk. inversion Hk; subst f'.
        destruct (first_total (rev fa ++ thread)) as (x & Hx).
        { destruct thread; [discriminate |]. destruct (rev fa); discriminate. }
        assert (Ht' : final (rev fa ++ thread) = Ok t).
        { rewrite final_app_ne; [assumption | intros ->; discriminate]. }
        destruct (IH (S a) (rev fa ++ thread) (used ++ [a]) true db x t thread0)
          as (t' & u' & E & Hp); auto.
        { split; [| lia]. destruct (first_prepend_rev _ _ _ _ Hh Hx) as [-> | Hin];
            [now left | now right]. }
        { destruct db; intuition lia. }
        { cbn [app] in *. rewrite Hu. perm. }
        { rewrite Hshape. reflexivity. }
        exists t', u'. split; [| assumption]. eapply foldM_step; eassumption.
      * destruct (point_eqb t f0) eqn:E2.
        -- (* the subtour starts with the tail: it is the one of pin [r] *)
           apply point_eqb_eq in E2. subst f0.
           assert (Hkb : k = b).
           { destruct db.
             - eapply in_fragment_b; [exact Hk | now left | apply Hdb].
             - destruct Hdb as [-> _]. eapply in_fragment_b; [exact Hk | now left | now left]. }
           subst k. assert (db = false) by (destruct db; [lia | reflexivity]). subst db.
           destruct Hdb as [-> _]. rewrite Hb in Hk. inversion Hk; subst f'.
           destruct (final_total (thread ++ fb)) as (x & Hx).
           { destruct thread; [discriminate | discriminate]. }
           assert (Hh' : first (thread ++ fb) = Ok h).
           { rewrite first_app_ne; [assumption | intros ->; discriminate]. }
           destruct (IH (S b) (thread ++ fb) (used ++ [b]) da true h x thread0)
             as (t' & u' & E & Hp); auto.
           { destruct da; intuition lia. }
           { split; [| lia]. destruct (final_append _ _ _ _ Ht Hx) as [-> | Hin];
               [now left | now right]. }
           { cbn [app] in *. rewrite Hu. destruct da; perm. }
           { rewrite Hshape, app_nil_r, <- !app_assoc. reflexivity. }
           exists t', u'. split; [| assumption]. eapply foldM_step; eassumption.
        -- (* the subtour matches neither end *)
           apply point_eqb_neq in E1, E2.
           assert (k <> a \/ da = true).
           { destruct da; [now right | left]. intros ->. destruct Hda as [-> _].
             rewrite Ha in Hk. inversion Hk. congruence. }
           assert (k <> b \/ db = true).
           { destruct db; [now right | left]. intros ->. destruct Hdb as [-> _].
             rewrite Hb in Hk. inversion Hk. congruence. }
           destruct (IH (S k) thread used da db h t thread0) as (t' & u' & E & Hp); auto.
           { destruct da; intuition (try lia; try discriminate). }
           { destruct db; intuition (try lia; try discriminate). }
           exists t', u'. split; [| assumption]. eapply foldM_step; eassumption.
Qed.

End OneThread.

Lemma nth_error_nth_nil (subs : Subtours) i f :
  nth_error subs i = Some f -> nth i subs [] = f.
Proof. intros H. now apply nth_error_nth. Qed.

Lemma firsts_Permutation subs u u' :
  Permutation u u' -> Permutation (firsts subs u) (firsts subs u').
Proof. intros H. unfold firsts. now apply Permutation_flat_map. Qed.

(** The loop over the threads: every thread consumes the two subtours that
    start with its pins. *)
Lemma extend_loom_pins (subs : Subtours) :
  NoDup (concat subs) -> Forall (fun f : Tour => f <> []) subs ->
  forall (xs : list (Point * list Point * Point)) done U,
    NoDup (flat_map pins_of xs) ->
    Forall (fun x => exists a b fa fb,
                nth_error subs a = Some (fst (fst x) :: fa) /\
                nth_error subs b = Some (snd x :: fb)) xs ->
    (forall i p f, In i U -> In p (flat_map pins_of xs) ->
                   nth_error subs i = Some (p :: f) -> False) ->
    Forall (fun i => i < length subs)%nat U ->
    exists loom' U',
      foldM (extend_thread subs) (done, U) (map pinned_thread xs) = Ok (loom', U') /\
      Permutation (firsts subs U') (flat_map pins_of xs ++ firsts subs U) /\
      Forall (fun i => i < length subs)%nat U' /\
      exists exts,
        loom' = done ++ exts /\
        Forall2 (fun x thread' =>
                   exists fa fb,
                     In (fst (fst x) :: fa) subs /\ In (snd x :: fb) subs /\
                     thread' = rev fa ++ pinned_thread x ++ fb) xs exts.
Proof.
  intros Hnd Hne. induction xs as [| [[l t] r] xs IH]; intros done U Hpins Hfr HU Hlt.
  - exists done, U. split; [reflexivity |]. split; [reflexivity |].
    split; [assumption |]. exists []. rewrite app_nil_r. split; [reflexivity | constructor].
  - cbn [flat_map pins_of fst snd app] in Hpins.
    pose proof (Forall_inv Hfr) as (a & b & fa & fb & Ha & Hb). cbn [fst snd] in Ha, Hb.
    apply Forall_inv_tail in Hfr.
    assert (Hlr : l <> r).
    { intros ->. inversion Hpins; subst. apply H1. now left. }
    assert (HaU : ~ In a U).
    { intros H. apply (HU a l fa H); [now left | assumption]. }
    assert (HbU : ~ In b U).
    { intros H. apply (HU b r fb H); [right; now left | assumption]. }
    destruct (extend_loop_pins subs Hnd Hne l r a b fa fb U Ha Hb Hlr HaU HbU
                subs 0%nat (pinned_thread (l, t, r)) U false false l r
                (pinned_thread (l, t, r)))
      as (thread' & U1 & E1 & Hp1 & Hshape); auto.
    { unfold pinned_thread. cbn [fst snd].
      change (l :: t ++ [r]) with ((l :: t) ++ [r]). apply final_app. }
    { split; [reflexivity | lia]. }
    { split; [reflexivity | lia]. }
    { cbn [app]. now rewrite app_nil_r. }
    assert (Hlt1 : Forall (fun i => i < length subs)%nat U1).
    { apply Forall_forall. intros i Hi. apply (Permutation_in _ Hp1) in Hi.
      destruct Hi as [<- | [<- | Hi]].
      - apply nth_error_Some. congruence.
      - apply nth_error_Some. congruence.
      - rewrite Forall_forall in Hlt. now apply Hlt. }
    destruct (IH (done ++ [thread']) U1) as (loom' & U' & E & Hp & Hlt' & exts & El & Hexts).
    + inversion Hpins as [| ? ? _ Hpins']; subst. now inversion Hpins'.
    + assumption.
    + intros i p f Hi Hp Hf. apply (Permutation_in _ Hp1) in Hi.
      inversion Hpins as [| ? ? Hl Hpins']; subst.
      inversion Hpins' as [| ? ? Hr _]; subst.
      destruct Hi as [<- | [<- | Hi]].
      * rewrite Ha in Hf. inversion Hf; subst. apply Hl. now right.
      * rewrite Hb in Hf. inversion Hf; subst. now apply Hr.
      * apply (HU i p f Hi); [| assumption]. right. now right.
    + assumption.
    + exists loom', U'. split; [| split; [| split; [assumption |]]].
      * cbn [map]. eapply foldM_step; [| exact E].
        unfold extend_thread. eapply bind_Ok; [exact E1 | reflexivity].
      * rewrite Hp. rewrite (firsts_Permutation subs _ _ Hp1).
        unfold firsts. cbn [flat_map].
        rewrite (nth_error_nth_nil _ _ _ Ha), (nth_error_nth_nil _ _ _ Hb).
        unfold pins_of at 2. cbn [firstn fst snd]. perm.
      * exists (thread' :: exts). split; [rewrite El, <- app_assoc; reflexivity |].
        constructor; [| exact Hexts].
        exists fa, fb. cbn [fst snd].
        split; [eapply nth_error_In; exact Ha |].
        split; [eapply nth_error_In; exact Hb | exact Hshape].
Qed.

(** ** Consumed and unconsumed subtours partition the subtours *)

Lemma map_snd_enumerate_from {A} (l : list A) k :
  map snd (combine (seq k (length l)) l) = l.
Proof.
  revert k. induction l as [| x l IH]; intros k; cbn; [reflexivity | now rewrite IH].
Qed.

Lemma map_fst_enumerate {A} (l : list A) :
  map fst (enumerate l) = seq 0 (length l).
Proof.
  unfold enumerate. generalize 0%nat. induction l as [| x l IH]; intros k; cbn;
    [reflexivity | now rewrite IH].
Qed.

Lemma filter_fst_NoDup {A} (g : nat * A -> bool) (items : list (nat * A)) :
  NoDup (map fst items) -> NoDup (map fst (filter g items)).
Proof.
  induction items as [| x items IH]; intros H; [constructor |].
  cbn [map] in H. inversion H; subst. cbn [filter].
  destruct (g x); [| now apply IH]. cbn [map]. constructor; [| now apply IH].
  intros Hin. apply H2. apply in_map_iff in Hin. destruct Hin as (y & E & Hy).
  apply filter_In in Hy. apply in_map_iff. exists y. tauto.
Qed.

Lemma remove_item_points (items : list (nat * Tour)) i x :
  NoDup (map fst items) -> In (i, x) items ->
  Permutation (concat (map snd items))
    (x ++ concat (map snd (filter (fun ic => negb (Nat.eqb (fst ic) i)) items))).
Proof.
  induction items as [| [j y] items IH]; intros Hnd Hin; [destruct Hin |].
  cbn [map fst] in Hnd. inversion Hnd; subst. cbn [map snd concat filter fst].
  destruct Hin as [E | Hin].
  - inversion E; subst. rewrite Nat.eqb_refl. cbn [negb].
    apply Permutation_app_head.
    replace (filter (fun ic : nat * Tour => negb (fst ic =? i)%nat) items) with items;
      [reflexivity |].
    symmetry. apply forallb_filter_id. apply forallb_forall. intros [k z] Hk.
    cbn [fst]. apply negb_true_iff, Nat.eqb_neq. intros ->.
    apply H1. apply in_map_iff. now exists (i, z).
  - assert (j <> i).
    { intros ->. apply H1. apply in_map_iff. now exists (i, x). }
    replace (j =? i)%nat with false by (symmetry; now apply Nat.eqb_neq).
    cbn [negb map snd concat]. rewrite (IH H2 Hin). perm.
Qed.

Lemma filter_twice {A} (g h : A -> bool) (l : list A) :
  filter g (filter h l) = filter (fun x => h x && g x) l.
Proof.
  induction l as [| x l IH]; [reflexivity |]. cbn [filter].
  destruct (h x); cbn [filter andb]; [destruct (g x) |]; now rewrite IH.
Qed.

Lemma unused_nil (subs : Subtours) : unused subs [] = subs.
Proof.
  unfold unused. cbn [existsb negb].
  rewrite (forallb_filter_id (fun _ => true)); [apply map_snd_enumerate_from |].
  apply forallb_forall. reflexivity.
Qed.

Lemma In_enumerate {A} (l : list A) (d : A) i :
  (i < length l)%nat -> In (i, nth i l d) (enumerate l).
Proof.
  unfold enumerate. intros H.
  assert (G : forall k, In (k + i, nth i l d)%nat (combine (seq k (length l)) l)).
  { revert i H. induction l as [| x l IH]; intros i H k; cbn [length] in H; [lia |].
    cbn [length seq combine]. destruct i as [| i].
    - left. now rewrite Nat.add_0_r.
    - right. replace (k + S i)%nat with (S k + i)%nat by lia. apply IH. lia. }
  apply (G 0%nat).
Qed.

Lemma used_unused_points (subs : Subtours) used :
  NoDup used -> Forall (fun i => i < length subs)%nat used ->
  Permutation (concat subs)
    (flat_map (fun i => nth i subs []) used ++ concat (unused subs used)).
Proof.
  induction 1 as [| i used Hi Hnd IH]; intros Hlt.
  - rewrite unused_nil. reflexivity.
  - pose proof (Forall_inv Hlt) as Hil. apply Forall_inv_tail in Hlt.
    cbn [flat_map]. etransitivity; [exact (IH Hlt) |].
    transitivity (flat_map (fun i => nth i subs []) used
                  ++ nth i subs [] ++ concat (unused subs (i :: used))); [| perm].
    apply Permutation_app_head. unfold unused.
    etransitivity; [apply (remove_item_points _ i (nth i subs [])) |].
    + apply filter_fst_NoDup. rewrite map_fst_enumerate. apply seq_NoDup.
    + apply filter_In. split; [now apply In_enumerate |]. cbn [fst].
      apply negb_true_iff. destruct (existsb (Nat.eqb i) used) eqn:E; [| reflexivity].
      apply existsb_eqb_In in E. contradiction.
    + rewrite filter_twice. apply Permutation_app_head.
      erewrite filter_ext; [reflexivity |]. intros [j y]. cbn [fst existsb].
      rewrite negb_orb. apply andb_comm.
Qed.

Lemma firsts_rests_points (subs : Subtours) used :
  Permutation (flat_map (fun i => nth i subs []) used)
    (firsts subs used ++ rests subs used).
Proof.
  unfold firsts, rests. induction used as [| i used IH]; [reflexivity |].
  cbn [flat_map]. rewrite IH.
  destruct (nth i subs []) as [| x f]; cbn [firstn tl]; perm.
Qed.

(** One layer-weaving step, when all pins are distinct points of the tour:
    the loom gains the points of the tour, each once. *)
Lemma layer_step_points loom z tour loom1 pins tour' subtours loom' :
  pin_thread_ends loom z = Ok (loom1, pins) ->
  chop tour pins = Ok (tour', subtours) ->
  extend_threads loom1 subtours = Ok loom' ->
  NoDup tour -> length pins = (2 * length loom)%nat -> incl pins tour ->
  Permutation (concat loom') (concat loom ++ tour).
Proof.
  intros Epin Echop Eext Htour Hpins Hincl.
  unfold pin_thread_ends in Epin. apply pin_thread_ends_shape in Epin.
  destruct Epin as (xs & -> & -> & ->). cbn [app] in *.
  assert (Hfull : add_pins [] (flat_map pins_of xs) = flat_map pins_of xs /\
                  NoDup (flat_map pins_of xs)).
  { apply (add_pins_full (flat_map pins_of xs) []); [| constructor].
    rewrite Hpins, length_map. clear. cbn [length].
    induction xs as [| x xs IH]; [reflexivity |].
    cbn [flat_map pins_of length app Nat.add] in *. lia. }
  destruct Hfull as [Efull Hpins']. rewrite Efull in *. clear Hpins.
  rename Hpins' into Hpins.
  destruct (flat_map pins_of xs) as [| pin pins] eqn:Epins.
  - (* no thread yet: the reversed tour seeds the first thread *)
    destruct xs as [| [[l t] r] xs]; [| discriminate].
    cbn in Echop, Eext. inversion Echop; subst. cbn in Eext. inversion Eext; subst.
    cbn [map concat app]. rewrite app_nil_r. symmetry. apply Permutation_rev.
  - rewrite <- Epins in *.
    assert (Hpne : flat_map pins_of xs <> []) by (rewrite Epins; discriminate).
    destruct (tour_decomposition (flat_map pins_of xs) tour)
      as (pre & segs & -> & Hpre & Hsegs).
    rewrite chop_decomposed in Echop by assumption.
    inversion Echop; subst tour' subtours; clear Echop.
    assert (Hfrag : forall p, In p (flat_map pins_of xs) ->
                              exists f, In (p :: f) (chop_fragments pre segs)).
    { intros p Hp. apply pin_starts_fragment with (pins := flat_map pins_of xs); auto.
      now apply mem_In. }
    assert (Hsne : segs <> []).
    { intros ->. destruct (Hfrag pin) as (f & []). rewrite Epins. now left. }
    pose proof (chop_fragments_points _ pre _ Hsegs Hsne) as Hpts.
    assert (Hnd : NoDup (concat (chop_fragments pre segs))).
    { eapply Permutation_NoDup; [symmetry; exact Hpts | assumption]. }
    pose proof (chop_fragments_nonempty _ pre _ Hsegs) as Hne.
    destruct (extend_loom_pins _ Hnd Hne xs [] [])
      as (loomX & U' & E & Hfirsts & Hlt & _).
    + assumption.
    + apply Forall_forall. intros [[l t] r] Hx. cbn [fst snd].
      destruct (Hfrag l) as (fa & Hfa).
      { apply in_flat_map. exists (l, t, r). split; [assumption | now left]. }
      destruct (Hfrag r) as (fb & Hfb).
      { apply in_flat_map. exists (l, t, r). split; [assumption | right; now left]. }
      apply In_nth_error in Hfa, Hfb. destruct Hfa as (a & Ha), Hfb as (b & Hb).
      now exists a, b, fa, fb.
    + intros i p f [].
    + constructor.
    + unfold extend_threads in Eext.
      assert (Eext' : Ok (loomX ++ unused (chop_fragments pre segs) U') = Ok loom').
      { rewrite <- Eext. symmetry. eapply bind_Ok; [exact E | reflexivity]. }
      inversion Eext'; subst loom'; clear Eext' Eext.
      apply extend_loom_inv in E. destruct E as (exts & new & -> & -> & _ & Hexts & HndU).
      cbn [app] in *. specialize (HndU (NoDup_nil _)).
      rewrite concat_app. rewrite Hexts.
      rewrite (pinned_threads_points xs).
      rewrite <- Hpts.
      rewrite (used_unused_points (chop_fragments pre segs) new HndU Hlt).
      rewrite (firsts_rests_points (chop_fragments pre segs) new).
      rewrite Hfirsts. rewrite app_nil_r. perm.
Qed.

(** ** The first layers, by evaluation *)

Lemma nodupb_NoDup l : nodupb l = true -> NoDup l.
Proof.
  induction l as [| p l IH]; intros H; [constructor |].
  cbn [nodupb] in H. apply andb_true_iff in H. destruct H as [Hp Hl].
  constructor; [| now apply IH].
  intros Hin. apply mem_In in Hin. rewrite Hin in Hp. discriminate.
Qed.

Lemma same_points_Permutation l l' :
  nodupb l = true -> same_points l l' = true -> Permutation l l'.
Proof.
  intros Hl H. unfold same_points in H. apply andb_true_iff in H. destruct H as [Hlen Hin].
  apply NoDup_Permutation_bis.
  - now apply nodupb_NoDup.
  - now apply Nat.leb_le.
  - intros p Hp. rewrite forallb_forall in Hin. now apply mem_In, Hin.
Qed.

Lemma adjacentb_adjacent p q : adjacentb p q = true -> adjacent p q.
Proof.
  unfold adjacentb, adjacent. rewrite !orb_true_iff, !andb_true_iff, !Z.eqb_eq. tauto.
Qed.

Lemma pathb_path l : pathb l = true -> path l.
Proof.
  induction l as [| p l IH]; intros H; [exact I |].
  destruct l as [| q l]; [exact I |].
  cbn [pathb] in H. apply andb_true_iff in H. destruct H as [Hpq H].
  split; [now apply adjacentb_adjacent | now apply IH].
Qed.

Lemma closed_cycleb_closed_cycle l : closed_cycleb l = true -> closed_cycle l.
Proof.
  unfold closed_cycleb. intros H. apply andb_true_iff in H. destruct H as [Hp H].
  split; [now apply pathb_path |].
  destruct (first l) as [p |]; [| discriminate].
  destruct (final l) as [q |]; [| discriminate].
  exists p, q. repeat split. now apply adjacentb_adjacent.
Qed.

Lemma layers_ok_sound n k :
  layers_ok n k = true ->
  exists loom,
    weave_layers n k = Ok loom /\
    NoDup (concat loom) /\ Permutation (concat loom) (slices n k).
Proof.
  unfold layers_ok. destruct (weave_layers n k) as [loom |]; [| discriminate].
  intros H. apply andb_true_iff in H. destruct H as [Hn Hs].
  exists loom. split; [reflexivity |]. split; [now apply nodupb_NoDup |].
  now apply same_points_Permutation.
Qed.

Lemma weave_ok_sound choose n :
  weave_ok choose n = true ->
  exists solution, weave choose n = Ok solution /\ hamiltonian n solution.
Proof.
  unfold weave_ok. destruct (weave choose n) as [solution |]; [| discriminate].
  intros H. apply andb_true_iff in H. destruct H as [H Hc].
  apply andb_true_iff in H. destruct H as [Hl Hn].
  exists solution. split; [reflexivity |]. split; [now apply Z.eqb_eq |].
  split; [now apply nodupb_NoDup | now apply closed_cycleb_closed_cycle].
Qed.

Lemma get_z_color_size_length n : (length (get_z_color_size n) <= Z.to_nat n)%nat.
Proof.
  unfold get_z_color_size, range2. rewrite zip3_length, length_map, length_seq.
  replace (0 - - (n * 2 - 1) + 1) with (n * 2) by lia.
  rewrite Z.div_mul by lia. lia.
Qed.

Lemma layers_beyond n k :
  (Z.to_nat n <= k)%nat ->
  weave_layers n k = weave_layers n (Z.to_nat n) /\ slices n k = slices n (Z.to_nat n).
Proof.
  intros H. pose proof (get_z_color_size_length n) as Hl.
  unfold weave_layers, slices. rewrite !firstn_all2 by lia. now split.
Qed.

(** Up to eight layers, every layer-weaving step leaves a loom in which no
    point occurs twice and whose points are those of the slices woven so
    far. *)
Lemma first_layers_partition n k :
  1 <= n <= 8 ->
  exists loom,
    weave_layers n k = Ok loom /\
    NoDup (concat loom) /\ Permutation (concat loom) (slices n k).
Proof.
  intros Hn.
  assert (Hall : forallb (fun m => forallb (layers_ok (Z.of_nat m))
                                     (seq 0 (S m))) (seq 1 8) = true)
    by (vm_compute; reflexivity).
  rewrite forallb_forall in Hall.
  specialize (Hall (Z.to_nat n)). rewrite Z2Nat.id in Hall by lia.
  assert (Hin : In (Z.to_nat n) (seq 1 8)) by (apply in_seq; lia).
  specialize (Hall Hin). rewrite forallb_forall in Hall.
  destruct (le_lt_dec (Z.to_nat n) k) as [Hk | Hk].
  - destruct (layers_beyond n k Hk) as [-> ->].
    apply layers_ok_sound, Hall, in_seq. lia.
  - apply layers_ok_sound, Hall, in_seq. lia.
Qed.

(** Up to eight layers the weave is a Hamiltonian cycle, whichever candidate
    bridge edge is popped first or last. *)
Lemma first_weaves_hamiltonian n :
  1 <= n <= 8 ->
  (exists solution,
     weave (fun _ => 0%nat) n = Ok solution /\ hamiltonian n solution) /\
  (exists solution,
     weave (fun s => pred (length s)) n = Ok solution /\ hamiltonian n solution).
Proof.
  intros Hn.
  assert (Hall : forallb (fun m => weave_ok (fun _ => 0%nat) (Z.of_nat m)
                                   && weave_ok (fun s => pred (length s)) (Z.of_nat m))
                   (seq 1 8) = true)
    by (vm_compute; reflexivity).
  rewrite forallb_forall in Hall.
  specialize (Hall (Z.to_nat n)). rewrite Z2Nat.id in Hall by lia.
  assert (Hin : In (Z.to_nat n) (seq 1 8)) by (apply in_seq; lia).
  apply Hall, andb_true_iff in Hin. destruct Hin as [H0 H1].
  split; now apply weave_ok_sound.
Qed.

(** ** The partition along the pipeline *)


(** * Further properties of the code *)

(** ** Graph information ([src/weaver/info.py]) *)

Lemma nth_error_zip3 {A B C} (a : list A) (b : list B) (c : list C) : forall k,
  nth_error (zip3 a b c) k =
  match nth_error a k, nth_error b k, nth_error c k with
  | Some x, Some y, Some z => Some (x, y, z)
  | _, _, _ => None
  end.
Proof.
  revert b c. induction a as [| x a IH]; intros b c k.
  - cbn. destruct k; reflexivity.
  - destruct b as [| y b].
    + cbn. destruct k; cbn; [reflexivity |]. destruct (nth_error a k); reflexivity.
    + destruct c as [| z c].
      * cbn. destruct k; cbn; [reflexivity |].
        destruct (nth_error a k); [| reflexivity]. destruct (nth_error b k); reflexivity.
      * destruct k; cbn; [reflexivity | apply IH].
Qed.

Lemma nth_error_nests (nest : Z * Z) m : forall k,
  (k < 2 * m)%nat ->
  nth_error (flat_map (fun nest : Z * Z => [fst nest; snd nest]) (repeat nest m)) k
  = Some (if Nat.even k then fst nest else snd nest).
Proof.
  induction m as [| m IH]; intros k Hk; [lia |].
  cbn [repeat flat_map app].
  destruct k as [| [| k]]; [reflexivity | reflexivity |].
  cbn [nth_error]. rewrite IH by lia. reflexivity.
Qed.

Lemma range2_length start stop :
  length (range2 start stop) = Z.to_nat ((stop - start + 1) / 2).
Proof. unfold range2. now rewrite length_map, length_seq. Qed.

Lemma range1_length n : length (range1 n) = Z.to_nat n.
Proof. unfold range1. now rewrite length_map, length_seq. Qed.

Lemma levels_count n : (0 - - (n * 2 - 1) + 1) / 2 = n.
Proof. replace (0 - - (n * 2 - 1) + 1) with (n * 2) by lia. apply Z.div_mul. lia. Qed.

(** X1 ([get_n_from_radius], [get_radius_from_n], [get_order_from_radius]):
    the number of layers of the radius of [n] layers is [n]; the radius of
    the number of layers of a radius is that radius when it is odd and the
    radius less 1 when it is even; and the order computed from the radius
    of [n] layers is the order of [n] layers. *)
Theorem radius_of_n_round_trip :
  (forall n, get_n_from_radius (get_radius_from_n n) = n) /\
  (forall radius, radius mod 2 = 1 ->
     get_radius_from_n (get_n_from_radius radius) = radius) /\
  (forall radius, radius mod 2 = 0 ->
     get_radius_from_n (get_n_from_radius radius) = radius - 1) /\
  (forall n, get_order_from_radius (get_radius_from_n n) = get_order_from_n n).
Proof.
  assert (R : forall n, get_n_from_radius (get_radius_from_n n) = n).
  { intros n. unfold get_n_from_radius, get_radius_from_n.
    replace (n * 2 - 1 + 1) with (n * 2) by lia. apply Z.div_mul. lia. }
  repeat split.
  - exact R.
  - intros radius H. unfold get_n_from_radius, get_radius_from_n.
    pose proof (Z.div_mod (radius + 1) 2 ltac:(lia)) as E.
    assert ((radius + 1) mod 2 = 0).
    { rewrite Z.add_mod by lia. rewrite H. reflexivity. }
    lia.
  - intros radius H. unfold get_n_from_radius, get_radius_from_n.
    pose proof (Z.div_mod (radius + 1) 2 ltac:(lia)) as E.
    assert ((radius + 1) mod 2 = 1).
    { rewrite Z.add_mod by lia. rewrite H. reflexivity. }
    lia.
  - intros n. unfold get_order_from_radius. now rewrite R.
Qed.

Lemma radius_of_n_round_trip_witness :
  get_radius_from_n (get_n_from_radius 5) = 5 /\
  get_radius_from_n (get_n_from_radius 6) = 6 - 1.
Proof.
  split.
  - apply (proj1 (proj2 radius_of_n_round_trip)). reflexivity.
  - apply (proj1 (proj2 (proj2 radius_of_n_round_trip))). reflexivity.
Defined.

Lemma three_consecutive n : ((n + 2) * (n + 1) * n) mod 3 = 0.
Proof.
  pose proof (Z.div_mod n 3 ltac:(lia)) as E.
  pose proof (Z.mod_pos_bound n 3 ltac:(lia)) as B.
  set (q := n / 3) in *. set (r := n mod 3) in *.
  assert (C : r = 0 \/ r = 1 \/ r = 2) by lia.
  destruct C as [C | [C | C]]; rewrite E, C.
  - replace ((3 * q + 0 + 2) * (3 * q + 0 + 1) * (3 * q + 0))
      with ((3 * q + 2) * (3 * q + 1) * q * 3) by ring.
    apply Z.mod_mul. lia.
  - replace ((3 * q + 1 + 2) * (3 * q + 1 + 1) * (3 * q + 1))
      with ((q + 1) * (3 * q + 2) * (3 * q + 1) * 3) by ring.
    apply Z.mod_mul. lia.
  - replace ((3 * q + 2 + 2) * (3 * q + 2 + 1) * (3 * q + 2))
      with ((3 * q + 4) * (q + 1) * (3 * q + 2) * 3) by ring.
    apply Z.mod_mul. lia.
Qed.

Lemma get_order_from_n_times3 n :
  3 * get_order_from_n n = 4 * (n + 2) * (n + 1) * n.
Proof.
  unfold get_order_from_n.
  pose proof (Z.div_mod (4 * (n + 2) * (n + 1) * n) 3 ltac:(lia)) as E.
  assert (M : (4 * (n + 2) * (n + 1) * n) mod 3 = 0).
  { replace (4 * (n + 2) * (n + 1) * n) with (4 * ((n + 2) * (n + 1) * n)) by ring.
    rewrite Z.mul_mod by lia. rewrite three_consecutive. reflexivity. }
  lia.
Qed.

(** X2 ([get_order_from_n]): the floor division by 3 loses nothing, for
    every integer [n]: three times the order is [4 (n + 2) (n + 1) n].  One
    more layer adds [4 (n + 1) (n + 2)] vertices, and the order is never
    negative when [n >= 0]. *)
Theorem get_order_from_n_exact n :
  3 * get_order_from_n n = 4 * (n + 2) * (n + 1) * n /\
  get_order_from_n (n + 1) = get_order_from_n n + 4 * (n + 1) * (n + 2) /\
  (0 <= n -> 0 <= get_order_from_n n).
Proof.
  pose proof (get_order_from_n_times3 n) as A.
  pose proof (get_order_from_n_times3 (n + 1)) as B.
  split; [exact A |]. split; [nia |]. intros Hn. nia.
Qed.

Lemma even_to_nat k : 0 <= k -> Nat.even (Z.to_nat k) = (k mod 2 =? 0).
Proof.
  intros Hk. destruct (Nat.even (Z.to_nat k)) eqn:E; symmetry.
  - apply Nat.even_spec in E. destruct E as [m E].
    apply Z.eqb_eq. Z.to_euclidean_division_equations. lia.
  - assert (O : Nat.odd (Z.to_nat k) = true) by (now rewrite <- Nat.negb_even, E).
    apply Nat.odd_spec in O. destruct O as [m O].
    apply Z.eqb_neq. Z.to_euclidean_division_equations. lia.
Qed.

Lemma get_z_color_size_nth n k :
  0 <= k < n ->
  nth_error (get_z_color_size n) (Z.to_nat k)
  = Some (2 * k + 1 - 2 * n,
          (if (n - k) mod 2 =? 0 then 1 else 3),
          2 * (k + 1) * (k + 2)).
Proof.
  intros Hk. unfold get_z_color_size. rewrite nth_error_zip3.
  unfold range2, range1. rewrite levels_count.
  rewrite !nth_error_map.
  rewrite !nth_error_seq.
  assert (L : (Z.to_nat k <? Z.to_nat n)%nat = true) by (apply Nat.ltb_lt; lia).
  rewrite L. cbn [option_map].
  rewrite nth_error_nests by lia.
  rewrite even_to_nat by lia.
  f_equal. f_equal; [f_equal |].
  - lia.
  - destruct (n mod 2 =? 0) eqn:En; destruct (k mod 2 =? 0) eqn:Ek;
      destruct ((n - k) mod 2 =? 0) eqn:Enk; cbn; try reflexivity; exfalso;
      rewrite ?Z.eqb_eq, ?Z.eqb_neq in *;
      Z.to_euclidean_division_equations; lia.
  - rewrite Nat.add_0_l, Z2Nat.id by lia. ring.
Qed.

Lemma get_z_color_size_count n : length (get_z_color_size n) = Z.to_nat n.
Proof.
  unfold get_z_color_size. rewrite zip3_length, range2_length, levels_count.
  rewrite nests_length, length_map, range1_length. lia.
Qed.

(** X3 ([get_z_color_size]): the list has [n] entries, none when
    [n <= 0]; the entry of rank [k], counted from 0, is the elevation
    [2 k + 1 - 2 n], the colour 3 when [n - k] is odd and 1 when it is even,
    and the size [2 (k + 1) (k + 2)]. *)
Theorem get_z_color_size_layers n :
  length (get_z_color_size n) = Z.to_nat n /\
  (n <= 0 -> get_z_color_size n = []) /\
  (forall k, 0 <= k < n ->
     nth_error (get_z_color_size n) (Z.to_nat k)
     = Some (2 * k + 1 - 2 * n,
             (if (n - k) mod 2 =? 0 then 1 else 3),
             2 * (k + 1) * (k + 2))).
Proof.
  split; [apply get_z_color_size_count |]. split.
  - intros Hn. apply length_zero_iff_nil. rewrite get_z_color_size_count. lia.
  - apply get_z_color_size_nth.
Qed.

Lemma get_z_color_size_layers_witness :
  get_z_color_size 0 = [] /\
  nth_error (get_z_color_size 3) (Z.to_nat 1)
  = Some (2 * 1 + 1 - 2 * 3, (if (3 - 1) mod 2 =? 0 then 1 else 3), 2 * (1 + 1) * (1 + 2)).
Proof.
  split.
  - apply (proj1 (proj2 (get_z_color_size_layers 0))). lia.
  - apply (proj2 (proj2 (get_z_color_size_layers 3)) 1). lia.
Defined.

(** ** The length of the yarn *)

Lemma flat_map_ext_in {A B} (f g : A -> list B) (l : list A) :
  (forall a, In a l -> f a = g a) -> flat_map f l = flat_map g l.
Proof.
  induction l as [| a l IH]; intros H; [reflexivity |].
  cbn. rewrite H by now left. rewrite IH; [reflexivity |].
  intros b Hb. apply H. now right.
Qed.

Lemma ring_sizes_closed n :
  1 <= n ->
  ring_sizes (2 * n - 1)
  = flat_map (fun x => [x; x]) (odds (Z.to_nat (n - 1))) ++ repeat (2 * n - 1) 3.
Proof.
  intros Hn. unfold ring_sizes, range2.
  replace (Z.to_nat ((2 * n - 1 + 1 - 1 + 1) / 2)) with (S (Z.to_nat (n - 1))).
  2:{ replace (2 * n - 1 + 1 - 1 + 1) with (n * 2) by lia. rewrite Z.div_mul by lia. lia. }
  rewrite seq_S, map_app, flat_map_app. cbn [map flat_map Nat.add].
  rewrite app_nil_r. f_equal.
  - unfold odds. apply flat_map_ext_in. intros x Hx.
    apply in_map_iff in Hx. destruct Hx as [k [<- Hk]]. apply in_seq in Hk.
    replace (1 + 2 * Z.of_nat k =? 2 * n - 1) with false; [reflexivity |].
    symmetry. apply Z.eqb_neq. lia.
  - replace (1 + 2 * Z.of_nat (Z.to_nat (n - 1))) with (2 * n - 1) by lia.
    now rewrite Z.eqb_refl.
Qed.

Lemma zigzag_steps_from_length dpv (sizes : list Z) : forall k,
  length (flat_map
            (fun '(idx, size) => map (zigzag_at dpv idx) (seq 0 (Z.to_nat size)))
            (combine (seq k (length sizes)) sizes))
  = list_sum (map Z.to_nat sizes).
Proof.
  induction sizes as [| s sizes IH]; intros k; [reflexivity |].
  cbn [length seq combine flat_map map list_sum fold_right].
  rewrite length_app, length_map, length_seq, IH. reflexivity.
Qed.

Lemma spin_length steps : forall p, length (spin p steps) = S (length steps).
Proof. induction steps as [| d ds IH]; intros p; cbn; [reflexivity | now rewrite IH]. Qed.

Lemma odds_S m : odds (S m) = odds m ++ [1 + 2 * Z.of_nat m].
Proof. unfold odds. now rewrite seq_S, map_app. Qed.

Lemma rings_sum m :
  list_sum (map Z.to_nat (flat_map (fun x => [x; x]) (odds m))) = (2 * m * m)%nat.
Proof.
  induction m as [| m IH]; [reflexivity |].
  rewrite odds_S, flat_map_app, map_app, list_sum_app, IH.
  cbn [flat_map map app list_sum fold_right]. lia.
Qed.

Lemma spun_of_length n :
  1 <= n -> Z.of_nat (length (spun_of (2 * n - 1))) = 2 * n * (n + 1).
Proof.
  intros Hn. unfold spun_of.
  destruct ((2 * n - 1 + 1) / 2 mod 2 =? 0);
    rewrite spin_length; unfold zigzag_steps, enumerate;
    rewrite zigzag_steps_from_length, ring_sizes_closed by lia;
    rewrite map_app, list_sum_app, rings_sum; cbn [repeat map list_sum fold_right]; nia.
Qed.

(** X4 ([spin_yarn]): for [n >= 1], each of the two yarns spun for the
    radius of [n] layers, colours 1 and 3, has [2 n (n + 1)] points; asking
    the spool for any other colour raises [KeyError]. *)
Theorem spin_yarn_length n color :
  1 <= n ->
  (color = 1 \/ color = 3 ->
   exists yarn, lookup (spin_yarn (get_radius_from_n n)) color = Ok yarn /\
                Z.of_nat (length yarn) = 2 * n * (n + 1)) /\
  (color <> 1 -> color <> 3 ->
   lookup (spin_yarn (get_radius_from_n n)) color = Raise KeyError).
Proof.
  intros Hn. unfold get_radius_from_n. replace (n * 2 - 1) with (2 * n - 1) by lia.
  unfold spin_yarn. cbn [lookup]. split.
  - intros [-> | ->].
    + eexists. split; [reflexivity |]. rewrite length_map. now apply spun_of_length.
    + eexists. split; [reflexivity |]. now apply spun_of_length.
  - intros H1 H3.
    destruct (3 =? color) eqn:E3; [apply Z.eqb_eq in E3; lia |].
    destruct (1 =? color) eqn:E1; [apply Z.eqb_eq in E1; lia |]. reflexivity.
Qed.

Lemma spin_yarn_length_witness :
  (exists yarn, lookup (spin_yarn (get_radius_from_n 3)) 3 = Ok yarn /\
                Z.of_nat (length yarn) = 2 * 3 * (3 + 1)) /\
  lookup (spin_yarn (get_radius_from_n 3)) 5 = Raise KeyError.
Proof.
  split.
  - apply (spin_yarn_length 3 3); [lia | right; reflexivity].
  - apply (spin_yarn_length 3 5); lia.
Defined.

(** ** The ends of the yarn *)

Lemma final_spin steps : forall p, final (spin p steps) = Ok (walk p steps).
Proof.
  induction steps as [| d ds IH]; intros p; [reflexivity |].
  cbn [spin]. specialize (IH (fst p + fst d, snd p + snd d)).
  destruct (spin (fst p + fst d, snd p + snd d) ds) eqn:E.
  - destruct ds; discriminate.
  - rewrite final_cons. exact IH.
Qed.

Lemma walk_app p a b : walk p (a ++ b) = walk (walk p a) b.
Proof. apply fold_left_app. Qed.

Lemma steps_from_app dpv k a b :
  steps_from dpv k (a ++ b) = steps_from dpv k a ++ steps_from dpv (k + length a) b.
Proof.
  unfold steps_from. rewrite length_app, seq_app, combine_app_same, flat_map_app.
  - reflexivity.
  - now rewrite length_seq.
Qed.

Lemma steps_from_cons dpv k s sizes :
  steps_from dpv k (s :: sizes)
  = map (zigzag_at dpv k) (seq 0 (Z.to_nat s)) ++ steps_from dpv (S k) sizes.
Proof. reflexivity. Qed.

Lemma zigzag_at_idx4 dpv idx i : zigzag_at dpv (idx + 4) i = zigzag_at dpv idx i.
Proof.
  unfold zigzag_at.
  replace ((idx + 4) mod 4)%nat with (idx mod 4)%nat.
  2:{ symmetry. apply (Nat.Div0.mod_add idx 1 4). }
  replace ((idx + 4 + i) mod 2)%nat with ((idx + i) mod 2)%nat; [reflexivity |].
  replace (idx + 4 + i)%nat with (idx + i + 2 * 2)%nat by lia.
  symmetry. apply Nat.Div0.mod_add.
Qed.

Lemma zigzag_at_block dpv q c i : zigzag_at dpv (4 * q + c) i = zigzag_at dpv c i.
Proof.
  induction q as [| q IH]; [reflexivity |].
  replace (4 * S q + c)%nat with (4 * q + c + 4)%nat by lia.
  now rewrite zigzag_at_idx4.
Qed.

Lemma zigzag_at_i2 dpv idx i : zigzag_at dpv idx (i + 2) = zigzag_at dpv idx i.
Proof.
  unfold zigzag_at.
  replace ((idx + (i + 2)) mod 2)%nat with ((idx + i) mod 2)%nat; [reflexivity |].
  replace (idx + (i + 2))%nat with (idx + i + 1 * 2)%nat by lia.
  symmetry. apply Nat.Div0.mod_add.
Qed.

(** A segment of odd size [2 m + 1] takes [m + 1] steps of its first
    displacement and [m] of its second. *)
Lemma walk_segment dpv idx m : forall p,
  walk p (map (zigzag_at dpv idx) (seq 0 (S (2 * m))))
  = (fst p + Z.of_nat (S m) * fst (zigzag_at dpv idx 0)
           + Z.of_nat m * fst (zigzag_at dpv idx 1),
     snd p + Z.of_nat (S m) * snd (zigzag_at dpv idx 0)
           + Z.of_nat m * snd (zigzag_at dpv idx 1)).
Proof.
  induction m as [| m IH]; intros p.
  - unfold walk, shift. change (2 * 0)%nat with 0%nat.
    cbn [seq map fold_left fst snd]. f_equal; lia.
  - replace (S (2 * S m)) with (S (2 * m) + 2)%nat by lia.
    rewrite seq_app, map_app, walk_app, IH. cbn [seq map Nat.add].
    replace (S (2 * m)) with (1 + (m + m))%nat by lia.
    replace (S (1 + (m + m))) with (0 + (m + 1) * 2)%nat by lia.
    assert (E1 : forall k, zigzag_at dpv idx (1 + (k + k)) = zigzag_at dpv idx 1).
    { induction k as [| k IHk]; [reflexivity |].
      replace (1 + (S k + S k))%nat with (1 + (k + k) + 2)%nat by lia.
      now rewrite zigzag_at_i2. }
    assert (E0 : forall k, zigzag_at dpv idx (0 + k * 2) = zigzag_at dpv idx 0).
    { induction k as [| k IHk]; [reflexivity |].
      replace (0 + S k * 2)%nat with (0 + k * 2 + 2)%nat by lia.
      now rewrite zigzag_at_i2. }
    rewrite E1, E0. unfold walk, shift. cbn [fold_left fst snd]. f_equal; lia.
Qed.

Lemma rings_length m : length (rings m) = (2 * m)%nat.
Proof.
  unfold rings. induction m as [| m IH]; [reflexivity |].
  rewrite odds_S, flat_map_app, length_app, IH. cbn. lia.
Qed.

Lemma rings_S m : rings (S m) = rings m ++ [1 + 2 * Z.of_nat m; 1 + 2 * Z.of_nat m].
Proof. unfold rings. now rewrite odds_S, flat_map_app. Qed.

Lemma ring_sizes_rings n :
  1 <= n -> ring_sizes (2 * n - 1) = rings (Z.to_nat n) ++ [2 * n - 1].
Proof.
  intros Hn. rewrite ring_sizes_closed by lia.
  replace (Z.to_nat n) with (S (Z.to_nat (n - 1))) by lia.
  rewrite rings_S. fold (rings (Z.to_nat (n - 1))).
  replace (1 + 2 * Z.of_nat (Z.to_nat (n - 1))) with (2 * n - 1) by lia.
  rewrite <- app_assoc. reflexivity.
Qed.

Lemma walk_one dpv idx c q m p s :
  idx = (4 * q + c)%nat -> Z.to_nat s = S (2 * m) ->
  walk p (map (zigzag_at dpv idx) (seq 0 (Z.to_nat s)))
  = (fst p + Z.of_nat (S m) * fst (zigzag_at dpv c 0)
           + Z.of_nat m * fst (zigzag_at dpv c 1),
     snd p + Z.of_nat (S m) * snd (zigzag_at dpv c 0)
           + Z.of_nat m * snd (zigzag_at dpv c 1)).
Proof. intros -> ->. now rewrite walk_segment, !zigzag_at_block. Qed.

Lemma walk_rings_zigzags q : forall p,
  walk p (steps_from zigzags 0 (rings (2 * q))) = (fst p, snd p - 4 * Z.of_nat q).
Proof.
  induction q as [| q IH]; intros p.
  - cbn. destruct p; cbn. f_equal; lia.
  - replace (2 * S q)%nat with (S (S (2 * q))) by lia.
    rewrite !rings_S, <- app_assoc. cbn [app].
    rewrite steps_from_app, walk_app, IH, rings_length. cbn [Nat.add].
    rewrite !steps_from_cons, !walk_app.
    rewrite (walk_one zigzags (2 * (2 * q)) 0 q (2 * q)) by lia.
    rewrite (walk_one zigzags (S (2 * (2 * q))) 1 q (2 * q)) by lia.
    rewrite (walk_one zigzags (S (S (2 * (2 * q)))) 2 q (S (2 * q))) by lia.
    rewrite (walk_one zigzags (S (S (S (2 * (2 * q))))) 3 q (S (2 * q))) by lia.
    zigzag_values. cbn [steps_from length seq combine flat_map walk fold_left fst snd].
    f_equal; lia.
Qed.

Lemma walk_rings_rotated q : forall p,
  walk p (steps_from rotated 0 (rings (2 * q))) = (fst p, snd p + 4 * Z.of_nat q).
Proof.
  induction q as [| q IH]; intros p.
  - cbn. destruct p; cbn. f_equal; lia.
  - replace (2 * S q)%nat with (S (S (2 * q))) by lia.
    rewrite !rings_S, <- app_assoc. cbn [app].
    rewrite steps_from_app, walk_app, IH, rings_length. cbn [Nat.add].
    rewrite !steps_from_cons, !walk_app.
    rewrite (walk_one rotated (2 * (2 * q)) 0 q (2 * q)) by lia.
    rewrite (walk_one rotated (S (2 * (2 * q))) 1 q (2 * q)) by lia.
    rewrite (walk_one rotated (S (S (2 * (2 * q)))) 2 q (S (2 * q))) by lia.
    rewrite (walk_one rotated (S (S (S (2 * (2 * q))))) 3 q (S (2 * q))) by lia.
    zigzag_values. cbn [steps_from length seq combine flat_map walk fold_left fst snd].
    f_equal; lia.
Qed.

Lemma spun_of_even q :
  (1 <= q)%nat ->
  spun_of (2 * (2 * Z.of_nat q) - 1)
  = spin (1, 1) (steps_from zigzags 0 (rings (2 * q) ++ [2 * (2 * Z.of_nat q) - 1])).
Proof.
  intros Hq. unfold spun_of.
  replace ((2 * (2 * Z.of_nat q) - 1 + 1) / 2) with (2 * Z.of_nat q).
  2:{ replace (2 * (2 * Z.of_nat q) - 1 + 1) with (2 * Z.of_nat q * 2) by lia.
      now rewrite Z.div_mul by lia. }
  replace (2 * Z.of_nat q) with (Z.of_nat q * 2) at 1 by lia.
  rewrite Z.mod_mul by lia. cbn [Z.eqb].
  rewrite ring_sizes_rings by lia.
  replace (Z.to_nat (2 * Z.of_nat q)) with (2 * q)%nat by lia.
  reflexivity.
Qed.

Lemma spun_of_odd q :
  spun_of (2 * (2 * Z.of_nat q + 1) - 1)
  = spin (-1, 1)
      (steps_from rotated 0
         (rings (2 * q) ++ [1 + 2 * Z.of_nat (2 * q); 1 + 2 * Z.of_nat (2 * q);
                           1 + 2 * Z.of_nat (2 * q)])).
Proof.
  unfold spun_of.
  replace ((2 * (2 * Z.of_nat q + 1) - 1 + 1) / 2) with (2 * Z.of_nat q + 1).
  2:{ replace (2 * (2 * Z.of_nat q + 1) - 1 + 1) with ((2 * Z.of_nat q + 1) * 2) by lia.
      now rewrite Z.div_mul by lia. }
  replace ((2 * Z.of_nat q + 1) mod 2) with 1.
  2:{ replace (2 * Z.of_nat q + 1) with (1 + Z.of_nat q * 2) by lia.
      now rewrite Z_mod_plus_full. }
  cbn [Z.eqb].
  rewrite ring_sizes_rings by lia.
  replace (Z.to_nat (2 * Z.of_nat q + 1)) with (S (2 * q)) by lia.
  rewrite rings_S, <- app_assoc. cbn [app].
  replace (2 * (2 * Z.of_nat q + 1) - 1) with (1 + 2 * Z.of_nat (2 * q)) by lia.
  reflexivity.
Qed.

Lemma spun_of_final n : 1 <= n -> final (spun_of (2 * n - 1)) = Ok (2 * n - 1, 1).
Proof.
  intros Hn.
  pose proof (Z.div_mod n 2 ltac:(lia)) as E.
  pose proof (Z.mod_pos_bound n 2 ltac:(lia)) as B.
  set (q := Z.to_nat (n / 2)).
  assert (C : n = 2 * Z.of_nat q \/ n = 2 * Z.of_nat q + 1) by lia.
  destruct C as [C | C]; rewrite C.
  - rewrite spun_of_even by lia. rewrite final_spin. f_equal.
    rewrite steps_from_app, walk_app, walk_rings_zigzags, rings_length.
    cbn [Nat.add]. rewrite steps_from_cons, walk_app.
    rewrite (walk_one zigzags (2 * (2 * q)) 0 q (2 * q - 1)) by lia.
    zigzag_values. cbn [steps_from length seq combine flat_map walk fold_left fst snd].
    f_equal; lia.
  - rewrite spun_of_odd. rewrite final_spin. f_equal.
    rewrite steps_from_app, walk_app, walk_rings_rotated, rings_length.
    cbn [Nat.add]. rewrite !steps_from_cons, !walk_app.
    rewrite (walk_one rotated (2 * (2 * q)) 0 q (2 * q)) by lia.
    rewrite (walk_one rotated (S (2 * (2 * q))) 1 q (2 * q)) by lia.
    rewrite (walk_one rotated (S (S (2 * (2 * q)))) 2 q (2 * q)) by lia.
    zigzag_values. cbn [steps_from length seq combine flat_map walk fold_left fst snd].
    f_equal; lia.
Qed.

Lemma spun_of_first n :
  1 <= n -> first (spun_of (2 * n - 1)) = Ok (if n mod 2 =? 0 then (1, 1) else (-1, 1)).
Proof.
  intros Hn. unfold spun_of.
  replace ((2 * n - 1 + 1) / 2) with n.
  2:{ replace (2 * n - 1 + 1) with (n * 2) by lia. now rewrite Z.div_mul by lia. }
  destruct (n mod 2 =? 0).
  - destruct (zigzag_steps zigzags (ring_sizes (2 * n - 1))); reflexivity.
  - destruct (zigzag_steps (skipn 2 zigzags ++ firstn 2 zigzags) (ring_sizes (2 * n - 1)));
      reflexivity.
Qed.

Lemma final_map {A B} (f : A -> B) (l : list A) x :
  final l = Ok x -> final (map f l) = Ok (f x).
Proof.
  induction l as [| a [| b l] IH]; [discriminate | |].
  - intros H. inversion H. reflexivity.
  - intros H. cbn [map]. rewrite final_cons. apply IH. exact H.
Qed.

Lemma first_map {A B} (f : A -> B) (l : list A) x :
  first l = Ok x -> first (map f l) = Ok (f x).
Proof. destruct l; [discriminate |]. intros H. inversion H. reflexivity. Qed.

(** X5 ([spin_yarn]): for [n >= 1], the yarn of colour 3 starts at
    [(1, 1)] when [n] is even and at [(-1, 1)] when [n] is odd, and ends at
    [(radius, 1)]; the yarn of colour 1 starts at the other of the two
    points and ends at [(- radius, 1)]. *)
Theorem spin_yarn_ends n :
  1 <= n ->
  exists blue red,
    lookup (spin_yarn (get_radius_from_n n)) 3 = Ok blue /\
    lookup (spin_yarn (get_radius_from_n n)) 1 = Ok red /\
    first blue = Ok (if n mod 2 =? 0 then (1, 1) else (-1, 1)) /\
    final blue = Ok (get_radius_from_n n, 1) /\
    first red = Ok (if n mod 2 =? 0 then (-1, 1) else (1, 1)) /\
    final red = Ok (- get_radius_from_n n, 1).
Proof.
  intros Hn. unfold get_radius_from_n. replace (n * 2 - 1) with (2 * n - 1) by lia.
  exists (spun_of (2 * n - 1)), (map reflect (spun_of (2 * n - 1))).
  split; [reflexivity |]. split; [reflexivity |].
  pose proof (spun_of_first n Hn) as F. pose proof (spun_of_final n Hn) as L.
  split; [exact F |]. split; [exact L |]. split.
  - rewrite (first_map _ _ _ F). destruct (n mod 2 =? 0); reflexivity.
  - rewrite (final_map _ _ _ L). unfold reflect. cbn [fst snd]. f_equal. f_equal; lia.
Qed.

Lemma spin_yarn_ends_witness :
  exists blue red,
    lookup (spin_yarn (get_radius_from_n 3)) 3 = Ok blue /\
    lookup (spin_yarn (get_radius_from_n 3)) 1 = Ok red /\
    first blue = Ok (if 3 mod 2 =? 0 then (1, 1) else (-1, 1)) /\
    final blue = Ok (get_radius_from_n 3, 1) /\
    first red = Ok (if 3 mod 2 =? 0 then (-1, 1) else (1, 1)) /\
    final red = Ok (- get_radius_from_n 3, 1).
Proof. apply (spin_yarn_ends 3). lia. Defined.

(** ** The size of the slices *)

Lemma firstn_succ_nth {A} (l : list A) : forall k x,
  nth_error l k = Some x -> firstn (S k) l = firstn k l ++ [x].
Proof.
  induction l as [| a l IH]; intros [| k] x H; try discriminate.
  - inversion H. reflexivity.
  - cbn [firstn app]. f_equal. now apply IH.
Qed.

Lemma lookup_spin_yarn n color :
  1 <= n -> color = 1 \/ color = 3 ->
  exists yarn, lookup (spin_yarn (get_radius_from_n n)) color = Ok yarn /\
               Z.of_nat (length yarn) = 2 * n * (n + 1).
Proof.
  intros Hn Hc. unfold get_radius_from_n. replace (n * 2 - 1) with (2 * n - 1) by lia.
  unfold spin_yarn. cbn [lookup]. destruct Hc as [-> | ->].
  - eexists. split; [reflexivity |]. rewrite length_map. now apply spun_of_length.
  - eexists. split; [reflexivity |]. now apply spun_of_length.
Qed.

Lemma slice_length n k :
  0 <= k < n ->
  Z.of_nat (length (slice (spin_yarn (get_radius_from_n n))
                      (2 * k + 1 - 2 * n,
                       (if (n - k) mod 2 =? 0 then 1 else 3),
                       2 * (k + 1) * (k + 2))))
  = 2 * (k + 1) * (k + 2).
Proof.
  intros Hk. unfold slice.
  destruct (lookup_spin_yarn n (if (n - k) mod 2 =? 0 then 1 else 3)) as [yarn [E L]];
    [lia | destruct ((n - k) mod 2 =? 0); auto |].
  rewrite E, length_map, length_firstn. nia.
Qed.

Lemma slices_length n k :
  (k <= Z.to_nat n)%nat ->
  2 * Z.of_nat (length (slices n k)) = get_order_from_n (Z.of_nat k).
Proof.
  intros Hk. induction k as [| k IH].
  - reflexivity.
  - pose proof (get_z_color_size_nth n (Z.of_nat k) ltac:(lia)) as N.
    rewrite Nat2Z.id in N. unfold slices in *.
    rewrite (firstn_succ_nth _ _ _ N), flat_map_app, length_app.
    cbn [flat_map]. rewrite app_nil_r.
    pose proof (slice_length n (Z.of_nat k) ltac:(lia)) as SL.
    pose proof (get_order_from_n_times3 (Z.of_nat k)) as O1.
    pose proof (get_order_from_n_times3 (Z.of_nat (S k))) as O2.
    specialize (IH ltac:(lia)). nia.
Qed.

Lemma layer_closed_form n zcs :
  In zcs (get_z_color_size n) ->
  exists k, 0 <= k < n /\
    zcs = (2 * k + 1 - 2 * n, (if (n - k) mod 2 =? 0 then 1 else 3), 2 * (k + 1) * (k + 2)).
Proof.
  intros H. apply In_nth_error in H. destruct H as [i H].
  assert (Hi : (i < Z.to_nat n)%nat).
  { rewrite <- get_z_color_size_count. apply nth_error_Some. congruence. }
  exists (Z.of_nat i). split; [lia |].
  pose proof (get_z_color_size_nth n (Z.of_nat i) ltac:(lia)) as N.
  rewrite Nat2Z.id in N. congruence.
Qed.

(** X6 ([weave], [get_z_color_size], [spin_yarn]): the yarn is never
    too short: the slice [yarns[color][:size]] of every layer has exactly
    [size] points.  The slices of the first [k] layers have together half
    as many points as the ball of [k] layers has vertices, and the slices
    of all the layers half the order of the ball. *)
Theorem slices_hold_half_order n :
  (forall zcs, In zcs (get_z_color_size n) ->
     Z.of_nat (length (slice (spin_yarn (get_radius_from_n n)) zcs)) = snd zcs) /\
  (forall k, (k <= Z.to_nat n)%nat ->
     2 * Z.of_nat (length (slices n k)) = get_order_from_n (Z.of_nat k)) /\
  (0 <= n -> 2 * Z.of_nat (length (slices n (Z.to_nat n))) = get_order_from_n n).
Proof.
  split; [| split].
  - intros zcs H. apply layer_closed_form in H. destruct H as [k [Hk ->]].
    now apply slice_length.
  - apply slices_length.
  - intros Hn. rewrite slices_length by lia. f_equal. lia.
Qed.

Lemma slices_hold_half_order_witness :
  Z.of_nat (length (slice (spin_yarn (get_radius_from_n 3)) (-3, 1, 12))) = 12 /\
  2 * Z.of_nat (length (slices 3 2)) = get_order_from_n 2 /\
  2 * Z.of_nat (length (slices 3 (Z.to_nat 3))) = get_order_from_n 3.
Proof.
  destruct (slices_hold_half_order 3) as [A [B C]]. split; [| split].
  - apply (A (-3, 1, 12)). vm_compute. auto.
  - apply (B 2%nat). vm_compute. lia.
  - apply C. lia.
Defined.

(** ** Pinning the thread ends ([pin_thread_ends]) *)

Lemma pin_thread_nonempty z done pins thread :
  thread <> [] ->
  exists h t,
    first thread = Ok h /\ final thread = Ok t /\
    pin_thread z (done, pins) thread
    = Ok (done ++ [at_level h z :: thread ++ [at_level t z]],
          add_pin (add_pin pins (at_level h z)) (at_level t z)).
Proof.
  intros H. destruct thread as [| h thread]; [congruence |].
  destruct (final_total (h :: thread) ltac:(discriminate)) as [t Ht].
  exists h, t. split; [reflexivity |]. split; [exact Ht |].
  unfold pin_thread. cbn [first bind].
  replace (final (at_level h z :: h :: thread)) with (Ok t); reflexivity.
Qed.

Lemma pin_loop z loom : forall done pins,
  Forall (fun thread : list Point => thread <> []) loom ->
  exists loom1 pins1,
    foldM (pin_thread z) (done, pins) loom = Ok (done ++ loom1, pins1) /\
    Forall2 (pinned_as z) loom loom1 /\
    (forall p, In p pins1 <->
               In p pins \/
               exists thread', In thread' loom1 /\
                               (first thread' = Ok p \/ final thread' = Ok p)) /\
    (NoDup pins -> NoDup pins1).
Proof.
  induction loom as [| thread loom IH]; intros done pins H.
  - exists [], pins. rewrite !app_nil_r. split; [reflexivity |]. split; [constructor |].
    split; [| trivial].
    intros p. split; [now left | intros [Hp | [t [[] _]]]; exact Hp].
  - inversion H as [| ? ? Hne Hrest]; subst.
    destruct (pin_thread_nonempty z done pins thread Hne) as [h [t [Hh [Ht E]]]].
    destruct (IH (done ++ [at_level h z :: thread ++ [at_level t z]])
                 (add_pin (add_pin pins (at_level h z)) (at_level t z)) Hrest)
      as [loom1 [pins1 [E1 [F1 [P1 N1]]]]].
    exists ((at_level h z :: thread ++ [at_level t z]) :: loom1), pins1.
    split; [| split; [| split]].
    + eapply foldM_step; [exact E |]. rewrite <- !app_assoc in E1. exact E1.
    + constructor; [now exists h, t | exact F1].
    + intros p. rewrite P1, !In_add_pin. split.
      * intros [[[Hp | ->] | ->] | [t' [Hin Hp]]].
        -- now left.
        -- right. eexists. split; [now left |]. left. reflexivity.
        -- right. eexists. split; [now left |]. right.
           change (at_level h z :: thread ++ [at_level t z])
             with ((at_level h z :: thread) ++ [at_level t z]).
           apply final_app.
        -- right. exists t'. split; [now right | exact Hp].
      * intros [Hp | [t' [[<- | Hin] Hp]]].
        -- left. left. now left.
        -- left. destruct Hp as [Hp | Hp].
           ++ inversion Hp. left. now right.
           ++ change (at_level h z :: thread ++ [at_level t z])
                with ((at_level h z :: thread) ++ [at_level t z]) in Hp.
              rewrite final_app in Hp. inversion Hp. now right.
        -- right. now exists t'.
    + intros Hn. apply N1.
      apply (add_pins_NoDup [at_level h z; at_level t z] pins Hn).
Qed.

Lemma pin_loop_raises z loom : forall done pins,
  Exists (fun thread : list Point => thread = []) loom ->
  foldM (pin_thread z) (done, pins) loom = Raise IndexError.
Proof.
  induction loom as [| thread loom IH]; intros done pins H; [inversion H |].
  destruct thread as [| h thread].
  - reflexivity.
  - inversion H as [? ? Hh | ? ? Hrest]; subst; [discriminate |].
    destruct (pin_thread_nonempty z done pins (h :: thread) ltac:(discriminate))
      as [h' [t [_ [_ E]]]].
    eapply foldM_step; [exact E |]. now apply IH.
Qed.

Lemma Forall2_In_r {A B} (R : A -> B -> Prop) (l : list A) (l' : list B) y :
  Forall2 R l l' -> In y l' -> exists x, In x l /\ R x y.
Proof.
  induction 1 as [| a b l l' Hab _ IH]; intros H; [destruct H |].
  destruct H as [<- | H].
  - exists a. split; [now left | exact Hab].
  - destruct (IH H) as [x [Hx Hr]]. exists x. split; [now right | exact Hr].
Qed.

(** X7 ([pin_thread_ends]): when no thread of the loom is empty, the
    call succeeds; every thread gets on each end a copy of that end moved
    to the elevation [z]; the pins are exactly the first and last points
    of the threads so extended, each held once in the set, and all lie at
    elevation [z].  When some thread is empty, the call raises
    [IndexError]. *)
Theorem pin_thread_ends_pins loom z :
  (Forall (fun thread : list Point => thread <> []) loom ->
   exists loom1 pins,
     pin_thread_ends loom z = Ok (loom1, pins) /\
     Forall2 (pinned_as z) loom loom1 /\
     (forall p, In p pins <->
                exists thread', In thread' loom1 /\
                                (first thread' = Ok p \/ final thread' = Ok p)) /\
     Forall (fun p => pz p = z) pins /\
     NoDup pins) /\
  (Exists (fun thread : list Point => thread = []) loom ->
   pin_thread_ends loom z = Raise IndexError).
Proof.
  split.
  - intros H. destruct (pin_loop z loom [] [] H) as [loom1 [pins [E [F [P0 N]]]]].
    assert (P : forall p, In p pins <->
                exists thread', In thread' loom1 /\
                                (first thread' = Ok p \/ final thread' = Ok p)).
    { intros p. rewrite P0. split; [intros [[] | Hp]; exact Hp | intros Hp; now right]. }
    exists loom1, pins. split; [exact E |]. split; [exact F |]. split; [exact P |].
    split; [| apply N; constructor].
    apply Forall_forall. intros p Hp. apply P in Hp.
    destruct Hp as [t' [Hin Hp]].
    destruct (Forall2_In_r _ _ _ _ F Hin) as [t0 [_ [h [t [_ [_ ->]]]]]].
    destruct Hp as [Hp | Hp].
    + inversion Hp. reflexivity.
    + change (at_level h z :: t0 ++ [at_level t z])
        with ((at_level h z :: t0) ++ [at_level t z]) in Hp.
      rewrite final_app in Hp. inversion Hp. reflexivity.
  - apply pin_loop_raises.
Qed.

Lemma pin_thread_ends_pins_witness :
  (exists loom1 pins,
     pin_thread_ends [[(1, 1, -3); (1, -1, -3)]] (-1) = Ok (loom1, pins) /\
     Forall2 (pinned_as (-1)) [[(1, 1, -3); (1, -1, -3)]] loom1 /\
     (forall p, In p pins <->
                exists thread', In thread' loom1 /\
                                (first thread' = Ok p \/ final thread' = Ok p)) /\
     Forall (fun p => pz p = -1) pins /\
     NoDup pins) /\
  pin_thread_ends [[(1, 1, -3)]; []] (-1) = Raise IndexError.
Proof.
  split.
  - apply (pin_thread_ends_pins [[(1, 1, -3); (1, -1, -3)]] (-1)).
    repeat constructor. discriminate.
  - apply (pin_thread_ends_pins [[(1, 1, -3)]; []] (-1)).
    right. left. reflexivity.
Defined.

(** ** What [chop] keeps of the tour *)

Lemma chop_fragments_tails pins pre segs :
  unpinned pins pre -> Forall (pinned_segment pins) segs ->
  Forall (fun f : Tour => unpinned pins (tl f)) (chop_fragments pre segs).
Proof.
  intros Hpre Hsegs. destruct segs as [| seg more]; [constructor |].
  inversion Hsegs as [| ? ? [p [body [-> [Hp Hbody]]]] Hmore]; subst.
  unfold chop_fragments. apply Forall_app. split.
  - apply Forall_rev. eapply Forall_impl; [| exact Hmore].
    intros f [q [b [-> [_ Hb]]]]. exact Hb.
  - destruct pre as [| x pre].
    + constructor; [exact Hbody | constructor].
    + cbn [firstn tl]. constructor.
      * rewrite rev_app_distr. cbn [rev app tl].
        change (rev pre ++ [x]) with (rev (x :: pre)). apply Forall_rev. exact Hpre.
      * destruct body as [| b body]; [constructor |].
        constructor; [| constructor]. cbn [tl]. now inversion Hbody.
Qed.

(** X8 ([chop]): [chop] never raises.  When there is no pin, or when
    at least one point of the tour is a pin, the subtours hold the points
    of the tour, each as often as the tour does.  When there are pins but
    none of them lies on the tour, no subtour is returned and the tour is
    left as it was. *)
Theorem chop_keeps_points tour pins :
  exists tour' subtours,
    chop tour pins = Ok (tour', subtours) /\
    (pins = [] \/ (1 <= pinned_count tour pins)%nat ->
     Permutation (concat subtours) tour) /\
    (pins <> [] -> pinned_count tour pins = 0%nat -> subtours = [] /\ tour' = tour).
Proof.
  destruct pins as [| pin pins].
  - exists tour, [rev tour]. split; [reflexivity |]. split.
    + intros _. cbn [concat]. rewrite app_nil_r. symmetry. apply Permutation_rev.
    + intros H. congruence.
  - destruct (tour_decomposition (pin :: pins) tour) as [pre [segs [-> [Hpre Hsegs]]]].
    exists (chop_leaves pre segs), (chop_fragments pre segs).
    split; [apply chop_decomposed; [discriminate | assumption | assumption] |].
    rewrite (pinned_count_decomposed _ _ _ Hpre Hsegs). split.
    + intros [H | H]; [discriminate |].
      apply (chop_fragments_points (pin :: pins)); [exact Hsegs |].
      destruct segs; [cbn in H; lia | discriminate].
    + intros _ H. destruct segs; [| discriminate]. cbn. now rewrite app_nil_r.
Qed.

Lemma chop_keeps_points_witness :
  (exists tour' subtours,
     chop [(1, 1, 1); (3, 1, 1); (3, 3, 1)] [(3, 1, 1)] = Ok (tour', subtours) /\
     Permutation (concat subtours) [(1, 1, 1); (3, 1, 1); (3, 3, 1)]) /\
  (exists tour' subtours,
     chop [(1, 1, 1); (3, 1, 1); (3, 3, 1)] [(5, 5, 5)] = Ok (tour', subtours) /\
     subtours = [] /\ tour' = [(1, 1, 1); (3, 1, 1); (3, 3, 1)]).
Proof.
  split.
  - destruct (chop_keeps_points [(1, 1, 1); (3, 1, 1); (3, 3, 1)] [(3, 1, 1)])
      as [tour' [subtours [E [A _]]]].
    exists tour', subtours. split; [exact E |]. apply A. right. vm_compute. lia.
  - destruct (chop_keeps_points [(1, 1, 1); (3, 1, 1); (3, 3, 1)] [(5, 5, 5)])
      as [tour' [subtours [E [_ B]]]].
    exists tour', subtours. split; [exact E |]. apply B; [discriminate | reflexivity].
Defined.

(** X9 ([chop]): with at least one pin, every pin that lies on the
    tour is the first point of some subtour, and no subtour holds a pin
    after its first point. *)
Theorem chop_pins_lead tour pins tour' subtours :
  pins <> [] ->
  chop tour pins = Ok (tour', subtours) ->
  (forall p, mem p pins = true -> In p tour -> exists f, In (p :: f) subtours) /\
  Forall (fun f : Tour => unpinned pins (tl f)) subtours.
Proof.
  intros Hpins E.
  destruct (tour_decomposition pins tour) as [pre [segs [-> [Hpre Hsegs]]]].
  rewrite (chop_decomposed _ _ _ Hpins Hpre Hsegs) in E. inversion E; subst.
  split.
  - intros p Hp Hin. now apply (pin_starts_fragment pins).
  - now apply chop_fragments_tails.
Qed.

Lemma chop_pins_lead_witness :
  (forall p, mem p [(3, 1, 1); (1, 3, 1)] = true ->
             In p [(1, 1, 1); (3, 1, 1); (3, 3, 1); (1, 3, 1)] ->
             exists f, In (p :: f) [[(1, 3, 1)]; [(3, 1, 1); (1, 1, 1)]; [(3, 3, 1)]]) /\
  Forall (fun f : Tour => unpinned [(3, 1, 1); (1, 3, 1)] (tl f))
    [[(1, 3, 1)]; [(3, 1, 1); (1, 1, 1)]; [(3, 3, 1)]].
Proof.
  apply (chop_pins_lead [(1, 1, 1); (3, 1, 1); (3, 3, 1); (1, 3, 1)]
           [(3, 1, 1); (1, 3, 1)]
           [(1, 1, 1); (3, 1, 1); (3, 3, 1)]).
  - discriminate.
  - reflexivity.
Defined.

(** ** When [extend_threads] succeeds *)

Lemma extend_step_total thread used idx subtour :
  thread <> [] -> subtour <> [] ->
  exists thread' used',
    extend_step (thread, used) (idx, subtour) = Ok (thread', used') /\ thread' <> [].
Proof.
  intros Ht Hs.
  destruct (first_total thread Ht) as [h Hh]. destruct (final_total thread Ht) as [t Hl].
  destruct subtour as [| f0 f']; [congruence |].
  rewrite (extend_step_eq _ _ _ _ _ _ _ Hh Hl).
  destruct (existsb (Nat.eqb idx) used); [now eauto |].
  destruct (point_eqb h f0).
  - do 2 eexists. split; [reflexivity |].
    intros E. apply app_eq_nil in E. now destruct E.
  - destruct (point_eqb t f0); [| now eauto].
    do 2 eexists. split; [reflexivity |].
    intros E. apply app_eq_nil in E. now destruct E.
Qed.

Lemma extend_loop_total items : forall thread used,
  Forall (fun it : nat * Tour => snd it <> []) items -> thread <> [] ->
  exists thread' used',
    foldM extend_step (thread, used) items = Ok (thread', used') /\ thread' <> [].
Proof.
  induction items as [| [idx subtour] items IH]; intros thread used H Ht.
  - now exists thread, used.
  - inversion H as [| ? ? Hs Hrest]; subst. cbn [snd] in Hs.
    destruct (extend_step_total thread used idx subtour Ht Hs) as [t1 [u1 [E1 Ht1]]].
    destruct (IH t1 u1 Hrest Ht1) as [t2 [u2 [E2 Ht2]]].
    exists t2, u2. split; [| exact Ht2]. eapply foldM_step; eassumption.
Qed.

Lemma enumerate_nonempty (subtours : Subtours) :
  Forall (fun f : Tour => f <> []) subtours ->
  Forall (fun it : nat * Tour => snd it <> []) (enumerate subtours).
Proof.
  intros H. apply Forall_forall. intros [i f] Hin.
  apply in_combine_r in Hin. cbn [snd]. revert f Hin. now apply Forall_forall.
Qed.

Lemma extend_loom_total subtours loom : forall done used,
  Forall (fun f : Tour => f <> []) subtours ->
  Forall (fun thread : list Point => thread <> []) loom ->
  exists exts used',
    foldM (extend_thread subtours) (done, used) loom = Ok (done ++ exts, used') /\
    Forall (fun thread : list Point => thread <> []) exts /\
    length exts = length loom.
Proof.
  induction loom as [| thread loom IH]; intros done used Hs Hl.
  - exists [], used. rewrite app_nil_r. repeat split. constructor.
  - inversion Hl as [| ? ? Ht Hrest]; subst.
    destruct (extend_loop_total (enumerate subtours) thread used
                (enumerate_nonempty _ Hs) Ht) as [t1 [u1 [E1 Ht1]]].
    destruct (IH (done ++ [t1]) u1 Hs Hrest) as [exts [u2 [E2 [F2 L2]]]].
    exists (t1 :: exts), u2. split; [| split].
    + eapply foldM_step.
      * unfold extend_thread. eapply bind_Ok; [exact E1 | reflexivity].
      * rewrite <- app_assoc in E2. exact E2.
    + now constructor.
    + cbn. now rewrite L2.
Qed.

Lemma unused_length subtours used : (length (unused subtours used) <= length subtours)%nat.
Proof.
  unfold unused, enumerate. rewrite length_map.
  etransitivity; [apply filter_length_le |].
  rewrite length_combine, length_seq. lia.
Qed.

Lemma extend_loom_no_subtours loom : forall done used,
  foldM (extend_thread []) (done, used) loom = Ok (done ++ loom, used).
Proof.
  induction loom as [| thread loom IH]; intros done used.
  - now rewrite app_nil_r.
  - eapply foldM_step; [reflexivity |]. rewrite IH, <- app_assoc. reflexivity.
Qed.

(** X10 ([extend_threads]): on threads and subtours that are all
    non-empty the call succeeds, leaves no empty thread, and leaves at
    least as many threads as before and at most as many more as there are
    subtours.  On an empty loom every subtour becomes a thread; with no
    subtour the loom is unchanged.  When the first thread or the first
    subtour is empty (and neither list is), the call raises [IndexError]. *)
Theorem extend_threads_total :
  (forall loom subtours,
     Forall (fun thread : list Point => thread <> []) loom ->
     Forall (fun f : Tour => f <> []) subtours ->
     exists loom',
       extend_threads loom subtours = Ok loom' /\
       Forall (fun thread : list Point => thread <> []) loom' /\
       (length loom <= length loom' <= length loom + length subtours)%nat) /\
  (forall subtours, extend_threads [] subtours = Ok subtours) /\
  (forall loom, extend_threads loom [] = Ok loom) /\
  (forall thread loom subtour subtours,
     thread = [] \/ subtour = [] ->
     extend_threads (thread :: loom) (subtour :: subtours) = Raise IndexError).
Proof.
  split; [| split; [| split]].
  - intros loom subtours Hl Hs.
    destruct (extend_loom_total subtours loom [] [] Hs Hl) as [exts [used [E [F L]]]].
    exists (exts ++ unused subtours used). split; [| split].
    + unfold extend_threads. eapply bind_Ok; [exact E | reflexivity].
    + apply Forall_app. split; [exact F |].
      apply Forall_forall. intros f Hf. apply unused_In in Hf.
      revert f Hf. now apply Forall_forall.
    + rewrite length_app, L. pose proof (unused_length subtours used). lia.
  - intros subtours. unfold extend_threads. cbn [foldM bind app].
    now rewrite unused_nil.
  - intros loom. unfold extend_threads. rewrite extend_loom_no_subtours.
    cbn [bind app]. now rewrite app_nil_r.
  - intros thread loom subtour subtours [-> | ->].
    + reflexivity.
    + destruct thread; reflexivity.
Qed.

Lemma extend_threads_total_witness :
  exists loom',
    extend_threads [[(1, 1, 1); (3, 1, 1)]] [[(3, 1, 1); (5, 1, 1)]; [(7, 7, 1)]]
    = Ok loom' /\
    Forall (fun thread : list Point => thread <> []) loom' /\
    (length [[(1, 1, 1); (3, 1, 1)]] <= length loom'
     <= length [[(1, 1, 1); (3, 1, 1)]]
        + length [[(3, 1, 1); (5, 1, 1)]; [(7, 7, 1)]])%nat.
Proof.
  apply (proj1 extend_threads_total).
  - repeat constructor. discriminate.
  - repeat constructor; discriminate.
Defined.

(** ** The mirrored loom ([mirror_chains]) *)

Lemma negz_involutive p : negz (negz p) = p.
Proof. destruct p as [[x y] z]. unfold negz, px, py, pz. cbn. f_equal. lia. Qed.

Lemma map_negz_involutive l : map negz (map negz l) = l.
Proof.
  rewrite map_map. rewrite <- (map_id l) at 2. apply map_ext. apply negz_involutive.
Qed.

Lemma negz_injective p q : negz p = negz q -> p = q.
Proof. intros H. rewrite <- (negz_involutive p), H. apply negz_involutive. Qed.

Lemma NoDup_map_negz l : NoDup l -> NoDup (map negz l).
Proof.
  induction 1 as [| p l Hp _ IH]; cbn [map]; constructor; [| exact IH].
  intros H. apply in_map_iff in H. destruct H as [q [E Hq]].
  apply negz_injective in E. subst q. contradiction.
Qed.

Lemma mirror_points loom :
  Permutation (concat (mirror_chains loom)) (concat loom ++ map negz (concat loom)).
Proof.
  induction loom as [| thread loom IH]; [reflexivity |].
  unfold mirror_chains in *. cbn [map concat]. rewrite IH, map_app.
  rewrite <- (Permutation_rev thread).
  perm.
Qed.

Lemma NoDup_mirror l :
  Forall (fun p => pz p < 0) l -> NoDup l -> NoDup (l ++ map negz l).
Proof.
  intros Hz Hn. apply NoDup_app; [exact Hn | |].
  - now apply NoDup_map_negz.
  - intros p Hp Hq. apply in_map_iff in Hq. destruct Hq as [q [<- Hq]].
    rewrite Forall_forall in Hz. pose proof (Hz _ Hp) as A. pose proof (Hz _ Hq) as B.
    unfold negz, pz in *. cbn in A. lia.
Qed.

(** X11 ([mirror_chains]): every mirrored thread is its own image
    under [z -> - z] read backwards; the mirrored loom holds the points of
    the loom and their images; if the loom has no repeated point and lies
    strictly below the plane [z = 0], the mirrored loom has no repeated
    point. *)
Theorem mirror_chains_symmetric loom :
  Forall (fun cycle => map negz (rev cycle) = cycle) (mirror_chains loom) /\
  Permutation (concat (mirror_chains loom)) (concat loom ++ map negz (concat loom)) /\
  (Forall (fun p => pz p < 0) (concat loom) -> NoDup (concat loom) ->
   NoDup (concat (mirror_chains loom))).
Proof.
  split; [| split].
  - unfold mirror_chains. apply Forall_map, Forall_forall. intros thread _.
    rewrite rev_app_distr, map_app, <- map_rev, rev_involutive, map_negz_involutive.
    reflexivity.
  - apply mirror_points.
  - intros Hz Hn. eapply Permutation_NoDup.
    + symmetry. apply mirror_points.
    + now apply NoDup_mirror.
Qed.

Lemma mirror_chains_symmetric_witness :
  NoDup (concat (mirror_chains [[(1, 1, -3); (1, 1, -1)]; [(3, 1, -1)]])).
Proof.
  apply (proj2 (proj2 (mirror_chains_symmetric [[(1, 1, -3); (1, 1, -1)]; [(3, 1, -1)]]))).
  - repeat constructor.
  - apply nodupb_NoDup. reflexivity.
Defined.

(** ** Adjacent edges ([Weaver.get_eadj], [LoomThread.get_eadjs]) *)

Lemma In_to_set l e : In e l -> In e (to_set l).
Proof.
  induction l as [| f l IH]; intros H; [destruct H |].
  cbn [to_set]. destruct (edge_eqb f e) eqn:E.
  - apply edge_eqb_eq in E. now left.
  - right. apply filter_In. split.
    + destruct H as [H | H]; [| now apply IH].
      subst f. rewrite (proj2 (edge_eqb_eq e e) eq_refl) in E. discriminate.
    + now rewrite E.
Qed.

(** X12 ([Weaver.get_eadj], [LoomThread.get_eadjs],
    [LoomThread.get_edges]): let [e] be an edge whose second end has its
    [x] and its [y] in [{1, 3}], so that [get_eadjs] keeps it, and [e'] the
    edge [get_eadjs] returns for it.  Then [get_eadj e'] is [e] again
    exactly when [e] is not an edge along the y axis (its ends differ in
    [x], or agree in [y]); this is the case of every edge that [get_edges]
    returns. *)
Theorem eadj_round_trip e :
  (px (snd e) = 1 \/ px (snd e) = 3) -> (py (snd e) = 1 \/ py (snd e) = 3) ->
  exists e',
    get_eadjs [e] = [e'] /\
    (forall edges, In e edges -> In e' (get_eadjs edges)) /\
    (get_eadj e' = [e] <-> px (fst e) <> px (snd e) \/ py (fst e) = py (snd e)) /\
    (forall thread joined, In e (get_edges thread joined) -> get_eadj e' = [e]).
Proof.
  destruct e as [[[a b] c] [[x y] z]]. unfold px, py. cbn [fst snd]. intros Hx Hy.
  assert (K : ((x =? 1) || (x =? 3)) && ((y =? 1) || (y =? 3)) = true).
  { apply andb_true_iff. split; apply orb_true_iff.
    - destruct Hx as [-> | ->]; [now left | now right].
    - destruct Hy as [-> | ->]; [now left | now right]. }
  set (e' := (if negb (a =? x) then ((a, b - 2, c), (x, y - 2, z))
              else if negb (b =? y) then ((a, b, c + 2), (x, y, z + 2))
              else ((a - 2, b, c), (x - 2, y, z))) : Edge).
  assert (T : get_eadj e' = [(a, b, c, (x, y, z))] <-> a <> x \/ b = y).
  { unfold e'. destruct (a =? x) eqn:Ea; cbn [negb].
    - apply Z.eqb_eq in Ea. subst x. destruct (b =? y) eqn:Eb; cbn [negb].
      + apply Z.eqb_eq in Eb. subst y. unfold get_eadj.
        rewrite Z.eqb_refl. cbn [negb]. split; [now right |]. intros _.
        repeat f_equal; lia.
      + apply Z.eqb_neq in Eb. unfold get_eadj. rewrite Z.eqb_refl. cbn [negb]. split.
        * intros H. inversion H. lia.
        * intros [H | H]; congruence.
    - apply Z.eqb_neq in Ea. unfold get_eadj.
      replace (a =? x) with false by (symmetry; now apply Z.eqb_neq). cbn [negb].
      split; [now left |]. intros _. repeat f_equal; lia. }
  exists e'. split; [| split; [| split]].
  - unfold get_eadjs. cbn [filter]. rewrite K. reflexivity.
  - intros edges Hin. unfold get_eadjs. apply In_to_set.
    apply in_map_iff. exists (a, b, c, (x, y, z)). split; [reflexivity |].
    apply filter_In. split; [exact Hin | exact K].
  - exact T.
  - intros thread joined Hin. apply T. right.
    apply get_edges_level in Hin. cbn [fst snd] in Hin. unfold py in Hin.
    cbn [fst snd] in Hin. destruct Hin as [-> ->]. reflexivity.
Qed.

Lemma eadj_round_trip_witness :
  exists e',
    get_eadjs [((1, 3, 1), (3, 3, 1))] = [e'] /\
    (forall edges, In ((1, 3, 1), (3, 3, 1)) edges -> In e' (get_eadjs edges)) /\
    (get_eadj e' = [((1, 3, 1), (3, 3, 1))] <->
     px (fst ((1, 3, 1), (3, 3, 1))) <> px (snd ((1, 3, 1), (3, 3, 1))) \/
     py (fst ((1, 3, 1), (3, 3, 1))) = py (snd ((1, 3, 1), (3, 3, 1)))) /\
    (forall thread joined,
       In ((1, 3, 1), (3, 3, 1)) (get_edges thread joined) ->
       get_eadj e' = [((1, 3, 1), (3, 3, 1))]).
Proof. apply (eadj_round_trip ((1, 3, 1), (3, 3, 1))); right; reflexivity. Defined.

(** ** Aligning a cycle ([Weaver.align_to]) *)

Lemma index_Ok data p : forall i,
  index data p = Ok i ->
  nth_error data i = Some p /\ (i < length data)%nat /\ ~ In p (firstn i data).
Proof.
  induction data as [| q data IH]; intros i H; [discriminate |].
  cbn [index] in H. destruct (point_eqb q p) eqn:E.
  - inversion H; subst. apply point_eqb_eq in E. subst q. cbn. repeat split; [lia | tauto].
  - destruct (index data p) as [j |] eqn:Ej; [| discriminate].
    cbn [bind] in H. inversion H; subst.
    destruct (IH j eq_refl) as [A [B C]]. cbn [nth_error length firstn]. repeat split.
    + exact A.
    + lia.
    + intros [F | F]; [| contradiction]. subst q.
      rewrite point_eqb_refl in E. discriminate.
Qed.

Lemma index_missing data p : ~ In p data -> index data p = Raise ValueError.
Proof.
  induction data as [| q data IH]; intros H; [reflexivity |].
  cbn [index]. destruct (point_eqb q p) eqn:E.
  - apply point_eqb_eq in E. subst q. exfalso. apply H. now left.
  - rewrite IH; [reflexivity |]. intros F. apply H. now right.
Qed.

Lemma index_raises data p e : index data p = Raise e -> e = ValueError.
Proof.
  induction data as [| q data IH]; cbn [index]; intros H; [congruence |].
  destruct (point_eqb q p); [discriminate |].
  destruct (index data p); [discriminate |]. cbn [bind] in H.
  apply IH. congruence.
Qed.

Lemma final_rev {A} (l : list A) : final (rev l) = first l.
Proof. rewrite <- (rev_involutive l) at 2. symmetry. apply first_rev. Qed.

Lemma final_skipn data rix (p : Point) :
  nth_error data rix = Some p -> first (skipn rix data) = Ok p.
Proof.
  revert rix. induction data as [| q data IH]; intros [| rix] H; try discriminate.
  - inversion H. reflexivity.
  - cbn [skipn]. now apply IH.
Qed.

(** X13 ([Weaver.align_to]): the call raises [ValueError] when [lhs]
    or [rhs] is not in the data.  Otherwise it returns a permutation of the
    data: when [lhs] is found before [rhs], the part before [rhs] reversed
    followed by the rest reversed, which ends with [rhs]; otherwise the
    data rotated so that it starts with [lhs]. *)
Theorem align_to_outcome data lhs rhs :
  (~ In lhs data \/ ~ In rhs data -> align_to data lhs rhs = Raise ValueError) /\
  (In lhs data -> In rhs data ->
   exists lix rix r,
     index data lhs = Ok lix /\ index data rhs = Ok rix /\
     align_to data lhs rhs = Ok r /\
     Permutation data r /\ length r = length data /\
     ((lix < rix)%nat ->
      r = rev (firstn rix data) ++ rev (skipn rix data) /\ final r = Ok rhs) /\
     ((rix <= lix)%nat ->
      r = skipn lix data ++ firstn lix data /\ first r = Ok lhs)).
Proof.
  split.
  - intros [H | H]; unfold align_to.
    + now rewrite (index_missing _ _ H).
    + rewrite (index_missing _ _ H). destruct (index data lhs) eqn:E; [reflexivity |].
      now rewrite (index_raises _ _ _ E).
  - intros Hl Hr.
    destruct (index_In _ _ Hl) as [lix El]. destruct (index_In _ _ Hr) as [rix Er].
    destruct (index_Ok _ _ _ El) as [Nl [Bl _]].
    destruct (index_Ok _ _ _ Er) as [Nr [Br _]].
    assert (E : align_to data lhs rhs
                = Ok (if (lix <? rix)%nat
                      then rev (firstn rix data) ++ rev (skipn rix data)
                      else skipn lix data ++ firstn lix data)).
    { unfold align_to. rewrite El, Er. cbn [bind]. destruct (lix <? rix)%nat; reflexivity. }
    eexists lix, rix, _. split; [exact El |]. split; [exact Er |].
    split; [exact E |]. split; [exact (align_to_Permutation _ _ _ _ E) |].
    split; [symmetry; apply Permutation_length; exact (align_to_Permutation _ _ _ _ E) |].
    split.
    + intros Hlt. apply Nat.ltb_lt in Hlt. rewrite Hlt. split; [reflexivity |].
      rewrite final_app_ne.
      * rewrite final_rev. now apply final_skipn.
      * intros F. apply (f_equal (@length Point)) in F.
        rewrite length_rev, length_skipn in F. cbn in F. lia.
    + intros Hle. replace (lix <? rix)%nat with false
        by (symmetry; apply Nat.ltb_ge; exact Hle).
      split; [reflexivity |].
      rewrite first_app_ne.
      * now apply final_skipn.
      * intros F. apply (f_equal (@length Point)) in F.
        rewrite length_skipn in F. cbn in F. lia.
Qed.

Lemma align_to_outcome_witness :
  align_to [(1, 1, 1); (3, 1, 1); (3, 3, 1)] (5, 5, 5) (1, 1, 1) = Raise ValueError /\
  exists lix rix r,
    index [(1, 1, 1); (3, 1, 1); (3, 3, 1)] (3, 3, 1) = Ok lix /\
    index [(1, 1, 1); (3, 1, 1); (3, 3, 1)] (1, 1, 1) = Ok rix /\
    align_to [(1, 1, 1); (3, 1, 1); (3, 3, 1)] (3, 3, 1) (1, 1, 1) = Ok r /\
    Permutation [(1, 1, 1); (3, 1, 1); (3, 3, 1)] r /\
    length r = length [(1, 1, 1); (3, 1, 1); (3, 3, 1)] /\
    ((lix < rix)%nat ->
     r = rev (firstn rix [(1, 1, 1); (3, 1, 1); (3, 3, 1)])
         ++ rev (skipn rix [(1, 1, 1); (3, 1, 1); (3, 3, 1)]) /\
     final r = Ok (1, 1, 1)) /\
    ((rix <= lix)%nat ->
     r = skipn lix [(1, 1, 1); (3, 1, 1); (3, 3, 1)]
         ++ firstn lix [(1, 1, 1); (3, 1, 1); (3, 3, 1)] /\
     first r = Ok (3, 3, 1)).
Proof.
  split.
  - apply (align_to_outcome [(1, 1, 1); (3, 1, 1); (3, 3, 1)] (5, 5, 5) (1, 1, 1)).
    left. intros [H | [H | [H | []]]]; discriminate.
  - apply (align_to_outcome [(1, 1, 1); (3, 1, 1); (3, 3, 1)] (3, 3, 1) (1, 1, 1)).
    + right. right. now left.
    + now left.
Defined.

(** ** Closed cycles under alignment and merging *)

Lemma path_app a b :
  path a -> path b ->
  (forall x y, final a = Ok x -> first b = Ok y -> adjacent x y) ->
  path (a ++ b).
Proof.
  intros Ha Hb Hl. destruct b as [| y b]; [now rewrite app_nil_r |].
  destruct a as [| x0 a]; [exact Hb |].
  destruct (final_total (x0 :: a) ltac:(discriminate)) as [x Hx].
  destruct (final_split _ _ Hx) as [a' Ea]. rewrite Ea in *.
  rewrite <- app_assoc. cbn [app]. apply path_overlap; [exact Ha |].
  eapply path_cons; [exact Hb | reflexivity |]. apply Hl; [exact Hx | reflexivity].
Qed.

Lemma path_app_link a b x y :
  path (a ++ b) -> final a = Ok x -> first b = Ok y -> adjacent x y.
Proof.
  intros H Hx Hy. destruct (final_split _ _ Hx) as [a' ->].
  destruct b as [| y' b]; [discriminate |]. inversion Hy; subst y'.
  rewrite <- app_assoc in H. cbn [app] in H.
  apply path_app_inv in H. destruct H as [_ H]. now destruct H.
Qed.

Lemma closed_cycle_rev l : closed_cycle l -> closed_cycle (rev l).
Proof.
  intros [Hp [p [q [Hf [Hl Ha]]]]]. split; [now apply path_rev |].
  exists q, p. rewrite first_rev, final_rev. repeat split; try assumption.
  now apply adjacent_sym.
Qed.

Lemma closed_cycle_rotate a b : closed_cycle (a ++ b) -> closed_cycle (b ++ a).
Proof.
  intros H. destruct a as [| x0 a]; [now rewrite app_nil_r |].
  destruct b as [| y0 b]; [now rewrite app_nil_r in H |].
  destruct H as [Hp [p [q [Hf [Hl Ha]]]]].
  rewrite first_app_ne in Hf by discriminate.
  rewrite final_app_ne in Hl by discriminate.
  destruct (path_app_inv _ _ Hp) as [Pa Pb].
  destruct (final_total (x0 :: a) ltac:(discriminate)) as [la Hla].
  split.
  - apply path_app; [exact Pb | exact Pa |].
    intros x y Hx Hy. congruence.
  - exists y0, la. rewrite first_app_ne, final_app_ne by discriminate.
    repeat split; [exact Hla |].
    eapply path_app_link; [exact Hp | exact Hla | reflexivity].
Qed.

Lemma closed_cycle_flip a b : closed_cycle (a ++ b) -> closed_cycle (rev a ++ rev b).
Proof.
  intros H. apply closed_cycle_rotate. rewrite <- rev_app_distr.
  now apply closed_cycle_rev.
Qed.

Lemma align_to_cycle data lhs rhs r :
  closed_cycle data -> align_to data lhs rhs = Ok r -> closed_cycle r.
Proof.
  intros Hc E. unfold align_to in E.
  destruct (index data lhs) as [lix |]; [| discriminate].
  destruct (index data rhs) as [rix |]; [| discriminate].
  cbn [bind] in E. destruct (lix <? rix)%nat; inversion E; subst r.
  - apply closed_cycle_flip. now rewrite firstn_skipn.
  - apply closed_cycle_rotate. now rewrite firstn_skipn.
Qed.

(** X14 ([Weaver.align_to]): aligning a closed cycle leaves a closed
    cycle: a rotation of the cycle or of the cycle reversed. *)
Theorem align_to_keeps_cycle data lhs rhs r :
  closed_cycle data -> align_to data lhs rhs = Ok r ->
  closed_cycle r /\ (rotation data r \/ rotation (rev data) r).
Proof.
  intros Hc E. split; [exact (align_to_cycle _ _ _ _ Hc E) |].
  unfold align_to in E.
  destruct (index data lhs) as [lix |]; [| discriminate].
  destruct (index data rhs) as [rix |]; [| discriminate].
  cbn [bind] in E. destruct (lix <? rix)%nat; inversion E; subst r; clear E.
  - right. exists (rev (skipn rix data)), (rev (firstn rix data)).
    split; [| reflexivity]. now rewrite <- rev_app_distr, firstn_skipn.
  - left. exists (firstn lix data), (skipn lix data).
    split; [| reflexivity]. now rewrite firstn_skipn.
Qed.

Lemma align_to_keeps_cycle_witness :
  closed_cycle [(3, 1, 1); (1, 1, 1); (1, 3, 1); (3, 3, 1)] /\
  (rotation [(1, 1, 1); (3, 1, 1); (3, 3, 1); (1, 3, 1)]
     [(3, 1, 1); (1, 1, 1); (1, 3, 1); (3, 3, 1)] \/
   rotation (rev [(1, 1, 1); (3, 1, 1); (3, 3, 1); (1, 3, 1)])
     [(3, 1, 1); (1, 1, 1); (1, 3, 1); (3, 3, 1)]).
Proof.
  apply (align_to_keeps_cycle [(1, 1, 1); (3, 1, 1); (3, 3, 1); (1, 3, 1)]
           (3, 1, 1) (3, 3, 1)).
  - apply closed_cycleb_closed_cycle. reflexivity.
  - reflexivity.
Defined.

(** ** Merging closed cycles ([merge_cycles]) *)

Lemma windows_cons x y (l : list Point) : windows (x :: y :: l) = (x, y) :: windows (y :: l).
Proof. reflexivity. Qed.

Lemma windows_In data u v :
  In (u, v) (windows data) -> exists a b, data = a ++ u :: v :: b.
Proof.
  induction data as [| x [| y data] IH]; intros H; try (now destruct H).
  rewrite windows_cons in H. destruct H as [H | H].
  - inversion H; subst. now exists [], data.
  - destruct (IH H) as [a [b E]]. exists (x :: a), b. now rewrite E.
Qed.

Lemma oriented_cases uv : oriented uv = uv \/ oriented uv = (snd uv, fst uv).
Proof. unfold oriented. destruct (point_ltb (fst uv) (snd uv)); auto. Qed.

(** An edge read off the windows of a cycle without repeated point, in
    either direction, is where [align_to] puts the ends. *)
Lemma align_to_window data u v lhs rhs :
  NoDup data -> In (u, v) (windows data) ->
  (lhs, rhs) = (u, v) \/ (lhs, rhs) = (v, u) ->
  exists r, align_to data lhs rhs = Ok r /\ first r = Ok lhs /\ final r = Ok rhs.
Proof.
  intros Hn Hw Hd. destruct (windows_In _ _ _ Hw) as [a [b ->]].
  destruct Hd as [Hd | Hd]; inversion Hd; subst lhs rhs.
  - rewrite (align_to_forward _ _ _ _ Hn). eexists. split; [reflexivity |].
    split; [reflexivity |].
    change (u :: rev a ++ rev b ++ [v]) with ((u :: rev a) ++ rev b ++ [v]).
    rewrite !app_assoc. apply final_app.
  - rewrite (align_to_backward _ _ _ _ Hn). eexists. split; [reflexivity |].
    split; [reflexivity |].
    change (v :: b ++ a ++ [u]) with ((v :: b) ++ a ++ [u]).
    rewrite !app_assoc. apply final_app.
Qed.

Lemma edge_of_windows (g : Edge -> bool) data e :
  In e (to_set (map oriented (filter g (windows data)))) ->
  exists u v, In (u, v) (windows data) /\ (e = (u, v) \/ e = (v, u)).
Proof.
  intros H. apply In_to_set_map in H. destruct H as [[u v] [Hin <-]].
  apply filter_In in Hin. destruct Hin as [Hin _].
  exists u, v. split; [exact Hin |]. exact (oriented_cases (u, v)).
Qed.

Lemma get_eadj_adjacent e f :
  In f (get_eadj e) -> adjacent (fst e) (fst f) /\ adjacent (snd e) (snd f).
Proof.
  destruct e as [[[a b] c] [[x y] z]]. unfold get_eadj. intros [<- | []].
  destruct (negb (a =? x)); unfold adjacent, px, py, pz; cbn [fst snd]; split.
  - right. left. repeat split. lia.
  - right. left. repeat split. lia.
  - left. repeat split. lia.
  - left. repeat split. lia.
Qed.

Section MergeCycles.

Variable choose : Edges -> nat.

Lemma pop_member s e : pop choose s = Ok e -> In e s.
Proof.
  intros H. destruct s as [| e0 s]; [discriminate |].
  destruct (pop_In choose (e0 :: s) ltac:(discriminate)) as [e' [E Hin]].
  rewrite E in H. inversion H; subst. exact Hin.
Qed.

Lemma merge_step_cycle w visited thread w' visited' :
  NoDup (data w) -> NoDup thread ->
  closed_cycle (data w) -> closed_cycle thread ->
  merge_step choose (w, visited) thread = Ok (w', visited') ->
  closed_cycle (data w').
Proof.
  intros Nw Nt Cw Ct E. unfold merge_step in E.
  destruct (pop choose (weft_candidates w thread)) as [wb |] eqn:Ewb; [| discriminate].
  cbn [bind] in E.
  destruct (align_to (data w) (fst wb) (snd wb)) as [wdata |] eqn:Ewd; [| discriminate].
  cbn [bind] in E.
  set (w1 := mkWeaver wdata (order w) (joined w) (z_abs_max w) (zc_abs_sum w)) in *.
  destruct (pop choose (warp_candidates w1 thread wb)) as [warp |] eqn:Ewarp;
    [| discriminate].
  cbn [bind] in E.
  destruct (align_to thread (snd warp) (fst warp)) as [thread' |] eqn:Et; [| discriminate].
  cbn [bind] in E. inversion E; subst w' visited'; clear E.
  (* the bridge of the weaver *)
  apply pop_member in Ewb. unfold weft_candidates, inter in Ewb.
  apply filter_In in Ewb. destruct Ewb as [Ewb _].
  apply edge_of_windows in Ewb. destruct Ewb as [u [v [Huv Hwb]]].
  destruct (align_to_window (data w) u v (fst wb) (snd wb) Nw Huv) as [r [Er [Fr Lr]]].
  { destruct Hwb as [-> | ->]; [now left | now right]. }
  rewrite Er in Ewd. inversion Ewd; subst r; clear Ewd.
  pose proof (align_to_cycle (data w) (fst wb) (snd wb) wdata Cw Er) as Cd.
  (* the bridge of the thread *)
  apply pop_member in Ewarp. unfold warp_candidates, inter in Ewarp.
  apply filter_In in Ewarp. destruct Ewarp as [Ewarp Eadj].
  apply emem_In in Eadj. apply get_eadj_adjacent in Eadj. destruct Eadj as [A1 A2].
  apply edge_of_windows in Ewarp. destruct Ewarp as [m [n [Hmn Hwarp]]].
  destruct (align_to_window thread m n (snd warp) (fst warp) Nt Hmn) as [r [Er' [Fr' Lr']]].
  { destruct Hwarp as [-> | ->]; [now right | now left]. }
  rewrite Er' in Et. inversion Et; subst r; clear Et.
  pose proof (align_to_cycle thread (snd warp) (fst warp) thread' Ct Er') as Ct'.
  (* the join *)
  unfold join. cbn [data]. subst w1. cbn [data].
  assert (Hw : wdata <> []) by (intros ->; discriminate).
  assert (Ht : thread' <> []) by (intros ->; discriminate).
  split.
  - apply path_app; [apply Cd | apply Ct' |].
    intros x y Hx Hy. congruence.
  - exists (fst wb), (fst warp). rewrite first_app_ne, final_app_ne by assumption.
    repeat split; try assumption. now apply adjacent_sym.
Qed.

Lemma merge_loop_cycle rest : forall w visited w' visited',
  closed_cycle (data w) -> NoDup (data w ++ concat rest) ->
  Forall closed_cycle rest ->
  foldM (merge_step choose) (w, visited) rest = Ok (w', visited') ->
  closed_cycle (data w') /\ NoDup (data w').
Proof.
  induction rest as [| thread rest IH]; intros w visited w' visited' Cw Nd Cr E.
  - inversion E; subst. split; [exact Cw |]. now rewrite app_nil_r in Nd.
  - cbn [foldM] in E.
    destruct (merge_step choose (w, visited) thread) as [[w1 visited1] |] eqn:E1;
      [| discriminate].
    cbn [bind] in E. inversion Cr as [| ? ? Ct Cr']; subst.
    cbn [concat] in Nd.
    assert (Nw : NoDup (data w)) by (eapply NoDup_app_remove_r; exact Nd).
    assert (Nt : NoDup thread).
    { apply NoDup_app_remove_l in Nd. eapply NoDup_app_remove_r; exact Nd. }
    pose proof (merge_step_cycle _ _ _ _ _ Nw Nt Cw Ct E1) as C1.
    destruct (merge_step_inv choose _ _ _ _ _ E1) as [thread' [_ [_ P]]].
    apply (IH w1 visited1 w' visited'); [exact C1 | | exact Cr' | exact E].
    eapply Permutation_NoDup; [| exact Nd].
    rewrite app_assoc. now apply Permutation_app_tail.
Qed.

End MergeCycles.

(** X15 ([merge_cycles], with [Weaver.edges], [Weaver.get_eadj],
    [Weaver.align_to], [Weaver.join], [LoomThread.get_edges],
    [LoomThread.get_eadjs]): if the threads of the loom are closed cycles
    and no point occurs twice in the loom, then whatever [merge_cycles]
    returns, whichever edges [set.pop] picks, is a closed cycle without
    repeated point through exactly the points of the loom. *)
Theorem merge_cycles_keeps_cycle choose loom radius order solution loom' :
  Forall closed_cycle loom -> NoDup (concat loom) ->
  merge_cycles choose loom radius order = Ok (solution, loom') ->
  closed_cycle solution /\ NoDup solution /\ Permutation (concat loom) solution.
Proof.
  intros Hc Hn E. unfold merge_cycles in E. destruct loom as [| seed rest]; [discriminate |].
  destruct (foldM (merge_step choose) (Weaver_init seed radius order, []) rest)
    as [[w visited] |] eqn:El; [| discriminate].
  cbn [bind] in E. inversion E; subst solution loom'; clear E.
  inversion Hc as [| ? ? Cs Cr]; subst.
  destruct (merge_loop_cycle choose rest (Weaver_init seed radius order) [] w visited
              Cs Hn Cr El) as [C N].
  split; [exact C |]. split; [exact N |].
  destruct (merge_loop_inv choose rest _ _ _ _ El) as [aligned [_ [_ P]]]. exact P.
Qed.

Lemma merge_cycles_keeps_cycle_witness :
  closed_cycle [(1, 1, 1); (3, 1, 1); (3, 3, 1); (1, 3, 1)] /\
  NoDup [(1, 1, 1); (3, 1, 1); (3, 3, 1); (1, 3, 1)] /\
  Permutation (concat [[(1, 1, 1); (3, 1, 1)]; [(1, 3, 1); (3, 3, 1)]])
    [(1, 1, 1); (3, 1, 1); (3, 3, 1); (1, 3, 1)].
Proof.
  apply (merge_cycles_keeps_cycle (fun _ => 0%nat)
           [[(1, 1, 1); (3, 1, 1)]; [(1, 3, 1); (3, 3, 1)]] 3 8
           [(1, 1, 1); (3, 1, 1); (3, 3, 1); (1, 3, 1)] [[(3, 3, 1); (1, 3, 1)]]).
  - repeat constructor; apply closed_cycleb_closed_cycle; reflexivity.
  - apply nodupb_NoDup. reflexivity.
  - reflexivity.
Defined.

(** ** Where the woven points lie *)

Lemma foldM_invariant {S A} (I : S -> Prop) (f : S -> A -> result S) (l : list A) :
  (forall s a s', In a l -> I s -> f s a = Ok s' -> I s') ->
  forall s s', I s -> foldM f s l = Ok s' -> I s'.
Proof.
  induction l as [| a l IH]; intros Hf s s' Hs E.
  - inversion E; subst. exact Hs.
  - cbn [foldM] in E. destruct (f s a) as [s1 |] eqn:E1; [| discriminate].
    cbn [bind] in E. apply (IH (fun s a s' Hin => Hf s a s' (or_intror Hin)) s1 s');
      [| exact E].
    apply (Hf s a s1); [now left | exact Hs | exact E1].
Qed.

Lemma final_of_nonempty {A} (x h : A) (thread : list A) t :
  first thread = Ok h -> final (x :: thread) = Ok t -> In t thread.
Proof.
  intros Hh Ht. destruct thread as [| h' thread]; [discriminate |].
  rewrite final_cons in Ht. now apply final_In.
Qed.

Lemma pin_fold_level z loom : forall done pins loom1 pins1,
  foldM (pin_thread z) (done, pins) loom = Ok (loom1, pins1) ->
  forall p, In p pins1 ->
    In p pins \/ exists h, In h (concat loom) /\ p = at_level h z.
Proof.
  induction loom as [| thread loom IH]; intros done pins loom1 pins1 E p Hp.
  - inversion E; subst. now left.
  - cbn [foldM] in E.
    destruct (pin_thread z (done, pins) thread) as [[d1 p1] |] eqn:E1; [| discriminate].
    cbn [bind] in E. unfold pin_thread in E1.
    destruct (first thread) as [h |] eqn:Eh; [| discriminate]. cbn [bind] in E1.
    destruct (final (at_level h z :: thread)) as [t |] eqn:Et; [| discriminate].
    cbn [bind] in E1. inversion E1; subst d1 p1; clear E1.
    cbn [concat].
    destruct (IH _ _ _ _ E p Hp) as [Hin | [h' [Hin ->]]].
    + apply In_add_pin in Hin. destruct Hin as [Hin | ->].
      * apply In_add_pin in Hin. destruct Hin as [Hin | ->]; [now left | right].
        exists h. split; [| reflexivity]. apply in_app_iff. left. now apply first_In.
      * right. exists t. split; [| reflexivity]. apply in_app_iff. left.
        eapply final_of_nonempty; eassumption.
    + right. exists h'. split; [| reflexivity]. apply in_app_iff. now right.
Qed.

Lemma chop_incl tour pins tour' subtours :
  chop tour pins = Ok (tour', subtours) -> incl (concat subtours) tour.
Proof.
  intros E. destruct pins as [| pin pins].
  - inversion E; subst. cbn [concat]. rewrite app_nil_r. intros p Hp. now apply in_rev.
  - destruct (tour_decomposition (pin :: pins) tour) as [pre [segs [-> [Hpre Hsegs]]]].
    rewrite chop_decomposed in E by (discriminate || assumption).
    inversion E; subst. destruct segs as [| seg segs]; [intros p [] |].
    intros p Hp. eapply Permutation_in; [| exact Hp].
    apply (chop_fragments_points (pin :: pins)); [exact Hsegs | discriminate].
Qed.

Lemma rests_incl subtours used : incl (rests subtours used) (concat subtours).
Proof.
  intros p Hp. unfold rests in Hp. apply in_flat_map in Hp.
  destruct Hp as [idx [_ Hp]].
  destruct (Nat.lt_ge_cases idx (length subtours)) as [Hlt | Hge].
  - apply in_concat. exists (nth idx subtours []). split; [now apply nth_In |].
    destruct (nth idx subtours []); [destruct Hp | now right].
  - rewrite nth_overflow in Hp by exact Hge. destruct Hp.
Qed.

Lemma extend_threads_incl loom subtours loom' :
  extend_threads loom subtours = Ok loom' ->
  incl (concat loom') (concat loom ++ concat subtours).
Proof.
  intros E. unfold extend_threads in E.
  destruct (foldM (extend_thread subtours) ([], []) loom) as [[exts used] |] eqn:El;
    [| discriminate].
  cbn [bind] in E. inversion E; subst loom'; clear E.
  apply extend_loom_inv in El. destruct El as [exts' [new [-> [-> [_ [P _]]]]]].
  cbn [app]. rewrite concat_app. intros p Hp. apply in_app_iff in Hp.
  apply in_app_iff. destruct Hp as [Hp | Hp].
  - apply (Permutation_in _ P) in Hp. apply in_app_iff in Hp.
    destruct Hp as [Hp | Hp]; [now left | right]. now apply (rests_incl subtours new).
  - right. apply in_concat in Hp. destruct Hp as [f [Hf Hp]].
    apply in_concat. exists f. split; [| exact Hp]. now apply (unused_In subtours new).
Qed.

Lemma weave_layer_incl yarns loom z color size loom' :
  weave_layer yarns loom (z, color, size) = Ok loom' ->
  forall p, In p (concat loom') ->
    In p (concat loom) \/
    (exists h, In h (concat loom) /\ p = at_level h z) \/
    (exists yarn xy, lookup yarns color = Ok yarn /\ In xy yarn /\ p = lift z xy).
Proof.
  intros E p Hp. unfold weave_layer in E.
  destruct (lookup yarns color) as [yarn |]; [| discriminate]. cbn [bind] in E.
  destruct (pin_thread_ends loom z) as [[loom1 pins] |] eqn:Ep; [| discriminate].
  cbn [bind] in E.
  destruct (chop (map (lift z) (firstn (Z.to_nat size) yarn)) pins)
    as [[tour' subtours] |] eqn:Ec; [| discriminate].
  cbn [bind] in E.
  apply (extend_threads_incl _ _ _ E) in Hp. apply in_app_iff in Hp.
  destruct Hp as [Hp | Hp].
  - unfold pin_thread_ends in Ep.
    pose proof (pin_fold_level _ _ _ _ _ _ Ep) as Hz.
    apply pin_thread_ends_shape in Ep. destruct Ep as [xs [-> [-> Epins]]].
    cbn [app] in *. apply (Permutation_in _ (pinned_threads_points xs)) in Hp.
    apply in_app_iff in Hp. destruct Hp as [Hp | Hp]; [now left | right; left].
    destruct (Hz p) as [[] | Hh]; [| exact Hh].
    rewrite Epins. apply In_add_pins. now right.
  - right. right. apply (chop_incl _ _ _ _ Ec) in Hp.
    apply in_map_iff in Hp. destruct Hp as [xy [<- Hxy]].
    exists yarn, xy. split; [reflexivity |]. split; [| reflexivity].
    rewrite <- (firstn_skipn (Z.to_nat size) yarn). apply in_or_app. now left.
Qed.

Lemma spin_odd steps : forall p,
  Forall unit_step steps -> fst p mod 2 = 1 -> snd p mod 2 = 1 ->
  Forall (fun xy : XY => fst xy mod 2 = 1 /\ snd xy mod 2 = 1) (spin p steps).
Proof.
  induction steps as [| d steps IH]; intros p Hs Hx Hy; cbn [spin].
  - constructor; [now split | constructor].
  - inversion Hs as [| ? ? Hd Hrest]; subst. constructor; [now split |].
    apply IH; [exact Hrest | |]; cbn [fst snd];
      destruct Hd as [-> | [-> | [-> | ->]]]; cbn [fst snd];
      Z.to_euclidean_division_equations; lia.
Qed.

Lemma yarn_odd radius color yarn :
  lookup (spin_yarn radius) color = Ok yarn ->
  Forall (fun xy : XY => fst xy mod 2 = 1 /\ snd xy mod 2 = 1) yarn.
Proof.
  assert (S : Forall (fun xy : XY => fst xy mod 2 = 1 /\ snd xy mod 2 = 1)
                (spun_of radius)).
  { unfold spun_of. destruct (((radius + 1) / 2) mod 2 =? 0).
    - apply spin_odd; [apply zigzag_steps_unit; now left | reflexivity | reflexivity].
    - apply spin_odd; [apply zigzag_steps_unit; now right | reflexivity | reflexivity]. }
  unfold spin_yarn. cbn [lookup].
  destruct (3 =? color); [intros H; inversion H; subst; exact S |].
  destruct (1 =? color); [| discriminate]. intros H. inversion H; subst.
  apply Forall_map. eapply Forall_impl; [| exact S].
  intros [x y] [Hx Hy]. unfold reflect. cbn [fst snd] in *.
  split; Z.to_euclidean_division_equations; lia.
Qed.

Lemma weave_loom_levels n loom :
  weave_loom n = Ok loom -> Forall (on_layers n) (concat loom).
Proof.
  unfold weave_loom.
  apply (foldM_invariant (fun loom : Loom => Forall (on_layers n) (concat loom)));
    [| constructor].
  intros s zcs s' Hin Hs E. apply layer_closed_form in Hin.
  destruct Hin as [k [Hk ->]]. apply Forall_forall. intros p Hp.
  rewrite Forall_forall in Hs.
  destruct (weave_layer_incl _ _ _ _ _ _ E p Hp) as [H | [[h [Hh ->]] | H]].
  - now apply Hs.
  - destruct (Hs h Hh) as [_ [Hx Hy]]. split; [now exists k | now split].
  - destruct H as [yarn [xy [El [Hxy ->]]]]. split; [now exists k |].
    apply yarn_odd in El. rewrite Forall_forall in El. exact (El xy Hxy).
Qed.

(** X16 ([weave], the loop over the layers): every point of the loom
    the layers leave has odd [x] and [y] and lies at the elevation of one
    of the layers, an odd [z] between [- radius] and [-1]. *)
Theorem weave_loom_below n loom :
  weave_loom n = Ok loom ->
  Forall (on_layers n) (concat loom) /\
  Forall (fun p => - get_radius_from_n n <= pz p <= -1 /\ pz p mod 2 = 1) (concat loom).
Proof.
  intros E. pose proof (weave_loom_levels n loom E) as L. split; [exact L |].
  eapply Forall_impl; [| exact L]. intros p [[k [Hk Hz]] _].
  unfold get_radius_from_n. split; [lia |].
  rewrite Hz. Z.to_euclidean_division_equations. lia.
Qed.

Lemma weave_loom_below_witness :
  exists loom,
    weave_loom 2 = Ok loom /\
    Forall (on_layers 2) (concat loom) /\
    Forall (fun p => - get_radius_from_n 2 <= pz p <= -1 /\ pz p mod 2 = 1) (concat loom).
Proof.
  eexists. split; [vm_compute; reflexivity |].
  apply (weave_loom_below 2). vm_compute. reflexivity.
Defined.

Lemma weave_loom_nonpositive n : n <= 0 -> weave_loom n = Ok [].
Proof.
  intros Hn. unfold weave_loom.
  replace (get_z_color_size n) with (@nil (Z * Z * Z)); [reflexivity |].
  symmetry. apply length_zero_iff_nil. rewrite get_z_color_size_count. lia.
Qed.

(** What [weave] returns is what its body returns. *)
Lemma weave_returns choose n solution :
  weave choose n = Ok solution -> weave_body choose n = Ok solution.
Proof.
  unfold weave, profile. destruct (weave_body choose n) as [r | e].
  - destruct r as [| p r];
      match goal with |- context [if ?c then _ else _] => destruct c end;
      intros H; try discriminate; exact H.
  - destruct (get_order_from_n n =? 0); discriminate.
Qed.

Lemma weave_body_nonpositive choose n :
  n <= 0 -> weave_body choose n = Raise IndexError.
Proof.
  intros Hn. unfold weave_body. rewrite (weave_loom_nonpositive n Hn). reflexivity.
Qed.

(** X17 ([weave], [profile], [get_z_color_size], [merge_cycles]): for
    [n <= 0] there is no layer to weave: the loom stays empty, and the body
    of [weave] raises [IndexError] when [merge_cycles] pops the seed.  The
    decorator lets this exception through when [n <= -3]; for [n] among 0,
    -1 and -2 the order is 0 and [weave] raises [ZeroDivisionError]
    instead. *)
Theorem weave_nonpositive choose n :
  n <= 0 ->
  weave_loom n = Ok [] /\
  weave_body choose n = Raise IndexError /\
  (-2 <= n -> weave choose n = Raise ZeroDivisionError) /\
  (n <= -3 -> weave choose n = Raise IndexError).
Proof.
  intros Hn. pose proof (weave_loom_nonpositive n Hn) as E.
  pose proof (weave_body_nonpositive choose n Hn) as B.
  pose proof (get_order_from_n_times3 n) as T.
  split; [exact E |]. split; [exact B |].
  unfold weave, profile. rewrite B. split; intros H.
  - assert (Z0 : get_order_from_n n = 0).
    { assert (C : n = 0 \/ n = -1 \/ n = -2) by lia.
      destruct C as [-> | [-> | ->]]; reflexivity. }
    rewrite Z0. reflexivity.
  - assert (Z0 : get_order_from_n n <> 0) by nia.
    apply Z.eqb_neq in Z0. rewrite Z0. reflexivity.
Qed.

Lemma weave_nonpositive_witness :
  (weave_loom 0 = Ok [] /\
   weave_body (fun _ => 0%nat) 0 = Raise IndexError /\
   weave (fun _ => 0%nat) 0 = Raise ZeroDivisionError) /\
  weave (fun _ => 0%nat) (-3) = Raise IndexError.
Proof.
  split.
  - destruct (weave_nonpositive (fun _ => 0%nat) 0 ltac:(lia)) as [A [B [C _]]].
    split; [exact A |]. split; [exact B |]. apply C. lia.
  - apply (weave_nonpositive (fun _ => 0%nat) (-3)); lia.
Defined.

(** ** From the partition to the Hamiltonian cycle *)

Lemma weave_loom_cycles n loom :
  weave_loom n = Ok loom -> Forall closed_cycle (mirror_chains loom).
Proof.
  intros E. destruct (weave_loom_woven n) as [loom0 [E0 W]].
  rewrite E in E0. inversion E0; subst loom0.
  unfold mirror_chains. apply Forall_map. eapply Forall_impl; [| exact W].
  intros thread. apply woven_mirror.
Qed.

Lemma weave_loom_mirror_NoDup n loom :
  weave_loom n = Ok loom -> NoDup (concat loom) -> NoDup (concat (mirror_chains loom)).
Proof.
  intros E Hn. eapply Permutation_NoDup; [symmetry; apply mirror_points |].
  apply NoDup_mirror; [| exact Hn].
  eapply Forall_impl; [| exact (weave_loom_levels n loom E)].
  intros p [[k [Hk Hz]] _]. lia.
Qed.

(** The body of [weave] on a loom that partitions the slices. *)
Lemma hamiltonian_of_partition choose n loom solution :
  weave_loom n = Ok loom ->
  NoDup (concat loom) ->
  Permutation (concat loom) (slices n (Z.to_nat n)) ->
  weave_body choose n = Ok solution ->
  hamiltonian n solution.
Proof.
  intros E Hn Hp Ew.
  destruct (Z_le_gt_dec n 0) as [H0 | H0].
  { rewrite (weave_body_nonpositive choose n H0) in Ew. discriminate. }
  unfold weave_body in Ew. rewrite E in Ew. cbn [bind] in Ew.
  destruct (merge_cycles choose (mirror_chains loom) (get_radius_from_n n)
              (get_order_from_n n)) as [[sol loom'] |] eqn:Em; [| discriminate].
  cbn [bind] in Ew. inversion Ew; subst sol; clear Ew.
  assert (M : forall ml,
             Forall closed_cycle ml -> NoDup (concat ml) ->
             merge_cycles choose ml (get_radius_from_n n) (get_order_from_n n)
             = Ok (solution, loom') ->
             closed_cycle solution /\ NoDup solution /\
             Permutation (concat ml) solution).
  { intros ml Hc Hd Hm. unfold merge_cycles in Hm.
    destruct ml as [| seed rest]; [discriminate |].
    destruct (foldM (merge_step choose)
                (Weaver_init seed (get_radius_from_n n) (get_order_from_n n), []) rest)
      as [[w visited] |] eqn:El; [| discriminate].
    cbn [bind] in Hm. inversion Hm; subst solution loom'; clear Hm.
    inversion Hc as [| ? ? Cs Cr]; subst.
    destruct (merge_loop_cycle choose rest
                (Weaver_init seed (get_radius_from_n n) (get_order_from_n n)) []
                w visited Cs Hd Cr El) as [C N].
    destruct (merge_loop_inv choose rest _ _ _ _ El) as [aligned [_ [_ P]]].
    split; [exact C |]. split; [exact N | exact P]. }
  destruct (M (mirror_chains loom) (weave_loom_cycles n loom E)
              (weave_loom_mirror_NoDup n loom E Hn) Em) as [C [N P]].
  split; [| split; [exact N | exact C]].
  rewrite <- (Permutation_length P), (Permutation_length (mirror_points loom)).
  rewrite length_app, length_map, (Permutation_length Hp).
  pose proof (slices_length n (Z.to_nat n) ltac:(lia)) as L.
  rewrite Z2Nat.id in L by lia. lia.
Qed.

(** The decorator returns what the body returns, when it is not empty. *)
Lemma weave_of_body choose n solution :
  weave_body choose n = Ok solution -> solution <> [] ->
  weave choose n = Ok solution.
Proof.
  intros E Hne. unfold weave, profile. rewrite E.
  destruct solution as [| p solution]; [congruence |].
  replace (Z.of_nat (length (p :: solution)) =? 0) with false; [reflexivity |].
  symmetry. apply Z.eqb_neq. cbn [length]. lia.
Qed.

Lemma hamiltonian_nonempty n solution :
  0 < n -> hamiltonian n solution -> solution <> [].
Proof.
  intros Hn [Hl _] ->. cbn [length] in Hl.
  pose proof (get_order_from_n_times3 n). nia.
Qed.

(** X18 ([weave]): if the loom the layers leave has no repeated
    point and holds exactly the points of the slices, then whatever the
    body of [weave] returns, whichever edges [set.pop] picks, is a
    Hamiltonian cycle of the ball of [n] layers: as many points as the
    order, all distinct, every step and the closing step between adjacent
    points; and [weave] itself, the decorated function, returns it. *)
Theorem weave_hamiltonian_of_partition choose n loom solution :
  weave_loom n = Ok loom ->
  NoDup (concat loom) ->
  Permutation (concat loom) (slices n (Z.to_nat n)) ->
  weave_body choose n = Ok solution ->
  hamiltonian n solution /\ weave choose n = Ok solution.
Proof.
  intros E Hn Hp Ew.
  pose proof (hamiltonian_of_partition choose n loom solution E Hn Hp Ew) as H.
  split; [exact H |]. apply weave_of_body; [exact Ew |].
  apply (hamiltonian_nonempty n); [| exact H].
  destruct (Z_le_gt_dec n 0) as [H0 | H0]; [| lia].
  rewrite (weave_body_nonpositive choose n H0) in Ew. discriminate.
Qed.

Lemma weave_hamiltonian_of_partition_witness :
  exists solution,
    hamiltonian 3 solution /\ weave (fun _ => 0%nat) 3 = Ok solution.
Proof.
  destruct (first_layers_partition 3 3 ltac:(lia)) as [loom [E [N P]]].
  destruct (weave_body (fun _ => 0%nat) 3) as [solution |] eqn:Ew.
  - exists solution.
    apply (weave_hamiltonian_of_partition (fun _ => 0%nat) 3 loom solution);
      assumption.
  - exfalso. vm_compute in Ew. discriminate.
Defined.

(** ** What [check_solution] certifies ([src/utils.py]) *)

Lemma fold_max_spec l : forall x,
  (fold_left Z.max l x = x \/ In (fold_left Z.max l x) l) /\
  x <= fold_left Z.max l x /\
  Forall (fun c => c <= fold_left Z.max l x) l.
Proof.
  induction l as [| a l IH]; intros x; cbn [fold_left].
  - split; [now left |]. split; [lia | constructor].
  - destruct (IH (Z.max x a)) as [A [B C]]. split; [| split].
    + destruct A as [A | A]; [| right; now right].
      rewrite A. destruct (Z.max_spec x a) as [[_ ->] | [_ ->]]; [right; now left | now left].
    + lia.
    + constructor; [lia | exact C].
Qed.

Lemma maximum_spec l m :
  maximum l = Ok m <-> In m l /\ Forall (fun c => c <= m) l.
Proof.
  destruct l as [| x l]; cbn [maximum].
  - split; [discriminate | intros [[] _]].
  - destruct (fold_max_spec l x) as [A [B C]]. split.
    + intros H. inversion H; subst m. split.
      * destruct A as [-> | A]; [now left | now right].
      * constructor; assumption.
    + intros [Hin Hle]. f_equal.
      assert (L1 : fold_left Z.max l x <= m).
      { rewrite Forall_forall in Hle. apply Hle.
        destruct A as [-> | A]; [now left | now right]. }
      assert (L2 : m <= fold_left Z.max l x).
      { destruct Hin as [<- | Hin]; [exact B |].
        rewrite Forall_forall in C. now apply C. }
      lia.
Qed.

Lemma distinct_In l p : In p (distinct l) <-> In p l.
Proof.
  induction l as [| q l IH]; [reflexivity |]. cbn [distinct]. split.
  - intros [-> | H]; [now left |]. apply filter_In in H. right. now apply IH.
  - intros [-> | H]; [now left |].
    destruct (point_eqb q p) eqn:E.
    + apply point_eqb_eq in E. now left.
    + right. apply filter_In. split; [now apply IH | now rewrite E].
Qed.

Lemma filter_length_all {A} (f : A -> bool) (l : list A) :
  length (filter f l) = length l -> Forall (fun x => f x = true) l.
Proof.
  induction l as [| a l IH]; [constructor |]. cbn [filter].
  pose proof (filter_length_le f l) as Hle.
  destruct (f a) eqn:E; cbn [length]; intros H; [| lia].
  constructor; [exact E | apply IH; lia].
Qed.

Lemma distinct_length l : (length (distinct l) <= length l)%nat.
Proof.
  induction l as [| p l IH]; [constructor |]. cbn [distinct length].
  pose proof (filter_length_le (fun q => negb (point_eqb p q)) (distinct l)). lia.
Qed.

Lemma distinct_NoDup l : length (distinct l) = length l <-> NoDup l.
Proof.
  induction l as [| p l IH]; [split; [constructor | reflexivity] |].
  cbn [distinct length].
  pose proof (filter_length_le (fun q => negb (point_eqb p q)) (distinct l)) as Hf.
  pose proof (distinct_length l) as Hd. split.
  - intros H.
    assert (H1 : length (filter (fun q => negb (point_eqb p q)) (distinct l))
                 = length (distinct l)) by lia.
    assert (H2 : length (distinct l) = length l) by lia.
    constructor; [| now apply IH].
    intros Hin. apply (proj2 (distinct_In _ _)) in Hin.
    apply filter_length_all in H1. rewrite Forall_forall in H1.
    specialize (H1 p Hin). rewrite point_eqb_refl in H1. discriminate.
  - intros H. inversion H as [| ? ? Hp Hl]; subst.
    apply IH in Hl. f_equal. rewrite forallb_filter_id; [exact Hl |].
    apply forallb_forall. intros q Hq.
    apply (proj1 (distinct_In _ _)) in Hq. apply negb_true_iff. apply point_eqb_neq.
    intros ->. contradiction.
Qed.

Lemma one_step_adjacent p q :
  one_step (px p - px q, py p - py q, pz p - pz q) = true <-> adjacent p q.
Proof.
  unfold one_step, adjacent.
  set (dx := px p - px q). set (dy := py p - py q). set (dz := pz p - pz q).
  change (px (dx, dy, dz)) with dx. change (py (dx, dy, dz)) with dy.
  change (pz (dx, dy, dz)) with dz. cbn [filter].
  destruct (dx =? 0) eqn:Ex; destruct (dy =? 0) eqn:Ey; destruct (dz =? 0) eqn:Ez;
    cbn [negb map zlist_eqb];
    rewrite ?Z.eqb_eq, ?Z.eqb_neq in *;
    rewrite ?andb_true_r, ?andb_false_r, ?Z.eqb_eq;
    split; intros H; try discriminate; subst dx dy dz; lia.
Qed.

Lemma check_steps_path solution : forall previous total_disps,
  (exists t, check_steps previous total_disps solution = Some t)
  <-> path (previous :: solution).
Proof.
  induction solution as [| cur rest IH]; intros previous total_disps.
  - cbn. split; [trivial | intros _; now eexists].
  - cbn [check_steps].
    change (path (previous :: cur :: rest))
      with (adjacent previous cur /\ path (cur :: rest)).
    rewrite <- (one_step_adjacent previous cur).
    destruct (one_step (px previous - px cur, py previous - py cur, pz previous - pz cur)).
    + rewrite IH. tauto.
    + split; [intros [t H]; discriminate | intros [H _]; discriminate].
Qed.

Lemma check_steps_total solution : forall previous total_disps t last,
  check_steps previous total_disps solution = Some t ->
  final (previous :: solution) = Ok last ->
  t = (px total_disps + px previous - px last,
       py total_disps + py previous - py last,
       pz total_disps + pz previous - pz last).
Proof.
  induction solution as [| cur rest IH]; intros previous total_disps t last H L.
  - cbn in H, L. inversion H; inversion L; subst.
    destruct t as [[x y] z]. unfold px, py, pz. cbn [fst snd]. f_equal; [f_equal |]; lia.
  - cbn [check_steps] in H. rewrite final_cons in L.
    destruct (one_step (px previous - px cur, py previous - py cur, pz previous - pz cur));
      [| discriminate].
    rewrite (IH _ _ _ _ H L). unfold px, py, pz. cbn [fst snd]. f_equal; [f_equal |]; lia.
Qed.

Lemma closed_cycle_path solution previous :
  final solution = Ok previous ->
  (closed_cycle solution <-> path (previous :: solution)).
Proof.
  intros L. destruct solution as [| s0 rest]; [discriminate |].
  change (path (previous :: s0 :: rest)) with (adjacent previous s0 /\ path (s0 :: rest)).
  unfold closed_cycle. split.
  - intros [P [p [q [Hp [Hq A]]]]]. inversion Hp; subst p.
    rewrite L in Hq. inversion Hq; subst q. now split.
  - intros [A P]. split; [exact P |]. now exists s0, previous.
Qed.

Lemma unpack_nil solution : unpack solution = [] <-> solution = [].
Proof. destruct solution; [tauto |]. split; discriminate. Qed.

Lemma check_solution_passes solution :
  check_solution solution = Returns tt <->
  exists radius,
    In radius (unpack solution) /\
    Forall (fun c => c <= radius) (unpack solution) /\
    hamiltonian (get_n_from_radius radius) solution.
Proof.
  unfold check_solution, hamiltonian. split.
  - destruct (maximum (unpack solution)) as [radius |] eqn:Em; [| discriminate].
    apply maximum_spec in Em. destruct Em as [Hin Hle].
    destruct (Z.of_nat (length solution) =? get_order_from_radius radius) eqn:E1;
      [| discriminate].
    destruct (Z.of_nat (length (distinct solution)) =? get_order_from_radius radius)
      eqn:E2; [| discriminate].
    cbn [negb]. apply Z.eqb_eq in E1, E2.
    destruct (final solution) as [previous |] eqn:Ef; [| discriminate].
    destruct (check_steps previous (0, 0, 0) solution) as [t |] eqn:Ec; [| discriminate].
    intros _. exists radius. split; [exact Hin |]. split; [exact Hle |].
    split; [exact E1 |]. split.
    + apply distinct_NoDup. lia.
    + apply (closed_cycle_path _ _ Ef). apply (check_steps_path _ _ (0, 0, 0)).
      now exists t.
  - intros [radius [Hin [Hle [E1 [N C]]]]].
    rewrite (proj2 (maximum_spec _ _) (conj Hin Hle)).
    change (get_order_from_n (get_n_from_radius radius))
      with (get_order_from_radius radius) in E1.
    rewrite (proj2 (distinct_NoDup _) N), E1, Z.eqb_refl. cbn [negb].
    destruct solution as [| s0 rest]; [destruct Hin |].
    destruct (final_total (s0 :: rest) ltac:(discriminate)) as [previous Ef].
    rewrite Ef. apply (closed_cycle_path _ _ Ef) in C.
    apply (check_steps_path _ _ (0, 0, 0)) in C. destruct C as [t Ec]. rewrite Ec.
    rewrite (check_steps_total _ _ _ _ previous Ec).
    + replace (px (0, 0, 0) + px previous - px previous) with 0 by (cbn; lia).
      replace (py (0, 0, 0) + py previous - py previous) with 0 by (cbn; lia).
      replace (pz (0, 0, 0) + pz previous - pz previous) with 0 by (cbn; lia).
      reflexivity.
    + rewrite final_cons. exact Ef.
Qed.

(** X19 ([check_solution], [unpack]): the call returns exactly when
    the solution is a Hamiltonian cycle of the ball whose radius is the
    largest coordinate found in the solution: as many points as the order
    of that radius, all distinct, every step and the closing step of
    length 2 along one axis.  The only exception other than
    [AssertionError] is [ValueError], on the empty solution. *)
Theorem check_solution_certifies solution :
  (check_solution solution = Returns tt <->
   exists radius,
     In radius (unpack solution) /\
     Forall (fun c => c <= radius) (unpack solution) /\
     hamiltonian (get_n_from_radius radius) solution) /\
  (forall e, check_solution solution = Raises e <-> solution = [] /\ e = ValueError).
Proof.
  split; [apply check_solution_passes |].
  intros e. unfold check_solution. destruct solution as [| s0 rest].
  - cbn. split; [intros H; inversion H; now split | intros [_ ->]; reflexivity].
  - cbn [unpack flat_map app maximum].
    destruct (negb _); [split; [discriminate | intros [H _]; discriminate] |].
    destruct (negb _); [split; [discriminate | intros [H _]; discriminate] |].
    destruct (final_total (s0 :: rest) ltac:(discriminate)) as [previous ->].
    destruct (check_steps previous (0, 0, 0) (s0 :: rest));
      [destruct (point_eqb p (0, 0, 0)) |];
      (split; [discriminate | intros [H _]; discriminate]).
Qed.

(** X20 ([check_solution]): the last assertion cannot fail: when the
    loop, started from the last point of the solution, passes the
    assertion on every step, the displacements accumulated are
    [(0, 0, 0)]. *)
Theorem check_solution_displacements solution previous total_disps :
  final solution = Ok previous ->
  check_steps previous (0, 0, 0) solution = Some total_disps ->
  total_disps = (0, 0, 0).
Proof.
  intros Ef Ec. destruct solution as [| s0 rest]; [discriminate |].
  rewrite (check_steps_total _ _ _ _ previous Ec).
  - unfold px, py, pz. cbn [fst snd]. f_equal; [f_equal |]; lia.
  - rewrite final_cons. exact Ef.
Qed.

Lemma check_solution_displacements_witness : (0, 0, 0) = (0, 0, 0) :> Point.
Proof.
  apply (check_solution_displacements [(1, 1, 1); (3, 1, 1)] (3, 1, 1) (0, 0, 0));
    reflexivity.
Defined.

(** ** The counters of the weaver ([Weaver.__init__], [Weaver.join]) *)

Section Counters.

Variable choose : Edges -> nat.

Lemma merge_step_counters w visited thread w' visited' :
  merge_step choose (w, visited) thread = Ok (w', visited') ->
  joined w' = true /\ order w' = order w /\
  z_abs_max w' = (if joined w then z_abs_max w - 4 else z_abs_max w - 2) /\
  zc_abs_sum w' = z_abs_max w' * 2 - 2.
Proof.
  intros E. unfold merge_step in E.
  destruct (pop choose (weft_candidates w thread)) as [wb |]; [| discriminate].
  cbn [bind] in E.
  destruct (align_to (data w) (fst wb) (snd wb)) as [wdata |]; [| discriminate].
  cbn [bind] in E.
  destruct (pop choose _) as [warp |]; [| discriminate]. cbn [bind] in E.
  destruct (align_to thread (snd warp) (fst warp)) as [thread' |]; [| discriminate].
  cbn [bind] in E. inversion E; subst w' visited'. unfold join.
  cbn [joined order z_abs_max zc_abs_sum]. repeat split.
Qed.

Lemma merge_loop_counters rest : forall w visited w' visited',
  joined w = true ->
  foldM (merge_step choose) (w, visited) rest = Ok (w', visited') ->
  joined w' = true /\ order w' = order w /\
  z_abs_max w' = z_abs_max w - 4 * Z.of_nat (length rest) /\
  (rest <> [] -> zc_abs_sum w' = z_abs_max w' * 2 - 2).
Proof.
  induction rest as [| thread rest IH]; intros w visited w' visited' Hj E.
  - inversion E; subst. cbn [length]. repeat split; try lia; try assumption. congruence.
  - cbn [foldM] in E.
    destruct (merge_step choose (w, visited) thread) as [[w1 v1] |] eqn:E1;
      [| discriminate].
    cbn [bind] in E. destruct (merge_step_counters _ _ _ _ _ E1) as [A [B [C D]]].
    rewrite Hj in C.
    destruct (IH _ _ _ _ A E) as [A' [B' [C' D']]].
    repeat split; [exact A' | congruence | cbn [length]; lia |].
    intros _. destruct rest as [| t rest]; [| apply D'; discriminate].
    inversion E; subst. exact D.
Qed.

(** X21 ([merge_cycles], [Weaver.__init__], [Weaver.join]): the weaver
    starts not joined, with [zc_abs_sum = 2 radius - 8]; once the loop of
    [merge_cycles] has joined [k >= 1] threads it is joined, its order is
    unchanged, [z_abs_max = radius - 2 - 4 k] and
    [zc_abs_sum = 2 radius - 6 - 8 k]. *)
Theorem merge_counters seed radius ord thread rest w' visited' :
  foldM (merge_step choose) (Weaver_init seed radius ord, []) (thread :: rest)
  = Ok (w', visited') ->
  joined (Weaver_init seed radius ord) = false /\
  zc_abs_sum (Weaver_init seed radius ord) = 2 * radius - 8 /\
  joined w' = true /\ order w' = ord /\
  z_abs_max w' = radius - 2 - 4 * Z.of_nat (length (thread :: rest)) /\
  zc_abs_sum w' = 2 * radius - 6 - 8 * Z.of_nat (length (thread :: rest)).
Proof.
  intros E. cbn [foldM] in E.
  destruct (merge_step choose (Weaver_init seed radius ord, []) thread)
    as [[w1 v1] |] eqn:E1; [| discriminate].
  cbn [bind] in E. destruct (merge_step_counters _ _ _ _ _ E1) as [A [B [C D]]].
  destruct (merge_loop_counters rest _ _ _ _ A E) as [A' [B' [C' D']]].
  unfold Weaver_init in *. cbn [joined order z_abs_max zc_abs_sum] in *.
  repeat split; [lia | exact A' | congruence | cbn [length]; lia |].
  destruct rest as [| t rest].
  - inversion E; subst. cbn [length] in *. lia.
  - rewrite D' by discriminate. cbn [length] in *. lia.
Qed.

End Counters.

Lemma merge_counters_witness :
  exists w' visited',
    foldM (merge_step (fun _ => 0%nat))
      (Weaver_init [(1, 1, 1); (3, 1, 1)] 3 8, []) [[(1, 3, 1); (3, 3, 1)]]
    = Ok (w', visited') /\
    joined (Weaver_init [(1, 1, 1); (3, 1, 1)] 3 8) = false /\
    zc_abs_sum (Weaver_init [(1, 1, 1); (3, 1, 1)] 3 8) = 2 * 3 - 8 /\
    joined w' = true /\ order w' = 8 /\
    z_abs_max w' = 3 - 2 - 4 * Z.of_nat (length [[(1, 3, 1); (3, 3, 1)]]) /\
    zc_abs_sum w' = 2 * 3 - 6 - 8 * Z.of_nat (length [[(1, 3, 1); (3, 3, 1)]]).
Proof.
  do 2 eexists. split; [vm_compute; reflexivity |].
  eapply (merge_counters (fun _ => 0%nat) [(1, 1, 1); (3, 1, 1)] 3 8
            [(1, 3, 1); (3, 3, 1)] []). vm_compute. reflexivity.
Defined.

(** ** The candidate edges of the weaver ([Weaver.edges]) *)

Lemma to_set_iff l e : In e (to_set l) <-> In e l.
Proof. split; [apply to_set_In | apply In_to_set]. Qed.

Lemma oriented_x_step u v : px u = 1 -> px v = 3 -> oriented (u, v) = (u, v).
Proof.
  intros Hu Hv. unfold oriented, point_ltb. cbn [fst snd].
  replace (px u <? px v) with true; [reflexivity |].
  symmetry. apply Z.ltb_lt. lia.
Qed.

(** X22 ([Weaver.edges]): before the first join the candidate edges
    are exactly the steps of the data from a point with [x = 1] to the next
    point with [x = 3], kept in that direction, whatever their elevation.
    Once joined, they are the steps between two points with [x = 1] whose
    elevations add up to [zc_abs_sum] or its opposite, the lesser point
    first. *)
Theorem Weaver_edges_members w e :
  (joined w = false ->
   (In e (Weaver_edges w) <->
    In e (windows (data w)) /\ px (fst e) = 1 /\ px (snd e) = 3)) /\
  (joined w = true ->
   (In e (Weaver_edges w) <->
    exists u v,
      In (u, v) (windows (data w)) /\ e = oriented (u, v) /\
      px u = 1 /\ px v = 1 /\
      (pz u + pz v = - zc_abs_sum w \/ pz u + pz v = zc_abs_sum w))).
Proof.
  unfold Weaver_edges. split; intros Hj; rewrite Hj, to_set_iff, in_map_iff.
  - split.
    + intros [[u v] [<- Hin]]. apply filter_In in Hin. destruct Hin as [Hin Hc].
      cbn [negb] in Hc. rewrite andb_false_r, orb_false_r, andb_true_r in Hc.
      apply andb_true_iff in Hc. destruct Hc as [Hu Hv].
      apply Z.eqb_eq in Hu, Hv. rewrite (oriented_x_step u v Hu Hv).
      cbn [fst snd]. now repeat split.
    + intros [Hin [Hu Hv]]. destruct e as [u v]. cbn [fst snd] in *.
      exists (u, v). split; [now apply oriented_x_step |].
      apply filter_In. split; [exact Hin |].
      cbn [negb]. rewrite andb_false_r, orb_false_r, andb_true_r.
      apply andb_true_iff. split; now apply Z.eqb_eq.
  - split.
    + intros [[u v] [<- Hin]]. apply filter_In in Hin. destruct Hin as [Hin Hc].
      cbn [negb] in Hc. rewrite andb_false_r, andb_true_r in Hc. cbn [orb] in Hc.
      apply andb_true_iff in Hc. destruct Hc as [Hx Hz].
      apply andb_true_iff in Hx. destruct Hx as [Hu Hv].
      apply Z.eqb_eq in Hu, Hv. apply orb_true_iff in Hz.
      exists u, v. repeat split; try assumption.
      destruct Hz as [Hz | Hz]; apply Z.eqb_eq in Hz; [now left | now right].
    + intros [u [v [Hin [-> [Hu [Hv Hz]]]]]]. exists (u, v). split; [reflexivity |].
      apply filter_In. split; [exact Hin |].
      cbn [negb]. rewrite andb_false_r, andb_true_r. cbn [orb].
      apply andb_true_iff. split.
      * apply andb_true_iff. split; now apply Z.eqb_eq.
      * apply orb_true_iff. destruct Hz as [Hz | Hz]; [left | right]; now apply Z.eqb_eq.
Qed.

Lemma Weaver_edges_members_witness :
  In ((1, 1, 1), (3, 1, 1)) (Weaver_edges (Weaver_init [(1, 1, 1); (3, 1, 1)] 3 8)) /\
  In ((1, 1, -1), (1, 1, 1))
    (Weaver_edges (join (Weaver_init [(1, 1, 1); (1, 1, -1)] 7 56) [(3, 1, 1)])).
Proof.
  split.
  - apply (proj1 (Weaver_edges_members (Weaver_init [(1, 1, 1); (3, 1, 1)] 3 8)
                    ((1, 1, 1), (3, 1, 1)))); [reflexivity |].
    split; [now left | split; reflexivity].
  - apply (proj2 (Weaver_edges_members
                    (join (Weaver_init [(1, 1, 1); (1, 1, -1)] 7 56) [(3, 1, 1)])
                    ((1, 1, -1), (1, 1, 1)))); [reflexivity |].
    exists (1, 1, 1), (1, 1, -1). split; [now left |]. split; [reflexivity |].
    split; [reflexivity |]. split; [reflexivity |]. right. reflexivity.
Defined.

(** ** The yarn as a path of the plane *)

Lemma spin_unit_steps steps : forall p,
  Forall unit_step steps ->
  Forall (fun pq : XY * XY =>
            unit_step (fst (snd pq) - fst (fst pq), snd (snd pq) - snd (fst pq)))
    (combine (spin p steps) (tl (spin p steps))).
Proof.
  induction steps as [| d steps IH]; intros p Hs; [constructor |].
  inversion Hs as [| ? ? Hd Hrest]; subst. cbn [spin tl].
  specialize (IH (fst p + fst d, snd p + snd d) Hrest).
  destruct (spin (fst p + fst d, snd p + snd d) steps) as [| q rest] eqn:E.
  - constructor.
  - cbn [combine]. constructor; [| exact IH].
    assert (Hq : q = (fst p + fst d, snd p + snd d)).
    { destruct steps; cbn [spin] in E; now inversion E. }
    subst q. cbn [fst snd].
    replace (fst p + fst d - fst p) with (fst d) by lia.
    replace (snd p + snd d - snd p) with (snd d) by lia.
    destruct d. exact Hd.
Qed.

Lemma reflect_unit_steps (l : list XY) :
  Forall (fun pq : XY * XY =>
            unit_step (fst (snd pq) - fst (fst pq), snd (snd pq) - snd (fst pq)))
    (combine l (tl l)) ->
  Forall (fun pq : XY * XY =>
            unit_step (fst (snd pq) - fst (fst pq), snd (snd pq) - snd (fst pq)))
    (combine (map reflect l) (tl (map reflect l))).
Proof.
  induction l as [| p [| q l] IH]; intros H; [constructor | constructor |].
  cbn [map tl combine] in *. inversion H as [| ? ? Hpq Hrest]; subst.
  constructor; [| apply IH; exact Hrest].
  unfold reflect. cbn [fst snd] in *. unfold unit_step in *.
  destruct Hpq as [E | [E | [E | E]]]; inversion E as [[Ex Ey]].
  - right. left. f_equal; lia.
  - left. f_equal; lia.
  - right. right. right. f_equal; lia.
  - right. right. left. f_equal; lia.
Qed.

(** X23 ([spin_yarn]): for every radius, each yarn of the spool is
    non-empty, every two consecutive points of it differ by 2 along exactly
    one axis, and all its points have odd coordinates. *)
Theorem spin_yarn_path radius color yarn :
  lookup (spin_yarn radius) color = Ok yarn ->
  yarn <> [] /\
  Forall (fun pq : XY * XY =>
            unit_step (fst (snd pq) - fst (fst pq), snd (snd pq) - snd (fst pq)))
    (combine yarn (tl yarn)) /\
  Forall (fun xy : XY => fst xy mod 2 = 1 /\ snd xy mod 2 = 1) yarn.
Proof.
  intros E. split; [| split].
  - revert E. unfold spin_yarn. cbn [lookup].
    destruct (3 =? color); [intros H; inversion H; apply spun_of_nonempty |].
    destruct (1 =? color); [| discriminate]. intros H. inversion H.
    pose proof (spun_of_nonempty radius) as N.
    destruct (spun_of radius); [congruence | discriminate].
  - assert (S : Forall (fun pq : XY * XY =>
                          unit_step (fst (snd pq) - fst (fst pq),
                                     snd (snd pq) - snd (fst pq)))
                  (combine (spun_of radius) (tl (spun_of radius)))).
    { unfold spun_of. destruct (((radius + 1) / 2) mod 2 =? 0).
      - apply spin_unit_steps, zigzag_steps_unit. now left.
      - apply spin_unit_steps, zigzag_steps_unit. now right. }
    revert E. unfold spin_yarn. cbn [lookup].
    destruct (3 =? color); [intros H; inversion H; subst; exact S |].
    destruct (1 =? color); [| discriminate]. intros H. inversion H; subst.
    now apply reflect_unit_steps.
  - exact (yarn_odd radius color yarn E).
Qed.

Lemma spin_yarn_path_witness :
  exists yarn,
    lookup (spin_yarn 3) 1 = Ok yarn /\
    yarn <> [] /\
    Forall (fun pq : XY * XY =>
              unit_step (fst (snd pq) - fst (fst pq), snd (snd pq) - snd (fst pq)))
      (combine yarn (tl yarn)) /\
    Forall (fun xy : XY => fst xy mod 2 = 1 /\ snd xy mod 2 = 1) yarn.
Proof.
  eexists. split; [reflexivity |]. apply (spin_yarn_path 3 1). reflexivity.
Defined.

(** ** Every layer is cut along the spiral of its own radius *)

Lemma spun_of_unfold n :
  1 <= n ->
  spun_of (2 * n - 1)
  = spin (start_of n) (steps_from (dpv_of n) 0 (rings (Z.to_nat n) ++ [2 * n - 1])).
Proof.
  intros Hn. unfold spun_of, start_of, dpv_of.
  replace ((2 * n - 1 + 1) / 2) with n.
  2:{ replace (2 * n - 1 + 1) with (n * 2) by lia. now rewrite Z.div_mul by lia. }
  rewrite ring_sizes_rings by lia.
  destruct (n mod 2 =? 0); reflexivity.
Qed.

Lemma rings_app a b :
  rings (a + b) = rings a ++ flat_map (fun x => [x; x])
                               (map (fun k => 1 + 2 * Z.of_nat k) (seq a b)).
Proof.
  unfold rings, odds. now rewrite seq_app, map_app, flat_map_app.
Qed.

Lemma segment_prefix dpv idx a b :
  map (zigzag_at dpv idx) (seq 0 (a + b))
  = map (zigzag_at dpv idx) (seq 0 a) ++ map (zigzag_at dpv idx) (seq a b).
Proof. now rewrite seq_app, map_app. Qed.

(** The steps of the spiral of [m] layers open the spiral of [n >= m] layers. *)
Lemma steps_prefix dpv m n :
  1 <= m <= n ->
  exists more,
    steps_from dpv 0 (rings (Z.to_nat n) ++ [2 * n - 1])
    = steps_from dpv 0 (rings (Z.to_nat m) ++ [2 * m - 1]) ++ more.
Proof.
  intros H. destruct (Z.eq_dec m n) as [-> | Hne].
  - exists []. now rewrite app_nil_r.
  - replace (Z.to_nat n) with (Z.to_nat m + S (Z.to_nat (n - m - 1)))%nat by lia.
    rewrite rings_app. cbn [seq map flat_map]. rewrite <- !app_assoc. cbn [app].
    set (tail := _ :: _ ++ [2 * n - 1]).
    rewrite !steps_from_app, !rings_length. cbn [Nat.add].
    rewrite !steps_from_cons.
    replace (Z.to_nat (1 + 2 * Z.of_nat (Z.to_nat m)))
      with (Z.to_nat (2 * m - 1) + 2)%nat by lia.
    rewrite segment_prefix, <- !app_assoc.
    exists (map (zigzag_at dpv (2 * Z.to_nat m)) (seq (Z.to_nat (2 * m - 1)) 2)
            ++ steps_from dpv (S (2 * Z.to_nat m)) tail).
    unfold steps_from at 4. cbn [length seq combine flat_map].
    rewrite app_nil_r. rewrite <- (app_assoc (steps_from dpv 0 (rings (Z.to_nat m)))).
    reflexivity.
Qed.

Lemma spin_prefix a : forall p b,
  firstn (S (length a)) (spin p (a ++ b)) = spin p a.
Proof.
  induction a as [| d a IH]; intros p b.
  - cbn [app length]. destruct b; reflexivity.
  - cbn [app length spin]. cbn [firstn]. f_equal. apply IH.
Qed.

Lemma zigzag_at_rotated idx i : zigzag_at rotated idx i = opp (zigzag_at zigzags idx i).
Proof.
  unfold zigzag_at.
  pose proof (Nat.mod_upper_bound idx 4 ltac:(discriminate)) as Hb.
  destruct (idx mod 4)%nat as [| [| [| [| k]]]]; [| | | | lia];
    destruct ((idx + i) mod 2 =? 0)%nat; reflexivity.
Qed.

Lemma zigzag_at_zigzags idx i : zigzag_at zigzags idx i = opp (zigzag_at rotated idx i).
Proof.
  rewrite zigzag_at_rotated. unfold opp. cbn [fst snd].
  destruct (zigzag_at zigzags idx i) as [x y]. cbn [fst snd]. f_equal; lia.
Qed.

Lemma steps_from_opp dpv dpv' sizes :
  (forall idx i, zigzag_at dpv' idx i = opp (zigzag_at dpv idx i)) ->
  forall k, map opp (steps_from dpv k sizes) = steps_from dpv' k sizes.
Proof.
  intros H. induction sizes as [| s sizes IH]; intros k; [reflexivity |].
  rewrite !steps_from_cons, map_app, IH, map_map. f_equal.
  apply map_ext. intros i. symmetry. apply H.
Qed.

Lemma reflect_spin steps : forall p,
  map reflect (spin p steps) = spin (reflect p) (map opp steps).
Proof.
  induction steps as [| d steps IH]; intros p; [reflexivity |].
  cbn [spin map]. f_equal. rewrite IH. f_equal.
  unfold reflect, opp. cbn [fst snd]. f_equal; lia.
Qed.

Lemma reflect_spun_of n :
  1 <= n ->
  map reflect (spun_of (2 * n - 1))
  = spin (start_of (n + 1)) (steps_from (dpv_of (n + 1)) 0
                               (rings (Z.to_nat n) ++ [2 * n - 1])).
Proof.
  intros Hn. rewrite spun_of_unfold by lia. rewrite reflect_spin.
  unfold start_of, dpv_of.
  assert (P : ((n + 1) mod 2 =? 0) = negb (n mod 2 =? 0)).
  { destruct (n mod 2 =? 0) eqn:E; cbn [negb];
      [apply Z.eqb_neq | apply Z.eqb_eq]; rewrite ?Z.eqb_eq, ?Z.eqb_neq in E;
      Z.to_euclidean_division_equations; lia. }
  rewrite P. destruct (n mod 2 =? 0); cbn [negb].
  - rewrite (steps_from_opp zigzags rotated); [reflexivity | apply zigzag_at_rotated].
  - rewrite (steps_from_opp rotated zigzags); [reflexivity | apply zigzag_at_zigzags].
Qed.

Lemma parity_cases n m :
  (start_of n = start_of m /\ dpv_of n = dpv_of m /\ (n - m) mod 2 = 0) \/
  (start_of (n + 1) = start_of m /\ dpv_of (n + 1) = dpv_of m /\ (n - m) mod 2 = 1).
Proof.
  unfold start_of, dpv_of.
  destruct (n mod 2 =? 0) eqn:En; destruct (m mod 2 =? 0) eqn:Em;
    destruct ((n + 1) mod 2 =? 0) eqn:En1;
    rewrite ?Z.eqb_eq, ?Z.eqb_neq in *;
    try (left; repeat split; Z.to_euclidean_division_equations; lia);
    try (right; repeat split; Z.to_euclidean_division_equations; lia);
    exfalso; Z.to_euclidean_division_equations; lia.
Qed.

Lemma slice_spiral n k :
  0 <= k < n ->
  slice (spin_yarn (get_radius_from_n n))
    (2 * k + 1 - 2 * n, (if (n - k) mod 2 =? 0 then 1 else 3), 2 * (k + 1) * (k + 2))
  = map (lift (2 * k + 1 - 2 * n)) (spun_of (get_radius_from_n (k + 1))).
Proof.
  intros Hk. unfold slice, get_radius_from_n.
  replace (n * 2 - 1) with (2 * n - 1) by lia.
  replace ((k + 1) * 2 - 1) with (2 * (k + 1) - 1) by lia.
  destruct (steps_prefix (dpv_of (k + 1)) (k + 1) n ltac:(lia)) as [more E].
  assert (L : Z.to_nat (2 * (k + 1) * (k + 2))
              = S (length (steps_from (dpv_of (k + 1)) 0
                             (rings (Z.to_nat (k + 1)) ++ [2 * (k + 1) - 1])))).
  { pose proof (spun_of_length (k + 1) ltac:(lia)) as SL.
    rewrite spun_of_unfold, spin_length in SL by lia. lia. }
  rewrite L, (spun_of_unfold (k + 1)) by lia.
  destruct (parity_cases n (k + 1)) as [[Es [Ed Ep]] | [Es [Ed Ep]]].
  - replace ((n - k) mod 2 =? 0) with false.
    2:{ symmetry. apply Z.eqb_neq. Z.to_euclidean_division_equations. lia. }
    unfold spin_yarn. cbn [lookup Z.eqb Pos.eqb].
    rewrite spun_of_unfold by lia. rewrite Es, Ed, E. f_equal. apply spin_prefix.
  - replace ((n - k) mod 2 =? 0) with true.
    2:{ symmetry. apply Z.eqb_eq. Z.to_euclidean_division_equations. lia. }
    unfold spin_yarn. cbn [lookup Z.eqb Pos.eqb].
    rewrite reflect_spun_of by lia. rewrite Es, Ed, E. f_equal. apply spin_prefix.
Qed.

(** X24 ([weave], [get_z_color_size], [spin_yarn]): the slice
    [yarns[color][:size]] of the layer of rank [k] of the weave of [n]
    layers is the whole spiral spun for the radius of [k + 1] layers,
    whatever [n]: the colours and sizes of [get_z_color_size] select
    exactly that much of the right yarn. *)
Theorem layer_tours_are_spirals n k :
  0 <= k < n ->
  exists zcs,
    nth_error (get_z_color_size n) (Z.to_nat k) = Some zcs /\
    slice (spin_yarn (get_radius_from_n n)) zcs
    = map (lift (2 * k + 1 - 2 * n)) (spun_of (get_radius_from_n (k + 1))).
Proof.
  intros Hk. eexists. split; [now apply get_z_color_size_nth |].
  now apply slice_spiral.
Qed.

Lemma layer_tours_are_spirals_witness :
  exists zcs,
    nth_error (get_z_color_size 3) (Z.to_nat 1) = Some zcs /\
    slice (spin_yarn (get_radius_from_n 3)) zcs
    = map (lift (2 * 1 + 1 - 2 * 3)) (spun_of (get_radius_from_n (1 + 1))).
Proof. apply (layer_tours_are_spirals 3 1). lia. Defined.

(** ** Lowering the loom *)

Lemma rmap_bind {A B A' B'} (f : A -> A') (g : B -> B') (m : result A)
  (k : A -> result B) (k' : A' -> result B') :
  (forall a, k' (f a) = rmap g (k a)) ->
  bind (rmap f m) k' = rmap g (bind m k).
Proof. intros H. destruct m; [apply H | reflexivity]. Qed.

Lemma bind_rmap {A B A' B'} (f : A -> A') (g : B -> B') (m : result A) (m' : result A')
  (k : A -> result B) (k' : A' -> result B') :
  m' = rmap f m -> (forall a, k' (f a) = rmap g (k a)) ->
  bind m' k' = rmap g (bind m k).
Proof. intros -> H. now apply rmap_bind. Qed.

Lemma foldM_map {S A S' A'} (phi : S -> S') (psi : A -> A')
  (f : S -> A -> result S) (f' : S' -> A' -> result S') (l : list A) :
  (forall s a, f' (phi s) (psi a) = rmap phi (f s a)) ->
  forall s, foldM f' (phi s) (map psi l) = rmap phi (foldM f s l).
Proof.
  intros H. induction l as [| a l IH]; intros s; [reflexivity |].
  cbn [map foldM]. rewrite H. destruct (f s a) as [s1 |]; [apply IH | reflexivity].
Qed.

Section Lower.

Variable c : Z.

Lemma lower_eqb p q : point_eqb (lower c p) (lower c q) = point_eqb p q.
Proof.
  unfold point_eqb, lower, px, py, pz. cbn [fst snd].
  destruct (fst (fst p) =? fst (fst q)); [| reflexivity].
  destruct (snd (fst p) =? snd (fst q)); [| reflexivity]. cbn [andb].
  destruct (snd p =? snd q) eqn:E.
  - apply Z.eqb_eq. apply Z.eqb_eq in E. lia.
  - apply Z.eqb_neq. apply Z.eqb_neq in E. lia.
Qed.

Lemma lower_mem p s : mem (lower c p) (map (lower c) s) = mem p s.
Proof.
  unfold mem. induction s as [| q s IH]; [reflexivity |].
  cbn [map existsb]. now rewrite lower_eqb, IH.
Qed.

Lemma lower_at_level p z : at_level (lower c p) (z - c) = lower c (at_level p z).
Proof. reflexivity. Qed.

Lemma first_lower (l : list Point) : first (map (lower c) l) = rmap (lower c) (first l).
Proof. destruct l; reflexivity. Qed.

Lemma final_lower (l : list Point) : final (map (lower c) l) = rmap (lower c) (final l).
Proof.
  induction l as [| a [| b l] IH]; [reflexivity | reflexivity |].
  cbn [map]. rewrite !final_cons. exact IH.
Qed.

(** [pin_thread_ends] *)

Lemma add_pin_lower pins p :
  add_pin (map (lower c) pins) (lower c p) = map (lower c) (add_pin pins p).
Proof.
  unfold add_pin. rewrite lower_mem. destruct (mem p pins); [reflexivity |].
  now rewrite map_app.
Qed.

Lemma pin_thread_lower z st thread :
  pin_thread (z - c) (lower_pinned c st) (map (lower c) thread)
  = rmap (lower_pinned c) (pin_thread z st thread).
Proof.
  destruct st as [done pins]. unfold pin_thread, lower_pinned. cbn [fst snd].
  rewrite first_lower. destruct (first thread) as [h |]; [| reflexivity].
  cbn [rmap bind]. rewrite lower_at_level.
  change (lower c (at_level h z) :: map (lower c) thread)
    with (map (lower c) (at_level h z :: thread)).
  rewrite final_lower. destruct (final (at_level h z :: thread)) as [t |]; [| reflexivity].
  cbn [rmap bind]. rewrite lower_at_level. cbn [fst snd].
  rewrite !add_pin_lower, !map_app. cbn [map]. rewrite map_app. reflexivity.
Qed.

Lemma pin_thread_ends_lower loom z :
  pin_thread_ends (map (map (lower c)) loom) (z - c)
  = rmap (lower_pinned c) (pin_thread_ends loom z).
Proof.
  unfold pin_thread_ends.
  apply (foldM_map (lower_pinned c) (map (lower c)) (pin_thread z) (pin_thread (z - c))
           loom (pin_thread_lower z) ([], [])).
Qed.

(** [chop] *)

Lemma pinned_from_lower pins (l : Tour) : forall s,
  map fst (filter (fun xt : nat * Point => mem (snd xt) (map (lower c) pins))
             (combine (seq s (length (map (lower c) l))) (map (lower c) l)))
  = map fst (filter (fun xt : nat * Point => mem (snd xt) pins)
               (combine (seq s (length l)) l)).
Proof.
  induction l as [| p l IH]; intros s; [reflexivity |].
  cbn [map length seq combine filter snd]. rewrite lower_mem.
  destruct (mem p pins); cbn [map fst]; now rewrite IH.
Qed.

Lemma pinned_indices_lower tour pins :
  pinned_indices (map (lower c) tour) (map (lower c) pins) = pinned_indices tour pins.
Proof. apply pinned_from_lower. Qed.

Lemma chop_step_lower pins st ij :
  chop_step (map (lower c) pins) (lower_chopped c st) ij
  = rmap (lower_chopped c) (chop_step pins st ij).
Proof.
  destruct st as [tour subs], ij as [i j]. unfold chop_step, lower_chopped.
  cbn [fst snd].
  assert (L : (if (i =? 0)%nat
               then t0 <- first (map (lower c) tour) ;;
                    Ok (negb (mem t0 (map (lower c) pins)))
               else Ok false)
              = (if (i =? 0)%nat
                 then t0 <- first tour ;; Ok (negb (mem t0 pins))
                 else Ok false)).
  { destruct (i =? 0)%nat; [| reflexivity]. rewrite first_lower.
    destruct (first tour) as [t0 |]; [| reflexivity]. cbn [rmap bind].
    now rewrite lower_mem. }
  rewrite L. clear L.
  destruct (if (i =? 0)%nat then t0 <- first tour ;; Ok (negb (mem t0 pins)) else Ok false)
    as [[|] |]; cbn [bind rmap]; [| | reflexivity].
  - rewrite skipn_map, firstn_map, <- map_rev.
    destruct (skipn (j + 1) tour) as [| x rest]; cbn [map rmap fst snd].
    + now rewrite map_app.
    + now rewrite !map_app.
  - cbn [fst snd]. now rewrite firstn_map, skipn_map, map_app.
Qed.

Lemma chop_lower tour pins :
  chop (map (lower c) tour) (map (lower c) pins) = rmap (lower_chopped c) (chop tour pins).
Proof.
  unfold chop. destruct pins as [| pin pins].
  - cbn [map rmap]. unfold lower_chopped. cbn [fst snd map]. now rewrite map_rev.
  - cbn [map]. change (lower c pin :: map (lower c) pins) with (map (lower c) (pin :: pins)).
    rewrite pinned_indices_lower.
    rewrite <- (map_id (rev (enumerate (pinned_indices tour (pin :: pins))))) at 1.
    apply (foldM_map (lower_chopped c) (fun ij : nat * nat => ij)
             (chop_step (pin :: pins)) (chop_step (map (lower c) (pin :: pins)))
             _ (chop_step_lower (pin :: pins)) (tour, [])).
Qed.

(** [extend_threads] *)

Lemma extend_step_lower st it :
  extend_step (lower_extended c st) (lower_item c it) = rmap (lower_extended c) (extend_step st it).
Proof.
  destruct st as [thread used], it as [idx subtour].
  unfold extend_step, lower_extended, lower_item. cbn [fst snd].
  destruct (existsb (Nat.eqb idx) used); [reflexivity |].
  rewrite !first_lower, final_lower.
  destruct (first thread) as [h |]; [| reflexivity]. cbn [rmap bind].
  destruct (first subtour) as [s |] eqn:Es; [| reflexivity]. cbn [rmap bind].
  rewrite lower_eqb. destruct (point_eqb h s).
  - cbn [rmap fst snd]. rewrite map_app, map_rev.
    destruct subtour; reflexivity.
  - destruct (final thread) as [t |]; [| reflexivity]. cbn [rmap bind].
    rewrite lower_eqb. destruct (point_eqb t s); [| reflexivity].
    cbn [rmap fst snd]. rewrite map_app. destruct subtour; reflexivity.
Qed.

Lemma enumerate_lower (subtours : Subtours) :
  enumerate (map (map (lower c)) subtours) = map (lower_item c) (enumerate subtours).
Proof.
  unfold enumerate. rewrite length_map. generalize 0%nat.
  induction subtours as [| f subtours IH]; intros s; [reflexivity |].
  cbn [length seq map combine]. now rewrite IH.
Qed.

Lemma extend_thread_lower subtours st thread :
  extend_thread (map (map (lower c)) subtours) (lower_loom c st) (map (lower c) thread)
  = rmap (lower_loom c) (extend_thread subtours st thread).
Proof.
  destruct st as [done used]. unfold extend_thread, lower_loom. cbn [fst snd].
  rewrite enumerate_lower.
  apply (bind_rmap (lower_extended c)).
  - exact (foldM_map (lower_extended c) (lower_item c) extend_step extend_step
             (enumerate subtours) extend_step_lower (thread, used)).
  - intros [t u]. cbn [rmap lower_extended fst snd]. now rewrite map_app.
Qed.

Lemma unused_items (items : list (nat * Tour)) (used : list nat) :
  map snd (filter (fun ic : nat * Tour => negb (existsb (Nat.eqb (fst ic)) used))
             (map (lower_item c) items))
  = map (map (lower c))
      (map snd (filter (fun ic : nat * Tour => negb (existsb (Nat.eqb (fst ic)) used))
                  items)).
Proof.
  induction items as [| [i f] items IH]; [reflexivity |].
  cbn [map filter lower_item fst snd].
  destruct (negb (existsb (Nat.eqb i) used)); cbn [map snd]; now rewrite IH.
Qed.

Lemma unused_lower subtours used :
  unused (map (map (lower c)) subtours) used = map (map (lower c)) (unused subtours used).
Proof. unfold unused. rewrite enumerate_lower. apply unused_items. Qed.

Lemma extend_threads_lower loom subtours :
  extend_threads (map (map (lower c)) loom) (map (map (lower c)) subtours)
  = rmap (map (map (lower c))) (extend_threads loom subtours).
Proof.
  unfold extend_threads. apply (bind_rmap (lower_loom c)).
  - exact (foldM_map (lower_loom c) (map (lower c)) (extend_thread subtours)
             (extend_thread (map (map (lower c)) subtours)) loom
             (extend_thread_lower subtours) ([], [])).
  - intros [l u]. cbn [rmap lower_loom fst snd]. now rewrite map_app, unused_lower.
Qed.

(** One layer *)

Lemma weave_tour_lower loom z tour :
  weave_tour (map (map (lower c)) loom) (z - c) (map (lower c) tour)
  = rmap (map (map (lower c))) (weave_tour loom z tour).
Proof.
  unfold weave_tour. apply (bind_rmap (lower_pinned c)); [apply pin_thread_ends_lower |].
  intros [loom1 pins]. cbn [lower_pinned fst snd].
  apply (bind_rmap (lower_chopped c)); [apply chop_lower |].
  intros [tour' subtours]. cbn [lower_chopped fst snd]. apply extend_threads_lower.
Qed.

End Lower.

(** ** The weave of [n] layers starts as the weave of fewer layers, lowered *)

Lemma foldM_app {S A} (f : S -> A -> result S) (a b : list A) : forall s,
  foldM f s (a ++ b) = bind (foldM f s a) (fun s' => foldM f s' b).
Proof.
  induction a as [| x a IH]; intros s; [reflexivity |].
  cbn [app foldM]. destruct (f s x); [apply IH | reflexivity].
Qed.

Lemma weave_layer_tour yarns loom z color size yarn :
  lookup yarns color = Ok yarn ->
  weave_layer yarns loom (z, color, size)
  = weave_tour loom z (slice yarns (z, color, size)).
Proof. intros E. unfold weave_layer, slice, weave_tour. rewrite E. reflexivity. Qed.

Lemma weave_layers_S n k :
  (k < Z.to_nat n)%nat ->
  weave_layers n (S k)
  = bind (weave_layers n k)
      (fun loom =>
         weave_tour loom (2 * Z.of_nat k + 1 - 2 * n)
           (map (lift (2 * Z.of_nat k + 1 - 2 * n))
              (spun_of (get_radius_from_n (Z.of_nat k + 1))))).
Proof.
  intros Hk. unfold weave_layers.
  pose proof (get_z_color_size_nth n (Z.of_nat k) ltac:(lia)) as N.
  rewrite Nat2Z.id in N. rewrite (firstn_succ_nth _ _ _ N), foldM_app.
  destruct (foldM (weave_layer (spin_yarn (get_radius_from_n n))) []
              (firstn k (get_z_color_size n))) as [loom |]; [| reflexivity].
  cbn [bind foldM].
  destruct (lookup_spin_yarn n (if (n - Z.of_nat k) mod 2 =? 0 then 1 else 3))
    as [yarn [E _]]; [lia | destruct ((n - Z.of_nat k) mod 2 =? 0); auto |].
  rewrite (weave_layer_tour _ _ _ _ _ _ E), slice_spiral by lia.
  destruct (weave_tour loom _ _); reflexivity.
Qed.

Lemma lower_lift c z (l : list XY) :
  map (lower c) (map (lift z) l) = map (lift (z - c)) l.
Proof. rewrite map_map. apply map_ext. intros [x y]. reflexivity. Qed.

Lemma weave_layers_lower n m k :
  (k <= Z.to_nat m)%nat -> m <= n ->
  weave_layers n k = rmap (map (map (lower (2 * (n - m))))) (weave_layers m k).
Proof.
  intros Hk Hm. induction k as [| k IH]; [reflexivity |].
  rewrite !weave_layers_S by lia. rewrite IH by lia.
  apply rmap_bind. intros loom.
  rewrite <- weave_tour_lower, lower_lift.
  replace (2 * Z.of_nat k + 1 - 2 * m - 2 * (n - m)) with (2 * Z.of_nat k + 1 - 2 * n)
    by lia.
  reflexivity.
Qed.

Lemma weave_layers_all n : weave_layers n (Z.to_nat n) = weave_loom n.
Proof.
  unfold weave_layers, weave_loom. rewrite <- (get_z_color_size_count n).
  now rewrite firstn_all.
Qed.

(** X25 ([weave], the loop over the layers): the weave of [n] layers
    begins as the weave of [m <= n] layers: after [m] layers its loom is
    the loom the layers of the weave of [m] layers leave, lowered by
    [2 (n - m)].  In particular the loom of [m + 1] layers is the loom of
    [m] layers lowered by 2 and woven with one more layer, the spiral of
    the radius of [m + 1] layers at elevation [-1]. *)
Theorem weave_layers_lowered n m :
  0 <= m <= n ->
  exists loom,
    weave_loom m = Ok loom /\
    weave_layers n (Z.to_nat m) = Ok (map (map (lower (2 * (n - m)))) loom) /\
    weave_loom (m + 1)
    = weave_tour (map (map (lower 2)) loom) (-1)
        (map (lift (-1)) (spun_of (get_radius_from_n (m + 1)))).
Proof.
  intros H. destruct (weave_loom_woven m) as [loom [E _]]. exists loom.
  split; [exact E |]. split.
  - rewrite (weave_layers_lower n m) by lia. now rewrite weave_layers_all, E.
  - rewrite <- weave_layers_all.
    replace (Z.to_nat (m + 1)) with (S (Z.to_nat m)) by lia.
    rewrite weave_layers_S by lia.
    rewrite (weave_layers_lower (m + 1) m) by lia. rewrite weave_layers_all, E.
    cbn [rmap bind]. rewrite Z2Nat.id by lia.
    replace (2 * (m + 1 - m)) with 2 by lia.
    replace (2 * m + 1 - 2 * (m + 1)) with (-1) by lia. reflexivity.
Qed.

Lemma weave_layers_lowered_witness :
  exists loom,
    weave_loom 2 = Ok loom /\
    weave_layers 3 (Z.to_nat 2) = Ok (map (map (lower (2 * (3 - 2)))) loom) /\
    weave_loom (2 + 1)
    = weave_tour (map (map (lower 2)) loom) (-1)
        (map (lift (-1)) (spun_of (get_radius_from_n (2 + 1)))).
Proof. apply (weave_layers_lowered 3 2). lia. Defined.

(** ** The first layers of every weave *)

Lemma slices_S n k :
  (k < Z.to_nat n)%nat ->
  slices n (S k)
  = slices n k ++ map (lift (2 * Z.of_nat k + 1 - 2 * n))
                    (spun_of (get_radius_from_n (Z.of_nat k + 1))).
Proof.
  intros Hk. unfold slices.
  pose proof (get_z_color_size_nth n (Z.of_nat k) ltac:(lia)) as N.
  rewrite Nat2Z.id in N. rewrite (firstn_succ_nth _ _ _ N), flat_map_app.
  cbn [flat_map]. rewrite app_nil_r, slice_spiral by lia. reflexivity.
Qed.

Lemma slices_lower n m k :
  (k <= Z.to_nat m)%nat -> m <= n ->
  slices n k = map (lower (2 * (n - m))) (slices m k).
Proof.
  intros Hk Hm. induction k as [| k IH]; [reflexivity |].
  rewrite !slices_S by lia. rewrite IH by lia.
  rewrite map_app, lower_lift.
  replace (2 * Z.of_nat k + 1 - 2 * m - 2 * (n - m)) with (2 * Z.of_nat k + 1 - 2 * n)
    by lia.
  reflexivity.
Qed.

Lemma lower_injective c p q : lower c p = lower c q -> p = q.
Proof.
  destruct p as [[x y] z], q as [[x' y'] z']. unfold lower, px, py, pz. cbn [fst snd].
  intros H. inversion H. f_equal. lia.
Qed.

Lemma NoDup_map_lower c l : NoDup l -> NoDup (map (lower c) l).
Proof.
  induction 1 as [| p l Hp _ IH]; cbn [map]; constructor; [| exact IH].
  intros H. apply in_map_iff in H. destruct H as [q [E Hq]].
  apply lower_injective in E. subst q. contradiction.
Qed.

(** X26 ([weave], the loop over the layers): for every [n], after
    each of the first eight layers the loom has no repeated point and holds
    exactly the points of the slices woven so far. *)
Theorem first_layers_of_every_weave n k :
  (k <= 8)%nat -> (k <= Z.to_nat n)%nat ->
  exists loom,
    weave_layers n k = Ok loom /\
    NoDup (concat loom) /\ Permutation (concat loom) (slices n k).
Proof.
  intros H8 Hk. destruct k as [| k].
  - exists []. split; [reflexivity |]. split; [constructor | reflexivity].
  - set (m := Z.of_nat (S k)).
    destruct (first_layers_partition m (S k) ltac:(lia)) as [loom [E [N P]]].
    exists (map (map (lower (2 * (n - m)))) loom).
    rewrite (weave_layers_lower n m) by lia. rewrite E. cbn [rmap].
    split; [reflexivity |]. rewrite <- concat_map. split.
    + now apply NoDup_map_lower.
    + rewrite (slices_lower n m) by lia. now apply Permutation_map.
Qed.

Lemma first_layers_of_every_weave_witness :
  exists loom,
    weave_layers 20 5 = Ok loom /\
    NoDup (concat loom) /\ Permutation (concat loom) (slices 20 5).
Proof. apply (first_layers_of_every_weave 20 5); vm_compute; lia. Defined.

(** * The loom after every layer *)

(** ** The spiral, ring by ring *)

Lemma spin_app a : forall p b, spin p (a ++ b) = spin p a ++ tl (spin (walk p a) b).
Proof.
  induction a as [| d a IH]; intros p b.
  - cbn [app spin walk fold_left]. destruct b; reflexivity.
  - cbn [app spin]. rewrite IH. reflexivity.
Qed.

Lemma half_S_even i : Nat.even i = true -> (S i / 2 = i / 2)%nat.
Proof.
  intros H. apply Nat.even_spec in H. destruct H as [k ->].
  replace (S (2 * k)) with (1 + k * 2)%nat by lia.
  rewrite Nat.div_add by lia. replace (2 * k)%nat with (k * 2)%nat by lia.
  rewrite Nat.div_mul by lia. reflexivity.
Qed.

Lemma half_S_odd i : Nat.even i = false -> (S i / 2 = S (i / 2))%nat.
Proof.
  intros H. assert (O : Nat.odd i = true) by (rewrite <- Nat.negb_even, H; reflexivity).
  apply Nat.odd_spec in O. destruct O as [k ->].
  replace (S (2 * k + 1)) with ((k + 1) * 2)%nat by lia.
  rewrite Nat.div_mul by lia.
  replace (2 * k + 1)%nat with (1 + k * 2)%nat by lia.
  rewrite Nat.div_add by lia. cbn. lia.
Qed.

Lemma half_le i : (i / 2 <= i)%nat.
Proof. apply Nat.Div0.div_le_upper_bound. lia. Qed.

Lemma stair_S c d0 d1 i :
  stair c d0 d1 (S i) = shift (stair c d0 d1 i) (if Nat.even i then d0 else d1).
Proof.
  unfold stair, shift. cbn [fst snd]. pose proof (half_le i).
  destruct (Nat.even i) eqn:E.
  - rewrite (half_S_even i E).
    replace (S i - i / 2)%nat with (S (i - i / 2)) by lia.
    rewrite Nat2Z.inj_succ. f_equal; ring.
  - rewrite (half_S_odd i E).
    replace (S i - S (i / 2))%nat with (i - i / 2)%nat by lia.
    rewrite Nat2Z.inj_succ. f_equal; ring.
Qed.

Lemma stair_0 c d0 d1 : stair c d0 d1 0 = c.
Proof.
  unfold stair. replace (0 / 2)%nat with 0%nat by reflexivity.
  cbn [Nat.sub Z.of_nat]. destruct c; cbn [fst snd]; f_equal; ring.
Qed.

(** A walk along alternating steps. *)
Lemma walk_stair (f : nat -> XY) d0 d1 c :
  (forall i, f i = if Nat.even i then d0 else d1) ->
  forall s, walk c (map f (seq 0 s)) = stair c d0 d1 s.
Proof.
  intros Hf. induction s as [| s IH]; [cbn; now rewrite stair_0 |].
  rewrite seq_S, map_app, walk_app, IH. cbn [Nat.add map walk fold_left].
  now rewrite stair_S, Hf.
Qed.

Lemma spin_stair (f : nat -> XY) d0 d1 c :
  (forall i, f i = if Nat.even i then d0 else d1) ->
  forall s, spin c (map f (seq 0 s)) = map (stair c d0 d1) (seq 0 (S s)).
Proof.
  intros Hf. induction s as [| s IH].
  - cbn [seq map spin]. now rewrite stair_0.
  - rewrite seq_S, map_app, spin_app, IH. cbn [Nat.add map spin tl].
    rewrite (seq_S (S s)), map_app. cbn [Nat.add map]. f_equal.
    rewrite stair_S. f_equal.
    rewrite (walk_stair f d0 d1 c Hf). unfold shift. now rewrite Hf.
Qed.

Lemma mod2_even k : ((k mod 2 =? 0)%nat) = Nat.even k.
Proof.
  destruct (Nat.even k) eqn:E.
  - apply Nat.even_spec in E. destruct E as [q ->]. apply Nat.eqb_eq.
    replace (2 * q)%nat with (q * 2)%nat by lia. apply Nat.Div0.mod_mul.
  - assert (O : Nat.odd k = true) by (rewrite <- Nat.negb_even, E; reflexivity).
    apply Nat.odd_spec in O. destruct O as [q ->]. apply Nat.eqb_neq.
    replace (2 * q + 1)%nat with (1 + q * 2)%nat by lia.
    rewrite Nat.Div0.mod_add. cbn. lia.
Qed.

Lemma zigzag_at_even dpv idx i :
  zigzag_at dpv idx i
  = if Nat.even (idx + i) then fst (nth (idx mod 4) dpv ((0, 0), (0, 0)))
    else snd (nth (idx mod 4) dpv ((0, 0), (0, 0))).
Proof. unfold zigzag_at. now rewrite mod2_even. Qed.

Lemma zigzag_at_sw i : zigzag_at zigzags 2 i = if Nat.even i then (0, -2) else (-2, 0).
Proof.
  rewrite zigzag_at_even. change (Nat.even (2 + i)) with (Nat.even i). reflexivity.
Qed.

Lemma zigzag_at_se i : zigzag_at zigzags 3 i = if Nat.even i then (2, 0) else (0, -2).
Proof.
  rewrite zigzag_at_even. change (Nat.even (3 + i)) with (Nat.even (S i)).
  rewrite Nat.even_succ, <- Nat.negb_even. destruct (Nat.even i); reflexivity.
Qed.

Lemma zigzag_at_ne i : zigzag_at zigzags 4 i = if Nat.even i then (0, 2) else (2, 0).
Proof.
  rewrite zigzag_at_even. change (Nat.even (4 + i)) with (Nat.even i). reflexivity.
Qed.

Lemma zigzag_at_rotated_shift idx i : zigzag_at rotated idx i = zigzag_at zigzags (2 + idx) i.
Proof.
  rewrite !zigzag_at_even. change (Nat.even (2 + idx + i)) with (Nat.even (idx + i)).
  assert (E : nth (idx mod 4) rotated ((0, 0), (0, 0))
              = nth ((2 + idx) mod 4) zigzags ((0, 0), (0, 0))).
  { pose proof (Nat.mod_upper_bound idx 4 ltac:(lia)) as B.
    rewrite (Nat.Div0.add_mod 2 idx 4).
    destruct (idx mod 4)%nat as [| [| [| [| k]]]]; try reflexivity. lia. }
  now rewrite E.
Qed.

Lemma dpv_of_succ_even n : n mod 2 = 0 -> dpv_of (n + 1) = rotated.
Proof.
  intros H. unfold dpv_of. replace ((n + 1) mod 2 =? 0) with false; [reflexivity |].
  symmetry. apply Z.eqb_neq. Z.to_euclidean_division_equations. lia.
Qed.

Lemma dpv_of_succ_odd n : n mod 2 = 1 -> dpv_of (n + 1) = zigzags.
Proof.
  intros H. unfold dpv_of. replace ((n + 1) mod 2 =? 0) with true; [reflexivity |].
  symmetry. apply Z.eqb_eq. Z.to_euclidean_division_equations. lia.
Qed.

(** The displacements of the last three segments do not depend on the
    parity of the number of layers. *)
Lemma zigzag_at_last n c i :
  zigzag_at (dpv_of (Z.of_nat n + 1)) (2 * n + c) i = zigzag_at zigzags (2 + c) i.
Proof.
  destruct (Nat.even n) eqn:E.
  - apply Nat.even_spec in E. destruct E as [q ->].
    rewrite dpv_of_succ_even by (rewrite Nat2Z.inj_mul; Z.to_euclidean_division_equations; lia).
    replace (2 * (2 * q) + c)%nat with (4 * q + c)%nat by lia.
    rewrite zigzag_at_block. apply zigzag_at_rotated_shift.
  - assert (O : Nat.odd n = true) by (rewrite <- Nat.negb_even, E; reflexivity).
    apply Nat.odd_spec in O. destruct O as [q ->].
    rewrite dpv_of_succ_odd
      by (rewrite Nat2Z.inj_add, Nat2Z.inj_mul; Z.to_euclidean_division_equations; lia).
    replace (2 * (2 * q + 1) + c)%nat with (4 * q + (2 + c))%nat by lia.
    apply zigzag_at_block.
Qed.

Lemma reflect_involutive p : reflect (reflect p) = p.
Proof. destruct p as [x y]. unfold reflect. cbn [fst snd]. f_equal; lia. Qed.

(** The spiral of one more layer: the reflected spiral followed by the
    ring. *)
Lemma spiral_step n :
  (1 <= n)%nat ->
  spun_of (2 * (Z.of_nat n + 1) - 1)
  = map reflect (spun_of (2 * Z.of_nat n - 1)) ++ ring n.
Proof.
  intros Hn.
  rewrite (spun_of_unfold (Z.of_nat n + 1)) by lia.
  rewrite (reflect_spun_of (Z.of_nat n)) by lia.
  replace (Z.to_nat (Z.of_nat n + 1)) with (S n) by lia.
  rewrite Nat2Z.id, rings_S.
  replace (2 * (Z.of_nat n + 1) - 1) with (1 + 2 * Z.of_nat n) by lia.
  set (dpv := dpv_of (Z.of_nat n + 1)). set (p := start_of (Z.of_nat n + 1)).
  set (s := 1 + 2 * Z.of_nat n).
  rewrite <- app_assoc. cbn [app].
  rewrite !steps_from_app, rings_length, Nat.add_0_l.
  assert (Es : Z.to_nat s = S (2 * n)) by (subst s; lia).
  assert (Es' : Z.to_nat (2 * Z.of_nat n - 1) = (2 * n - 1)%nat) by lia.
  assert (Enil : forall k, steps_from dpv k [] = []) by reflexivity.
  rewrite !steps_from_cons, !Enil, !app_nil_r, Es, Es'.
  replace (S (2 * n)) with ((2 * n - 1) + 2)%nat at 1 by lia.
  rewrite segment_prefix, <- !app_assoc, app_assoc.
  rewrite spin_app. f_equal.
  (* the walk along the reflected spiral ends at the reflected end *)
  assert (W : walk p (steps_from dpv 0 (rings n)
                      ++ map (zigzag_at dpv (2 * n)) (seq 0 (2 * n - 1)))
              = (- (2 * Z.of_nat n - 1), 1)).
  { pose proof (reflect_spun_of (Z.of_nat n) ltac:(lia)) as R.
    rewrite Nat2Z.id, steps_from_app, rings_length, Nat.add_0_l in R.
    fold dpv p in R. rewrite steps_from_cons, Enil, app_nil_r, Es' in R.
    pose proof (final_spin (steps_from dpv 0 (rings n)
                            ++ map (zigzag_at dpv (2 * n)) (seq 0 (2 * n - 1))) p) as F.
    rewrite <- R in F.
    rewrite (final_map reflect _ (2 * Z.of_nat n - 1, 1)) in F
      by (apply spun_of_final; lia).
    transitivity (reflect (2 * Z.of_nat n - 1, 1)); [congruence |].
    unfold reflect. cbn [fst snd]. f_equal; lia. }
  rewrite W.
  (* the steps of the ring *)
  replace (seq (2 * n - 1) 2) with [(2 * n - 1)%nat; (2 * n)%nat]
    by (cbn [seq]; repeat f_equal; lia).
  cbn [map]. subst dpv.
  replace (S (2 * n)) with (2 * n + 1)%nat by lia.
  replace (S (2 * n + 1)) with (2 * n + 2)%nat by lia.
  assert (Z0 : forall i, zigzag_at (dpv_of (Z.of_nat n + 1)) (2 * n) i
                         = zigzag_at zigzags 2 i).
  { intros i. pose proof (zigzag_at_last n 0 i) as Z0. now rewrite Nat.add_0_r in Z0. }
  rewrite !Z0, !zigzag_at_sw.
  rewrite (map_ext (zigzag_at (dpv_of (Z.of_nat n + 1)) (2 * n + 1))
             (fun i => if Nat.even i then (2, 0) else (0, -2)))
    by (intros i; rewrite zigzag_at_last; apply zigzag_at_se).
  rewrite (map_ext (zigzag_at (dpv_of (Z.of_nat n + 1)) (2 * n + 2))
             (fun i => if Nat.even i then (0, 2) else (2, 0)))
    by (intros i; rewrite zigzag_at_last; apply zigzag_at_ne).
  assert (Eodd : Nat.even (2 * n - 1) = false).
  { replace (2 * n - 1)%nat with (S (2 * (n - 1))) by lia.
    rewrite Nat.even_succ, <- Nat.negb_even, Nat.even_mul. reflexivity. }
  assert (Eeven : Nat.even (2 * n) = true) by (rewrite Nat.even_mul; reflexivity).
  rewrite Eodd, Eeven. cbn [app spin tl fst snd].
  unfold ring. f_equal; [f_equal; lia |].
  rewrite spin_app.
  rewrite (spin_stair _ (2, 0) (0, -2)) by reflexivity.
  replace (S (2 * n + 1)) with (2 * n + 2)%nat by lia.
  replace (- (2 * Z.of_nat n - 1) + -2 + 0) with (- (2 * Z.of_nat n + 1)) by lia.
  replace (1 + 0 + -2) with (-1) by lia.
  f_equal.
  rewrite (walk_stair _ (2, 0) (0, -2)) by reflexivity.
  rewrite (spin_stair _ (0, 2) (2, 0)) by reflexivity.
  cbn [seq map tl].
  assert (Ec : stair (- (2 * Z.of_nat n + 1), -1) (2, 0) (0, -2) (2 * n + 1)
               = (1, - (2 * Z.of_nat n + 1))).
  { unfold stair. cbn [fst snd].
    replace ((2 * n + 1) / 2)%nat with n.
    2:{ replace (2 * n + 1)%nat with (1 + n * 2)%nat by lia.
        rewrite Nat.div_add by lia. reflexivity. }
    f_equal; lia. }
  rewrite Ec. reflexivity.
Qed.

(** ** The points of a staircase *)

Lemma stair_even c d0 d1 t :
  stair c d0 d1 (2 * t)
  = (fst c + Z.of_nat t * fst d0 + Z.of_nat t * fst d1,
     snd c + Z.of_nat t * snd d0 + Z.of_nat t * snd d1).
Proof.
  unfold stair. replace (2 * t / 2)%nat with t.
  2:{ replace (2 * t)%nat with (t * 2)%nat by lia. now rewrite Nat.div_mul by lia. }
  replace (2 * t - t)%nat with t by lia. reflexivity.
Qed.

Lemma stair_odd c d0 d1 t :
  stair c d0 d1 (2 * t + 1)
  = (fst c + (Z.of_nat t + 1) * fst d0 + Z.of_nat t * fst d1,
     snd c + (Z.of_nat t + 1) * snd d0 + Z.of_nat t * snd d1).
Proof.
  unfold stair. replace ((2 * t + 1) / 2)%nat with t.
  2:{ replace (2 * t + 1)%nat with (1 + t * 2)%nat by lia.
      rewrite Nat.div_add by lia. reflexivity. }
  replace (2 * t + 1 - t)%nat with (S t) by lia. rewrite Nat2Z.inj_succ.
  f_equal; lia.
Qed.

Lemma nat_parity i : exists t, i = (2 * t)%nat \/ i = (2 * t + 1)%nat.
Proof.
  destruct (Nat.even i) eqn:E.
  - apply Nat.even_spec in E. destruct E as [t ->]. exists t. now left.
  - assert (O : Nat.odd i = true) by (rewrite <- Nat.negb_even, E; reflexivity).
    apply Nat.odd_spec in O. destruct O as [t ->]. exists t. now right.
Qed.

Lemma In_stair c d0 d1 a b p :
  In p (map (stair c d0 d1) (seq a b)) <->
  exists t,
    (p = (fst c + Z.of_nat t * fst d0 + Z.of_nat t * fst d1,
          snd c + Z.of_nat t * snd d0 + Z.of_nat t * snd d1) /\
     (a <= 2 * t < a + b)%nat) \/
    (p = (fst c + (Z.of_nat t + 1) * fst d0 + Z.of_nat t * fst d1,
          snd c + (Z.of_nat t + 1) * snd d0 + Z.of_nat t * snd d1) /\
     (a <= 2 * t + 1 < a + b)%nat).
Proof.
  rewrite in_map_iff. split.
  - intros [i [<- Hi]]. apply in_seq in Hi. destruct (nat_parity i) as [t [-> | ->]].
    + exists t. left. split; [apply stair_even | lia].
    + exists t. right. split; [apply stair_odd | lia].
  - intros [t [[-> H] | [-> H]]].
    + exists (2 * t)%nat. split; [apply stair_even | apply in_seq; lia].
    + exists (2 * t + 1)%nat. split; [apply stair_odd | apply in_seq; lia].
Qed.

Lemma In_ring n p :
  In p (ring n) <->
  diamond (Z.of_nat n + 1) p /\ ~ diamond (Z.of_nat n) (reflect p).
Proof.
  unfold ring. cbn [In]. rewrite in_app_iff, !In_stair. cbn [fst snd].
  destruct p as [x y]. unfold diamond, reflect. cbn [fst snd]. split.
  - intros [E | [[t [[E H] | [E H]]] | [t [[E H] | [E H]]]]];
      apply pair_equal_spec in E; destruct E as [? ?]; subst x y;
      (split; [repeat split; try (Z.to_euclidean_division_equations; lia); lia |]);
      intros [_ [_ C]]; lia.
  - intros [[Hx [Hy Hd]] Hn].
    assert (Hn' : 2 * Z.of_nat n < Z.abs (x * -1 + y * 0 + 0) + Z.abs (x * 0 + y * -1 + 2)).
    { apply Z.nle_gt. intros C. apply Hn. repeat split; [| | exact C];
        Z.to_euclidean_division_equations; lia. }
    clear Hn.
    assert (Ex : exists a, x = 2 * a + 1) by (exists (x / 2); Z.to_euclidean_division_equations; lia).
    assert (Ey : exists b, y = 2 * b + 1) by (exists (y / 2); Z.to_euclidean_division_equations; lia).
    destruct Ex as [a ->], Ey as [b ->]. clear Hx Hy.
    destruct (Z_lt_le_dec b 0) as [Hb | Hb].
    + (* below the axis *)
      destruct (Z_lt_le_dec a 0) as [Ha | Ha].
      * (* south-west quadrant: the staircase towards the south-east,
           or the point of the staircase towards the south-west *)
        right. left.
        assert (C : a + b = - Z.of_nat n - 2 \/ a + b = - Z.of_nat n - 1) by lia.
        destruct C as [C | C].
        -- exists (Z.to_nat (- b - 1)). left. split; [f_equal; lia | lia].
        -- exists (Z.to_nat (- b - 1)). right. split; [f_equal; lia | lia].
      * destruct (Z.eq_dec a 0) as [-> | Ha0].
        -- assert (C : b = - Z.of_nat n - 1 \/ b = - Z.of_nat n) by lia.
           destruct C as [-> | ->].
           ++ right. left. exists n. right. split; [f_equal; lia | lia].
           ++ right. right. exists 0%nat. right. split; [f_equal; lia | lia].
        -- right. right.
           assert (C : a - b = Z.of_nat n \/ a - b = Z.of_nat n + 1) by lia.
           destruct C as [C | C].
           ++ exists (Z.to_nat a). right. split; [f_equal; lia | lia].
           ++ exists (Z.to_nat a). left. split; [f_equal; lia | lia].
    + assert (b = 0) by lia. subst b.
      destruct (Z_lt_le_dec a 0) as [Ha | Ha].
      * left. f_equal; lia.
      * right. right. exists n. right. split; [f_equal; lia | lia].
Qed.

Lemma NoDup_map_inj {A B} (f : A -> B) (l : list A) :
  (forall x y, In x l -> In y l -> f x = f y -> x = y) -> NoDup l -> NoDup (map f l).
Proof.
  intros Hf. induction 1 as [| x l Hx Hl IH]; [constructor |].
  cbn [map]. constructor.
  - intros Hin. apply in_map_iff in Hin. destruct Hin as [y [E Hy]].
    assert (y = x) by (apply Hf; [now right | now left | exact E]). now subst.
  - apply IH. intros a b Ha Hb. apply Hf; now right.
Qed.

Lemma stair_inj c d0 d1 i j :
  (fst d0 <> 0 /\ snd d0 = 0 /\ fst d1 = 0 /\ snd d1 <> 0) \/
  (fst d0 = 0 /\ snd d0 <> 0 /\ fst d1 <> 0 /\ snd d1 = 0) ->
  stair c d0 d1 i = stair c d0 d1 j -> i = j.
Proof.
  intros Hd E. unfold stair in E. apply pair_equal_spec in E. destruct E as [Ex Ey].
  pose proof (half_le i). pose proof (half_le j).
  destruct Hd as [(A & B & C & D) | (A & B & C & D)].
  - rewrite C in Ex. rewrite B in Ey.
    assert (E1 : Z.of_nat (i - i / 2) = Z.of_nat (j - j / 2)) by nia.
    assert (E2 : Z.of_nat (i / 2) = Z.of_nat (j / 2)) by nia. lia.
  - rewrite A in Ex. rewrite D in Ey.
    assert (E1 : Z.of_nat (i - i / 2) = Z.of_nat (j - j / 2)) by nia.
    assert (E2 : Z.of_nat (i / 2) = Z.of_nat (j / 2)) by nia. lia.
Qed.

Lemma NoDup_ring n : NoDup (ring n).
Proof.
  unfold ring. constructor.
  - rewrite in_app_iff, !In_stair. cbn [fst snd].
    intros [[t [[E H] | [E H]]] | [t [[E H] | [E H]]]];
      apply pair_equal_spec in E; lia.
  - apply NoDup_app.
    + apply NoDup_map_inj; [| apply seq_NoDup].
      intros i j _ _. apply stair_inj. left. cbn. lia.
    + apply NoDup_map_inj; [| apply seq_NoDup].
      intros i j _ _. apply stair_inj. right. cbn. lia.
    + intros p. rewrite !In_stair. cbn [fst snd].
      intros [t [[-> H] | [-> H]]] [u [[E H'] | [E H']]];
        apply pair_equal_spec in E; lia.
Qed.

(** ** The spiral visits every point of the diamond once *)

Lemma diamond_reflect n p :
  diamond (n + 1) p <-> diamond n (reflect p) \/ (diamond (n + 1) p /\ ~ diamond n (reflect p)).
Proof.
  split.
  - intros H. destruct p as [x y]. unfold diamond, reflect in *. cbn [fst snd] in *.
    destruct H as (Hx & Hy & Hd).
    destruct (Z_le_gt_dec (Z.abs (x * -1 + y * 0 + 0) + Z.abs (x * 0 + y * -1 + 2)) (2 * n))
      as [C | C].
    + left. repeat split; [| | exact C]; Z.to_euclidean_division_equations; lia.
    + right. split; [now repeat split |]. intros (_ & _ & C'). lia.
  - intros [H | [H _]]; [| exact H].
    destruct p as [x y]. unfold diamond, reflect in *. cbn [fst snd] in *.
    destruct H as (Hx & Hy & Hd).
    repeat split; [| | lia]; Z.to_euclidean_division_equations; lia.
Qed.

Lemma spiral_diamond n :
  (1 <= n)%nat ->
  NoDup (spun_of (2 * Z.of_nat n - 1)) /\
  forall p, In p (spun_of (2 * Z.of_nat n - 1)) <-> diamond (Z.of_nat n) p.
Proof.
  induction n as [| n IH]; [lia |]. intros _.
  destruct (Nat.eq_dec n 0) as [-> | Hn].
  - split; [vm_compute; repeat constructor; cbn; intuition discriminate |].
    intros [x y]. unfold diamond. cbn [fst snd].
    change (spun_of (2 * Z.of_nat 1 - 1)) with [(-1, 1); (-1, -1); (1, -1); (1, 1)].
    cbn [In]. split.
    + intros [E | [E | [E | [E | []]]]]; apply pair_equal_spec in E;
        destruct E as [<- <-]; repeat split; cbn; lia.
    + intros (Hx & Hy & Hd).
      assert (Cx : x = 1 \/ x = -1) by (Z.to_euclidean_division_equations; lia).
      assert (Cy : y = 1 \/ y = -1) by (Z.to_euclidean_division_equations; lia).
      destruct Cx as [-> | ->], Cy as [-> | ->]; auto.
  - destruct (IH ltac:(lia)) as [Hnd Hin].
    replace (2 * Z.of_nat (S n) - 1) with (2 * (Z.of_nat n + 1) - 1) by lia.
    rewrite spiral_step by lia. split.
    + apply NoDup_app.
      * apply NoDup_map_inj; [| exact Hnd].
        intros p q _ _ E. rewrite <- (reflect_involutive p), <- (reflect_involutive q).
        now rewrite E.
      * apply NoDup_ring.
      * intros p Hp Hr. apply In_ring in Hr. destruct Hr as [_ Hr]. apply Hr.
        apply in_map_iff in Hp. destruct Hp as [q [<- Hq]].
        rewrite reflect_involutive. now apply Hin.
    + intros p. rewrite in_app_iff, In_ring.
      replace (Z.of_nat (S n)) with (Z.of_nat n + 1) by lia.
      assert (E : In p (map reflect (spun_of (2 * Z.of_nat n - 1)))
                  <-> diamond (Z.of_nat n) (reflect p)).
      { rewrite <- Hin. rewrite in_map_iff. split.
        - intros [q [<- Hq]]. now rewrite reflect_involutive.
        - intros H. exists (reflect p). split; [apply reflect_involutive | exact H]. }
      rewrite E. symmetry. apply diamond_reflect.
Qed.

(** ** Consecutive points of the spiral *)

Lemma next_to_app_l {A} (l l' : list A) q p : next_to l q p -> next_to (l ++ l') q p.
Proof.
  intros [a [b ->]]. exists a, (b ++ l'). rewrite <- app_assoc. reflexivity.
Qed.

Lemma next_to_app_r {A} (l l' : list A) q p : next_to l' q p -> next_to (l ++ l') q p.
Proof.
  intros [a [b ->]]. exists (l ++ a), b. rewrite <- app_assoc. reflexivity.
Qed.

Lemma next_to_map {A B} (f : A -> B) (l : list A) q p :
  next_to l q p -> next_to (map f l) (f q) (f p).
Proof.
  intros [a [b ->]]. exists (map f a), (map f b). rewrite map_app. reflexivity.
Qed.

Lemma next_to_junction {A} (l l' : list A) q p r :
  final l = Ok q -> l' = p :: r -> next_to (l ++ l') q p.
Proof.
  intros Hq ->. destruct (final_split _ _ Hq) as [a ->].
  exists a, r. rewrite <- app_assoc. reflexivity.
Qed.

Lemma spiral_S n : (1 <= n)%nat -> spiral (S n) = map reflect (spiral n) ++ ring n.
Proof.
  intros Hn. unfold spiral.
  replace (2 * Z.of_nat (S n) - 1) with (2 * (Z.of_nat n + 1) - 1) by lia.
  now apply spiral_step.
Qed.

Lemma spiral_next_reflect n q p :
  (1 <= n)%nat -> next_to (spiral n) q p ->
  next_to (spiral (S n)) (reflect q) (reflect p).
Proof.
  intros Hn H. rewrite spiral_S by exact Hn. apply next_to_app_l. now apply next_to_map.
Qed.

Lemma spiral_next_ring n q p :
  (1 <= n)%nat -> next_to (ring n) q p -> next_to (spiral (S n)) q p.
Proof. intros Hn H. rewrite spiral_S by exact Hn. now apply next_to_app_r. Qed.

Lemma spiral_next_junction n :
  (1 <= n)%nat ->
  next_to (spiral (S n)) (- (2 * Z.of_nat n - 1), 1) (- (2 * Z.of_nat n + 1), 1).
Proof.
  intros Hn. rewrite spiral_S by exact Hn.
  eapply next_to_junction; [| reflexivity]. unfold spiral.
  rewrite (final_map reflect _ (2 * Z.of_nat n - 1, 1)) by (apply spun_of_final; lia).
  unfold reflect. cbn [fst snd]. repeat f_equal; lia.
Qed.

(** Three pairs of consecutive points of the ring. *)
Lemma stair_1 c d0 d1 : stair c d0 d1 1 = (fst c + fst d0, snd c + snd d0).
Proof.
  change 1%nat with (2 * 0 + 1)%nat. rewrite stair_odd. cbn [Z.of_nat]. f_equal; lia.
Qed.

Lemma stair_2 c d0 d1 :
  stair c d0 d1 2 = (fst c + fst d0 + fst d1, snd c + snd d0 + snd d1).
Proof.
  change 2%nat with (2 * 1)%nat. rewrite stair_even. cbn [Z.of_nat]. f_equal; lia.
Qed.

Lemma stair_3 c d0 d1 :
  stair c d0 d1 3 = (fst c + 2 * fst d0 + fst d1, snd c + 2 * snd d0 + snd d1).
Proof.
  change 3%nat with (2 * 1 + 1)%nat. rewrite stair_odd. cbn [Z.of_nat]. f_equal; lia.
Qed.

Lemma ring_next_sw n :
  next_to (ring n) (- (2 * Z.of_nat n + 1), -1) (- (2 * Z.of_nat n - 1), -1).
Proof.
  unfold ring. replace (2 * n + 2)%nat with (S (S (2 * n))) by lia. cbn [seq map].
  rewrite stair_0, stair_1. cbn [fst snd].
  replace (- (2 * Z.of_nat n + 1) + 2) with (- (2 * Z.of_nat n - 1)) by lia.
  replace (-1 + 0) with (-1) by lia.
  exists [(- (2 * Z.of_nat n + 1), 1)]. eexists. cbn [app]. reflexivity.
Qed.

Lemma ring_next_s n :
  next_to (ring n) (1, - (2 * Z.of_nat n + 1)) (1, - (2 * Z.of_nat n - 1)).
Proof.
  unfold ring.
  replace (2 * n + 2)%nat with (S (2 * n + 1)) by lia. rewrite seq_S, map_app.
  replace (seq 1 (2 * n + 1)) with (1%nat :: seq 2 (2 * n))
    by (replace (2 * n + 1)%nat with (S (2 * n)) by lia; reflexivity).
  cbn [map Nat.add]. rewrite stair_odd, stair_1. cbn [fst snd].
  replace (- (2 * Z.of_nat n + 1) + (Z.of_nat n + 1) * 2 + Z.of_nat n * 0) with 1 by lia.
  replace (-1 + (Z.of_nat n + 1) * 0 + Z.of_nat n * -2) with (- (2 * Z.of_nat n + 1)) by lia.
  replace (1 + 0) with 1 by lia.
  replace (- (2 * Z.of_nat n + 1) + 2) with (- (2 * Z.of_nat n - 1)) by lia.
  exists ((- (2 * Z.of_nat n + 1), 1)
          :: map (stair (- (2 * Z.of_nat n + 1), -1) (2, 0) (0, -2)) (seq 0 (2 * n + 1))).
  eexists. cbn [app]. rewrite <- app_assoc. reflexivity.
Qed.

Lemma ring_next_east n :
  (1 <= n)%nat ->
  next_to (ring n) (3, - (2 * Z.of_nat n - 1)) (3, - (2 * Z.of_nat n - 3)).
Proof.
  intros Hn. unfold ring.
  replace (seq 1 (2 * n + 1)) with (1%nat :: 2%nat :: 3%nat :: seq 4 (2 * n - 2))
    by (replace (2 * n + 1)%nat with (S (S (S (2 * n - 2)))) by lia; reflexivity).
  cbn [map]. rewrite stair_2, stair_3. cbn [fst snd].
  replace (1 + 0 + 2) with 3 by lia. replace (1 + 2 * 0 + 2) with 3 by lia.
  replace (- (2 * Z.of_nat n + 1) + 2 + 0) with (- (2 * Z.of_nat n - 1)) by lia.
  replace (- (2 * Z.of_nat n + 1) + 2 * 2 + 0) with (- (2 * Z.of_nat n - 3)) by lia.
  exists ((- (2 * Z.of_nat n + 1), 1)
          :: map (stair (- (2 * Z.of_nat n + 1), -1) (2, 0) (0, -2)) (seq 0 (2 * n + 2))
          ++ [stair (1, - (2 * Z.of_nat n + 1)) (0, 2) (2, 0) 1]).
  eexists. cbn [app]. rewrite <- app_assoc. reflexivity.
Qed.

Lemma next_to_eq {A} (l : list A) q p q' p' :
  next_to l q' p' -> q' = q -> p' = p -> next_to l q p.
Proof. now intros H <- <-. Qed.

Ltac same_xy := unfold reflect; cbn [fst snd]; f_equal; lia.

Lemma sg_S d : sg (S d) = - sg d.
Proof.
  unfold sg. rewrite Nat.even_succ, <- Nat.negb_even. destruct (Nat.even d); reflexivity.
Qed.

(** Along the axis [y = 1]. *)
Lemma row_window n : forall j,
  (1 <= j < n)%nat ->
  next_to (spiral n) (sg (n - j) * (2 * Z.of_nat j - 1), 1)
                     (sg (n - j) * (2 * Z.of_nat j + 1), 1).
Proof.
  induction n as [| n IH]; intros j Hj; [lia |].
  destruct (Nat.eq_dec j n) as [-> | Hne].
  - replace (S n - n)%nat with 1%nat by lia. change (sg 1) with (-1).
    eapply next_to_eq; [exact (spiral_next_junction n ltac:(lia)) | |]; same_xy.
  - replace (S n - j)%nat with (S (n - j)) by lia. rewrite sg_S.
    eapply next_to_eq;
      [exact (spiral_next_reflect n _ _ ltac:(lia) (IH j ltac:(lia))) | |]; same_xy.
Qed.

(** Along the columns [x = 3] and [x = -3]. *)
Lemma col_window n : forall j,
  (1 <= j < n)%nat ->
  if Nat.even (n - j)
  then next_to (spiral n) (-3, 2 * Z.of_nat j + 1) (-3, 2 * Z.of_nat j - 1)
  else next_to (spiral n) (3, - (2 * Z.of_nat j - 1)) (3, - (2 * Z.of_nat j - 3)).
Proof.
  induction n as [| n IH]; intros j Hj; [lia |].
  destruct (Nat.eq_dec j n) as [-> | Hne].
  - replace (S n - n)%nat with 1%nat by lia. cbn [Nat.even].
    apply spiral_next_ring; [lia |]. apply ring_next_east. lia.
  - replace (S n - j)%nat with (S (n - j)) by lia.
    rewrite Nat.even_succ, <- Nat.negb_even.
    specialize (IH j ltac:(lia)). destruct (Nat.even (n - j)); cbn [negb].
    + eapply next_to_eq; [exact (spiral_next_reflect n _ _ ltac:(lia) IH) | |]; same_xy.
    + eapply next_to_eq; [exact (spiral_next_reflect n _ _ ltac:(lia) IH) | |]; same_xy.
Qed.

(** On the outer ring: at [y = 3] and on the column [x = -1]. *)
Lemma top_window n :
  (3 <= n)%nat ->
  next_to (spiral n) (2 * Z.of_nat n - 3, 3) (2 * Z.of_nat n - 5, 3) /\
  next_to (spiral n) (-1, 2 * Z.of_nat n - 1) (-1, 2 * Z.of_nat n - 3).
Proof.
  intros Hn. destruct n as [| [| n]]; try lia. split.
  - eapply next_to_eq;
      [exact (spiral_next_reflect (S n) _ _ ltac:(lia)
                (spiral_next_ring n _ _ ltac:(lia) (ring_next_sw n))) | |]; same_xy.
  - eapply next_to_eq;
      [exact (spiral_next_reflect (S n) _ _ ltac:(lia)
                (spiral_next_ring n _ _ ltac:(lia) (ring_next_s n))) | |]; same_xy.
Qed.

Lemma spiral_core n : (3 <= n)%nat -> exists rest, spiral n = core n ++ rest.
Proof.
  induction n as [| n IH]; [lia |]. intros Hn.
  destruct (Nat.eq_dec n 2) as [-> | Hne].
  - eexists. vm_compute. reflexivity.
  - destruct (IH ltac:(lia)) as [rest E].
    rewrite spiral_S, E, map_app by lia. exists (map reflect rest ++ ring n).
    rewrite <- app_assoc. f_equal. unfold core.
    rewrite Nat.even_succ, <- Nat.negb_even. destruct (Nat.even n); reflexivity.
Qed.

(** ** The thread ends along a layer-weaving step *)

Lemma final_last {A} (l : list A) d : l <> [] -> final l = Ok (last l d).
Proof.
  induction l as [| a [| b l] IH]; intros H; [congruence | reflexivity |].
  rewrite final_cons. cbn [last]. apply IH. discriminate.
Qed.

Lemma last_default {A} (l : list A) d d' : l <> [] -> last l d = last l d'.
Proof.
  induction l as [| a [| b l] IH]; intros H; [congruence | reflexivity |].
  cbn [last]. apply IH. discriminate.
Qed.

Lemma last_app_ne {A} (a b : list A) d : b <> [] -> last (a ++ b) d = last b d.
Proof.
  intros H. induction a as [| x a IH]; [reflexivity |].
  cbn [app]. rewrite <- IH. destruct (a ++ b) eqn:E; [| reflexivity].
  destruct a; [cbn in E; congruence | discriminate].
Qed.

Lemma end_of_In (subs : Subtours) p f :
  NoDup (concat subs) -> In (p :: f) subs -> end_of subs p = last (p :: f) p.
Proof.
  induction subs as [| g subs IH]; intros Hnd Hin; [destruct Hin |].
  cbn [concat] in Hnd. cbn [end_of]. destruct Hin as [-> | Hin].
  - now rewrite point_eqb_refl.
  - assert (Hp : In p (concat subs)).
    { apply in_concat. exists (p :: f). split; [exact Hin | now left]. }
    destruct g as [| q g'].
    + apply IH; [exact Hnd | exact Hin].
    + destruct (point_eqb q p) eqn:E.
      * apply point_eqb_eq in E. subst q. exfalso.
        cbn [app] in Hnd. inversion Hnd as [| ? ? Hq _]; subst.
        apply Hq. apply in_or_app. now right.
      * apply IH; [| exact Hin]. now apply NoDup_app_remove_l in Hnd.
Qed.

Lemma thread_ends_spec (t : list Point) h e :
  first t = Ok h -> final t = Ok e -> thread_ends t = [h; e].
Proof.
  intros Hh He. destruct t as [| x t]; [discriminate |]. inversion Hh; subst x.
  cbn [thread_ends]. rewrite (final_last (h :: t) h) in He by discriminate.
  inversion He. reflexivity.
Qed.

(** The ends of a thread that took the fragments [l :: fa] and [r :: fb]. *)
Lemma extended_thread_ends (l r : Point) (t fa fb : list Point) :
  thread_ends (rev fa ++ pinned_thread (l, t, r) ++ fb)
  = [last (l :: fa) l; last (r :: fb) r].
Proof.
  unfold pinned_thread. cbn [fst snd]. apply thread_ends_spec.
  - replace (rev fa ++ (l :: t ++ [r]) ++ fb) with (rev (l :: fa) ++ (t ++ [r]) ++ fb)
      by (cbn [rev app]; rewrite <- !app_assoc; reflexivity).
    rewrite first_app_ne by (cbn [rev]; destruct (rev fa); discriminate).
    rewrite first_rev. apply final_last. discriminate.
  - replace (rev fa ++ (l :: t ++ [r]) ++ fb) with ((rev fa ++ l :: t) ++ r :: fb)
      by (cbn [app]; rewrite <- !app_assoc; reflexivity).
    rewrite final_app_cons. apply final_last. discriminate.
Qed.

(** Consumed and unconsumed subtours, as lists of subtours. *)
Lemma remove_item (items : list (nat * Tour)) i x :
  NoDup (map fst items) -> In (i, x) items ->
  Permutation (map snd items)
    (x :: map snd (filter (fun ic => negb (Nat.eqb (fst ic) i)) items)).
Proof.
  induction items as [| [j y] items IH]; intros Hnd Hin; [destruct Hin |].
  cbn [map fst] in Hnd. inversion Hnd; subst. cbn [map snd filter fst].
  destruct Hin as [E | Hin].
  - inversion E; subst. rewrite Nat.eqb_refl. cbn [negb].
    apply perm_skip.
    replace (filter (fun ic : nat * Tour => negb (fst ic =? i)%nat) items) with items;
      [reflexivity |].
    symmetry. apply forallb_filter_id. apply forallb_forall. intros [k z] Hk.
    cbn [fst]. apply negb_true_iff, Nat.eqb_neq. intros ->.
    apply H1. apply in_map_iff. now exists (i, z).
  - assert (j <> i).
    { intros ->. apply H1. apply in_map_iff. now exists (i, x). }
    replace (j =? i)%nat with false by (symmetry; now apply Nat.eqb_neq).
    cbn [negb map snd]. rewrite (IH H2 Hin). apply perm_swap.
Qed.

Lemma used_unused_split (subs : Subtours) used :
  NoDup used -> Forall (fun i => i < length subs)%nat used ->
  Permutation subs (map (fun i => nth i subs []) used ++ unused subs used).
Proof.
  induction 1 as [| i used Hi Hnd IH]; intros Hlt.
  - rewrite unused_nil. reflexivity.
  - pose proof (Forall_inv Hlt) as Hil. apply Forall_inv_tail in Hlt.
    cbn [map]. etransitivity; [exact (IH Hlt) |].
    transitivity (map (fun i => nth i subs []) used
                  ++ nth i subs [] :: unused subs (i :: used)).
    2:{ cbn [app]. symmetry. apply Permutation_middle. }
    apply Permutation_app_head. unfold unused.
    etransitivity; [apply (remove_item _ i (nth i subs [])) |].
    + apply filter_fst_NoDup. rewrite map_fst_enumerate. apply seq_NoDup.
    + apply filter_In. split; [now apply In_enumerate |]. cbn [fst].
      apply negb_true_iff. destruct (existsb (Nat.eqb i) used) eqn:E; [| reflexivity].
      apply existsb_eqb_In in E. contradiction.
    + rewrite filter_twice. apply perm_skip.
      erewrite filter_ext; [reflexivity |]. intros [j y]. cbn [fst existsb].
      rewrite negb_orb. apply andb_comm.
Qed.

Lemma In_unused (subs : Subtours) used f :
  In f (unused subs used) ->
  exists j, nth_error subs j = Some f /\ ~ In j used.
Proof.
  unfold unused. intros H. apply in_map_iff in H. destruct H as [[j g] [E H]].
  cbn [snd] in E. subst g. apply filter_In in H. destruct H as [Hin Hu].
  cbn [fst] in Hu. exists j. split.
  - unfold enumerate in Hin.
    destruct (In_enumerate_from subs [] 0%nat j f Hin) as [_ E].
    rewrite Nat.sub_0_r in E. rewrite <- E. apply nth_error_nth'.
    apply in_combine_l in Hin. apply in_seq in Hin. lia.
  - intros C. apply existsb_eqb_In in C. rewrite C in Hu. discriminate.
Qed.

(** One layer-weaving step, when all pins are distinct points of the
    tour: the ends of the threads after the step are the ends that the
    fragments give. *)
Lemma layer_step_ends loom z tour loom1 pins tour' subtours loom' :
  pin_thread_ends loom z = Ok (loom1, pins) ->
  chop tour pins = Ok (tour', subtours) ->
  extend_threads loom1 subtours = Ok loom' ->
  NoDup tour -> length pins = (2 * length loom)%nat -> incl pins tour ->
  Permutation (loom_ends loom') (flat_map (fragment_ends pins) subtours).
Proof.
  intros Epin Echop Eext Htour Hpins Hincl.
  unfold pin_thread_ends in Epin. apply pin_thread_ends_shape in Epin.
  destruct Epin as (xs & -> & -> & ->). cbn [app] in *.
  assert (Hfull : add_pins [] (flat_map pins_of xs) = flat_map pins_of xs /\
                  NoDup (flat_map pins_of xs)).
  { apply (add_pins_full (flat_map pins_of xs) []); [| constructor].
    rewrite Hpins, length_map. clear. cbn [length].
    induction xs as [| x xs IH]; [reflexivity |].
    cbn [flat_map pins_of length app Nat.add] in *. lia. }
  destruct Hfull as [Efull Hpins']. rewrite Efull in *. clear Hpins.
  rename Hpins' into Hpins.
  destruct (flat_map pins_of xs) as [| pin pins] eqn:Epins.
  - destruct xs as [| [[l t] r] xs]; [| discriminate].
    cbn in Echop, Eext. inversion Echop; subst. cbn in Eext. inversion Eext; subst.
    unfold loom_ends. cbn [flat_map]. rewrite !app_nil_r.
    match goal with |- context [rev ?t] => destruct (rev t) end; reflexivity.
  - rewrite <- Epins in *.
    assert (Hpne : flat_map pins_of xs <> []) by (rewrite Epins; discriminate).
    destruct (tour_decomposition (flat_map pins_of xs) tour)
      as (pre & segs & -> & Hpre & Hsegs).
    rewrite chop_decomposed in Echop by assumption.
    inversion Echop; subst tour' subtours; clear Echop.
    set (F := chop_fragments pre segs) in *.
    assert (Hfrag : forall p, In p (flat_map pins_of xs) -> exists f, In (p :: f) F).
    { intros p Hp. apply pin_starts_fragment with (pins := flat_map pins_of xs); auto.
      now apply mem_In. }
    assert (Hsne : segs <> []).
    { intros ->. destruct (Hfrag pin) as (f & []). rewrite Epins. now left. }
    pose proof (chop_fragments_points _ pre _ Hsegs Hsne) as Hpts. fold F in Hpts.
    assert (Hnd : NoDup (concat F)).
    { eapply Permutation_NoDup; [symmetry; exact Hpts | assumption]. }
    pose proof (chop_fragments_nonempty _ pre _ Hsegs) as Hne. fold F in Hne.
    destruct (extend_loom_pins _ Hnd Hne xs [] [])
      as (loomX & U' & E & Hfirsts & Hlt & exts & El & Hexts).
    + assumption.
    + apply Forall_forall. intros [[l t] r] Hx. cbn [fst snd].
      destruct (Hfrag l) as (fa & Hfa).
      { apply in_flat_map. exists (l, t, r). split; [assumption | now left]. }
      destruct (Hfrag r) as (fb & Hfb).
      { apply in_flat_map. exists (l, t, r). split; [assumption | right; now left]. }
      apply In_nth_error in Hfa, Hfb. destruct Hfa as (a & Ha), Hfb as (b & Hb).
      now exists a, b, fa, fb.
    + intros i p f [].
    + constructor.
    + cbn [app] in El. subst loomX.
      unfold extend_threads in Eext.
      assert (Eext' : Ok (exts ++ unused F U') = Ok loom').
      { rewrite <- Eext. symmetry. eapply bind_Ok; [exact E | reflexivity]. }
      inversion Eext'; subst loom'; clear Eext' Eext.
      apply extend_loom_inv in E. destruct E as (exts' & new & _ & EU & _ & _ & HndU).
      cbn [app] in EU. subst new. specialize (HndU (NoDup_nil _)).
      unfold firsts at 2 in Hfirsts. cbn [flat_map] in Hfirsts.
      rewrite app_nil_r in Hfirsts.
      (* the threads extended *)
      assert (E1 : loom_ends exts = map (end_of F) (flat_map pins_of xs)).
      { clear - Hexts Hnd. induction Hexts as [| [[l t] r] th xs exts H _ IH];
          [reflexivity |].
        destruct H as (fa & fb & Ha & Hb & ->). cbn [fst snd] in Ha, Hb.
        unfold loom_ends in *. cbn [flat_map pins_of fst snd map app].
        rewrite extended_thread_ends, IH.
        rewrite (end_of_In F l fa Hnd Ha), (end_of_In F r fb Hnd Hb). reflexivity. }
      (* the fragments consumed *)
      assert (E2 : flat_map (fun i => fragment_ends (flat_map pins_of xs) (nth i F [])) U'
                   = map (end_of F) (firsts F U')).
      { assert (Hp : forall p, In p (firsts F U') -> In p (flat_map pins_of xs)).
        { intros p Hp. now apply (Permutation_in _ Hfirsts). }
        clear - Hp Hlt Hne Hnd. unfold firsts in *.
        induction U' as [| i U' IH]; [reflexivity |].
        pose proof (Forall_inv Hlt) as Hi. apply Forall_inv_tail in Hlt.
        cbn [flat_map map]. rewrite map_app, IH; [| assumption |].
        2:{ intros p Hq. apply Hp. cbn [flat_map]. apply in_or_app. now right. }
        f_equal. cbn beta in Hi.
        assert (Hin : In (nth i F []) F) by now apply nth_In.
        destruct (nth i F []) as [| p f] eqn:Ei.
        { rewrite Forall_forall in Hne. now apply Hne in Hin. }
        cbn [firstn map fragment_ends].
        replace (mem p (flat_map pins_of xs)) with true.
        2:{ symmetry. apply mem_In. apply Hp. cbn [flat_map]. rewrite Ei. now left. }
        now rewrite (end_of_In F p f Hnd Hin). }
      (* the fragments that seed threads *)
      assert (E3 : flat_map (fragment_ends (flat_map pins_of xs)) (unused F U')
                   = loom_ends (unused F U')).
      { unfold loom_ends. apply flat_map_ext_in. intros f Hf.
        destruct f as [| p f]; [reflexivity |]. cbn [fragment_ends thread_ends].
        destruct (mem p (flat_map pins_of xs)) eqn:Em; [| reflexivity]. exfalso.
        apply mem_In in Em. apply (Permutation_in _ (Permutation_sym Hfirsts)) in Em.
        unfold firsts in Em. apply in_flat_map in Em. destruct Em as [i [Hi Hp]].
        destruct (In_unused _ _ _ Hf) as [j [Hj Hnj]].
        assert (Hil : (i < length F)%nat).
        { rewrite Forall_forall in Hlt. now apply Hlt. }
        assert (Ei : nth_error F i = Some (nth i F [])) by now apply nth_error_nth'.
        assert (i = j).
        { apply (fragment_unique F Hnd i j (nth i F []) (p :: f) p Ei Hj).
          - destruct (nth i F []); [destruct Hp |]. destruct Hp as [<- | []]. now left.
          - now left. }
        subst j. contradiction. }
      unfold loom_ends at 1. rewrite flat_map_app. fold (loom_ends exts).
      fold (loom_ends (unused F U')). rewrite E1, <- E3.
      rewrite (Permutation_flat_map (fragment_ends (flat_map pins_of xs))
                 (used_unused_split F U' HndU Hlt)).
      rewrite flat_map_app. apply Permutation_app_tail.
      replace (flat_map (fragment_ends (flat_map pins_of xs))
                 (map (fun i : nat => nth i F []) U'))
        with (flat_map (fun i => fragment_ends (flat_map pins_of xs) (nth i F [])) U')
        by (clear; induction U' as [| i U' IH]; [reflexivity |];
            cbn [map flat_map]; now rewrite IH).
      rewrite E2. apply Permutation_map. now symmetry.
Qed.

(** ** The ends, read off the tour *)

Lemma windows_app (a : list Point) x (b : list Point) d :
  a <> [] ->
  windows (a ++ x :: b) = windows a ++ (last a d, x) :: windows (x :: b).
Proof.
  induction a as [| y [| y' a] IH]; intros H; [congruence | reflexivity |].
  change ((y :: y' :: a) ++ x :: b) with (y :: (y' :: a) ++ x :: b).
  cbn [app]. rewrite !windows_cons. cbn [app]. f_equal.
  change (y' :: a ++ x :: b) with ((y' :: a) ++ x :: b). rewrite IH by discriminate.
  reflexivity.
Qed.

Lemma before_pins_segment pins p body :
  unpinned pins body -> before_pins pins (p :: body) = [].
Proof.
  unfold before_pins. revert p. induction body as [| q body IH]; intros p H; [reflexivity |].
  rewrite windows_cons. cbn [filter snd].
  inversion H as [| ? ? Hq Hb]; subst. rewrite Hq. now apply IH.
Qed.

Lemma before_pins_app pins (a : list Point) x b d :
  a <> [] -> mem x pins = true ->
  before_pins pins (a ++ x :: b)
  = before_pins pins a ++ last a d :: before_pins pins (x :: b).
Proof.
  intros Ha Hx. unfold before_pins. rewrite (windows_app a x b d Ha).
  rewrite filter_app, map_app. cbn [filter snd]. rewrite Hx. reflexivity.
Qed.

Lemma concat_segments_head pins seg (more : list Tour) :
  Forall (pinned_segment pins) (seg :: more) ->
  exists p rest, concat (seg :: more) = p :: rest /\ mem p pins = true.
Proof.
  intros H. pose proof (Forall_inv H) as (p & body & -> & Hp & _).
  exists p, (body ++ concat more). split; [reflexivity | exact Hp].
Qed.

(** The last points of the segments: the points just before the pins,
    and the last point of all. *)
Lemma segments_last pins (segs : list Tour) d :
  Forall (pinned_segment pins) segs -> segs <> [] ->
  flat_map (fragment_ends pins) segs
  = before_pins pins (concat segs) ++ [last (concat segs) d].
Proof.
  induction segs as [| seg more IH]; intros H Hne; [congruence |].
  pose proof (Forall_inv H) as (p & body & -> & Hp & Hb).
  apply Forall_inv_tail in H. cbn [flat_map fragment_ends]. rewrite Hp.
  destruct more as [| seg2 more'].
  - cbn [flat_map concat]. rewrite !app_nil_r.
    rewrite (before_pins_segment pins p body Hb). cbn [app]. f_equal.
    apply last_default. discriminate.
  - destruct (concat_segments_head _ _ _ H) as (p2 & rest & E & Hp2).
    rewrite (IH H ltac:(discriminate)). cbn [concat] in *. rewrite E.
    rewrite (before_pins_app pins (p :: body) p2 rest p ltac:(discriminate) Hp2).
    rewrite (before_pins_segment pins p body Hb). cbn [app]. f_equal.
    f_equal. change (p :: body ++ p2 :: rest) with ((p :: body) ++ p2 :: rest).
    rewrite last_app_ne by discriminate. reflexivity.
Qed.

Lemma unpinned_nil_of_head pins (pre : list Point) segs p rest :
  unpinned pins pre -> Forall (pinned_segment pins) segs ->
  pre ++ concat segs = p :: rest -> mem p pins = true -> pre = [].
Proof.
  intros Hpre _ E Hp. destruct pre as [| q pre]; [reflexivity |].
  inversion E; subst q. inversion Hpre; subst. congruence.
Qed.

(** What the fragments of a tour give, when the tour does not start with a
    pin: the first point of the tour, the ends of the piece between the
    first pin and the second, the points just before the other pins, and
    the last point of the tour. *)
Lemma tour_ends pins t0 (pre' : list Point) pin1 (body R : list Point) tour' subtours :
  unpinned pins (t0 :: pre') -> mem pin1 pins = true -> unpinned pins body ->
  (R = [] \/ exists p R', R = p :: R' /\ mem p pins = true) ->
  chop ((t0 :: pre') ++ (pin1 :: body) ++ R) pins = Ok (tour', subtours) ->
  Permutation (flat_map (fragment_ends pins) subtours)
    (t0 :: match body with [] => [] | b :: _ => [b; last body b] end
        ++ match R with [] => [] | r :: _ => before_pins pins R ++ [last R r] end).
Proof.
  intros Hpre Hp1 Hbody HR Echop.
  assert (Hpne : pins <> []) by (intros ->; discriminate).
  destruct (tour_decomposition pins R) as (preR & segs & ER & HpreR & Hsegs).
  assert (EpreR : preR = []).
  { destruct HR as [-> | (p & R' & -> & Hp)].
    - destruct preR; [reflexivity | discriminate].
    - symmetry in ER. eapply unpinned_nil_of_head; eauto. }
  subst preR. cbn [app] in ER.
  assert (Hall : Forall (pinned_segment pins) ((pin1 :: body) :: segs)).
  { constructor; [| exact Hsegs]. now exists pin1, body. }
  replace ((t0 :: pre') ++ (pin1 :: body) ++ R)
    with ((t0 :: pre') ++ concat ((pin1 :: body) :: segs)) in Echop
    by (cbn [concat]; now rewrite ER).
  rewrite chop_decomposed in Echop by assumption.
  inversion Echop; subst tour' subtours; clear Echop.
  cbn [chop_fragments firstn tl]. rewrite flat_map_app.
  rewrite (Permutation_flat_map (fragment_ends pins) (Permutation_sym (Permutation_rev segs))).
  assert (Elead : fragment_ends pins (rev (pre' ++ [pin1]) ++ [t0]) = [t0]).
  { rewrite rev_app_distr. cbn [rev app fragment_ends]. rewrite Hp1. f_equal.
    change (pin1 :: rev pre' ++ [t0]) with ((pin1 :: rev pre') ++ [t0]).
    apply last_last. }
  assert (Esegs : flat_map (fragment_ends pins) segs
                  = match R with [] => [] | r :: _ => before_pins pins R ++ [last R r] end).
  { destruct segs as [| seg more].
    - cbn [concat] in ER. subst R. reflexivity.
    - destruct (concat_segments_head _ _ _ Hsegs) as (q & rest & E & _).
      rewrite (segments_last pins (seg :: more) q Hsegs ltac:(discriminate)).
      assert (G : forall L : list Point, L = q :: rest ->
                before_pins pins L ++ [last L q]
                = match L with [] => [] | r :: _ => before_pins pins L ++ [last L r] end)
        by (intros L ->; reflexivity).
      rewrite <- ER. apply G. rewrite ER. exact E. }
  cbn [flat_map]. rewrite Elead, Esegs. destruct body as [| b body'].
  - cbn [flat_map app]. perm.
  - inversion Hbody; subst. cbn [flat_map fragment_ends].
    replace (mem b pins) with false by (symmetry; assumption).
    rewrite app_nil_r. cbn [app]. perm.
Qed.

Lemma In_windows (data : list Point) a u v b :
  data = a ++ u :: v :: b -> In (u, v) (windows data).
Proof.
  intros ->. induction a as [| x a IH].
  - cbn [app]. rewrite windows_cons. now left.
  - cbn [app]. destruct (a ++ u :: v :: b) eqn:E.
    + destruct a; discriminate.
    + rewrite windows_cons. right. exact IH.
Qed.

Lemma windows_snd (data : list Point) : map snd (windows data) = tl data.
Proof.
  induction data as [| x [| y data] IH]; [reflexivity | reflexivity |].
  rewrite windows_cons. cbn [map snd tl]. f_equal. exact IH.
Qed.

Lemma NoDup_map_eq {A B} (f : A -> B) (l : list A) x y :
  NoDup (map f l) -> In x l -> In y l -> f x = f y -> x = y.
Proof.
  induction l as [| a l IH]; intros Hnd Hx Hy E; [destruct Hx |].
  cbn [map] in Hnd. inversion Hnd as [| ? ? Ha Hl]; subst.
  destruct Hx as [-> | Hx], Hy as [-> | Hy].
  - reflexivity.
  - exfalso. apply Ha. rewrite E. now apply in_map.
  - exfalso. apply Ha. rewrite <- E. now apply in_map.
  - now apply IH.
Qed.

Lemma NoDup_of_map {A B} (f : A -> B) (l : list A) : NoDup (map f l) -> NoDup l.
Proof.
  induction l as [| a l IH]; intros H; [constructor |].
  cbn [map] in H. inversion H; subst. constructor; [| now apply IH].
  intros Hin. apply H2. now apply in_map.
Qed.

Lemma NoDup_tl {A} (l : list A) : NoDup l -> NoDup (tl l).
Proof. destruct l; [trivial |]. intros H. now inversion H. Qed.

(** The points just before the pins, from a list of pairs of consecutive
    points that covers the pins. *)
Lemma before_pins_windows pins (R : list Point) (Q : list Edge) :
  NoDup R ->
  (forall qp, In qp Q -> In qp (windows R) /\ mem (snd qp) pins = true) ->
  NoDup (map snd Q) ->
  (forall p, In p (tl R) -> mem p pins = true -> In p (map snd Q)) ->
  Permutation (before_pins pins R) (map fst Q).
Proof.
  intros HR HQ HndQ Hcov. unfold before_pins. apply Permutation_map.
  assert (HW : NoDup (map snd (windows R))) by (rewrite windows_snd; now apply NoDup_tl).
  apply NoDup_Permutation.
  - apply NoDup_filter. exact (NoDup_of_map _ _ HW).
  - exact (NoDup_of_map _ _ HndQ).
  - intros [q p]. rewrite filter_In. cbn [snd]. split.
    + intros [Hw Hp].
      assert (Hin : In p (map snd Q)).
      { apply Hcov; [| exact Hp]. rewrite <- windows_snd.
        apply in_map_iff. now exists (q, p). }
      apply in_map_iff in Hin. destruct Hin as [[q' p'] [E Hq']]. cbn [snd] in E. subst p'.
      destruct (HQ _ Hq') as [Hw' _].
      assert (E : (q, p) = (q', p)) by (apply (NoDup_map_eq snd (windows R)); auto).
      now rewrite E.
    + intros H. exact (HQ _ H).
Qed.

(** A pair of consecutive points of a tour that lies beyond a prefix. *)
Lemma windows_suffix (P R : list Point) q p :
  In (q, p) (windows (P ++ R)) -> ~ In p P -> first R <> Ok p ->
  In (q, p) (windows R).
Proof.
  intros H Hp Hh. destruct P as [| x P]; [exact H |].
  destruct R as [| r R].
  - rewrite app_nil_r in H. exfalso. apply Hp.
    assert (In p (map snd (windows (x :: P)))) by (apply in_map_iff; now exists (q, p)).
    rewrite windows_snd in H0. now right.
  - rewrite (windows_app (x :: P) r R x) in H by discriminate.
    apply in_app_or in H. destruct H as [H | [H | H]].
    + exfalso. apply Hp.
      assert (Hin : In p (map snd (windows (x :: P))))
        by (apply in_map_iff; now exists (q, p)).
      rewrite windows_snd in Hin. now right.
    + inversion H; subst. exfalso. now apply Hh.
    + exact H.
Qed.

(** ** The thread ends of every loom *)

Lemma even_nat_Z n : Nat.even n = (Z.of_nat n mod 2 =? 0).
Proof.
  destruct (nat_parity n) as [t [-> | ->]].
  - rewrite Nat.even_even. symmetry. apply Z.eqb_eq.
    Z.to_euclidean_division_equations; lia.
  - rewrite Nat.even_odd. symmetry. apply Z.eqb_neq.
    Z.to_euclidean_division_equations; lia.
Qed.

Lemma row_pred n x :
  3 <= x <= 2 * Z.of_nat n - 1 -> (x - 2 * Z.of_nat n - 1) mod 4 = 0 ->
  next_to (spiral n) (x - 2, 1) (x, 1).
Proof.
  intros Hx Hm. set (j := Z.to_nat ((x - 1) / 2)).
  assert (Ej : 2 * Z.of_nat j + 1 = x)
    by (unfold j; Z.to_euclidean_division_equations; lia).
  assert (Hj : (1 <= j < n)%nat) by lia.
  pose proof (row_window n j Hj) as W.
  assert (Es : sg (n - j) = 1).
  { unfold sg. rewrite even_nat_Z.
    replace (Z.of_nat (n - j) mod 2 =? 0) with true; [reflexivity |].
    symmetry. apply Z.eqb_eq. rewrite Nat2Z.inj_sub by lia.
    Z.to_euclidean_division_equations; lia. }
  rewrite Es in W. eapply next_to_eq; [exact W | |]; f_equal; lia.
Qed.

Lemma col_pred n y :
  1 <= y <= 2 * Z.of_nat n - 3 -> (y - 2 * Z.of_nat n + 1) mod 4 = 0 ->
  next_to (spiral n) (-3, y + 2) (-3, y).
Proof.
  intros Hy Hm. set (j := Z.to_nat ((y + 1) / 2)).
  assert (Ej : 2 * Z.of_nat j - 1 = y)
    by (unfold j; Z.to_euclidean_division_equations; lia).
  assert (Hj : (1 <= j < n)%nat) by lia.
  pose proof (col_window n j Hj) as W.
  assert (Es : Nat.even (n - j) = true).
  { rewrite even_nat_Z. apply Z.eqb_eq. rewrite Nat2Z.inj_sub by lia.
    Z.to_euclidean_division_equations; lia. }
  rewrite Es in W. eapply next_to_eq; [exact W | |]; f_equal; lia.
Qed.

Lemma lifted_window z (l : list XY) q p :
  next_to l q p -> In (lift z q, lift z p) (windows (map (lift z) l)).
Proof.
  intros H. apply (next_to_map (lift z)) in H. destruct H as [a [b E]].
  exact (In_windows _ _ _ _ _ E).
Qed.

Lemma windows_of_suffix (P R : list Point) w :
  In w (windows R) -> In w (windows (P ++ R)).
Proof.
  intros H. destruct w as [u v]. apply windows_In in H. destruct H as [a [b ->]].
  apply (In_windows _ (P ++ a) u v b). now rewrite <- app_assoc.
Qed.

Lemma windows_fst_NoDup (R : list Point) : NoDup R -> NoDup (map fst (windows R)).
Proof.
  induction R as [| x [| y R] IH]; intros H; [constructor | constructor |].
  rewrite windows_cons. cbn [map fst]. inversion H as [| ? ? Hx HR]; subst.
  constructor; [| now apply IH].
  intros Hin. apply Hx. apply in_map_iff in Hin. destruct Hin as [[u v] [E Hw]].
  cbn [fst] in E. subst u. apply windows_In in Hw. destruct Hw as [a [b ->]].
  apply in_or_app. right. now left.
Qed.

Lemma NoDup_map_filter {A B} (f : A -> B) g (l : list A) :
  NoDup (map f l) -> NoDup (map f (filter g l)).
Proof.
  induction l as [| x l IH]; intros H; [constructor |].
  cbn [map] in H. inversion H; subst. cbn [filter].
  destruct (g x); [| now apply IH]. cbn [map]. constructor; [| now apply IH].
  intros Hin. apply H2. apply in_map_iff in Hin. destruct Hin as (y & E & Hy).
  apply filter_In in Hy. rewrite <- E. apply in_map. tauto.
Qed.

Lemma before_pins_NoDup pins (R : list Point) : NoDup R -> NoDup (before_pins pins R).
Proof.
  intros H. unfold before_pins. apply NoDup_map_filter. now apply windows_fst_NoDup.
Qed.

Lemma In_before_pins pins (R : list Point) q :
  In q (before_pins pins R) <-> exists p, In (q, p) (windows R) /\ mem p pins = true.
Proof.
  unfold before_pins. rewrite in_map_iff. split.
  - intros [[q' p] [E H]]. cbn [fst] in E. subst q'. apply filter_In in H.
    exists p. exact H.
  - intros [p [H Hp]]. exists (q, p). split; [reflexivity |].
    apply filter_In. now split.
Qed.

Lemma lift_eq z a b c d : lift z (a, b) = lift z (c, d) -> a = c /\ b = d.
Proof.
  unfold lift. cbn [fst snd]. intros H.
  apply pair_equal_spec in H. destruct H as [H _].
  apply pair_equal_spec in H. exact H.
Qed.

Lemma spiral_NoDup_lifted z n : (1 <= n)%nat -> NoDup (map (lift z) (spiral n)).
Proof.
  intros Hn. apply NoDup_map_inj; [| exact (proj1 (spiral_diamond n Hn))].
  intros [a b] [c d] _ _ E. apply lift_eq in E. destruct E. now subst.
Qed.

Lemma before_pins_spiral (m : nat) pins (P R' : list Point) :
  (3 <= m)%nat ->
  (forall p, mem p pins = true <->
             exists e, p = lift (-1) e /\ is_end (Z.of_nat m) e) ->
  map (lift (-1)) (spiral (S m))
  = P ++ lift (-1) ((if Z.of_nat m mod 2 =? 0 then 3 else 5), 1) :: R' ->
  In (lift (-1) ((if Z.of_nat m mod 2 =? 0 then 1 else -1), 1)) P ->
  (forall p, In p P -> mem p pins = true ->
             p = lift (-1) ((if Z.of_nat m mod 2 =? 0 then 1 else -1), 1)) ->
  forall q,
    In q (before_pins pins
            (lift (-1) ((if Z.of_nat m mod 2 =? 0 then 3 else 5), 1) :: R'))
    <-> exists e, q = lift (-1) e /\ before_end (Z.of_nat m) e.
Proof.
  intros Hm Hpins ET Hs HP q.
  set (M := Z.of_nat m) in *.
  set (s := if M mod 2 =? 0 then 1 else -1) in *.
  set (hx := if M mod 2 =? 0 then 3 else 5) in *.
  set (T := map (lift (-1)) (spiral (S m))) in *.
  set (R := lift (-1) (hx, 1) :: R') in *.
  assert (HT : NoDup T) by (apply spiral_NoDup_lifted; lia).
  assert (HR : NoDup R) by (rewrite ET in HT; now apply NoDup_app_remove_l in HT).
  assert (Hsep : forall p, In p P -> In p R -> False).
  { intros p H1 H2. rewrite ET in HT. revert p H1 H2. clear - HT.
    induction P as [| x P IH]; intros p H1 H2; [destruct H1 |].
    cbn [app] in HT. inversion HT; subst. destruct H1 as [-> | H1].
    - apply H3. apply in_or_app. now right.
    - now apply (IH H4 p). }
  assert (Hpred : forall q1 q2 p, In (q1, p) (windows T) -> In (q2, p) (windows T) -> q1 = q2).
  { intros q1 q2 p H1 H2.
    assert (E : (q1, p) = (q2, p)).
    { apply (NoDup_map_eq snd (windows T)); auto.
      rewrite windows_snd. now apply NoDup_tl. }
    now inversion E. }
  assert (SM : Z.of_nat (S m) = M + 1) by (unfold M; lia).
  assert (HM : 3 <= M) by (unfold M; lia).
  destruct (top_window (S m) ltac:(lia)) as [W1 W2].
  apply (lifted_window (-1)) in W1, W2. fold T in W1, W2. rewrite SM in W1, W2.
  assert (Wrow : forall x, 3 <= x <= 2 * M + 1 -> (x - 2 * M - 3) mod 4 = 0 ->
                           In (lift (-1) (x - 2, 1), lift (-1) (x, 1)) (windows T)).
  { intros x Hx Hmod. apply lifted_window. apply row_pred; rewrite SM; [lia |].
    replace (x - 2 * (M + 1) - 1) with (x - 2 * M - 3) by lia. exact Hmod. }
  assert (Wcol : forall y, 1 <= y <= 2 * M - 1 -> (y - 2 * M - 1) mod 4 = 0 ->
                           In (lift (-1) (-3, y + 2), lift (-1) (-3, y)) (windows T)).
  { intros y Hy Hmod. apply lifted_window. apply col_pred; rewrite SM; [lia |].
    replace (y - 2 * (M + 1) + 1) with (y - 2 * M - 1) by lia. exact Hmod. }
  assert (Hhx : hx = 3 /\ M mod 2 = 0 \/ hx = 5 /\ M mod 2 = 1).
  { unfold hx. destruct (M mod 2 =? 0) eqn:E; [left | right];
      rewrite ?Z.eqb_eq, ?Z.eqb_neq in E; split; try reflexivity;
      Z.to_euclidean_division_equations; lia. }
  rewrite In_before_pins. split.
  - intros [p [Hw Hp]].
    assert (HpR : In p R').
    { assert (In p (map snd (windows R))) by (apply in_map_iff; now exists (q, p)).
      rewrite windows_snd in H. exact H. }
    assert (HwT : In (q, p) (windows T)).
    { rewrite ET. now apply windows_of_suffix. }
    apply Hpins in Hp. destruct Hp as [[x y] [-> He]].
    destruct He as [E | [E | [E | [(Ey & Hx & Hmod) | (Ex & Hy & Hmod)]]]].
    + exfalso. apply (Hsep (lift (-1) (x, y))); [rewrite E; exact Hs | now right].
    + inversion E; subst x y.
      replace (2 * (M + 1) - 5) with (2 * M - 3) in W1 by lia.
      rewrite (Hpred _ _ _ HwT W1). eexists. split; [reflexivity |].
      left. f_equal. lia.
    + inversion E; subst x y.
      replace (2 * (M + 1) - 3) with (2 * M - 1) in W2 by lia.
      rewrite (Hpred _ _ _ HwT W2). eexists. split; [reflexivity |].
      right. left. f_equal. lia.
    + cbn [fst snd] in *. subst y.
      destruct (Z.eq_dec x hx) as [-> | Hne].
      { exfalso. unfold R in HR. inversion HR. contradiction. }
      rewrite (Hpred _ _ _ HwT (Wrow x ltac:(lia) Hmod)).
      eexists. split; [reflexivity |]. right. right. left. cbn [fst snd].
      split; [reflexivity |].
      split; [destruct Hhx as [[? ?] | [? ?]]; Z.to_euclidean_division_equations; lia |].
      Z.to_euclidean_division_equations; lia.
    + cbn [fst snd] in *. subst x.
      rewrite (Hpred _ _ _ HwT (Wcol y ltac:(lia) Hmod)).
      eexists. split; [reflexivity |]. right. right. right. cbn [fst snd].
      split; [reflexivity |]. split; [lia |].
      Z.to_euclidean_division_equations; lia.
  - intros [[x y] [-> He]].
    assert (Hsuf : forall p, In (lift (-1) (x, y), lift (-1) p) (windows T) ->
                             is_end M p -> p <> (s, 1) -> p <> (hx, 1) ->
                             exists p', In (lift (-1) (x, y), p') (windows R) /\
                                        mem p' pins = true).
    { intros p Hw Hp N1 N2. exists (lift (-1) p).
      assert (Hpin : mem (lift (-1) p) pins = true) by (apply Hpins; now exists p).
      split; [| exact Hpin].
      rewrite ET in Hw. apply (windows_suffix P R) in Hw; [exact Hw | |].
      - intros Hin. apply HP in Hin; [| exact Hpin]. destruct p as [a b].
        apply lift_eq in Hin. destruct Hin. subst. now apply N1.
      - unfold R. cbn [first]. intros E.
        assert (E' : lift (-1) (hx, 1) = lift (-1) p) by congruence.
        destruct p as [a b]. apply lift_eq in E'. destruct E'. subst. now apply N2. }
    destruct He as [E | [E | [(Ey & Hx & Hmod) | (Ex & Hy & Hmod)]]].
    + inversion E; subst x y. apply (Hsuf (2 * M - 3, 3)).
      * replace (2 * (M + 1) - 3) with (2 * M - 1) in W1 by lia.
        replace (2 * (M + 1) - 5) with (2 * M - 3) in W1 by lia. exact W1.
      * right. now left.
      * intros H. inversion H.
      * intros H. inversion H.
    + inversion E; subst x y. apply (Hsuf (-1, 2 * M - 1)).
      * replace (2 * (M + 1) - 3) with (2 * M - 1) in W2 by lia.
        replace (2 * (M + 1) - 1) with (2 * M + 1) in W2 by lia. exact W2.
      * right. right. now left.
      * intros H. apply pair_equal_spec in H. lia.
      * intros H. apply pair_equal_spec in H. lia.
    + cbn [fst snd] in *. subst y. apply (Hsuf (x + 2, 1)).
      * assert (W := Wrow (x + 2) ltac:(lia)
                       ltac:(Z.to_euclidean_division_equations; lia)).
        replace (x + 2 - 2) with x in W by lia. exact W.
      * right. right. right. left. cbn [fst snd].
        split; [reflexivity |]. split; [lia |]. Z.to_euclidean_division_equations; lia.
      * intros H. apply pair_equal_spec in H. unfold s in H.
        destruct (M mod 2 =? 0); lia.
      * intros H. apply pair_equal_spec in H. lia.
    + cbn [fst snd] in *. subst x. apply (Hsuf (-3, y - 2)).
      * assert (W := Wcol (y - 2) ltac:(lia)
                       ltac:(Z.to_euclidean_division_equations; lia)).
        replace (y - 2 + 2) with y in W by lia. exact W.
      * right. right. right. right. cbn [fst snd].
        split; [reflexivity |]. split; [lia |]. Z.to_euclidean_division_equations; lia.
      * intros H. apply pair_equal_spec in H. unfold s in H.
        destruct (M mod 2 =? 0); lia.
      * intros H. apply pair_equal_spec in H. lia.
Qed.

Ltac modular := cbn [fst snd] in *; Z.to_euclidean_division_equations; lia.

Lemma is_end_S_odd M e :
  3 <= M -> M mod 2 = 1 ->
  (is_end (M + 1) e <->
   e = (1, 1) \/ e = (-3, 1) \/ e = (3, 1) \/ before_end M e \/ e = (2 * M + 1, 1)).
Proof.
  intros HM Hodd. destruct e as [x y]. unfold is_end, before_end. cbn [fst snd].
  replace ((M + 1) mod 2 =? 0) with true by (symmetry; apply Z.eqb_eq; modular).
  split.
  - intros [E | [E | [E | [(Ey & Hx & Hmod) | (Ex & Hy & Hmod)]]]].
    + now left.
    + do 3 right. left. left. rewrite E. f_equal. lia.
    + do 3 right. left. right. left. rewrite E. f_equal. lia.
    + subst y. destruct (Z.eq_dec x 3) as [-> | N3]; [right; right; now left |].
      destruct (Z.eq_dec x (2 * M + 1)) as [-> | NM]; [do 4 right; reflexivity |].
      do 3 right. left. right. right. left.
      split; [reflexivity |]. split; modular.
    + subst x. destruct (Z.eq_dec y 1) as [-> | N1]; [right; now left |].
      do 3 right. left. right. right. right.
      split; [reflexivity |]. split; modular.
  - intros [E | [E | [E | [[E | [E | [(Ey & Hx & Hmod) | (Ex & Hy & Hmod)]]] | E]]]].
    + now left.
    + inversion E; subst x y. do 4 right. split; [reflexivity |]. split; modular.
    + inversion E; subst x y. do 3 right. left. split; [reflexivity |]. split; modular.
    + right. left. rewrite E. f_equal. lia.
    + right. right. left. rewrite E. f_equal. lia.
    + do 3 right. left. split; [assumption |]. split; modular.
    + do 4 right. split; [assumption |]. split; modular.
    + apply pair_equal_spec in E. destruct E. subst x y.
      do 3 right. left. split; [reflexivity |]. split; modular.
Qed.

Lemma is_end_S_even M e :
  3 <= M -> M mod 2 = 0 ->
  (is_end (M + 1) e <-> e = (-1, 1) \/ before_end M e \/ e = (2 * M + 1, 1)).
Proof.
  intros HM Hev. destruct e as [x y]. unfold is_end, before_end. cbn [fst snd].
  replace ((M + 1) mod 2 =? 0) with false by (symmetry; apply Z.eqb_neq; modular).
  split.
  - intros [E | [E | [E | [(Ey & Hx & Hmod) | (Ex & Hy & Hmod)]]]].
    + now left.
    + right. left. left. rewrite E. f_equal. lia.
    + right. left. right. left. rewrite E. f_equal. lia.
    + subst y.
      destruct (Z.eq_dec x (2 * M + 1)) as [-> | NM]; [right; right; reflexivity |].
      right. left. right. right. left.
      split; [reflexivity |]. split; modular.
    + subst x. right. left. right. right. right.
      split; [reflexivity |]. split; modular.
  - intros [E | [[E | [E | [(Ey & Hx & Hmod) | (Ex & Hy & Hmod)]]] | E]].
    + now left.
    + right. left. rewrite E. f_equal. lia.
    + right. right. left. rewrite E. f_equal. lia.
    + do 3 right. left. split; [assumption |]. split; modular.
    + do 4 right. split; [assumption |]. split; modular.
    + apply pair_equal_spec in E. destruct E. subst x y.
      do 3 right. left. split; [reflexivity |]. split; modular.
Qed.

Lemma not_pin pins M a b :
  (forall p, mem p pins = true <-> exists e, p = lift (-1) e /\ is_end M e) ->
  ~ is_end M (a, b) -> mem (lift (-1) (a, b)) pins = false.
Proof.
  intros Hpins H. destruct (mem (lift (-1) (a, b)) pins) eqn:E; [| reflexivity].
  exfalso. apply Hpins in E. destruct E as [[c d] [E He]].
  apply lift_eq in E. destruct E. subst. now apply H.
Qed.

Lemma last_of_final {A} (l : list A) d x : final l = Ok x -> last l d = x.
Proof.
  intros H. destruct l as [| a l]; [discriminate |].
  rewrite (final_last (a :: l) d) in H by discriminate. now inversion H.
Qed.

(** The thread ends that a layer of the spiral leaves. *)
Lemma spiral_chop_ends (m : nat) pins tour' subtours :
  (3 <= m)%nat ->
  (forall p, mem p pins = true <->
             exists e, p = lift (-1) e /\ is_end (Z.of_nat m) e) ->
  chop (map (lift (-1)) (spiral (S m))) pins = Ok (tour', subtours) ->
  NoDup (flat_map (fragment_ends pins) subtours) /\
  forall q, In q (flat_map (fragment_ends pins) subtours)
            <-> exists e, q = lift (-1) e /\ is_end (Z.of_nat m + 1) e.
Proof.
  intros Hm Hpins Echop.
  assert (HM : 3 <= Z.of_nat m) by lia.
  assert (HT : NoDup (map (lift (-1)) (spiral (S m))))
    by (apply spiral_NoDup_lifted; lia).
  assert (Hfin : final (map (lift (-1)) (spiral (S m)))
                 = Ok (lift (-1) (2 * Z.of_nat m + 1, 1))).
  { apply final_map. unfold spiral.
    replace (2 * Z.of_nat m + 1) with (2 * Z.of_nat (S m) - 1) by lia.
    apply spun_of_final. lia. }
  destruct (spiral_core (S m) ltac:(lia)) as [rest E].
  unfold core in E. rewrite even_nat_Z in E.
  pose proof (before_pins_spiral m pins) as BP.
  destruct (Z.of_nat m mod 2 =? 0) eqn:Epar.
  - (* an even number of layers woven: the spiral starts at (-1, 1) *)
    apply Z.eqb_eq in Epar.
    replace (Z.of_nat (S m) mod 2 =? 0) with false in E
      by (symmetry; apply Z.eqb_neq; modular).
    rewrite E, map_app in *. cbn [map app] in *.
    set (R' := _ :: _ :: _ :: _ :: _ :: _ :: _ :: _ :: map (lift (-1)) rest) in *.
    assert (Hpre : unpinned pins [lift (-1) (-1, 1); lift (-1) (-1, -1); lift (-1) (1, -1)]).
    { repeat constructor; apply (not_pin pins (Z.of_nat m)); auto;
        unfold is_end; cbn [fst snd]; rewrite (proj2 (Z.eqb_eq _ _) Epar);
        intros [H | [H | [H | [H | H]]]]; try (apply pair_equal_spec in H); lia. }
    assert (Hp1 : mem (lift (-1) (1, 1)) pins = true).
    { apply Hpins. eexists. split; [reflexivity |]. left.
      now rewrite (proj2 (Z.eqb_eq _ _) Epar). }
    assert (Hr : mem (lift (-1) (3, 1)) pins = true).
    { apply Hpins. eexists. split; [reflexivity |]. do 3 right. left.
      split; [reflexivity |]. split; modular. }
    pose proof (tour_ends pins (lift (-1) (-1, 1))
                  [lift (-1) (-1, -1); lift (-1) (1, -1)] (lift (-1) (1, 1)) []
                  (lift (-1) (3, 1) :: R') tour' subtours Hpre Hp1 (Forall_nil _)
                  ltac:(right; eexists _, _; split; [reflexivity | exact Hr])
                  Echop) as PERM.
    cbn [app] in PERM.
    specialize (BP [lift (-1) (-1, 1); lift (-1) (-1, -1); lift (-1) (1, -1);
                    lift (-1) (1, 1)] R' Hm Hpins eq_refl
                  ltac:(do 3 right; now left)).
    assert (HP : forall p, In p [lift (-1) (-1, 1); lift (-1) (-1, -1); lift (-1) (1, -1);
                                lift (-1) (1, 1)] ->
                           mem p pins = true -> p = lift (-1) (1, 1)).
    { intros p Hin Hp. unfold unpinned in Hpre. rewrite Forall_forall in Hpre.
      destruct Hin as [<- | [<- | [<- | [<- | []]]]]; try reflexivity;
        rewrite Hpre in Hp by (cbn [In]; tauto); discriminate. }
    specialize (BP HP).
    assert (HR : NoDup (lift (-1) (3, 1) :: R')).
    { do 4 apply NoDup_cons_iff, proj2 in HT. exact HT. }
    assert (Hlast : last (lift (-1) (3, 1) :: R') (lift (-1) (3, 1))
                    = lift (-1) (2 * Z.of_nat m + 1, 1)).
    { apply last_of_final. rewrite <- Hfin. reflexivity. }
    rewrite Hlast in PERM.
    assert (Hin : forall q,
               In q (lift (-1) (-1, 1)
                     :: before_pins pins (lift (-1) (3, 1) :: R')
                     ++ [lift (-1) (2 * Z.of_nat m + 1, 1)])
               <-> exists e, q = lift (-1) e /\ is_end (Z.of_nat m + 1) e).
    { intros q. cbn [In]. rewrite in_app_iff, BP. cbn [In]. split.
      - intros [<- | [[e [-> He]] | [<- | []]]]; eexists; (split; [reflexivity |]);
          apply is_end_S_even; auto.
      - intros [e [-> He]]. apply is_end_S_even in He; auto.
        destruct He as [-> | [He | ->]]; [now left | right; left; now exists e |].
        right. right. now left. }
    split.
    + eapply Permutation_NoDup; [symmetry; exact PERM |].
      constructor.
      * rewrite in_app_iff, BP. cbn [In].
        intros [[[x y] [E' He]] | [E' | []]]; apply lift_eq in E'; destruct E';
          [subst x y; unfold before_end in He; cbn [fst snd] in He;
           destruct He as [He | [He | [He | He]]];
           try (apply pair_equal_spec in He); lia | lia].
      * apply NoDup_app; [now apply before_pins_NoDup | repeat constructor; intros [] |].
        intros p Hp [<- | []]. apply BP in Hp. destruct Hp as [[x y] [E' He]].
        apply lift_eq in E'. destruct E'. subst x y.
        unfold before_end in He; cbn [fst snd] in He;
          destruct He as [He | [He | [He | He]]];
          try (apply pair_equal_spec in He); lia.
    + intros q. rewrite <- Hin. split; apply Permutation_in;
        [exact PERM | symmetry; exact PERM].
  - (* an odd number of layers woven: the spiral starts at (1, 1) *)
    apply Z.eqb_neq in Epar.
    assert (Epar' : Z.of_nat m mod 2 = 1) by modular.
    assert (Eb : (Z.of_nat m mod 2 =? 0) = false) by now apply Z.eqb_neq.
    replace (Z.of_nat (S m) mod 2 =? 0) with true in E
      by (symmetry; apply Z.eqb_eq; modular).
    rewrite E, map_app in *. cbn [map app] in *.
    set (R' := map (lift (-1)) rest) in *.
    assert (Hpre : unpinned pins [lift (-1) (1, 1); lift (-1) (1, 3); lift (-1) (-1, 3)]).
    { repeat constructor; apply (not_pin pins (Z.of_nat m)); auto;
        unfold is_end; cbn [fst snd]; rewrite Eb;
        intros [H | [H | [H | [H | H]]]]; try (apply pair_equal_spec in H); lia. }
    assert (Hbody : unpinned pins
                      [lift (-1) (-3, 1); lift (-1) (-3, -1); lift (-1) (-1, -1);
                       lift (-1) (-1, -3); lift (-1) (1, -3); lift (-1) (1, -1);
                       lift (-1) (3, -1); lift (-1) (3, 1)]).
    { repeat constructor; apply (not_pin pins (Z.of_nat m)); auto;
        unfold is_end; cbn [fst snd]; rewrite Eb;
        intros [H | [H | [H | [H | H]]]]; try (apply pair_equal_spec in H);
        try lia; modular. }
    assert (Hp1 : mem (lift (-1) (-1, 1)) pins = true).
    { apply Hpins. eexists. split; [reflexivity |]. left. now rewrite Eb. }
    assert (Hr : mem (lift (-1) (5, 1)) pins = true).
    { apply Hpins. eexists. split; [reflexivity |]. do 3 right. left.
      split; [reflexivity |]. split; modular. }
    pose proof (tour_ends pins (lift (-1) (1, 1))
                  [lift (-1) (1, 3); lift (-1) (-1, 3)] (lift (-1) (-1, 1))
                  [lift (-1) (-3, 1); lift (-1) (-3, -1); lift (-1) (-1, -1);
                   lift (-1) (-1, -3); lift (-1) (1, -3); lift (-1) (1, -1);
                   lift (-1) (3, -1); lift (-1) (3, 1)]
                  (lift (-1) (5, 1) :: R') tour' subtours Hpre Hp1 Hbody
                  ltac:(right; eexists _, _; split; [reflexivity | exact Hr])
                  Echop) as PERM.
    cbn [app] in PERM.
    specialize (BP [lift (-1) (1, 1); lift (-1) (1, 3); lift (-1) (-1, 3);
                    lift (-1) (-1, 1);
                    lift (-1) (-3, 1); lift (-1) (-3, -1); lift (-1) (-1, -1);
                    lift (-1) (-1, -3); lift (-1) (1, -3); lift (-1) (1, -1);
                    lift (-1) (3, -1); lift (-1) (3, 1)] R' Hm Hpins eq_refl
                  ltac:(do 3 right; now left)).
    assert (HP : forall p, In p [lift (-1) (1, 1); lift (-1) (1, 3); lift (-1) (-1, 3);
                                lift (-1) (-1, 1);
                                lift (-1) (-3, 1); lift (-1) (-3, -1); lift (-1) (-1, -1);
                                lift (-1) (-1, -3); lift (-1) (1, -3); lift (-1) (1, -1);
                                lift (-1) (3, -1); lift (-1) (3, 1)] ->
                           mem p pins = true -> p = lift (-1) (-1, 1)).
    { intros p Hin Hp. unfold unpinned in Hpre, Hbody.
      rewrite Forall_forall in Hpre, Hbody.
      destruct Hin as [<- | [<- | [<- | [<- | Hin]]]]; try reflexivity;
        try (rewrite Hpre in Hp by (cbn [In]; tauto); discriminate).
      rewrite (Hbody _ Hin) in Hp. discriminate. }
    specialize (BP HP).
    assert (HR : NoDup (lift (-1) (5, 1) :: R')).
    { do 12 apply NoDup_cons_iff, proj2 in HT. exact HT. }
    assert (Hlast : last (lift (-1) (5, 1) :: R') (lift (-1) (5, 1))
                    = lift (-1) (2 * Z.of_nat m + 1, 1)).
    { apply last_of_final. rewrite <- Hfin. reflexivity. }
    rewrite Hlast in PERM. cbn [last] in PERM.
    assert (Hin : forall q,
               In q (lift (-1) (1, 1) :: lift (-1) (-3, 1) :: lift (-1) (3, 1)
                     :: before_pins pins (lift (-1) (5, 1) :: R')
                     ++ [lift (-1) (2 * Z.of_nat m + 1, 1)])
               <-> exists e, q = lift (-1) e /\ is_end (Z.of_nat m + 1) e).
    { intros q. cbn [In]. rewrite in_app_iff, BP. cbn [In]. split.
      - intros [<- | [<- | [<- | [[e [-> He]] | [<- | []]]]]];
          eexists; (split; [reflexivity |]); apply is_end_S_odd; auto; tauto.
      - intros [e [-> He]]. apply is_end_S_odd in He; auto.
        destruct He as [-> | [-> | [-> | [He | ->]]]]; try tauto.
        do 3 right. left. now exists e. }
    split.
    + eapply Permutation_NoDup; [symmetry; exact PERM |].
      assert (Hmid : forall a b, In (lift (-1) (a, b))
                                   (before_pins pins (lift (-1) (5, 1) :: R')) ->
                                 before_end (Z.of_nat m) (a, b)).
      { intros a b Hp. apply BP in Hp. destruct Hp as [[x y] [E' He]].
        apply lift_eq in E'. destruct E'. now subst x y. }
      assert (Hne : forall a b, ~ before_end (Z.of_nat m) (a, b) ->
                      (a, b) <> (2 * Z.of_nat m + 1, 1) ->
                      ~ In (lift (-1) (a, b))
                          (before_pins pins (lift (-1) (5, 1) :: R')
                           ++ [lift (-1) (2 * Z.of_nat m + 1, 1)])).
      { intros a b N1 N2 Hp. apply in_app_or in Hp. destruct Hp as [Hp | [Hp | []]].
        - now apply N1, Hmid.
        - apply lift_eq in Hp. destruct Hp. subst. now apply N2. }
      constructor; [| constructor; [| constructor]].
      * intros [H | [H | H]]; [apply lift_eq in H; lia | apply lift_eq in H; lia |].
        revert H. apply Hne.
        -- unfold before_end; cbn [fst snd]; intros [He | [He | [He | He]]];
             try (apply pair_equal_spec in He); lia.
        -- intros H. apply pair_equal_spec in H. lia.
      * intros [H | H]; [apply lift_eq in H; lia |].
        revert H. apply Hne.
        -- unfold before_end; cbn [fst snd]; intros [He | [He | [He | He]]];
             try (apply pair_equal_spec in He); lia.
        -- intros H. apply pair_equal_spec in H. lia.
      * apply Hne.
        -- unfold before_end; cbn [fst snd]; intros [He | [He | [He | He]]];
             try (apply pair_equal_spec in He); lia.
        -- intros H. apply pair_equal_spec in H. lia.
      * apply NoDup_app; [now apply before_pins_NoDup | repeat constructor; intros [] |].
        intros p Hp [<- | []]. apply Hmid in Hp.
        unfold before_end in Hp; cbn [fst snd] in Hp;
          destruct Hp as [He | [He | [He | He]]];
          try (apply pair_equal_spec in He); lia.
    + intros q. rewrite <- Hin. split; apply Permutation_in;
        [exact PERM | symmetry; exact PERM].
Qed.

(** ** The loom after every layer *)

Lemma covered_iff n k p :
  covered n k p = true <->
  px p mod 2 = 1 /\ py p mod 2 = 1 /\ pz p mod 2 = 1 /\
  Z.abs (px p) + Z.abs (py p) + Z.abs (pz p) <= 2 * n + 1 /\
  pz p <= 2 * k - 1 - 2 * n.
Proof.
  unfold covered. rewrite !andb_true_iff, !Z.eqb_eq, !Z.leb_le. tauto.
Qed.

Lemma In_slices n k p :
  (k <= Z.to_nat n)%nat -> In p (slices n k) <-> covered n (Z.of_nat k) p = true.
Proof.
  induction k as [| k IH]; intros Hk.
  - unfold slices. cbn [firstn flat_map In]. rewrite covered_iff. split; [tauto |].
    intros (_ & Hy & Hz & Hd & Hl). modular.
  - rewrite slices_S, in_app_iff, IH by lia. rewrite !covered_iff.
    unfold get_radius_from_n.
    replace ((Z.of_nat k + 1) * 2 - 1) with (2 * Z.of_nat (S k) - 1) by lia.
    rewrite in_map_iff.
    pose proof (proj2 (spiral_diamond (S k) ltac:(lia))) as D.
    destruct p as [[x y] z]. unfold px, py, pz. cbn [fst snd]. split.
    + intros [(Hx & Hy & Hz & Hd & Hl) | [[a b] [E Hin]]].
      * repeat split; auto; lia.
      * apply D in Hin. unfold diamond in Hin. cbn [fst snd] in Hin.
        unfold lift in E. cbn [fst snd] in E.
        apply pair_equal_spec in E. destruct E as [E Ez].
        apply pair_equal_spec in E. destruct E as [Ex Ey]. subst a b.
        destruct Hin as (Hx & Hy & Hd).
        repeat split; auto; [modular | lia | lia].
    + intros (Hx & Hy & Hz & Hd & Hl).
      destruct (Z.eq_dec z (2 * Z.of_nat k + 1 - 2 * n)) as [Ez | Nz].
      * right. exists (x, y). split; [unfold lift; cbn [fst snd]; now rewrite Ez |].
        apply D. unfold diamond. cbn [fst snd]. repeat split; auto. lia.
      * left. repeat split; auto. modular.
Qed.

Lemma last_mapped {A B} (f : A -> B) (l : list A) d :
  last (map f l) (f d) = f (last l d).
Proof.
  induction l as [| a [| b l] IH]; [reflexivity | reflexivity |].
  exact IH.
Qed.

Lemma loom_ends_map (f : Point -> Point) (loom : Loom) :
  loom_ends (map (map f) loom) = map f (loom_ends loom).
Proof.
  unfold loom_ends. induction loom as [| t loom IH]; [reflexivity |].
  cbn [map flat_map]. rewrite IH, map_app. f_equal.
  destruct t as [| h t]; [reflexivity |]. cbn [map thread_ends]. f_equal. f_equal.
  change (f h :: map f t) with (map f (h :: t)). now rewrite last_mapped.
Qed.

Lemma add_pins_distinct l : forall pins,
  NoDup (pins ++ l) -> add_pins pins l = pins ++ l.
Proof.
  unfold add_pins. induction l as [| q l IH]; intros pins H; cbn [fold_left].
  - now rewrite app_nil_r.
  - assert (E : add_pin pins q = pins ++ [q]).
    { unfold add_pin. destruct (mem q pins) eqn:M; [| reflexivity].
      exfalso. apply mem_In in M. apply NoDup_remove_2 in H.
      apply H. apply in_or_app. now left. }
    rewrite E, IH; rewrite <- app_assoc; [reflexivity | exact H].
Qed.

Lemma pin_fold_ends z loom : forall done pins0 loom1 pins,
  foldM (pin_thread z) (done, pins0) loom = Ok (loom1, pins) ->
  pins = add_pins pins0 (map (fun e => at_level e z) (loom_ends loom)) /\
  length (loom_ends loom) = (2 * length loom)%nat.
Proof.
  induction loom as [| thread loom IH]; intros done pins0 loom1 pins H.
  - inversion H; subst. now split.
  - cbn [foldM] in H. unfold pin_thread at 1 in H.
    destruct thread as [| h t]; [discriminate |]. cbn [first bind] in H.
    rewrite final_cons, (final_last (h :: t) h) in H by discriminate.
    cbn [bind] in H. apply IH in H. destruct H as [-> Hl].
    unfold loom_ends in *. cbn [flat_map thread_ends app map length].
    split; [reflexivity | lia].
Qed.

(** The pins of a loom whose thread ends stand over distinct points of the
    plane. *)
Lemma pins_of_distinct_ends loom z loom1 pins :
  pin_thread_ends loom z = Ok (loom1, pins) ->
  NoDup (map (fun e => at_level e z) (loom_ends loom)) ->
  pins = map (fun e => at_level e z) (loom_ends loom) /\
  length pins = (2 * length loom)%nat.
Proof.
  intros H Hnd. apply pin_fold_ends in H. destruct H as [-> Hl].
  rewrite add_pins_distinct by exact Hnd. cbn [app].
  split; [reflexivity |]. now rewrite length_map.
Qed.

Lemma is_end_diamond M e : 3 <= M -> is_end M e -> diamond (M + 1) e.
Proof.
  intros HM. destruct e as [x y]. unfold is_end, diamond. cbn [fst snd].
  intros [E | [E | [E | [(Ey & Hx & Hmod) | (Ex & Hy & Hmod)]]]].
  - apply pair_equal_spec in E. destruct E. subst.
    destruct (M mod 2 =? 0); repeat split; try reflexivity; lia.
  - apply pair_equal_spec in E. destruct E. subst. repeat split; modular.
  - apply pair_equal_spec in E. destruct E. subst. repeat split; modular.
  - subst. repeat split; modular.
  - subst. repeat split; modular.
Qed.

Lemma weave_loom_S m loom :
  0 <= m -> weave_loom m = Ok loom ->
  weave_loom (m + 1)
  = weave_tour (map (map (lower 2)) loom) (-1)
      (map (lift (-1)) (spun_of (get_radius_from_n (m + 1)))).
Proof.
  intros Hm E. rewrite <- weave_layers_all.
  replace (Z.to_nat (m + 1)) with (S (Z.to_nat m)) by lia.
  rewrite weave_layers_S by lia.
  rewrite (weave_layers_lower (m + 1) m) by lia. rewrite weave_layers_all, E.
  cbn [rmap bind]. rewrite Z2Nat.id by lia.
  replace (2 * (m + 1 - m)) with 2 by lia.
  replace (2 * m + 1 - 2 * (m + 1)) with (-1) by lia. reflexivity.
Qed.

Lemma loom_invariant_3 : exists loom, weave_loom 3 = Ok loom /\ loom_invariant 3 loom.
Proof.
  eexists. split; [vm_compute; reflexivity |].
  split; [apply nodupb_NoDup; vm_compute; reflexivity |].
  split; [apply same_points_Permutation; vm_compute; reflexivity |].
  match goal with
  | |- context [loom_ends ?L] =>
      let x := eval vm_compute in (loom_ends L) in change (loom_ends L) with x
  end.
  split; [apply nodupb_NoDup; vm_compute; reflexivity |].
  intros p. cbn [In]. split.
  - intros [<- | [<- | [<- | [<- | []]]]];
      (eexists (_, _); split; [reflexivity |]); unfold is_end; cbn [fst snd];
      change (Z.of_nat 3) with 3; change (3 mod 2 =? 0) with false; cbn beta iota;
      first [ left; reflexivity
            | right; left; reflexivity
            | right; right; left; reflexivity
            | do 3 right; left; split; [reflexivity | split; [lia | reflexivity]] ].
  - intros [[x y] [-> He]]. unfold is_end in He. cbn [fst snd] in He.
    change (Z.of_nat 3) with 3 in He. change (3 mod 2 =? 0) with false in He.
    cbn beta iota in He.
    destruct He as [E | [E | [E | [(Ey & Hx & Hmod) | (Ex & Hy & Hmod)]]]].
    + inversion E. tauto.
    + inversion E. tauto.
    + inversion E. tauto.
    + subst y. assert (x = 5) by modular. subst x. tauto.
    + lia.
Qed.

Lemma loom_invariant_S m loom :
  (3 <= m)%nat -> weave_loom (Z.of_nat m) = Ok loom -> loom_invariant m loom ->
  exists loom', weave_loom (Z.of_nat (S m)) = Ok loom' /\ loom_invariant (S m) loom'.
Proof.
  intros Hm E (Hnd & Hperm & Hends & Hin).
  destruct (weave_loom_woven (Z.of_nat (S m))) as (loom' & E' & _).
  exists loom'. split; [exact E' |].
  pose proof (weave_loom_S (Z.of_nat m) loom ltac:(lia) E) as ES.
  replace (Z.of_nat m + 1) with (Z.of_nat (S m)) in ES by lia.
  rewrite E' in ES. symmetry in ES. unfold weave_tour, get_radius_from_n in ES.
  replace (Z.of_nat (S m) * 2 - 1) with (2 * Z.of_nat (S m) - 1) in ES by lia.
  fold (spiral (S m)) in ES.
  destruct (pin_thread_ends (map (map (lower 2)) loom) (-1)) as [[loom1 pins] |] eqn:Epin;
    cbn [bind] in ES; [| discriminate].
  destruct (chop (map (lift (-1)) (spiral (S m))) pins) as [[tour' subtours] |] eqn:Echop;
    cbn [bind] in ES; [| discriminate].
  assert (Emap : map (fun e => at_level e (-1)) (loom_ends (map (map (lower 2)) loom))
                 = loom_ends loom).
  { rewrite loom_ends_map, map_map. rewrite <- (map_id (loom_ends loom)) at 2.
    apply map_ext_in. intros p Hp. apply Hin in Hp. destruct Hp as [[x y] [-> _]].
    reflexivity. }
  destruct (pins_of_distinct_ends _ _ _ _ Epin) as [Epins Hlen];
    [rewrite Emap; exact Hends |].
  rewrite Emap in Epins.
  assert (Hpins : forall p, mem p pins = true <->
                            exists e, p = lift (-1) e /\ is_end (Z.of_nat m) e).
  { intros p. rewrite mem_In, Epins. apply Hin. }
  assert (HT : NoDup (map (lift (-1)) (spiral (S m))))
    by (apply spiral_NoDup_lifted; lia).
  assert (Hincl : incl pins (map (lift (-1)) (spiral (S m)))).
  { intros p Hp. apply mem_In, Hpins in Hp. destruct Hp as [e [-> He]].
    apply in_map. apply (proj2 (spiral_diamond (S m) ltac:(lia))).
    replace (Z.of_nat (S m)) with (Z.of_nat m + 1) by lia.
    apply is_end_diamond; [lia | exact He]. }
  pose proof (layer_step_points _ _ _ _ _ _ _ _ Epin Echop ES HT Hlen Hincl) as Hpts.
  pose proof (layer_step_ends _ _ _ _ _ _ _ _ Epin Echop ES HT Hlen Hincl) as Hnew.
  destruct (spiral_chop_ends m pins tour' subtours Hm Hpins Echop) as [Hnd' Hin'].
  rewrite <- concat_map in Hpts.
  assert (Esl : slices (Z.of_nat (S m)) (S m)
                = map (lower 2) (slices (Z.of_nat m) m) ++ map (lift (-1)) (spiral (S m))).
  { rewrite slices_S by lia. rewrite (slices_lower (Z.of_nat (S m)) (Z.of_nat m)) by lia.
    replace (2 * Z.of_nat m + 1 - 2 * Z.of_nat (S m)) with (-1) by lia.
    replace (2 * (Z.of_nat (S m) - Z.of_nat m)) with 2 by lia.
    unfold get_radius_from_n, spiral.
    replace ((Z.of_nat m + 1) * 2 - 1) with (2 * Z.of_nat (S m) - 1) by lia.
    reflexivity. }
  split; [| split; [| split]].
  - eapply Permutation_NoDup; [symmetry; exact Hpts |].
    apply NoDup_app; [now apply NoDup_map_lower | exact HT |].
    intros p Hp Hq. apply in_map_iff in Hp. destruct Hp as [q [<- Hq']].
    apply (Permutation_in _ Hperm), In_slices in Hq'; [| lia].
    apply covered_iff in Hq'. destruct Hq' as (_ & _ & _ & _ & Hz).
    apply in_map_iff in Hq. destruct Hq as [[x y] [Eq _]].
    assert (Ez : pz (lift (-1) (x, y)) = pz (lower 2 q)) by now rewrite Eq.
    unfold lift, lower, pz in Ez. cbn [fst snd] in Ez. unfold pz in Hz. lia.
  - rewrite Esl. rewrite Hpts. apply Permutation_app_tail. now apply Permutation_map.
  - eapply Permutation_NoDup; [symmetry; exact Hnew | exact Hnd'].
  - intros p. replace (Z.of_nat (S m)) with (Z.of_nat m + 1) by lia.
    rewrite <- Hin'. split; apply Permutation_in; [exact Hnew | symmetry; exact Hnew].
Qed.

Lemma weave_loom_invariant m :
  (3 <= m)%nat -> exists loom, weave_loom (Z.of_nat m) = Ok loom /\ loom_invariant m loom.
Proof.
  induction m as [| m IH]; [lia |]. intros Hm.
  destruct (Nat.eq_dec m 2) as [-> | Hne]; [exact loom_invariant_3 |].
  destruct (IH ltac:(lia)) as (loom & E & Hinv).
  apply (loom_invariant_S m loom); [lia | exact E | exact Hinv].
Qed.

Lemma weave_loom_partition (k : nat) :
  exists loom,
    weave_loom (Z.of_nat k) = Ok loom /\
    NoDup (concat loom) /\ Permutation (concat loom) (slices (Z.of_nat k) k).
Proof.
  destruct (le_lt_dec 3 k) as [Hk | Hk].
  - destruct (weave_loom_invariant k Hk) as (loom & E & Hnd & Hperm & _).
    now exists loom.
  - assert (Hall : forallb (fun m => layers_ok (Z.of_nat m) m) (seq 0 3) = true)
      by (vm_compute; reflexivity).
    rewrite forallb_forall in Hall.
    specialize (Hall k ltac:(apply in_seq; lia)).
    apply layers_ok_sound in Hall. destruct Hall as (loom & E & H).
    exists loom. split; [| exact H].
    rewrite <- weave_layers_all. now rewrite Nat2Z.id.
Qed.

Lemma every_layer_partition n k :
  0 <= n -> (k <= Z.to_nat n)%nat ->
  exists loom,
    weave_layers n k = Ok loom /\
    NoDup (concat loom) /\ Permutation (concat loom) (slices n k).
Proof.
  intros Hn Hk. destruct (weave_loom_partition k) as (loom & E & Hnd & Hperm).
  exists (map (map (lower (2 * (n - Z.of_nat k)))) loom).
  split; [| split].
  - rewrite (weave_layers_lower n (Z.of_nat k)) by lia.
    replace (weave_layers (Z.of_nat k) k) with (weave_loom (Z.of_nat k))
      by (rewrite <- weave_layers_all; now rewrite Nat2Z.id).
    now rewrite E.
  - rewrite <- concat_map. now apply NoDup_map_lower.
  - rewrite (slices_lower n (Z.of_nat k)) by lia. rewrite <- concat_map.
    now apply Permutation_map.
Qed.



(** X27 ([weave]): for every number of layers and whichever edges
    [set.pop] picks, what the body of [weave] returns is a Hamiltonian
    cycle of the ball of [n] layers: as many points as the order, all
    distinct, every step and the closing step between adjacent points; and
    [weave] itself, the decorated function, returns it. *)
Theorem weave_hamiltonian_if_returns choose n solution :
  weave_body choose n = Ok solution ->
  hamiltonian n solution /\ weave choose n = Ok solution.
Proof.
  intros Ew.
  destruct (Z_le_gt_dec n 0) as [H0 | H0].
  { rewrite (weave_body_nonpositive choose n H0) in Ew. discriminate. }
  destruct (every_layer_partition n (Z.to_nat n) ltac:(lia) (le_n _))
    as (loom & E & Hnd & Hperm).
  rewrite weave_layers_all in E.
  pose proof (hamiltonian_of_partition choose n loom solution E Hnd Hperm Ew) as H.
  split; [exact H |]. apply weave_of_body; [exact Ew |].
  apply (hamiltonian_nonempty n); [lia | exact H].
Qed.

Lemma weave_hamiltonian_if_returns_witness :
  exists solution,
    hamiltonian 9 solution /\ weave (fun s => pred (length s)) 9 = Ok solution.
Proof.
  destruct (weave_body (fun s => pred (length s)) 9) as [solution |] eqn:Ew.
  - exists solution.
    apply (weave_hamiltonian_if_returns (fun s => pred (length s)) 9 solution).
    exact Ew.
  - exfalso. vm_compute in Ew. discriminate.
Defined.
